(** * Sudoku-AI: the cultural-algorithm solver, embedded and verified

    A shallow embedding of [Models/sudoku_logic.py] and
    [Models/cultural_solver.py].  Python exceptions are values of an error
    monad, the [random] module is a tape of draws threaded through a state
    monad together with the events the generator has yielded so far. *)

From Stdlib Require Import ZArith QArith Qround Lia List Permutation.
From Stdlib Require Import Floats.SpecFloat.
From stdpp Require Import base option list sorting gmap.

Set Warnings "-clear-no-such-hyp".

Local Open Scope Z_scope.
Local Open Scope nat_scope.

(** ** Exceptions and the error monad *)

Inductive exn : Type :=
  | IndexError
  | ValueError
  | OverflowError
  | ZeroDivisionError.

Inductive result (A : Type) : Type :=
  | Ok (a : A)
  | Raise (e : exn).
Arguments Ok {A} a.
Arguments Raise {A} e.

#[global] Instance result_ret : MRet result := fun A a => Ok a.
#[global] Instance result_bind : MBind result := fun A B f m =>
  match m with
  | Ok a => f a
  | Raise e => Raise e
  end.

Definition is_ok {A} (m : result A) : bool :=
  match m with Ok _ => true | Raise _ => false end.

(** [l[i]] for a non-negative index. *)
Definition item {A} (l : list A) (i : nat) : result A :=
  match l !! i with
  | Some x => Ok x
  | None => Raise IndexError
  end.

(** [l[i] = x] for a non-negative index. *)
Definition set_item {A} (l : list A) (i : nat) (x : A) : result (list A) :=
  if decide (i < length l) then Ok (<[i:=x]> l) else Raise IndexError.

(** [for x in xs: acc = body(acc, x)] *)
Fixpoint foldM {A B} (body : B -> A -> result B) (acc : B) (xs : list A)
  : result B :=
  match xs with
  | [] => Ok acc
  | x :: xs' => acc' ← body acc x; foldM body acc' xs'
  end.

(** [[f(x) for x in xs]] *)
Fixpoint mapM {A B} (f : A -> result B) (xs : list A) : result (list B) :=
  match xs with
  | [] => Ok []
  | x :: xs' => y ← f x; ys ← mapM f xs'; Ok (y :: ys)
  end.

(** [any(f(x) for x in xs)]: the generator is consumed lazily, so the scan
    stops at the first hit and never evaluates what follows it. *)
Fixpoint anyM {A} (f : A -> result bool) (xs : list A) : result bool :=
  match xs with
  | [] => Ok false
  | x :: xs' => b ← f x; if b : bool then Ok true else anyM f xs'
  end.

(** [range(a, b)] *)
Definition range (a b : nat) : list nat := seq a (b - a).

(** [range(0, stop, step)] *)
Fixpoint range_step_aux (fuel start stop step : nat) : list nat :=
  match fuel with
  | O => []
  | S fuel' =>
      if decide (start < stop)
      then start :: range_step_aux fuel' (start + step) stop step
      else []
  end.

Definition range_step (stop step : nat) : result (list nat) :=
  if decide (step = 0) then Raise ValueError
  else Ok (range_step_aux stop 0 stop step).

(** ** Boards *)

Abbreviation board := (list (list Z)).

(** [board[r][c]] *)
Definition cell {A} (b : list (list A)) (r c : nat) : result A :=
  row ← item b r; item row c.

(** [board[r][c] = v] *)
Definition set_cell {A} (b : list (list A)) (r c : nat) (v : A)
  : result (list (list A)) :=
  row ← item b r; row' ← set_item row c v; set_item b r row'.

Module SudokuLogic.

(** [int(N**0.5)] is computed in binary64.  It is the integer square root
    of [N] as long as [N] is below [2^52], which every length of a list in
    memory is; from there on the rounded root can reach the next integer,
    and the two part.  Statements about sizes that are not the length of a
    board carry the bound. *)
Definition get_block_dims (N : nat) : nat * nat :=
  if decide (N = 6) then (2, 3) else (Nat.sqrt N, Nat.sqrt N).

Definition make_empty_board (N : nat) : board :=
  replicate N (replicate N 0%Z).

(** [[row[:] for row in board]]: a board is a value here, so the deep copy
    is the board itself. *)
Definition clone_board (b : board) : board := map (fun row => row) b.

(** [a // b] on non-negative integers. *)
Definition floordiv (a b : nat) : result nat :=
  if decide (b = 0) then Raise ZeroDivisionError else Ok (a / b).

Definition valid_in_cell (b : board) (r c : nat) (val : Z) : result bool :=
  let N := length b in
  let '(br_h, bc_w) := get_block_dims N in
  if decide (val = 0%Z) then Ok true else
  in_row ← anyM (fun j => v ← cell b r j; Ok (bool_decide (v = val)))
                (range 0 N);
  if in_row : bool then Ok false else
  in_col ← anyM (fun i => v ← cell b i c; Ok (bool_decide (v = val)))
                (range 0 N);
  if in_col : bool then Ok false else
  qr ← floordiv r br_h;
  qc ← floordiv c bc_w;
  let start_r := qr * br_h in
  let start_c := qc * bc_w in
  in_block ←
    anyM (fun i =>
            anyM (fun j => v ← cell b i j; Ok (bool_decide (v = val)))
                 (range start_c (start_c + bc_w)))
         (range start_r (start_r + br_h));
  if in_block : bool then Ok false else Ok true.

End SudokuLogic.

(** ** Floating point

    [elite_frac] is a Python float, an IEEE 754 binary64 number.  The
    product [pop_size * elite_frac] is rounded to the nearest binary64 value
    before [int] truncates it, so the arithmetic is the standard library's
    specification of binary64 and not the arithmetic of the rationals. *)

Definition prec : Z := 53.
Definition emax : Z := 1024.

(** [float(n)], raised by the mixed product [n * x] *)
Definition float_of_int (n : Z) : result spec_float :=
  match binary_normalize prec emax n 0 false with
  | S754_infinity _ => Raise OverflowError
  | f => Ok f
  end.

(** [int(x)]: truncation toward zero *)
Definition int_of_float (x : spec_float) : result Z :=
  match x with
  | S754_zero _ => Ok 0%Z
  | S754_infinity _ => Raise OverflowError
  | S754_nan => Raise ValueError
  | S754_finite s m e =>
      let a := if decide (0 <= e)%Z then (Zpos m * 2 ^ e)%Z
               else (Zpos m / 2 ^ (- e))%Z in
      Ok (if s then (- a)%Z else a)
  end.

(** The exact value of a finite float, as a rational. *)
Definition Q_of_float (x : spec_float) : option Q :=
  match x with
  | S754_zero _ => Some 0%Q
  | S754_finite s m e =>
      let a := if decide (0 <= e)%Z then inject_Z (Zpos m * 2 ^ e)
               else Qmake (Zpos m) (Z.to_pos (2 ^ (- e))) in
      Some (if s then Qopp a else a)
  | _ => None
  end.

(** ** Events, and the generator's world *)

Definition coord : Type := nat * nat.

Inductive event : Type :=
  | Init (b : board) (fit : nat) (it : Z) (cells : list coord)
  | Iter (b : board) (fit : nat) (it : Z) (cells : list coord)
  | SwapTry (r c1 : nat) (v1 : Z) (c2 : nat) (v2 : Z)
  | SwapReset (r c1 c2 : nat)
  | Done (b : board) (fit : nat) (it : Z) (cells : list coord)
  | Fail (b : board) (fit : nat) (it : Z) (cells : list coord).

(** The state a run of the generator threads: the draws of the [random]
    module (a tape and the position of the next draw), the events yielded so
    far, and [candidates], a ghost record of every individual at the moment
    its construction is finished.  Nothing reads [candidates]. *)
Record world : Type := World {
  tape : nat -> N;
  pos : nat;
  yielded : list event;
  candidates : list board
}.

Definition M (A : Type) : Type := world -> result A * world.

#[global] Instance M_ret : MRet M := fun A a w => (Ok a, w).
#[global] Instance M_bind : MBind M := fun A B f m w =>
  match m w with
  | (Ok a, w') => f a w'
  | (Raise e, w') => (Raise e, w')
  end.

Definition lift {A} (m : result A) : M A := fun w => (m, w).

Definition yield (e : event) : M unit := fun w =>
  (Ok tt, World (tape w) (pos w) (yielded w ++ [e]) (candidates w)).

Definition record_candidate (b : board) : M unit := fun w =>
  (Ok tt, World (tape w) (pos w) (yielded w) (candidates w ++ [b])).

(** [for x in xs: acc = body(acc, x)] with effects *)
Fixpoint forM {A B} (body : B -> A -> M B) (acc : B) (xs : list A) : M B :=
  match xs with
  | [] => mret acc
  | x :: xs' => acc' ← body acc x; forM body acc' xs'
  end.

(** [[m() for _ in range(n)]] *)
Fixpoint replicateM {A} (n : nat) (m : M A) : M (list A) :=
  match n with
  | O => mret []
  | S n' => x ← m; xs ← replicateM n' m; mret (x :: xs)
  end.

(** [[x for x in xs if f(x)]] *)
Fixpoint filterM {A} (f : A -> result bool) (xs : list A) : result (list A) :=
  match xs with
  | [] => Ok []
  | x :: xs' =>
      keep ← f x; ys ← filterM f xs';
      Ok (if keep : bool then x :: ys else ys)
  end.

(** ** The [random] module

    Every function consumes draws from the tape.  Which value a draw yields is
    left to the tape, so a statement proved for every tape holds for every
    behaviour of the generator; distributions are not modelled. *)

Module random.

Definition draw : M N := fun w =>
  (Ok (tape w (pos w)), World (tape w) (S (pos w)) (yielded w) (candidates w)).

(** The draw [k] reduced to [[0, n)]. *)
Definition below (k : N) (n : nat) : nat := N.to_nat (k mod N.of_nat n).

(** An integer in [[0, n)]. *)
Definition randbelow (n : nat) : M nat :=
  if decide (n = 0) then lift (Raise ValueError)
  else k ← draw; mret (below k n).

(** [random.randint(0, hi)] *)
Definition randint0 (hi : Z) : M nat :=
  if decide (hi < 0)%Z then lift (Raise ValueError)
  else randbelow (Z.to_nat (hi + 1)).

(** [random.random() < num/den] *)
Definition random_lt (num den : nat) : M bool :=
  k ← draw; mret (bool_decide (below k den < num)).

(** [random.choice(xs)] *)
Definition choice {A} (xs : list A) : M A :=
  if decide (length xs = 0) then lift (Raise IndexError)
  else i ← randbelow (length xs); lift (item xs i).

(** [x[i], x[j] = x[j], x[i]] *)
Definition swap_items {A} (l : list A) (i j : nat) : result (list A) :=
  xj ← item l j; xi ← item l i;
  l1 ← set_item l i xj; set_item l1 j xi.

(** [random.shuffle(x)]: for [i] from [len(x) - 1] down to [1], exchange
    [x[i]] with [x[randbelow(i + 1)]]. *)
Fixpoint shuffle_from {A} (i : nat) (x : list A) : M (list A) :=
  match i with
  | O => mret x
  | S i' =>
      j ← randbelow (S i);
      x' ← lift (swap_items x i j);
      shuffle_from i' x'
  end.

Definition shuffle {A} (x : list A) : M (list A) :=
  shuffle_from (length x - 1) x.

(** [random.sample(xs, 2)], in the pool variant the library takes for a
    list of at most 21 entries: the first pick is replaced in the pool by
    the last entry before the second is drawn. *)
Definition sample2 {A} (xs : list A) : M (A * A) :=
  let n := length xs in
  if decide (n < 2) then lift (Raise ValueError) else
  j1 ← randbelow n;
  x1 ← lift (item xs j1);
  last ← lift (item xs (n - 1));
  pool ← lift (set_item xs j1 last);
  j2 ← randbelow (n - 1);
  x2 ← lift (item pool j2);
  mret (x1, x2).

(** [random.uniform(0, total)], that is [0 + (total - 0) * random()].  The
    product is rounded, so that the end point [total] can come out; the draw
    ranges over the multiples of [total / 2^53] up to [total] itself. *)
Definition uniform0 (total : nat) : M Q :=
  k ← draw;
  mret (Qmake (Z.of_nat total * (Z.of_N k mod (2 ^ 53 + 1))) (2 ^ 53)).

End random.

(** ** Individuals

    The source caches fitness in a dictionary keyed by [id(board)].  Every
    board of a population receives its entry when it is created and the boards
    alive at one time have distinct identities, so the cache is the pairing of
    each board with its entry. *)

Record individual : Type := Individual {
  ind_board : board;
  ind_fit : nat
}.

(** [min(xs, key=...)]: the first of the minimal elements. *)
Definition min_by {A} (key : A -> nat) (xs : list A) : result A :=
  match xs with
  | [] => Raise ValueError
  | x :: xs' =>
      Ok (fold_left (fun m y => if decide (key y < key m) then y else m) xs' x)
  end.

(** [xs.sort(key=...)]: a stable sort. *)
Fixpoint insert_by {A} (key : A -> nat) (x : A) (l : list A) : list A :=
  match l with
  | [] => [x]
  | y :: l' =>
      if decide (key x <= key y) then x :: y :: l'
      else y :: insert_by key x l'
  end.

Definition sort_by {A} (key : A -> nat) (l : list A) : list A :=
  foldr (insert_by key) [] l.

(** ** The belief space *)

(** [float('inf')] or an integer fitness *)
Inductive fitv : Type :=
  | Inf
  | Fin (n : nat).

(** [n < v] *)
Definition lt_fitv (n : nat) (v : fitv) : bool :=
  match v with
  | Inf => true
  | Fin m => bool_decide (n < m)
  end.

(** [v1 <= v2] *)
Definition fitv_le (v1 v2 : fitv) : Prop :=
  match v1, v2 with
  | _, Inf => True
  | Inf, Fin _ => False
  | Fin a, Fin b => a <= b
  end.

(** [v1 < v2] as the strict part of [fitv_le]: the naturals in their usual
    order, with [Inf] above every one of them. *)
Definition fitv_lt (v1 v2 : fitv) : Prop :=
  fitv_le v1 v2 /\ ~ fitv_le v2 v1.

Module BeliefSpace.

Record t : Type := Make {
  N : nat;
  global_best : option board;
  global_best_fit : fitv;
  conflict_matrix : list (list nat);
  row_conflict_scores : list nat
}.

Definition init (N : nat) : t :=
  Make N None Inf (replicate N (replicate N 0)) (replicate N 0).

(** The body of [for r, c in bad_cells]. *)
Definition bump (acc : list (list nat) * list nat) (rc : coord)
  : result (list (list nat) * list nat) :=
  let '(cm, rs) := acc in
  let '(r, c) := rc in
  v ← cell cm r c;
  cm' ← set_cell cm r c (v + 1);
  s ← item rs r;
  rs' ← set_item rs r (s + 1);
  Ok (cm', rs').

Definition update (self : t) (elites : list individual)
    (get_conflicted_cells_func : board -> result (list coord)) : result t :=
  best_elite ← min_by ind_fit elites;
  let best_fit := ind_fit best_elite in
  let '(gb, gbf) :=
    if lt_fitv best_fit (global_best_fit self)
    then (Some (SudokuLogic.clone_board (ind_board best_elite)), Fin best_fit)
    else (global_best self, global_best_fit self) in
  let cm0 := replicate (N self) (replicate (N self) 0) in
  let rs0 := replicate (N self) 0 in
  acc ← foldM (fun acc ind =>
                 bad_cells ← get_conflicted_cells_func (ind_board ind);
                 foldM bump acc bad_cells)
              (cm0, rs0) elites;
  Ok (Make (N self) gb gbf (fst acc) (snd acc)).

(** The roulette loop: [Some r] when the loop returns [r], [None] when it
    runs to its end. *)
Fixpoint roulette (scores : list nat) (pick : Q) (current : nat)
    (rows : list nat) : result (option nat) :=
  match rows with
  | [] => Ok None
  | r :: rows' =>
      s ← item scores r;
      let current := current + s in
      if Qlt_le_dec pick (inject_Z (Z.of_nat current)) then Ok (Some r)
      else roulette scores pick current rows'
  end.

(** [select_target_row] from the point where [pick] has been drawn. *)
Definition select_with_pick (self : t) (pick : Q) : M nat :=
  found ← lift (roulette (row_conflict_scores self) pick 0 (range 0 (N self)));
  match found with
  | Some r => mret r
  | None => random.randint0 (Z.of_nat (N self) - 1)
  end.

Definition select_target_row (self : t) : M nat :=
  let total_conflicts := sum_list (row_conflict_scores self) in
  if decide (total_conflicts = 0)
  then random.randint0 (Z.of_nat (N self) - 1)
  else pick ← random.uniform0 total_conflicts; select_with_pick self pick.

End BeliefSpace.

(** ** The solver *)

Module CulturalSolverImpl.

(** The fields [__init__] sets; [belief_space] is the belief space as
    [__init__] leaves it, the run threads its later states. *)
Record t : Type := Make {
  puzzle : board;
  N : nat;
  br_h : nat;
  bc_w : nat;
  pop_size : nat;
  elite_frac : spec_float;
  max_iters : Z;
  fixed : list (list bool);
  missing_map : list (list Z);
  belief_space : BeliefSpace.t
}.

(** [list(set(range(1, N + 1)) - (set(row) - {0}))] *)
Definition missing_of (N : nat) (row : list Z) : list Z :=
  let present : gset Z := list_to_set row ∖ {[0%Z]} in
  elements ((list_to_set (Z.of_nat <$> range 1 (N + 1)) : gset Z) ∖ present).

(** [__init__].  A negative [pop_size] gives the empty population of
    [pop_size = 0], which raises before [pop_size] is used again. *)
Definition new (puzzle : board) (pop_size : nat) (elite_frac : spec_float)
    (max_iters : Z) : result t :=
  let N := length puzzle in
  let '(br_h, bc_w) := SudokuLogic.get_block_dims N in
  fixed ← mapM (fun i =>
                  mapM (fun j => v ← cell puzzle i j;
                                 Ok (bool_decide (v <> 0%Z)))
                       (range 0 N))
               (range 0 N);
  missing_map ← mapM (fun r => row ← item puzzle r; Ok (missing_of N row))
                     (range 0 N);
  Ok (Make puzzle N br_h bc_w pop_size elite_frac max_iters fixed missing_map
           (BeliefSpace.init N)).

(** [val = board[r][c]; if val in seen: conflicts += 1; seen.add(val)] *)
Definition see (b : board) (acc : gset Z * nat) (rc : coord)
  : result (gset Z * nat) :=
  let '(seen, conflicts) := acc in
  let '(r, c) := rc in
  val ← cell b r c;
  Ok ({[val]} ∪ seen, if decide (val ∈ seen) then S conflicts else conflicts).

Definition fitness (self : t) (b : board) : result nat :=
  (* Cols *)
  conflicts ←
    foldM (fun conflicts c =>
             acc ← foldM (fun acc r => see b acc (r, c))
                         (∅, conflicts) (range 0 (N self));
             Ok (snd acc))
          0 (range 0 (N self));
  (* Blocks *)
  brs ← range_step (N self) (br_h self);
  foldM (fun conflicts br =>
           bcs ← range_step (N self) (bc_w self);
           foldM (fun conflicts bc =>
                    acc ← foldM (fun acc i =>
                                   foldM (fun acc j => see b acc (i, j)) acc
                                         (range bc (bc + bc_w self)))
                                (∅, conflicts) (range br (br + br_h self));
                    Ok (snd acc))
                 conflicts bcs)
        conflicts brs.

(** [val = board[r][c]; seen.setdefault(val, []).append(loc)], where [loc]
    is the row index in a column scan and the coordinate in a block scan. *)
Definition group {L} (b : board) (at_ : L -> coord) (seen : gmap Z (list L))
    (loc : L) : result (gmap Z (list L)) :=
  let '(r, c) := at_ loc in
  val ← cell b r c;
  Ok (<[val := default [] (seen !! val) ++ [loc]]> seen).

(** [for val, locs in seen.items(): if len(locs) > 1: for loc in locs:
    if not self.fixed[r][c]: conflicts.add((r, c))] *)
Definition report {L} (self : t) (at_ : L -> coord) (seen : gmap Z (list L))
    (conflicts : gset coord) : result (gset coord) :=
  foldM (fun conflicts (item : Z * list L) =>
           if decide (1 < length item.2)
           then foldM (fun conflicts loc =>
                         let '(r, c) := at_ loc in
                         f ← cell (fixed self) r c;
                         Ok (if f : bool then conflicts
                             else {[(r, c)]} ∪ conflicts))
                      conflicts item.2
           else Ok conflicts)
        conflicts (map_to_list seen).

(** The cells of the block at [(br, bc)], row by row. *)
Definition block_cells (self : t) (br bc : nat) : list coord :=
  i ← range br (br + br_h self); j ← range bc (bc + bc_w self); [(i, j)].

(** The result is [list(conflicts)]: the order of a Python set is not
    specified, [elements] fixes one. *)
Definition get_conflicted_cells (self : t) (b : board) : result (list coord) :=
  (* Cols *)
  conflicts ←
    foldM (fun conflicts c =>
             seen ← foldM (group b (fun r => (r, c))) ∅ (range 0 (N self));
             report self (fun r => (r, c)) seen conflicts)
          ∅ (range 0 (N self));
  (* Blocks *)
  brs ← range_step (N self) (br_h self);
  conflicts ←
    foldM (fun conflicts br =>
             bcs ← range_step (N self) (bc_w self);
             foldM (fun conflicts bc =>
                      seen ← foldM (group b (fun rc => rc)) ∅
                                   (block_cells self br bc);
                      report self (fun rc => rc) seen conflicts)
                   conflicts bcs)
          conflicts brs;
  Ok (elements conflicts).

(** The inner loop of [random_ind] for row [r]. *)
Definition fill_row (self : t) (r : nat) (missing : list Z) (b : board)
  : result board :=
  acc ← foldM (fun (acc : board * nat) c =>
                 let '(b, idx) := acc in
                 f ← cell (fixed self) r c;
                 if f : bool then Ok (b, idx)
                 else v ← item missing idx;
                      b' ← set_cell b r c v;
                      Ok (b', S idx))
              (b, 0) (range 0 (N self));
  Ok (fst acc).

Definition random_ind (self : t) : M board :=
  b ← forM (fun b r =>
              missing0 ← lift (item (missing_map self) r);
              missing ← random.shuffle missing0;
              lift (fill_row self r missing b))
           (SudokuLogic.clone_board (puzzle self)) (range 0 (N self));
  record_candidate b;;
  mret b.

(** [b[r][c1], b[r][c2] = b[r][c2], b[r][c1]] *)
Definition swap_cells (b : board) (r c1 c2 : nat) : result board :=
  v2 ← cell b r c2;
  v1 ← cell b r c1;
  b1 ← set_cell b r c1 v2;
  set_cell b1 r c2 v1.

(** [max(2, int(self.pop_size * self.elite_frac))] *)
Definition num_elite (self : t) : result Z :=
  n ← float_of_int (Z.of_nat (pop_size self));
  k ← int_of_float (SFmul prec emax n (elite_frac self));
  Ok (Z.max 2 k).

(** [pop.sort(key=...)], [num_elite] and [elites = pop[:num_elite]]: the
    sorted population, the count and the elites. *)
Definition select_elites (self : t) (pop : list individual)
  : result (list individual * Z * list individual) :=
  let pop := sort_by ind_fit pop in
  num_elite ← num_elite self;
  Ok (pop, num_elite, take (Z.to_nat num_elite) pop).

(** The variables of the main loop. *)
Record run_state : Type := RunState {
  cur_pop : list individual;
  cur_best : board;
  cur_best_fit : nat;
  cur_beliefs : BeliefSpace.t
}.

(** Greedy polish.  [None] when the generator has returned. *)
Definition polish (self : t) (it : Z) (pop : list individual)
    (curr_best : individual) (bad_cells : list coord) (best : board)
    (best_fit : nat) : M (option (list individual * board * nat)) :=
  if decide (0 < length bad_cells) then
    let polished := SudokuLogic.clone_board (ind_board curr_best) in
    let start_f := ind_fit curr_best in
    rc ← random.choice bad_cells;
    let '(r, c1) := rc in
    mutable_cols ←
      lift (filterM (fun c => f ← cell (fixed self) r c;
                              Ok (negb f && bool_decide (c <> c1)))
                    (range 0 (N self)));
    if decide (mutable_cols <> []) then
      c2 ← random.choice mutable_cols;
      v2 ← lift (cell polished r c2);
      v1 ← lift (cell polished r c1);
      yield (SwapTry r c1 v2 c2 v1);;
      polished ← lift (swap_cells polished r c1 c2);
      record_candidate polished;;
      yield (SwapReset r c1 c2);;
      new_f ← lift (fitness self polished);
      if decide (new_f < start_f) then
        pop ← lift (set_item pop 0 (Individual polished new_f));
        if decide (new_f < best_fit) then
          let best_fit := new_f in
          let best := SudokuLogic.clone_board polished in
          if decide (best_fit = 0) then
            yield (Done best 0 it []);;
            mret None
          else mret (Some (pop, best, best_fit))
        else mret (Some (pop, best, best_fit))
      else mret (Some (pop, best, best_fit))
    else mret (Some (pop, best, best_fit))
  else mret (Some (pop, best, best_fit)).

(** Crossover: a copy of [p1] or [p2], then each row possibly replaced by
    the row of [p2]. *)
Definition crossover (self : t) (p1 p2 : board) : M board :=
  from_p1 ← random.random_lt 1 2;
  let child := SudokuLogic.clone_board (if from_p1 : bool then p1 else p2) in
  forM (fun child r =>
          take_p2 ← random.random_lt 1 2;
          if take_p2 : bool then
            row ← lift (item p2 r);
            lift (set_item child r row)
          else mret child)
       child (range 0 (N self)).

(** Mutation, on the row the belief space selects. *)
Definition mutate (self : t) (bs : BeliefSpace.t) (child : board) : M board :=
  go ← random.random_lt 2 5;
  if go : bool then
    r ← BeliefSpace.select_target_row bs;
    mutable ← lift (filterM (fun c => f ← cell (fixed self) r c; Ok (negb f))
                            (range 0 (N self)));
    if decide (2 <= length mutable) then
      cs ← random.sample2 mutable;
      lift (swap_cells child r cs.1 cs.2)
    else mret child
  else mret child.

(** One turn of [while len(new_pop) < self.pop_size]. *)
Definition make_child (self : t) (bs : BeliefSpace.t)
    (elites pop : list individual) : M individual :=
  p1 ← random.choice elites;
  p2 ← random.choice (take (pop_size self / 2) pop);
  child ← crossover self (ind_board p1) (ind_board p2);
  record_candidate child;;
  child ← mutate self bs child;
  record_candidate child;;
  f ← lift (fitness self child);
  mret (Individual child f).

(** [while len(new_pop) < self.pop_size]: each turn appends one child, so the
    loop takes [pop_size - len(new_pop)] turns. *)
Fixpoint grow (self : t) (bs : BeliefSpace.t) (elites pop : list individual)
    (turns : nat) (new_pop : list individual) : M (list individual) :=
  match turns with
  | O => mret new_pop
  | S turns' =>
      child ← make_child self bs elites pop;
      grow self bs elites pop turns' (new_pop ++ [child])
  end.

(** The body of the main loop.  [None] when the generator has returned. *)
Definition iteration (self : t) (it : Z) (st : run_state)
  : M (option run_state) :=
  (* sort, and cultural update *)
  sel ← lift (select_elites self (cur_pop st));
  let '(pop, k, elites) := sel in
  bs ← lift (BeliefSpace.update (cur_beliefs st) elites
                                (get_conflicted_cells self));
  curr_best ← lift (item pop 0);
  let curr_fit := ind_fit curr_best in
  bad_cells ← lift (get_conflicted_cells self (ind_board curr_best));
  let '(best_fit, best) :=
    if decide (curr_fit < cur_best_fit st)
    then (curr_fit, SudokuLogic.clone_board (ind_board curr_best))
    else (cur_best_fit st, cur_best st) in
  yield (Iter (SudokuLogic.clone_board (ind_board curr_best)) best_fit it
              bad_cells);;
  polished ← polish self it pop curr_best bad_cells best best_fit;
  match polished with
  | None => mret None
  | Some (pop, best, best_fit) =>
      (* genetic operations *)
      p0 ← lift (item pop 0);
      let elites :=
        (fun p => Individual (SudokuLogic.clone_board (ind_board p))
                             (ind_fit p0))
          <$> take (Z.to_nat k) pop in
      forM (fun (_ : unit) e => record_candidate (ind_board e)) tt elites;;
      new_pop ← grow self bs elites pop (pop_size self - length elites) elites;
      if decide (best_fit = 0) then
        yield (Done best 0 it []);;
        mret None
      else mret (Some (RunState new_pop best best_fit bs))
  end.

(** [for it in range(1, self.max_iters + 1)] *)
Fixpoint iterations (self : t) (its : list Z) (st : run_state)
  : M (option run_state) :=
  match its with
  | [] => mret (Some st)
  | it :: its' =>
      r ← iteration self it st;
      match r with
      | None => mret None
      | Some st' => iterations self its' st'
      end
  end.

Definition solve_gen (self : t) : M unit :=
  boards ← replicateM (pop_size self) (random_ind self);
  pop ← lift (mapM (fun p => f ← fitness self p; Ok (Individual p f)) boards);
  best ← lift (min_by ind_fit pop);
  let best_fit := ind_fit best in
  yield (Init (SudokuLogic.clone_board (ind_board best)) best_fit 0 []);;
  r ← iterations self
        (Z.of_nat <$> range 1 (Z.to_nat (max_iters self) + 1))
        (RunState pop (ind_board best) best_fit (belief_space self));
  match r with
  | None => mret tt
  | Some st =>
      final_bad_cells ← lift (get_conflicted_cells self (cur_best st));
      yield (Fail (cur_best st) (cur_best_fit st) (max_iters self)
                  final_bad_cells)
  end.

End CulturalSolverImpl.

(** A run from a tape: what the generator yields, and whether it ends by
    returning or by raising. *)
Definition start (tp : nat -> N) : world := World tp 0 [] [].

Definition run (self : CulturalSolverImpl.t) (tp : nat -> N)
  : result unit * list event :=
  let '(r, w) := CulturalSolverImpl.solve_gen self (start tp) in
  (r, yielded w).

(** ** Groups, and what a board must look like

    The vocabulary of the statements: the columns and blocks the two scans
    visit, the values a board holds along a group, and the shape of a board
    for which no index of a scan is out of range. *)

Definition columns (self : CulturalSolverImpl.t) : list (list coord) :=
  (fun c => (fun r => (r, c)) <$> range 0 (CulturalSolverImpl.N self))
    <$> range 0 (CulturalSolverImpl.N self).

Definition blocks (self : CulturalSolverImpl.t) : list (list coord) :=
  let N := CulturalSolverImpl.N self in
  br ← range_step_aux N 0 N (CulturalSolverImpl.br_h self);
  bc ← range_step_aux N 0 N (CulturalSolverImpl.bc_w self);
  [CulturalSolverImpl.block_cells self br bc].

Definition groups (self : CulturalSolverImpl.t) : list (list coord) :=
  columns self ++ blocks self.

(** The value at a coordinate, when there is one. *)
Definition value_at {A} (b : list (list A)) (rc : coord) : option A :=
  row ← b !! rc.1; row !! rc.2.

Definition values_of (b : board) (g : list coord) : list Z :=
  omap (value_at b) g.

(** Coordinates of the grid. *)
Definition in_grid (n : nat) (rc : coord) : Prop := rc.1 < n /\ rc.2 < n.

(** Number of occurrences of [v]. *)
Definition occ (v : Z) (vals : list Z) : nat :=
  length (filter (fun x => x = v) vals).

(** The distinct values of a list. *)
Definition distinct (vals : list Z) : list Z :=
  elements (list_to_set vals : gset Z).

(** Conflicts of a group as the specification words them: a value occurring
    [k > 1] times contributes [k]. *)
Definition claimed_conflicts (vals : list Z) : nat :=
  sum_list ((fun v => if decide (1 < occ v vals) then occ v vals else 0)
              <$> distinct vals).

(** Conflicts of a group with every occurrence after the first counted: a
    value occurring [k] times contributes [k - 1]. *)
Definition repeated_conflicts (vals : list Z) : nat :=
  sum_list ((fun v => occ v vals - 1) <$> distinct vals).

(** An [n] by [n] grid. *)
Definition square {A} (n : nat) (b : list (list A)) : Prop :=
  length b = n /\ Forall (fun row => length row = n) b.

#[global] Instance square_dec {A} n (b : list (list A)) : Decision (square n b).
Proof. unfold square. apply _. Defined.

(** The blocks tile the grid, as they do for [N] in 4, 6, 9. *)
Definition tiles (self : CulturalSolverImpl.t) : Prop :=
  0 < CulturalSolverImpl.br_h self /\ 0 < CulturalSolverImpl.bc_w self /\
  CulturalSolverImpl.N self `mod` CulturalSolverImpl.br_h self = 0 /\
  CulturalSolverImpl.N self `mod` CulturalSolverImpl.bc_w self = 0.

#[global] Instance tiles_dec self : Decision (tiles self).
Proof. unfold tiles. apply _. Defined.

(** The fixed mask is the [N] by [N] grid [__init__] builds. *)
Definition mask_ok (self : CulturalSolverImpl.t) : Prop :=
  square (CulturalSolverImpl.N self) (CulturalSolverImpl.fixed self).

(** A cell the puzzle gives, and a cell it leaves open. *)
Definition is_fixed (self : CulturalSolverImpl.t) (rc : coord) : Prop :=
  value_at (CulturalSolverImpl.fixed self) rc = Some true.

Definition is_open (self : CulturalSolverImpl.t) (rc : coord) : Prop :=
  value_at (CulturalSolverImpl.fixed self) rc = Some false.

#[global] Instance is_fixed_dec self rc : Decision (is_fixed self rc).
Proof. unfold is_fixed. apply _. Defined.

#[global] Instance is_open_dec self rc : Decision (is_open self rc).
Proof. unfold is_open. apply _. Defined.

(** The value at [rc] occurs more than once along the group [g]. *)
Definition duplicated (b : board) (g : list coord) (rc : coord) : Prop :=
  exists v, value_at b rc = Some v /\ 1 < occ v (values_of b g).

(** [rc] lies in a column or block in which its value is duplicated. *)
Definition conflicted (self : CulturalSolverImpl.t) (b : board) (rc : coord)
  : Prop :=
  exists g, g ∈ groups self /\ rc ∈ g /\ duplicated b g rc.

(** No column and no block holds one value in two fixed cells. *)
Definition fixed_cells_distinct (self : CulturalSolverImpl.t) (b : board)
  : Prop :=
  Forall (fun g => NoDup (values_of b (filter (is_fixed self) g)))
         (groups self).

#[global] Instance fixed_cells_distinct_dec self b :
  Decision (fixed_cells_distinct self b).
Proof. unfold fixed_cells_distinct, is_fixed. apply _. Defined.

(** ** Row-completeness *)

(** The values [1 .. n]. *)
Definition values (n : nat) : list Z := Z.of_nat <$> range 1 (n + 1).

(** Every coordinate of the grid. *)
Definition grid (n : nat) : list coord :=
  r ← range 0 n; c ← range 0 n; [(r, c)].

(** Each row is a permutation of [1 .. N], and each fixed cell holds the clue
    of the puzzle. *)
Definition row_complete (self : CulturalSolverImpl.t) (b : board) : Prop :=
  length b = CulturalSolverImpl.N self /\
  Forall (fun row => row ≡ₚ values (CulturalSolverImpl.N self)) b /\
  Forall (fun rc => is_fixed self rc ->
                    value_at b rc = value_at (CulturalSolverImpl.puzzle self) rc)
         (grid (CulturalSolverImpl.N self)).

#[global] Instance row_complete_dec self b : Decision (row_complete self b).
Proof. unfold row_complete. apply _. Defined.

(** ** Sample data *)

(** 0.25 and 0.1 as binary64 numbers. *)
Definition quarter : spec_float := S754_finite false 4503599627370496 (-54).
Definition tenth : spec_float := S754_finite false 7205759403792794 (-56).

Definition sample_puzzle : board :=
  [[1; 0; 0; 4]; [0; 4; 1; 0]; [2; 0; 4; 0]; [0; 3; 0; 1]]%Z.

Definition sample_solver : CulturalSolverImpl.t :=
  CulturalSolverImpl.Make sample_puzzle 4 2 2 6 quarter 3
    [[true; false; false; true]; [false; true; true; false];
     [true; false; true; false]; [false; true; false; true]]
    [[3; 2]; [3; 2]; [3; 1]; [4; 2]]%Z
    (BeliefSpace.init 4).

Definition repeated_rows : board :=
  [[1; 2; 3; 4]; [1; 2; 3; 4]; [1; 2; 3; 4]; [1; 2; 3; 4]]%Z.

(** Two clues of column 0 and two of column 1 coincide. *)
Definition clashing_puzzle : board :=
  [[2; 1; 0; 0]; [0; 0; 0; 0]; [2; 1; 0; 0]; [0; 0; 0; 0]]%Z.

Definition clashing_solver : CulturalSolverImpl.t :=
  CulturalSolverImpl.Make clashing_puzzle 4 2 2 6 quarter 3
    [[true; true; false; false]; [false; false; false; false];
     [true; true; false; false]; [false; false; false; false]]
    [[3; 4]; [3; 4; 2; 1]; [3; 4]; [3; 4; 2; 1]]%Z
    (BeliefSpace.init 4).

Definition clashing_board : board :=
  [[2; 1; 3; 4]; [3; 4; 1; 2]; [2; 1; 4; 3]; [4; 3; 2; 1]]%Z.

Definition solved_board : board :=
  [[1; 2; 3; 4]; [3; 4; 1; 2]; [2; 1; 4; 3]; [4; 3; 2; 1]]%Z.

(** ** Vocabulary for the belief space and the elites *)

(** A sequence of [update] calls, with the states it goes through. *)
Fixpoint update_all (self : BeliefSpace.t)
    (f : board -> result (list coord)) (calls : list (list individual))
  : result (list BeliefSpace.t) :=
  match calls with
  | [] => Ok []
  | elites :: calls' =>
      self' ← BeliefSpace.update self elites f;
      rest ← update_all self' f calls';
      Ok (self' :: rest)
  end.

(** From [v0] on, [global_best_fit] never increases along the states. *)
Fixpoint ratchet (v0 : fitv) (states : list BeliefSpace.t) : Prop :=
  match states with
  | [] => True
  | s :: rest =>
      fitv_le (BeliefSpace.global_best_fit s) v0 /\
      ratchet (BeliefSpace.global_best_fit s) rest
  end.

(** The belief space keeps [N] scores and an [N] by [N] matrix. *)
Definition beliefs_ok (bs : BeliefSpace.t) : Prop :=
  length (BeliefSpace.row_conflict_scores bs) = BeliefSpace.N bs /\
  square (BeliefSpace.N bs) (BeliefSpace.conflict_matrix bs).

(** [f] answers on every elite with cells of the grid. *)
Definition locates (n : nat) (f : board -> result (list coord))
    (elites : list individual) : Prop :=
  forall e, e ∈ elites ->
    exists cells, f (ind_board e) = Ok cells /\ Forall (in_grid n) cells.

(** A natural number as a rational. *)
Definition qnat (n : nat) : Q := inject_Z (Z.of_nat n).

(** The running sum of the scores after [k] rows. *)
Definition running (scores : list nat) (k : nat) : nat :=
  sum_list (take k scores).

(** The nearest integer; at a tie, the one above. *)
Definition round_nearest (q : Q) : Z := Qfloor (Qplus q (Qmake 1 2)).

(** The elite count as the specification words it:
    [max(2, round(pop_size * elite_frac))]. *)
Definition claimed_num_elite (pop_size : nat) (elite_frac : spec_float)
  : option Z :=
  q ← Q_of_float elite_frac;
  Some (Z.max 2 (round_nearest (Qmult (inject_Z (Z.of_nat pop_size)) q))).

Definition fifteen_solver : CulturalSolverImpl.t :=
  CulturalSolverImpl.Make sample_puzzle 4 2 2 15 quarter 3
    [[true; false; false; true]; [false; true; true; false];
     [true; false; true; false]; [false; true; false; true]]
    [[3; 2]; [3; 2]; [3; 1]; [4; 2]]%Z
    (BeliefSpace.init 4).

Definition sample_beliefs : BeliefSpace.t :=
  BeliefSpace.Make 4 None Inf
    [[0; 0; 0; 0]; [0; 1; 1; 0]; [0; 0; 1; 0]; [0; 0; 0; 0]] [0; 2; 1; 0].

(** A tape whose every draw is [2^52 + 2^51], three quarters of the way
    through the unit interval. *)
Definition high_tape : nat -> N := fun _ => (2 ^ 52 + 2 ^ 51)%N.

(** A tape of varied draws. *)
Definition mixed_tape : nat -> N :=
  fun n => (N.of_nat n * N.of_nat n * 7 + 3 * N.of_nat n + 1)%N.

(** ** What a computation does to the world

    [effect R total m φ]: run from any world, [m] yields nothing, records only
    candidates that satisfy [R], and a value it returns satisfies [φ]; with
    [total = true] it does return. *)
Definition effect {A} (R : board -> Prop) (total : bool) (m : M A)
    (φ : A -> Prop) : Prop :=
  forall w, exists r w' new,
    m w = (r, w') /\
    yielded w' = yielded w /\
    candidates w' = candidates w ++ new /\ Forall R new /\
    match r with
    | Ok a => φ a
    | Raise _ => total = false
    end.

(** [triple P m Q E]: from a world satisfying [P], [m] ends in a world
    satisfying [Q] with its value, or raises in a world satisfying [E]. *)
Definition triple {A} (P : world -> Prop) (m : M A)
    (Q : A -> world -> Prop) (E : world -> Prop) : Prop :=
  forall w, P w ->
    match m w with
    | (Ok a, w') => Q a w'
    | (Raise _, w') => E w'
    end.

(** [P] looks only at the events, and may see candidates satisfying [R]
    added. *)
Definition stable (R : board -> Prop) (P : world -> Prop) : Prop :=
  forall w w' new,
    yielded w' = yielded w -> candidates w' = candidates w ++ new ->
    Forall R new -> P w -> P w'.

(** ** Well-formed puzzles *)

(** The clues of a row are its nonzero entries, its open cells the others. *)
Definition clues (row : list Z) : list Z := filter (fun v => v <> 0%Z) row.

Definition open_count (row : list Z) : nat :=
  length (filter (fun v => v = 0%Z) row).

(** The entries of the row lie in [[0, n]] and its clues are pairwise
    distinct. *)
Definition well_clued_row (n : nat) (row : list Z) : Prop :=
  NoDup (clues row) /\ Forall (fun v => (0 <= v <= Z.of_nat n)%Z) row.

Definition well_clued (self : CulturalSolverImpl.t) : Prop :=
  Forall (well_clued_row (CulturalSolverImpl.N self))
         (CulturalSolverImpl.puzzle self).

#[global] Instance well_clued_dec self : Decision (well_clued self).
Proof. unfold well_clued, well_clued_row. apply _. Defined.

(** [self] is what [__init__] builds from a square puzzle. *)
Definition built (self : CulturalSolverImpl.t) : Prop :=
  CulturalSolverImpl.new (CulturalSolverImpl.puzzle self)
    (CulturalSolverImpl.pop_size self) (CulturalSolverImpl.elite_frac self)
    (CulturalSolverImpl.max_iters self) = Ok self /\
  square (length (CulturalSolverImpl.puzzle self))
         (CulturalSolverImpl.puzzle self).

(** What holds of every individual of a run: it is a square board, and a
    row-complete one when the puzzle is well clued. *)
Definition born (self : CulturalSolverImpl.t) (b : board) : Prop :=
  square (CulturalSolverImpl.N self) b /\
  (well_clued self -> row_complete self b).

(** A puzzle whose first row repeats the clue 1. *)
Definition repeated_clue_puzzle : board :=
  [[1; 1; 0; 0]; [0; 4; 1; 0]; [2; 0; 4; 0]; [0; 3; 0; 1]]%Z.

Definition repeated_clue_solver : CulturalSolverImpl.t :=
  CulturalSolverImpl.Make repeated_clue_puzzle 4 2 2 6 quarter 0
    [[true; true; false; false]; [false; true; true; false];
     [true; false; true; false]; [false; true; false; true]]
    [[3; 4; 2]; [3; 2]; [3; 1]; [4; 2]]%Z
    (BeliefSpace.init 4).

Definition zero_budget_solver : CulturalSolverImpl.t :=
  CulturalSolverImpl.Make sample_puzzle 4 2 2 6 quarter 0
    [[true; false; false; true]; [false; true; true; false];
     [true; false; true; false]; [false; true; false; true]]
    [[3; 2]; [3; 2]; [3; 1]; [4; 2]]%Z
    (BeliefSpace.init 4).

(** ** Vocabulary for runs *)

(** The world after one more event. *)
Definition emit (w : world) (e : event) : world :=
  World (tape w) (pos w) (yielded w ++ [e]) (candidates w).

(** The best-known fitness an [iter], [done] or [fail] event carries. *)
Definition event_fitness (e : event) : option nat :=
  match e with
  | Iter _ f _ _ | Done _ f _ _ | Fail _ f _ _ => Some f
  | _ => None
  end.

Definition fitness_trace (es : list event) : list nat := omap event_fitness es.

(** The board an event carries. *)
Definition event_board (e : event) : option board :=
  match e with
  | Init b _ _ _ | Iter b _ _ _ | Done b _ _ _ | Fail b _ _ _ => Some b
  | _ => None
  end.

Definition done_zero (e : event) : Prop :=
  match e with
  | Done _ f _ _ => f = 0
  | _ => True
  end.

(** The fitness values of the events so far never increase and stay at or
    above [lo]; every [done] event carries 0. *)
Definition trace_ok (lo : nat) (w : world) : Prop :=
  StronglySorted ge (fitness_trace (yielded w)) /\
  Forall (fun f => lo <= f) (fitness_trace (yielded w)) /\
  Forall done_zero (yielded w).

(** Every candidate recorded and every board yielded so far satisfies [G]. *)
Definition boards_ok (G : board -> Prop) (w : world) : Prop :=
  Forall G (candidates w) /\ Forall G (omap event_board (yielded w)).

(** ** Cells that see each other

    The rules of the game without a solver at hand: two cells see each other
    along a row, along a column, or inside a block of [h] by [w] cells. *)

Definition same_row (p q : coord) : Prop := p.1 = q.1.

Definition same_column (p q : coord) : Prop := p.2 = q.2.

Definition same_block (h w : nat) (p q : coord) : Prop :=
  p.1 / h = q.1 / h /\ p.2 / w = q.2 / w.

(** Two distinct cells of the grid, in one column or one block of the solver,
    hold the same value: what both scans of the solver look for. *)
Definition clash (self : CulturalSolverImpl.t) (b : board) (p q : coord)
  : Prop :=
  p <> q /\
  in_grid (CulturalSolverImpl.N self) p /\
  in_grid (CulturalSolverImpl.N self) q /\
  (same_column p q \/
   same_block (CulturalSolverImpl.br_h self) (CulturalSolverImpl.bc_w self)
              p q) /\
  exists v, value_at b p = Some v /\ value_at b q = Some v.

(** A solver without a population. *)
Definition empty_solver : CulturalSolverImpl.t :=
  CulturalSolverImpl.Make sample_puzzle 4 2 2 0 quarter 3
    [[true; false; false; true]; [false; true; true; false];
     [true; false; true; false]; [false; true; false; true]]
    [[3; 2]; [3; 2]; [3; 1]; [4; 2]]%Z
    (BeliefSpace.init 4).

(** ** Counting reported cells *)

(** How many entries of [cells] are the cell [rc], and how many lie in
    row [r]. *)
Definition hits (rc : coord) (cells : list coord) : nat :=
  length (filter (fun p => p = rc) cells).

Definition row_hits (r : nat) (cells : list coord) : nat :=
  length (filter (fun p => p.1 = r) cells).

(** The matrix and the scores count the cells of [cells]. *)
Definition counted (n : nat) (cells : list coord)
    (acc : list (list nat) * list nat) : Prop :=
  square n acc.1 /\ length acc.2 = n /\
  (forall rc, in_grid n rc -> value_at acc.1 rc = Some (hits rc cells)) /\
  (forall r, r < n -> acc.2 !! r = Some (row_hits r cells)).

(** Two elites, and the belief space after one [update] with them. *)
Definition sample_elites : list individual :=
  [Individual solved_board 0; Individual repeated_rows 18].

Definition updated_beliefs : BeliefSpace.t :=
  Eval vm_compute in
    match BeliefSpace.update sample_beliefs sample_elites
            (CulturalSolverImpl.get_conflicted_cells sample_solver) with
    | Ok bs => bs
    | Raise _ => sample_beliefs
    end.

(** The child of a crossover is made of whole rows of its parents. *)
Definition rows_from (n : nat) (p1 p2 child : board) : Prop :=
  length child = n /\
  forall r, r < n -> child !! r = p1 !! r \/ child !! r = p2 !! r.

(** [b'] is [b] with the cells [(r, c1)] and [(r, c2)] exchanged. *)
Definition exchanged (b b' : board) (r c1 c2 : nat) : Prop :=
  exists row v1 v2,
    b !! r = Some row /\ row !! c1 = Some v1 /\ row !! c2 = Some v2 /\
    b' = <[r := <[c2 := v1]> (<[c1 := v2]> row)]> b.

(** What a mutation may do to a board: nothing, or exchange two distinct
    open cells of one row. *)
Definition mutation_of (self : CulturalSolverImpl.t) (b b' : board) : Prop :=
  b' = b \/
  exists r c1 c2,
    c1 <> c2 /\ is_open self (r, c1) /\ is_open self (r, c2) /\
    exchanged b b' r c1 c2.

(** The block of [get_block_dims] tiles an [n] by [n] grid. *)
Definition dims_tile (n : nat) : Prop :=
  0 < (SudokuLogic.get_block_dims n).1 /\
  0 < (SudokuLogic.get_block_dims n).2 /\
  n `mod` (SudokuLogic.get_block_dims n).1 = 0 /\
  n `mod` (SudokuLogic.get_block_dims n).2 = 0.

#[global] Instance dims_tile_dec n : Decision (dims_tile n).
Proof. unfold dims_tile. apply _. Defined.

(** [q] lies in the row, the column or the block of [p]. *)
Definition sees (h w : nat) (p q : coord) : Prop :=
  same_row p q \/ same_column p q \/ same_block h w p q.

#[global] Instance sees_dec h w p q : Decision (sees h w p q).
Proof. unfold sees, same_row, same_column, same_block. apply _. Defined.

(** No cell of the grid that [p] sees holds [val]; [p] sees itself. *)
Definition unseen (b : board) (p : coord) (val : Z) : Prop :=
  forall q,
    in_grid (length b) q ->
    sees (SudokuLogic.get_block_dims (length b)).1
         (SudokuLogic.get_block_dims (length b)).2 p q ->
    value_at b q <> Some val.

(** A valid grid: no two distinct cells that see each other hold the same
    value. *)
Definition no_repeat (n h w : nat) (b : board) : Prop :=
  forall p q,
    in_grid n p -> in_grid n q -> p <> q -> sees h w p q ->
    value_at b p <> value_at b q.

(** ** The backtracking strategy

    [BacktrackingStrategy.get_generator] of [Models/strategies.py].  The
    generator works on the board it is given, in place, counts its steps in
    [step_count] and yields one tuple per step; [state] holds the three.
    The recursion of [recurse] is bounded by [fuel]; [Deep] is the outcome of
    a recursion deeper than the fuel, which [get_generator] never meets, as
    is proved below.  The recursion limit of the interpreter is not
    modelled. *)

Module BacktrackingStrategy.

(** The tuples the generator yields, with the fields that vary:
    [('start', None, None, None, 0)], [('update', r, c, val, step_count)],
    [('backtrack', r, c, 0, step_count)],
    [('done', board, 0, None, step_count)] and
    [('fail', None, 0, None, step_count)]. *)
Inductive step : Type :=
  | Start
  | Update (r c : nat) (val : Z) (count : nat)
  | Backtrack (r c : nat) (count : nat)
  | Done (b : board) (count : nat)
  | Fail (count : nat).

#[global] Instance step_eq_dec : EqDecision step.
Proof. solve_decision. Defined.

Record state : Type := State {
  work : board;
  step_count : nat;
  trail : list step
}.

Inductive outcome (A : Type) : Type :=
  | Returns (a : A)
  | Raises (e : exn)
  | Deep.
Arguments Returns {A} a.
Arguments Raises {A} e.
Arguments Deep {A}.

Definition G (A : Type) : Type := state -> outcome A * state.

#[global] Instance G_ret : MRet G := fun A a st => (Returns a, st).
#[global] Instance G_bind : MBind G := fun A B f m st =>
  match m st with
  | (Returns a, st') => f a st'
  | (Raises e, st') => (Raises e, st')
  | (Deep, st') => (Deep, st')
  end.

Definition lift {A} (m : result A) : G A := fun st =>
  (match m with Ok a => Returns a | Raise e => Raises e end, st).

(** The board as it stands. *)
Definition board_now : G board := fun st => (Returns (work st), st).

(** [board[r][c] = v] *)
Definition put (r c : nat) (v : Z) : G unit := fun st =>
  match set_cell (work st) r c v with
  | Ok b => (Returns tt, State b (step_count st) (trail st))
  | Raise e => (Raises e, st)
  end.

(** [step_count += 1], and the new count *)
Definition tick : G nat := fun st =>
  (Returns (S (step_count st)),
   State (work st) (S (step_count st)) (trail st)).

Definition count_now : G nat := fun st => (Returns (step_count st), st).

Definition yield (e : step) : G unit := fun st =>
  (Returns tt, State (work st) (step_count st) (trail st ++ [e])).

(** The first element on which [f] answers [True]. *)
Fixpoint findM {A} (f : A -> result bool) (xs : list A) : result (option A) :=
  match xs with
  | [] => Ok None
  | x :: xs' => hit ← f x; if hit : bool then Ok (Some x) else findM f xs'
  end.

(** [find_empty]: the first empty cell in row-major order. *)
Definition find_empty (N : nat) (b : board) : result (option coord) :=
  findM (fun rc => v ← cell b rc.1 rc.2; Ok (bool_decide (v = 0%Z))) (grid N).

(** [for val in ...] of [recurse], for the empty cell [(r, c)]; [recurse] is
    the recursive call. *)
Fixpoint try_values (recurse : G bool) (r c : nat) (vals : list Z) : G bool :=
  match vals with
  | [] => mret false
  | val :: vals' =>
      b ← board_now;
      ok ← lift (SudokuLogic.valid_in_cell b r c val);
      if ok : bool then
        put r c val;;
        n ← tick;
        yield (Update r c val n);;
        found ← recurse;
        if found : bool then mret true else
        put r c 0%Z;;
        n ← tick;
        yield (Backtrack r c n);;
        try_values recurse r c vals'
      else try_values recurse r c vals'
  end.

Fixpoint recurse (fuel N : nat) : G bool :=
  match fuel with
  | O => fun st => (Deep, st)
  | S fuel' =>
      b ← board_now;
      found ← lift (find_empty N b);
      match found with
      | None => mret true
      | Some (r, c) => try_values (recurse fuel' N) r c (values N)
      end
  end.

(** Each level of the recursion fills one cell of the grid, so [N * N + 1]
    levels are never exceeded. *)
Definition get_generator (b : board) : G unit :=
  let N := length b in
  yield Start;;
  found ← recurse (N * N + 1) N;
  if found : bool then
    b ← board_now; n ← count_now;
    yield (Done (SudokuLogic.clone_board b) n)
  else
    n ← count_now; yield (Fail n).

(** A run on [b]: how the generator ends, the board it leaves, its count
    and what it has yielded. *)
Definition run (b : board) : outcome unit * state :=
  get_generator b (State b 0 []).

End BacktrackingStrategy.

(** ** Vocabulary for the search *)

(** The two loops of the search: [Search] is a call of [recurse], and
    [Try r c vals] is what is left of its [for] loop, with [vals] still to
    try in the empty cell [(r, c)]. *)
Inductive phase : Type :=
  | Search
  | Try (r c : nat) (vals : list Z).

(** The state after [board[r][c] = val], the count and the [update] tuple,
    and the state after the cell is emptied again. *)
Definition placed (st : BacktrackingStrategy.state) (b : board) (r c : nat)
    (val : Z) : BacktrackingStrategy.state :=
  BacktrackingStrategy.State b (S (BacktrackingStrategy.step_count st))
    (BacktrackingStrategy.trail st ++
     [BacktrackingStrategy.Update r c val
        (S (BacktrackingStrategy.step_count st))]).

Definition unplaced (st : BacktrackingStrategy.state) (b : board) (r c : nat)
  : BacktrackingStrategy.state :=
  BacktrackingStrategy.State b (S (BacktrackingStrategy.step_count st))
    (BacktrackingStrategy.trail st ++
     [BacktrackingStrategy.Backtrack r c
        (S (BacktrackingStrategy.step_count st))]).

(** The runs of the search that end, as a relation: one rule for each way
    through [recurse] and through one turn of its loop. *)
Inductive walk (N : nat)
  : phase -> BacktrackingStrategy.state -> BacktrackingStrategy.outcome bool ->
    BacktrackingStrategy.state -> Prop :=
  | walk_full st :
      BacktrackingStrategy.find_empty N (BacktrackingStrategy.work st)
        = Ok None ->
      walk N Search st (BacktrackingStrategy.Returns true) st
  | walk_find_raise st e :
      BacktrackingStrategy.find_empty N (BacktrackingStrategy.work st)
        = Raise e ->
      walk N Search st (BacktrackingStrategy.Raises e) st
  | walk_cell st r c out st' :
      BacktrackingStrategy.find_empty N (BacktrackingStrategy.work st)
        = Ok (Some (r, c)) ->
      walk N (Try r c (values N)) st out st' ->
      walk N Search st out st'
  | walk_nil r c st :
      walk N (Try r c []) st (BacktrackingStrategy.Returns false) st
  | walk_skip r c val vals st out st' :
      SudokuLogic.valid_in_cell (BacktrackingStrategy.work st) r c val
        = Ok false ->
      walk N (Try r c vals) st out st' ->
      walk N (Try r c (val :: vals)) st out st'
  | walk_valid_raise r c val vals st e :
      SudokuLogic.valid_in_cell (BacktrackingStrategy.work st) r c val
        = Raise e ->
      walk N (Try r c (val :: vals)) st (BacktrackingStrategy.Raises e) st
  | walk_put_raise r c val vals st e :
      SudokuLogic.valid_in_cell (BacktrackingStrategy.work st) r c val
        = Ok true ->
      set_cell (BacktrackingStrategy.work st) r c val = Raise e ->
      walk N (Try r c (val :: vals)) st (BacktrackingStrategy.Raises e) st
  | walk_stop r c val vals st b1 out st2 :
      SudokuLogic.valid_in_cell (BacktrackingStrategy.work st) r c val
        = Ok true ->
      set_cell (BacktrackingStrategy.work st) r c val = Ok b1 ->
      walk N Search (placed st b1 r c val) out st2 ->
      out <> BacktrackingStrategy.Returns false ->
      walk N (Try r c (val :: vals)) st out st2
  | walk_unput_raise r c val vals st b1 st2 e :
      SudokuLogic.valid_in_cell (BacktrackingStrategy.work st) r c val
        = Ok true ->
      set_cell (BacktrackingStrategy.work st) r c val = Ok b1 ->
      walk N Search (placed st b1 r c val)
           (BacktrackingStrategy.Returns false) st2 ->
      set_cell (BacktrackingStrategy.work st2) r c 0%Z = Raise e ->
      walk N (Try r c (val :: vals)) st (BacktrackingStrategy.Raises e) st2
  | walk_back r c val vals st b1 st2 b3 out st' :
      SudokuLogic.valid_in_cell (BacktrackingStrategy.work st) r c val
        = Ok true ->
      set_cell (BacktrackingStrategy.work st) r c val = Ok b1 ->
      walk N Search (placed st b1 r c val)
           (BacktrackingStrategy.Returns false) st2 ->
      set_cell (BacktrackingStrategy.work st2) r c 0%Z = Ok b3 ->
      walk N (Try r c vals) (unplaced st2 b3 r c) out st' ->
      walk N (Try r c (val :: vals)) st out st'.

(** The number of empty cells of the grid. *)
Definition zeros (n : nat) (b : board) : nat :=
  length (filter (fun rc => value_at b rc = Some 0%Z) (grid n)).

(** What the driver does with a tuple on the board it shows: an [update]
    writes the value into the cell, a [backtrack] writes 0. *)
Definition write (b : board) (r c : nat) (v : Z) : board :=
  match b !! r with
  | Some row => <[r := <[c := v]> row]> b
  | None => b
  end.

Definition apply_step (b : board) (e : BacktrackingStrategy.step) : board :=
  match e with
  | BacktrackingStrategy.Update r c val _ => write b r c val
  | BacktrackingStrategy.Backtrack r c _ => write b r c 0%Z
  | _ => b
  end.

Definition replay (b : board) (es : list BacktrackingStrategy.step) : board :=
  fold_left apply_step es b.

(** The moves of the search, and the count a move carries. *)
Definition is_move (e : BacktrackingStrategy.step) : Prop :=
  match e with
  | BacktrackingStrategy.Update _ _ _ _
  | BacktrackingStrategy.Backtrack _ _ _ => True
  | _ => False
  end.

Definition move_count (e : BacktrackingStrategy.step) : nat :=
  match e with
  | BacktrackingStrategy.Update _ _ _ n
  | BacktrackingStrategy.Backtrack _ _ n
  | BacktrackingStrategy.Done _ n
  | BacktrackingStrategy.Fail n => n
  | BacktrackingStrategy.Start => 0
  end.

(** [moves] are moves numbered from [k + 1] on, and they lead from the
    state [st] to the state [st']. *)
Definition leads (st : BacktrackingStrategy.state)
    (moves : list BacktrackingStrategy.step)
    (st' : BacktrackingStrategy.state) : Prop :=
  BacktrackingStrategy.trail st' = BacktrackingStrategy.trail st ++ moves /\
  Forall is_move moves /\
  move_count <$> moves
    = seq (S (BacktrackingStrategy.step_count st)) (length moves) /\
  BacktrackingStrategy.step_count st'
    = BacktrackingStrategy.step_count st + length moves /\
  BacktrackingStrategy.work st' = replay (BacktrackingStrategy.work st) moves.

(** ** Partial boards and their solutions *)

(** No two distinct cells of the grid that see each other hold the same
    nonzero value: the clues and the cells filled so far do not clash. *)
Definition consistent (n : nat) (b : board) : Prop :=
  forall p q v,
    in_grid n p -> in_grid n q -> p <> q ->
    sees (SudokuLogic.get_block_dims n).1 (SudokuLogic.get_block_dims n).2
         p q ->
    value_at b p = Some v -> value_at b q = Some v -> v = 0%Z.

(** Every entry of the grid lies in [[0, n]]. *)
Definition in_range (n : nat) (b : board) : Prop :=
  forall p v, in_grid n p -> value_at b p = Some v ->
              (0 <= v <= Z.of_nat n)%Z.

(** [s] keeps every nonzero entry of [b]. *)
Definition extends (n : nat) (b s : board) : Prop :=
  forall p v, in_grid n p -> value_at b p = Some v -> v <> 0%Z ->
              value_at s p = Some v.

(** No cell of the grid is empty. *)
Definition full (n : nat) (b : board) : Prop :=
  forall p, in_grid n p -> exists v, value_at b p = Some v /\ v <> 0%Z.

(** [s] solves [b]: a square grid of values of [[1, n]] without a repeat
    in any row, column or block, that keeps the clues of [b]. *)
Definition solution (n : nat) (b s : board) : Prop :=
  square n s /\
  (forall p v, in_grid n p -> value_at s p = Some v -> v ∈ values n) /\
  no_repeat n (SudokuLogic.get_block_dims n).1
            (SudokuLogic.get_block_dims n).2 s /\
  extends n b s.

(** A board the search can work on. *)
Definition workable (n : nat) (b : board) : Prop :=
  square n b /\ dims_tile n /\ in_range n b.

(** The two conditions on a partial board, cell by cell, so that they can
    be decided. *)
Definition in_range_at (n : nat) (b : board) (p : coord) : Prop :=
  match value_at b p with
  | Some v => (0 <= v <= Z.of_nat n)%Z
  | None => True
  end.

Definition clash_free_at (n : nat) (b : board) (p q : coord) : Prop :=
  p = q \/
  ~ sees (SudokuLogic.get_block_dims n).1 (SudokuLogic.get_block_dims n).2
         p q \/
  value_at b p <> value_at b q \/
  value_at b p = Some 0%Z \/ value_at b p = None.

#[global] Instance in_range_at_dec n b p : Decision (in_range_at n b p).
Proof. unfold in_range_at. destruct (value_at b p); apply _. Defined.

#[global] Instance clash_free_at_dec n b p q :
  Decision (clash_free_at n b p q).
Proof. unfold clash_free_at. apply _. Defined.


(** The state in which the search starts on [b], after the [start] tuple. *)
Definition started (b : board) : BacktrackingStrategy.state :=
  BacktrackingStrategy.State b 0 [BacktrackingStrategy.Start].

(** The state after the last tuple [e]. *)
Definition ended (st : BacktrackingStrategy.state)
    (e : BacktrackingStrategy.step) : BacktrackingStrategy.state :=
  BacktrackingStrategy.State (BacktrackingStrategy.work st)
    (BacktrackingStrategy.step_count st)
    (BacktrackingStrategy.trail st ++ [e]).

(** The search on the board alone, for any order of the candidates: the
    runs of [recurse], which tries the values in ascending order, and those
    of [fill] in [generate_puzzle], which shuffles them, are both of this
    kind. *)
Inductive hunt (N : nat) : phase -> board -> result bool -> board -> Prop :=
  | hunt_full b :
      BacktrackingStrategy.find_empty N b = Ok None ->
      hunt N Search b (Ok true) b
  | hunt_find_raise b e :
      BacktrackingStrategy.find_empty N b = Raise e ->
      hunt N Search b (Raise e) b
  | hunt_cell b r c vals out b' :
      BacktrackingStrategy.find_empty N b = Ok (Some (r, c)) ->
      vals ≡ₚ values N ->
      hunt N (Try r c vals) b out b' ->
      hunt N Search b out b'
  | hunt_nil r c b :
      hunt N (Try r c []) b (Ok false) b
  | hunt_skip r c val vals b out b' :
      SudokuLogic.valid_in_cell b r c val = Ok false ->
      hunt N (Try r c vals) b out b' ->
      hunt N (Try r c (val :: vals)) b out b'
  | hunt_valid_raise r c val vals b e :
      SudokuLogic.valid_in_cell b r c val = Raise e ->
      hunt N (Try r c (val :: vals)) b (Raise e) b
  | hunt_put_raise r c val vals b e :
      SudokuLogic.valid_in_cell b r c val = Ok true ->
      set_cell b r c val = Raise e ->
      hunt N (Try r c (val :: vals)) b (Raise e) b
  | hunt_stop r c val vals b b1 out b2 :
      SudokuLogic.valid_in_cell b r c val = Ok true ->
      set_cell b r c val = Ok b1 ->
      hunt N Search b1 out b2 ->
      out <> Ok false ->
      hunt N (Try r c (val :: vals)) b out b2
  | hunt_unput_raise r c val vals b b1 b2 e :
      SudokuLogic.valid_in_cell b r c val = Ok true ->
      set_cell b r c val = Ok b1 ->
      hunt N Search b1 (Ok false) b2 ->
      set_cell b2 r c 0%Z = Raise e ->
      hunt N (Try r c (val :: vals)) b (Raise e) b2
  | hunt_back r c val vals b b1 b2 b3 out b' :
      SudokuLogic.valid_in_cell b r c val = Ok true ->
      set_cell b r c val = Ok b1 ->
      hunt N Search b1 (Ok false) b2 ->
      set_cell b2 r c 0%Z = Ok b3 ->
      hunt N (Try r c vals) b3 out b' ->
      hunt N (Try r c (val :: vals)) b out b'.

(** The outcome of a search that has ended. *)
Definition answer (r : result bool) : BacktrackingStrategy.outcome bool :=
  match r with
  | Ok a => BacktrackingStrategy.Returns a
  | Raise e => BacktrackingStrategy.Raises e
  end.

(** ** The puzzle generator

    [SudokuLogic.generate_puzzle] of [Models/sudoku_logic.py].  [fill] works
    on the board in place; here it returns the board it leaves.  Its two
    [for] loops look for the first empty cell in row-major order, as
    [find_empty] does.  The recursion is bounded by fuel as it is for the
    backtracking strategy, with [None] for a recursion deeper than the
    fuel. *)

Module Generator.

(** [for n in nums] of [fill], for the empty cell [(i, j)]. *)
Fixpoint try_nums (fill : board -> M (option (bool * board))) (i j : nat)
    (nums : list Z) (b : board) : M (option (bool * board)) :=
  match nums with
  | [] => mret (Some (false, b))
  | n :: nums' =>
      ok ← lift (SudokuLogic.valid_in_cell b i j n);
      if ok : bool then
        b1 ← lift (set_cell b i j n);
        r ← fill b1;
        match r with
        | None => mret None
        | Some (true, b2) => mret (Some (true, b2))
        | Some (false, b2) =>
            b3 ← lift (set_cell b2 i j 0%Z);
            try_nums fill i j nums' b3
        end
      else try_nums fill i j nums' b
  end.

Fixpoint fill (fuel N : nat) (b : board) : M (option (bool * board)) :=
  match fuel with
  | O => mret None
  | S fuel' =>
      found ← lift (BacktrackingStrategy.find_empty N b);
      match found with
      | None => mret (Some (true, b))
      | Some (i, j) =>
          nums ← random.shuffle (values N);
          try_nums (fill fuel' N) i j nums b
      end
  end.

(** [l[:k]] for an integer [k] of either sign. *)
Definition slice_to {A} (k : Z) (l : list A) : list A :=
  if decide (0 <= k)%Z then take (Z.to_nat k) l
  else take (length l - Z.to_nat (- k)) l.

(** [int(N * N * difficulty)] *)
Definition remove_count (N : nat) (difficulty : spec_float) : result Z :=
  nn ← float_of_int (Z.of_nat (N * N));
  int_of_float (SFmul prec emax nn difficulty).

(** The result of [fill] is not looked at: the board is taken as [fill]
    leaves it. *)
Definition generate_puzzle (N : nat) (difficulty : spec_float)
  : M (option board) :=
  let board := SudokuLogic.make_empty_board N in
  filled ← fill (N * N + 1) N board;
  match filled with
  | None => mret None
  | Some (_, board) =>
      let puzzle := SudokuLogic.clone_board board in
      remove_count ← lift (remove_count N difficulty);
      cells ← random.shuffle (grid N);
      puzzle ← lift (foldM (fun p rc => set_cell p rc.1 rc.2 0%Z) puzzle
                           (slice_to remove_count cells));
      mret (Some puzzle)
  end.

End Generator.

(** One half as a binary64 number, the default [difficulty]. *)
Definition half : spec_float := S754_finite false 4503599627370496 (-53).

(** What a result of [fill] or of its loop says about the board [b] it
    started from: a search that went deeper than the fuel says nothing. *)
Definition filled (N : nat) (ph : phase) (b : board)
    (r : result (option (bool * board))) : Prop :=
  match r with
  | Ok (Some (ans, b')) => hunt N ph b (Ok ans) b'
  | Ok None => True
  | Raise e => exists b', hunt N ph b (Raise e) b'
  end.

(** Some full grid solves the empty board of size [n]: the size admits a
    Sudoku grid at all. *)
Definition has_grid (n : nat) : Prop :=
  exists s, solution n (SudokuLogic.make_empty_board n) s.

Definition full_at (b : board) (p : coord) : Prop :=
  match value_at b p with
  | Some v => v <> 0%Z
  | None => False
  end.

#[global] Instance full_at_dec b p : Decision (full_at b p).
Proof. unfold full_at. destruct (value_at b p); apply _. Defined.

(** Full grids of the three sizes the application offers. *)
Definition solved_six : board :=
  [[1; 2; 3; 4; 5; 6]; [4; 5; 6; 1; 2; 3]; [2; 3; 1; 5; 6; 4];
   [5; 6; 4; 2; 3; 1]; [3; 1; 2; 6; 4; 5]; [6; 4; 5; 3; 1; 2]]%Z.

Definition solved_nine : board :=
  [[1; 2; 3; 4; 5; 6; 7; 8; 9]; [4; 5; 6; 7; 8; 9; 1; 2; 3];
   [7; 8; 9; 1; 2; 3; 4; 5; 6]; [2; 3; 4; 5; 6; 7; 8; 9; 1];
   [5; 6; 7; 8; 9; 1; 2; 3; 4]; [8; 9; 1; 2; 3; 4; 5; 6; 7];
   [3; 4; 5; 6; 7; 8; 9; 1; 2]; [6; 7; 8; 9; 1; 2; 3; 4; 5];
   [9; 1; 2; 3; 4; 5; 6; 7; 8]]%Z.

(** The number of cells [generate_puzzle] empties for the count [k]. *)
Definition emptied (n : nat) (k : Z) : nat :=
  if decide (0 <= k)%Z then Z.to_nat k `min` (n * n)
  else n * n - Z.to_nat (- k).

(** ** The shape of a run of the cultural solver *)

(** The fitness an individual carries is the fitness of its board. *)
Definition exact (self : CulturalSolverImpl.t) (p : individual) : Prop :=
  CulturalSolverImpl.fitness self (ind_board p) = Ok (ind_fit p).

(** What may follow an [iter] event that carries [b] and [cells]: nothing,
    or a [swap_try] with the matching [swap_reset], for a conflicted cell
    [(r, c1)] and another column [c2] of its row; the [swap_try] shows in
    each of the two cells the value the other holds in [b]. *)
Definition swap_pair (b : board) (cells : list coord) (swaps : list event)
  : Prop :=
  swaps = [] \/
  exists r c1 c2 v1 v2,
    c1 <> c2 /\ (r, c1) ∈ cells /\
    value_at b (r, c1) = Some v1 /\ value_at b (r, c2) = Some v2 /\
    swaps = [SwapTry r c1 v2 c2 v1; SwapReset r c1 c2].

(** The events of iteration [i]: an [iter] event that carries a board, the
    fitness of that board and its conflicted cells, and the swap events. *)
Definition iter_block (self : CulturalSolverImpl.t) (i : nat)
    (blk : list event) : Prop :=
  exists b f cells swaps,
    blk = Iter b f (Z.of_nat i) cells :: swaps /\
    CulturalSolverImpl.fitness self b = Ok f /\
    CulturalSolverImpl.get_conflicted_cells self b = Ok cells /\
    swap_pair b cells swaps.

(** The events up to the end of iteration [k]: [init], then the events of
    the iterations 1 to [k], in this order. *)
Definition run_prefix (self : CulturalSolverImpl.t) (k : nat)
    (es : list event) : Prop :=
  exists b0 f0 blocks,
    es = Init b0 f0 0 [] :: concat blocks /\
    CulturalSolverImpl.fitness self b0 = Ok f0 /\
    length blocks = k /\
    forall i blk, blocks !! i = Some blk -> iter_block self (S i) blk.

(** The event a run ends with after [k] iterations: [done] with a board of
    fitness 0 and the number of the iteration that found it, or [fail]
    after the whole budget, with the best board, its fitness and its
    conflicted cells. *)
Definition final_event (self : CulturalSolverImpl.t) (k : nat) (e : event)
  : Prop :=
  match e with
  | Done b f it cells =>
      CulturalSolverImpl.fitness self b = Ok 0 /\ f = 0 /\
      it = Z.of_nat k /\ cells = [] /\ 1 <= k
  | Fail b f it cells =>
      CulturalSolverImpl.fitness self b = Ok f /\
      CulturalSolverImpl.get_conflicted_cells self b = Ok cells /\
      it = CulturalSolverImpl.max_iters self /\
      k = Z.to_nat (CulturalSolverImpl.max_iters self) /\
      (k = 0 \/ f <> 0)
  | _ => False
  end.

(** The events of a run that has raised: none, or a prefix that ends with
    an iteration. *)
Definition cut_short (self : CulturalSolverImpl.t) (es : list event) : Prop :=
  es = [] \/
  exists k, run_prefix self k es /\
            k <= Z.to_nat (CulturalSolverImpl.max_iters self).

(** The events of a run that has returned. *)
Definition complete (self : CulturalSolverImpl.t) (es : list event) : Prop :=
  exists k pre e,
    es = pre ++ [e] /\ run_prefix self k pre /\ final_event self k e /\
    k <= Z.to_nat (CulturalSolverImpl.max_iters self).

Definition run_shape (self : CulturalSolverImpl.t) (r : result unit)
    (es : list event) : Prop :=
  match r with
  | Ok _ => complete self es
  | Raise _ => cut_short self es
  end.

(** A solver on which no step of a run can raise. *)
Definition sane (self : CulturalSolverImpl.t) : Prop :=
  built self /\ tiles self /\ 0 < CulturalSolverImpl.N self /\
  0 < CulturalSolverImpl.pop_size self /\
  is_ok (CulturalSolverImpl.num_elite self) = true.

(** The choice [min] makes between the best element so far and the next:
    the next one only when it is strictly better. *)
Definition pick_min {A} (key : A -> nat) (m y : A) : A :=
  if decide (key y < key m) then y else m.

(** An event carries the fitness of the board it carries, and an [iter] or
    [fail] event the conflicted cells of that board. *)
Definition event_exact (self : CulturalSolverImpl.t) (e : event) : Prop :=
  match e with
  | Init b f _ _ | Done b f _ _ => CulturalSolverImpl.fitness self b = Ok f
  | Iter b f _ cells | Fail b f _ cells =>
      CulturalSolverImpl.fitness self b = Ok f /\
      CulturalSolverImpl.get_conflicted_cells self b = Ok cells
  | _ => True
  end.

(** The events that end a run. *)
Definition is_final (e : event) : Prop :=
  match e with
  | Done _ _ _ _ | Fail _ _ _ _ => True
  | _ => False
  end.

(** ** The cultural strategy

    [CulturalStrategy.get_generator] of [Models/strategies.py].  The
    constructor of the solver runs at the call, and raises there if it
    raises; the body of the generator the call returns runs when the caller
    iterates over it.  [elite_frac] is the default of the constructor,
    0.1. *)
Module CulturalStrategy.

Definition iters (b : board) : Z :=
  if decide (6 < length b) then 2000%Z else 1000%Z.

Definition get_generator (b : board) : result (M unit) :=
  let iters := iters b in
  solver ← CulturalSolverImpl.new b 150 tenth iters;
  Ok (CulturalSolverImpl.solve_gen solver).

(** The call, and the generator iterated to its end from a tape. *)
Definition run (b : board) (tp : nat -> N) : result unit * list event :=
  match get_generator b with
  | Ok gen => let '(r, w) := gen (start tp) in (r, yielded w)
  | Raise e => (Raise e, [])
  end.

End CulturalStrategy.

(** What the last event of a run of the strategy on [puzzle] says: a
    [done] event carries a solution of the puzzle, a [fail] event the whole
    budget of iterations, a fitness that is not 0 and a board that does not
    solve the puzzle. *)
Definition honest_end (n : nat) (puzzle : board) (e : event) : Prop :=
  match e with
  | Done b _ _ _ => solution n puzzle b
  | Fail b f it _ =>
      f <> 0 /\ it = CulturalStrategy.iters puzzle /\ ~ solution n puzzle b
  | _ => False
  end.

(** ** Generic loop lemmas *)

Lemma clone_board_id (b : board) : SudokuLogic.clone_board b = b.
Proof. unfold SudokuLogic.clone_board. apply map_id. Qed.

Lemma item_Ok {A} (l : list A) i x : item l i = Ok x <-> l !! i = Some x.
Proof. unfold item. destruct (l !! i); split; congruence. Qed.

Lemma cell_Ok {A} (b : list (list A)) r c v :
  cell b r c = Ok v <-> exists row, b !! r = Some row /\ row !! c = Some v.
Proof.
  unfold cell, item. destruct (b !! r) as [row|]; simpl.
  - destruct (row !! c) eqn:E; simpl; split.
    + intros [= ->]. eauto.
    + intros (row' & [= <-] & H). congruence.
    + discriminate.
    + intros (row' & [= <-] & H). congruence.
  - split; [discriminate | intros (? & ? & _); discriminate].
Qed.

Lemma range_lookup a b i : i < b - a -> range a b !! i = Some (a + i).
Proof. intros H. unfold range. by apply lookup_seq_lt. Qed.

Lemma elem_of_range a b i : i ∈ range a b <-> a <= i < b.
Proof. unfold range. rewrite elem_of_seq. lia. Qed.

(** A lazy scan that meets a hit at position [k], with every earlier
    position readable, answers [True]. *)
Lemma anyM_hit {A} (f : A -> result bool) (xs : list A) k x :
  xs !! k = Some x ->
  f x = Ok true ->
  (forall j y, j < k -> xs !! j = Some y -> is_ok (f y) = true) ->
  anyM f xs = Ok true.
Proof.
  revert k. induction xs as [|y ys IH]; intros k Hk Hx Hpre; [done|].
  destruct k as [|k]; simpl in *.
  - injection Hk as ->. by rewrite Hx.
  - specialize (Hpre 0 y ltac:(lia) eq_refl) as Hy.
    destruct (f y) as [[]|]; simpl in *; try done.
    apply (IH k); auto. intros j z Hj Hz. apply (Hpre (S j) z); [lia|done].
Qed.

(** ** Self-occlusion of the validity check *)

Section ValidInCell.
Import SudokuLogic.

Lemma row_scan_hits_self (b : board) r c val row :
  b !! r = Some row -> row !! c = Some val -> c < length b ->
  anyM (fun j => v ← cell b r j; Ok (bool_decide (v = val)))
       (range 0 (length b)) = Ok true.
Proof.
  intros Hr Hc Hlt.
  apply (anyM_hit _ _ c c).
  - rewrite range_lookup; [done | lia].
  - rewrite (proj2 (cell_Ok b r c val)) by eauto.
    simpl. by rewrite bool_decide_eq_true_2.
  - intros j y Hj Hy.
    rewrite range_lookup in Hy by lia. injection Hy as <-.
    destruct (lookup_lt_is_Some_2 row j) as [v Hv].
    { apply lookup_lt_Some in Hc. lia. }
    by rewrite (proj2 (cell_Ok b r j v)) by eauto.
Qed.

End ValidInCell.

(** C10. Asking whether the value already stored at a cell of the grid may be
    placed there is answered [False], because the row scan runs over the
    queried cell itself; asking about the value [0] is answered [True] for
    every board and every cell. *)
Theorem valid_in_cell_self_occlusion :
  (forall (b : board) (r c : nat) (val : Z) (row : list Z),
      val <> 0%Z ->
      b !! r = Some row -> row !! c = Some val -> c < length b ->
      SudokuLogic.valid_in_cell b r c val = Ok false) /\
  (forall (b : board) (r c : nat),
      SudokuLogic.valid_in_cell b r c 0 = Ok true).
Proof.
  split.
  - intros b r c val row Hval Hr Hc Hlt.
    unfold SudokuLogic.valid_in_cell.
    destruct (SudokuLogic.get_block_dims (length b)) as [br_h bc_w].
    destruct (decide (val = 0%Z)); [done|].
    by rewrite (row_scan_hits_self b r c val row).
  - intros b r c. unfold SudokuLogic.valid_in_cell.
    by destruct (SudokuLogic.get_block_dims (length b)).
Qed.

Lemma valid_in_cell_self_occlusion_witness :
  SudokuLogic.valid_in_cell solved_board 1 2 1 = Ok false /\
  SudokuLogic.valid_in_cell solved_board 1 2 0 = Ok true.
Proof.
  split.
  - apply (proj1 valid_in_cell_self_occlusion solved_board 1 2 1%Z [3; 4; 1; 2]%Z);
      [discriminate | reflexivity | reflexivity | simpl; lia].
  - apply (proj2 valid_in_cell_self_occlusion).
Defined.

(** ** Loops in the error monad *)

Lemma foldM_app {A B} (body : B -> A -> result B) acc xs ys :
  foldM body acc (xs ++ ys) = (acc' ← foldM body acc xs; foldM body acc' ys).
Proof.
  revert acc. induction xs as [|x xs IH]; intros acc; simpl; [done|].
  destruct (body acc x); simpl; [apply IH | done].
Qed.

Lemma foldM_fmap {A B C} (body : B -> C -> result B) (g : A -> C) acc xs :
  foldM (fun acc x => body acc (g x)) acc xs = foldM body acc (g <$> xs).
Proof.
  revert acc. induction xs as [|x xs IH]; intros acc; simpl; [done|].
  destruct (body acc (g x)); simpl; [apply IH | done].
Qed.


(** Nested loops are one loop over the pairs. *)
Lemma foldM_nested {A B C} (body : C -> A * B -> result C) acc xs ys :
  foldM (fun acc x => foldM (fun acc y => body acc (x, y)) acc ys) acc xs =
  foldM body acc (x ← xs; y ← ys; [(x, y)]).
Proof.
  revert acc. induction xs as [|x xs IH]; intros acc; simpl; [done|].
  rewrite foldM_app.
  assert (foldM (fun acc y => body acc (x, y)) acc ys =
          foldM body acc (y ← ys; [(x, y)])) as ->.
  { clear. revert acc. induction ys as [|y ys IH]; intros acc; simpl; [done|].
    destruct (body acc (x, y)); simpl; [apply IH | done]. }
  destruct (foldM body acc _); simpl; [apply IH | done].
Qed.

(** The loop rule: an invariant indexed by the part of the list done. *)
Lemma foldM_inv {A B} (I : list A -> B -> Prop) (body : B -> A -> result B)
    acc xs :
  I [] acc ->
  (forall done x acc, I done acc -> (exists rest, xs = done ++ x :: rest) ->
     exists acc', body acc x = Ok acc' /\ I (done ++ [x]) acc') ->
  exists acc', foldM body acc xs = Ok acc' /\ I xs acc'.
Proof.
  intros H0 Hstep.
  assert (forall rest done acc, xs = done ++ rest -> I done acc ->
            exists acc', foldM body acc rest = Ok acc' /\ I xs acc') as H.
  { induction rest as [|x rest IH]; intros done acc0 Hxs HI; simpl.
    - rewrite app_nil_r in Hxs. subst. eauto.
    - destruct (Hstep done x acc0 HI) as (acc' & -> & HI'); [by eauto|].
      simpl. apply (IH (done ++ [x])); [|done].
      by rewrite <- app_assoc. }
  by apply (H xs [] acc).
Qed.

(** A loop that adds to a counter. *)
Lemma foldM_sum {A} (body : nat -> A -> result nat) (k : A -> nat) acc xs :
  (forall acc x, x ∈ xs -> body acc x = Ok (acc + k x)) ->
  foldM body acc xs = Ok (acc + sum_list (k <$> xs)).
Proof.
  revert acc. induction xs as [|x xs IH]; intros acc H; simpl.
  - f_equal. lia.
  - rewrite H by left. simpl. rewrite IH.
    + f_equal. symmetry. apply Nat.add_assoc.
    + intros. apply H. by right.
Qed.

Lemma mapM_Ok_length {A B} (f : A -> result B) xs ys :
  mapM f xs = Ok ys -> length ys = length xs.
Proof.
  revert ys. induction xs as [|x xs IH]; intros ys; simpl.
  - by intros [= <-].
  - destruct (f x); simpl; [|done].
    destruct (mapM f xs); simpl; [|done].
    intros [= <-]. simpl. f_equal. by apply IH.
Qed.

Lemma mapM_Ok_lookup {A B} (f : A -> result B) xs ys i x :
  mapM f xs = Ok ys -> xs !! i = Some x ->
  exists y, ys !! i = Some y /\ f x = Ok y.
Proof.
  revert ys i. induction xs as [|x0 xs IH]; intros ys i; simpl; [done|].
  destruct (f x0) eqn:E0; simpl; [|done].
  destruct (mapM f xs) eqn:E; simpl; [|done].
  intros [= <-]. destruct i as [|i]; simpl.
  - intros [= <-]. eauto.
  - intros Hi. by apply IH.
Qed.

Lemma mapM_total {A B} (f : A -> result B) xs :
  (forall x, x ∈ xs -> exists y, f x = Ok y) ->
  exists ys, mapM f xs = Ok ys.
Proof.
  induction xs as [|x xs IH]; intros H; simpl; [by eauto|].
  destruct (H x) as [y ->]; [by left|]. simpl.
  destruct IH as [ys ->]; [|simpl; by eauto].
  intros. apply H. by right.
Qed.

(** ** Reading a square board *)

Lemma square_cell {A} n (b : list (list A)) r c :
  square n b -> r < n -> c < n -> exists v, cell b r c = Ok v.
Proof.
  intros [Hlen Hrows] Hr Hc.
  destruct (lookup_lt_is_Some_2 b r) as [row Hrow]; [lia|].
  assert (length row = n) as Hl.
  { eapply Forall_lookup_1 in Hrows; eauto. }
  destruct (lookup_lt_is_Some_2 row c) as [v Hv]; [lia|].
  exists v. apply cell_Ok. eauto.
Qed.

Lemma cell_value_at {A} (b : list (list A)) r c v :
  cell b r c = Ok v <-> value_at b (r, c) = Some v.
Proof.
  rewrite cell_Ok. unfold value_at. simpl.
  destruct (b !! r) as [row|]; simpl.
  - split; [intros (row' & [= <-] & H); done | eauto].
  - split; [intros (? & ? & _); done | done].
Qed.

Lemma values_of_cons (b : board) rc g v :
  value_at b rc = Some v -> values_of b (rc :: g) = v :: values_of b g.
Proof. intros H. unfold values_of. simpl. by rewrite H. Qed.

Lemma square_value_at {A} n (b : list (list A)) rc :
  square n b -> in_grid n rc -> exists v, value_at b rc = Some v.
Proof.
  intros Hsq [Hr Hc]. destruct rc as [r c]. simpl in *.
  destruct (square_cell n b r c Hsq Hr Hc) as [v Hv].
  exists v. by apply cell_value_at.
Qed.

(** ** Where the groups lie *)

Lemma elem_of_range_step_aux fuel start stop step x :
  x ∈ range_step_aux fuel start stop step ->
  x < stop /\ exists k, x = start + k * step.
Proof.
  revert start. induction fuel as [|fuel IH]; intros start; simpl.
  - by intros ?%elem_of_nil.
  - destruct (decide (start < stop)); [|by intros ?%elem_of_nil].
    intros [->|H]%elem_of_cons.
    + split; [done|]. exists 0. lia.
    + destruct (IH _ H) as (Hlt & k & ->). split; [done|].
      exists (S k). lia.
Qed.

Lemma block_start_fits n h x :
  0 < h -> n `mod` h = 0 -> x ∈ range_step_aux n 0 n h -> x + h <= n.
Proof.
  intros Hh Hmod (Hlt & k & ->)%elem_of_range_step_aux. simpl in *.
  apply Nat.Div0.div_exact in Hmod.
  remember (n / h) as m eqn:Hm. clear Hm. subst n.
  destruct (decide (k < m)) as [Hk|Hk]; [nia|].
  assert (h * m <= h * k) by (apply Nat.mul_le_mono_l; lia). lia.
Qed.

Lemma elem_of_block_cells self br bc rc :
  rc ∈ CulturalSolverImpl.block_cells self br bc <->
  br <= rc.1 < br + CulturalSolverImpl.br_h self /\
  bc <= rc.2 < bc + CulturalSolverImpl.bc_w self.
Proof.
  unfold CulturalSolverImpl.block_cells.
  rewrite list_elem_of_bind. split.
  - intros (i & (j & Hrc%list_elem_of_singleton & Hj%elem_of_range)%list_elem_of_bind
              & Hi%elem_of_range).
    subst. simpl. lia.
  - intros [Hr Hc]. exists rc.1. split; [|apply elem_of_range; lia].
    apply list_elem_of_bind. exists rc.2.
    split; [|apply elem_of_range; lia].
    apply list_elem_of_singleton. by destruct rc.
Qed.

Lemma groups_in_grid self g :
  tiles self -> g ∈ groups self ->
  Forall (in_grid (CulturalSolverImpl.N self)) g.
Proof.
  intros (Hh & Hw & Hmh & Hmw) [Hg|Hg]%elem_of_app; apply Forall_forall.
  - unfold columns in Hg.
    apply list_elem_of_fmap in Hg as (c & -> & Hc%elem_of_range).
    intros rc (r & -> & Hr%elem_of_range)%list_elem_of_fmap.
    split; simpl; lia.
  - unfold blocks in Hg.
    apply list_elem_of_bind in Hg as (br & Hg & Hbr).
    apply list_elem_of_bind in Hg as (bc & Hg%list_elem_of_singleton & Hbc).
    subst g.
    apply block_start_fits in Hbr; [|done..].
    apply block_start_fits in Hbc; [|done..].
    intros rc [Hr Hc]%elem_of_block_cells. split; lia.
Qed.

(** ** Counting conflicts *)

Lemma see_fold n (b : board) g seen k :
  square n b -> Forall (in_grid n) g ->
  exists k',
    foldM (CulturalSolverImpl.see b) (seen, k) g =
      Ok (list_to_set (values_of b g) ∪ seen, k') /\
    k' + size (list_to_set (values_of b g) ∪ seen) =
      k + length (values_of b g) + size seen.
Proof.
  intros Hsq. revert seen k.
  induction g as [|[r c] g IH]; intros seen k Hg.
  - exists k. simpl. rewrite (left_id_L ∅ (∪)). split; [done | lia].
  - apply Forall_cons in Hg as [Hrc Hg].
    destruct (square_value_at n b (r, c) Hsq Hrc) as [v Hv].
    rewrite (values_of_cons b (r, c) g v Hv).
    cbn [foldM CulturalSolverImpl.see].
    rewrite (proj2 (cell_value_at b r c v) Hv). cbn [mbind result_bind].
    destruct (decide (v ∈ seen)) as [Hin|Hnin].
    + destruct (IH ({[v]} ∪ seen) (S k) Hg) as (k' & -> & Hk').
      exists k'.
      assert ({[v]} ∪ seen = seen) as Hs by set_solver.
      rewrite Hs in *.
      assert (list_to_set (v :: values_of b g) ∪ seen
              = list_to_set (values_of b g) ∪ seen) as -> by set_solver.
      split; [done|]. simpl. lia.
    + destruct (IH ({[v]} ∪ seen) k Hg) as (k' & -> & Hk').
      exists k'.
      assert (list_to_set (v :: values_of b g) ∪ seen
              = list_to_set (values_of b g) ∪ ({[v]} ∪ seen)) as ->
        by set_solver.
      split; [done|].
      rewrite (size_union {[v]} seen) in Hk' by set_solver.
      rewrite size_singleton in Hk'. simpl. lia.
Qed.

Lemma occ_cons v x vals :
  occ v (x :: vals) = (if decide (x = v) then 1 else 0) + occ v vals.
Proof.
  unfold occ. rewrite filter_cons. by destruct (decide (x = v)).
Qed.

Lemma sum_list_cons (x : nat) l : sum_list (x :: l) = x + sum_list l.
Proof. reflexivity. Qed.

Lemma sum_indicator (x : Z) (D : list Z) :
  NoDup D -> x ∈ D ->
  sum_list ((fun v => if decide (x = v) then 1 else 0) <$> D) = 1.
Proof.
  induction 1 as [|y D Hy HD IH]; [by intros ?%elem_of_nil|].
  intros Hx. rewrite fmap_cons, sum_list_cons.
  destruct (decide (x = y)) as [->|Hne].
  - assert (sum_list ((fun v => if decide (y = v) then 1 else 0) <$> D) = 0)
      as ->; [|done].
    clear IH Hx HD. induction D as [|z D IH]; [done|].
    rewrite fmap_cons, sum_list_cons.
    apply not_elem_of_cons in Hy as [Hyz HyD].
    destruct (decide (y = z)); [done|]. by apply IH.
  - apply elem_of_cons in Hx as [?|Hx]; [done|]. by rewrite IH.
Qed.

Lemma sum_list_fmap_add {A} (f g : A -> nat) (l : list A) :
  sum_list ((fun x => f x + g x) <$> l) =
  sum_list (f <$> l) + sum_list (g <$> l).
Proof.
  induction l as [|x l IH]; [done|].
  rewrite !fmap_cons, !sum_list_cons, IH. lia.
Qed.

Lemma sum_list_fmap_ext {A} (f g : A -> nat) (l : list A) :
  (forall x, x ∈ l -> f x = g x) -> sum_list (f <$> l) = sum_list (g <$> l).
Proof.
  intros H. f_equal. apply list_fmap_ext. intros i x Hx. apply H.
  by eapply list_elem_of_lookup_2.
Qed.

Lemma sum_occ (D vals : list Z) :
  NoDup D -> (forall x, x ∈ vals -> x ∈ D) ->
  sum_list ((fun v => occ v vals) <$> D) = length vals.
Proof.
  intros HD. induction vals as [|x vals IH]; intros Hcov.
  - unfold occ. simpl. clear. induction D as [|? D IHD]; [done|].
    by rewrite fmap_cons, sum_list_cons, IHD.
  - rewrite (sum_list_fmap_ext _
      (fun v => (if decide (x = v) then 1 else 0) + occ v vals))
      by (intros; apply occ_cons).
    rewrite sum_list_fmap_add, sum_indicator; [|done|apply Hcov; by left].
    rewrite IH; [done|]. intros. apply Hcov. by right.
Qed.

Lemma elem_of_distinct v vals : v ∈ distinct vals <-> v ∈ vals.
Proof. unfold distinct. rewrite elem_of_elements. set_solver. Qed.

Lemma NoDup_distinct vals : NoDup (distinct vals).
Proof. unfold distinct. apply NoDup_elements. Qed.

Lemma occ_pos v vals : v ∈ vals -> 0 < occ v vals.
Proof.
  intros H. unfold occ.
  assert (v ∈ filter (fun x => x = v) vals) as Hf by (by apply list_elem_of_filter).
  destruct (filter _ vals); [by apply elem_of_nil in Hf | simpl; lia].
Qed.

(** Every occurrence after the first: the length less the number of
    distinct values. *)
Lemma repeated_conflicts_size vals :
  repeated_conflicts vals + size (list_to_set vals : gset Z) = length vals.
Proof.
  unfold repeated_conflicts.
  rewrite <- (sum_occ (distinct vals) vals);
    [|apply NoDup_distinct|intros; by apply elem_of_distinct].
  change (size (list_to_set vals : gset Z)) with (length (distinct vals)).
  assert (forall D, (forall v, v ∈ D -> 0 < occ v vals) ->
            sum_list ((fun v => occ v vals - 1) <$> D) + length D =
            sum_list ((fun v => occ v vals) <$> D)) as H.
  { induction D as [|v D IH]; intros Hpos; [done|].
    rewrite !fmap_cons, !sum_list_cons. cbn [length].
    specialize (Hpos v ltac:(by left)) as Hv.
    rewrite <- IH; [lia|].
    intros. apply Hpos. by right. }
  apply H. intros v Hv. apply occ_pos. by apply elem_of_distinct.
Qed.

Lemma scan_group n (b : board) g k :
  square n b -> Forall (in_grid n) g ->
  (acc ← foldM (CulturalSolverImpl.see b) (∅, k) g; Ok acc.2) =
  Ok (k + repeated_conflicts (values_of b g)).
Proof.
  intros Hsq Hg.
  destruct (see_fold n b g ∅ k Hsq Hg) as (k' & -> & Hk').
  cbn [mbind result_bind snd]. f_equal.
  rewrite (right_id_L ∅ (∪)) in Hk'. rewrite size_empty in Hk'.
  pose proof (repeated_conflicts_size (values_of b g)). lia.
Qed.

Lemma sum_list_bind {A B} (f : B -> nat) (g : A -> list B) (l : list A) :
  sum_list (f <$> (l ≫= g)) =
  sum_list ((fun x => sum_list (f <$> g x)) <$> l).
Proof.
  induction l as [|x l IH]; [done|].
  by rewrite bind_cons, fmap_app, sum_list_with_app, fmap_cons, sum_list_cons, IH.
Qed.

Lemma range_step_Ok stop step :
  0 < step -> range_step stop step = Ok (range_step_aux stop 0 stop step).
Proof. intros. unfold range_step. destruct (decide (step = 0)); [lia|done]. Qed.

(** The fitness of a square board, group by group. *)
Lemma fitness_by_groups self (b : board) :
  tiles self -> square (CulturalSolverImpl.N self) b ->
  CulturalSolverImpl.fitness self b =
  Ok (sum_list ((fun g => repeated_conflicts (values_of b g))
                  <$> groups self)).
Proof.
  intros Ht Hsq. pose proof Ht as (Hh & Hw & Hmh & Hmw).
  unfold CulturalSolverImpl.fitness.
  set (k := fun g => repeated_conflicts (values_of b g)).
  rewrite (foldM_sum _ (fun c =>
             k ((fun r => (r, c)) <$> range 0 (CulturalSolverImpl.N self)))).
  2:{ intros acc c Hc. rewrite (foldM_fmap _ (fun r => (r, c))).
      apply (scan_group (CulturalSolverImpl.N self)); [done|].
      apply (groups_in_grid self); [done|]. apply elem_of_app. left.
      unfold columns. apply list_elem_of_fmap. eauto. }
  cbn [mbind result_bind]. rewrite !range_step_Ok by done.
  cbn [mbind result_bind].
  rewrite (foldM_sum _ (fun br =>
             sum_list ((fun bc => k (CulturalSolverImpl.block_cells self br bc))
               <$> range_step_aux (CulturalSolverImpl.N self) 0
                     (CulturalSolverImpl.N self) (CulturalSolverImpl.bc_w self)))).
  2:{ intros acc br Hbr. cbn [mbind result_bind].
      apply foldM_sum. intros acc' bc Hbc.
      rewrite (foldM_nested (CulturalSolverImpl.see b)).
      apply (scan_group (CulturalSolverImpl.N self)); [done|].
      apply (groups_in_grid self); [done|]. apply elem_of_app. right.
      unfold blocks. apply list_elem_of_bind. exists br. split; [|done].
      apply list_elem_of_bind. exists bc. split; [|done].
      by apply list_elem_of_singleton. }
  f_equal. unfold groups, columns, blocks.
  rewrite fmap_app, sum_list_with_app, <- list_fmap_compose. simpl.
  f_equal. rewrite sum_list_bind. apply sum_list_fmap_ext. intros br _.
  rewrite sum_list_bind. apply sum_list_fmap_ext. intros bc _.
  simpl. unfold k. lia.
Qed.

(** ** Locating conflicts *)

(** A loop that adds to a set what [P] selects for each element. *)
Lemma foldM_collect {A} (body : gset coord -> A -> result (gset coord))
    (P : A -> coord -> Prop) acc xs :
  (forall acc x, x ∈ xs ->
     exists acc', body acc x = Ok acc' /\
                  forall rc, rc ∈ acc' <-> rc ∈ acc \/ P x rc) ->
  exists acc', foldM body acc xs = Ok acc' /\
               forall rc, rc ∈ acc' <-> rc ∈ acc \/ exists x, x ∈ xs /\ P x rc.
Proof.
  revert acc. induction xs as [|x xs IH]; intros acc H.
  - exists acc. split; [done|]. intros rc. split; [by left|].
    intros [?|(x & ?%elem_of_nil & _)]; done.
  - destruct (H acc x) as (acc1 & Hb & H1); [by left|].
    destruct (IH acc1) as (acc2 & Hf & H2).
    { intros. apply H. by right. }
    exists acc2. simpl. rewrite Hb. simpl. split; [done|].
    intros rc. rewrite H2, H1. split.
    + intros [[?|?]|(y & ? & ?)]; [by left| |].
      * right. exists x. split; [by left|done].
      * right. exists y. split; [by right|done].
    + intros [?|(y & [->|?]%elem_of_cons & ?)]; [by left; left| |].
      * by left; right.
      * right. by exists y.
Qed.

Lemma occ_values_of (b : board) v g :
  occ v (values_of b g) =
  length (filter (fun rc => value_at b rc = Some v) g).
Proof.
  induction g as [|rc g IH]; [done|].
  rewrite filter_cons. destruct (value_at b rc) as [w|] eqn:E.
  - rewrite (values_of_cons b rc g w E), occ_cons, IH.
    destruct (decide (w = v)) as [->|Hne].
    + by rewrite decide_True by done.
    + by rewrite decide_False by congruence.
  - rewrite decide_False by done. rewrite <- IH.
    unfold values_of. simpl. by rewrite E.
Qed.

Lemma group_fold {L} n (b : board) (at_ : L -> coord) locs :
  square n b -> Forall (fun loc => in_grid n (at_ loc)) locs ->
  exists seen,
    foldM (CulturalSolverImpl.group b at_) ∅ locs = Ok seen /\
    forall v ls, seen !! v = Some ls <->
      ls = filter (fun loc => value_at b (at_ loc) = Some v) locs /\ ls <> [].
Proof.
  intros Hsq Hlocs.
  destruct (foldM_inv
    (fun done (seen : gmap Z (list L)) => forall v,
       seen !! v =
       match filter (fun loc => value_at b (at_ loc) = Some v) done with
       | [] => None
       | ls => Some ls
       end)
    (CulturalSolverImpl.group b at_) ∅ locs) as (seen & Hf & HI).
  - intros v. by rewrite lookup_empty.
  - intros done x seen HI (rest & Hxs).
    assert (in_grid n (at_ x)) as Hx.
    { eapply Forall_forall in Hlocs; [done|]. rewrite Hxs.
      apply elem_of_app. right. by left. }
    destruct (square_value_at n b (at_ x) Hsq Hx) as [vx Hvx].
    unfold CulturalSolverImpl.group. destruct (at_ x) as [r c] eqn:Eat.
    rewrite (proj2 (cell_value_at b r c vx) Hvx). simpl.
    eexists. split; [done|]. intros v.
    rewrite filter_app, filter_cons, filter_nil, Eat.
    destruct (decide (vx = v)) as [->|Hne].
    + rewrite lookup_insert_eq, decide_True by done.
      rewrite HI.
      destruct (filter _ done); done.
    + rewrite lookup_insert_ne, decide_False by congruence.
      rewrite app_nil_r. apply HI.
  - exists seen. split; [done|]. intros v ls. rewrite HI.
    destruct (filter _ locs) eqn:E; split.
    + done.
    + by intros [-> ?].
    + intros [= <-]. done.
    + intros [-> _]. done.
Qed.

Lemma report_fold {L} self n (at_ : L -> coord) (seen : gmap Z (list L)) acc :
  n = CulturalSolverImpl.N self -> mask_ok self ->
  (forall v ls loc, seen !! v = Some ls -> loc ∈ ls -> in_grid n (at_ loc)) ->
  exists acc',
    CulturalSolverImpl.report self at_ seen acc = Ok acc' /\
    forall rc, rc ∈ acc' <->
      rc ∈ acc \/
      exists v ls loc, seen !! v = Some ls /\ 1 < length ls /\ loc ∈ ls /\
                       at_ loc = rc /\ is_open self rc.
Proof.
  intros -> Hmask Hgrid. unfold CulturalSolverImpl.report.
  destruct (foldM_collect
    (fun conflicts (item : Z * list L) =>
       if decide (1 < length item.2)
       then foldM (fun conflicts loc =>
                     let '(r, c) := at_ loc in
                     f ← cell (CulturalSolverImpl.fixed self) r c;
                     Ok (if f : bool then conflicts
                         else {[(r, c)]} ∪ conflicts))
                  conflicts item.2
       else Ok conflicts)
    (fun item rc => 1 < length item.2 /\
                    exists loc, loc ∈ item.2 /\ at_ loc = rc /\ is_open self rc)
    acc (map_to_list seen)) as (acc' & Hf & Hacc).
  - intros acc0 [v ls] Hin%elem_of_map_to_list. simpl.
    destruct (decide (1 < length ls)) as [Hlen|Hlen].
    + destruct (foldM_collect
        (fun conflicts loc =>
           let '(r, c) := at_ loc in
           f ← cell (CulturalSolverImpl.fixed self) r c;
           Ok (if f : bool then conflicts else {[(r, c)]} ∪ conflicts))
        (fun loc rc => at_ loc = rc /\ is_open self rc) acc0 ls)
        as (acc1 & Hf1 & Hacc1).
      * intros acc2 loc Hloc.
        specialize (Hgrid v ls loc Hin Hloc) as Hg.
        destruct (square_value_at _ _ _ Hmask Hg) as [f Hfx].
        destruct (at_ loc) as [r c] eqn:Eat.
        rewrite (proj2 (cell_value_at _ r c f) Hfx). simpl.
        eexists. split; [done|]. intros rc. unfold is_open.
        destruct f.
        -- split; [by left|]. intros [?|[<- ?]]; [done|congruence].
        -- rewrite elem_of_union, elem_of_singleton. split.
           ++ intros [->|?]; [by right | by left].
           ++ intros [?|[<- ?]]; [by right | by left].
      * exists acc1. split; [done|]. intros rc. rewrite Hacc1.
        split; intros [?|?]; [by left| |by left|]; right.
        -- done.
        -- tauto.
    + exists acc0. split; [done|]. intros rc. split; [by left|].
      intros [?|[? _]]; [done|lia].
  - exists acc'. split; [done|]. intros rc. rewrite Hacc. split.
    + intros [?|([v ls] & Hin%elem_of_map_to_list & Hlen & loc & ? & ? & ?)];
        [by left|]. right. exists v, ls, loc. done.
    + intros [?|(v & ls & loc & Hin & Hlen & ? & ? & ?)]; [by left|].
      right. exists (v, ls). split; [by apply elem_of_map_to_list|].
      split; [done|]. by exists loc.
Qed.

(** One group: grouping by value, then reporting the open cells of the
    values held more than once. *)
Lemma scan_and_report {L} self (b : board) (at_ : L -> coord) locs acc :
  square (CulturalSolverImpl.N self) b -> mask_ok self ->
  Forall (fun loc => in_grid (CulturalSolverImpl.N self) (at_ loc)) locs ->
  exists acc',
    (seen ← foldM (CulturalSolverImpl.group b at_) ∅ locs;
     CulturalSolverImpl.report self at_ seen acc) = Ok acc' /\
    forall rc, rc ∈ acc' <->
      rc ∈ acc \/
      (rc ∈ at_ <$> locs /\ duplicated b (at_ <$> locs) rc /\ is_open self rc).
Proof.
  intros Hsq Hmask Hlocs.
  destruct (group_fold _ b at_ locs Hsq Hlocs) as (seen & -> & Hseen).
  simpl.
  destruct (report_fold self _ at_ seen acc eq_refl Hmask) as (acc' & -> & Hacc).
  { intros v ls loc [-> _]%Hseen [_ Hloc]%list_elem_of_filter.
    eapply Forall_forall in Hlocs; done. }
  exists acc'. split; [done|]. intros rc. rewrite Hacc.
  assert (forall v, occ v (values_of b (at_ <$> locs)) =
            length (filter (fun loc => value_at b (at_ loc) = Some v) locs))
    as Hocc.
  { intros v. rewrite occ_values_of. clear.
    induction locs as [|loc locs IH]; [done|].
    rewrite fmap_cons, !filter_cons.
    destruct (decide (value_at b (at_ loc) = Some v)); simpl; by rewrite IH. }
  split.
  - intros [?|(v & ls & loc & [-> Hne]%Hseen & Hlen & Hloc & <- & Hopen)];
      [by left|]. right.
    apply list_elem_of_filter in Hloc as [Hv Hloc].
    split; [by apply list_elem_of_fmap_2|]. split; [|done].
    exists v. split; [done|]. by rewrite Hocc.
  - intros [?|((loc & -> & Hloc)%list_elem_of_fmap & (v & Hv & Hdup) & Hopen)];
      [by left|]. right.
    exists v, (filter (fun loc => value_at b (at_ loc) = Some v) locs), loc.
    rewrite Hocc in Hdup.
    assert (loc ∈ filter (fun loc => value_at b (at_ loc) = Some v) locs)
      as Hin by (by apply list_elem_of_filter).
    split; [|done]. apply Hseen. split; [done|].
    intros E. rewrite E in Hin. by apply elem_of_nil in Hin.
Qed.

(** What [get_conflicted_cells] returns on a square board: the open cells
    that lie in a column or block where their value is duplicated, each
    once. *)
Lemma get_conflicted_cells_spec self (b : board) :
  tiles self -> mask_ok self -> square (CulturalSolverImpl.N self) b ->
  exists cells,
    CulturalSolverImpl.get_conflicted_cells self b = Ok cells /\
    NoDup cells /\
    forall rc, rc ∈ cells <-> conflicted self b rc /\ is_open self rc.
Proof.
  intros Ht Hmask Hsq. pose proof Ht as (Hh & Hw & Hmh & Hmw).
  unfold CulturalSolverImpl.get_conflicted_cells.
  set (n := CulturalSolverImpl.N self) in *.
  set (col := fun c : nat => (fun r : nat => (r, c)) <$> range 0 n).
  destruct (foldM_collect
    (fun conflicts c =>
       seen ← foldM (CulturalSolverImpl.group b (fun r => (r, c))) ∅
                    (range 0 n);
       CulturalSolverImpl.report self (fun r => (r, c)) seen conflicts)
    (fun c rc => rc ∈ col c /\ duplicated b (col c) rc /\ is_open self rc)
    ∅ (range 0 n)) as (acc1 & -> & H1).
  { intros acc c Hc. apply scan_and_report; [done..|].
    assert (Forall (in_grid n) (col c)) as Hg.
    { apply (groups_in_grid self); [done|].
      apply elem_of_app. left. apply list_elem_of_fmap. eauto. }
    apply Forall_forall. intros r Hr.
    apply (proj1 (Forall_forall _ _) Hg).
    apply list_elem_of_fmap. by exists r. }
  cbn [mbind result_bind]. rewrite !range_step_Ok by done.
  cbn [mbind result_bind].
  set (brs := range_step_aux n 0 n (CulturalSolverImpl.br_h self)).
  set (bcs := range_step_aux n 0 n (CulturalSolverImpl.bc_w self)).
  set (blk := CulturalSolverImpl.block_cells self).
  match goal with
  | |- context [foldM ?body acc1 brs] =>
      destruct (foldM_collect body
        (fun br rc => exists bc, bc ∈ bcs /\
           (rc ∈ blk br bc /\ duplicated b (blk br bc) rc /\
            is_open self rc))
        acc1 brs) as (acc2 & -> & H2)
  end.
  { intros acc br Hbr. apply foldM_collect. intros acc' bc Hbc.
    assert (Forall (in_grid n) (blk br bc)) as Hgrid.
    { apply (groups_in_grid self); [done|]. apply elem_of_app. right.
      unfold blocks. apply list_elem_of_bind. exists br. split; [|done].
      apply list_elem_of_bind. exists bc. split; [|done].
      by apply list_elem_of_singleton. }
    destruct (scan_and_report self b (fun rc => rc) (blk br bc) acc'
                Hsq Hmask) as (acc'' & Hs & Hacc); [done|].
    exists acc''. split; [done|].
    intros rc. rewrite Hacc, list_fmap_id. done. }
  cbn [mbind result_bind]. eexists. split; [done|].
  split; [apply NoDup_elements|].
  intros rc. rewrite elem_of_elements, H2, H1. unfold conflicted. split.
  - intros [[Hemp|(c & Hc & Hin & Hdup & Hopen)]
           |(br & Hbr & bc & Hbc & Hin & Hdup & Hopen)].
    + by apply elem_of_empty in Hemp.
    + split; [|done]. exists (col c). split; [|done].
      apply elem_of_app. left. apply list_elem_of_fmap. eauto.
    + split; [|done]. exists (blk br bc). split; [|done].
      apply elem_of_app. right.
      apply list_elem_of_bind. exists br. split; [|done].
      apply list_elem_of_bind. exists bc. split; [|done].
      by apply list_elem_of_singleton.
  - intros [(g & [Hg|Hg]%elem_of_app & Hin & Hdup) Hopen].
    + apply list_elem_of_fmap in Hg as (c & -> & Hc).
      left. right. exists c. done.
    + apply list_elem_of_bind in Hg as (br & Hg & Hbr).
      apply list_elem_of_bind in Hg as (bc & ->%list_elem_of_singleton & Hbc).
      right. exists br. split; [done|]. exists bc. done.
Qed.

(** The reported cells are open cells of the grid. *)
Lemma conflicted_cells_open self (b : board) cells rc :
  tiles self -> mask_ok self -> square (CulturalSolverImpl.N self) b ->
  CulturalSolverImpl.get_conflicted_cells self b = Ok cells ->
  rc ∈ cells -> in_grid (CulturalSolverImpl.N self) rc /\ is_open self rc.
Proof.
  intros Ht Hmask Hsq Hcells Hrc.
  destruct (get_conflicted_cells_spec self b Ht Hmask Hsq)
    as (cells' & Hc & _ & Hspec).
  rewrite Hcells in Hc. injection Hc as <-.
  apply Hspec in Hrc as [(g & Hg & Hin & _) Hopen]. split; [|done].
  eapply Forall_forall; [by apply groups_in_grid|done].
Qed.

(** ** Zero fitness and the conflict list *)

Lemma sum_list_zero (l : list nat) :
  sum_list l = 0 <-> Forall (fun x => x = 0) l.
Proof.
  induction l as [|x l IH]; [by split; [constructor|]|].
  rewrite sum_list_cons, Forall_cons. rewrite <- IH. lia.
Qed.

Lemma repeated_conflicts_zero vals :
  repeated_conflicts vals = 0 <-> forall v, occ v vals <= 1.
Proof.
  unfold repeated_conflicts. rewrite sum_list_zero, Forall_fmap, Forall_forall.
  split.
  - intros H v. destruct (decide (v ∈ vals)) as [Hin|Hnin].
    + apply elem_of_distinct in Hin. apply H in Hin. simpl in Hin. lia.
    + unfold occ. destruct (filter _ vals) as [|x ?] eqn:E; [simpl; lia|].
      assert (x ∈ filter (fun x => x = v) vals) as Hx by (rewrite E; by left).
      apply list_elem_of_filter in Hx as [-> ?]. done.
  - intros H v _. simpl. specialize (H v). lia.
Qed.

Lemma fitness_zero self (b : board) :
  tiles self -> square (CulturalSolverImpl.N self) b ->
  CulturalSolverImpl.fitness self b = Ok 0 <->
  forall g v, g ∈ groups self -> occ v (values_of b g) <= 1.
Proof.
  intros Ht Hsq. rewrite (fitness_by_groups self b Ht Hsq). split.
  - intros [= H]. apply sum_list_zero in H.
    rewrite Forall_fmap, Forall_forall in H.
    intros g v Hg. by apply repeated_conflicts_zero, H.
  - intros H. f_equal. apply sum_list_zero.
    rewrite Forall_fmap, Forall_forall. intros g Hg. simpl.
    apply repeated_conflicts_zero. intros v. by apply H.
Qed.

Lemma NoDup_occ vals v : NoDup vals -> occ v vals <= 1.
Proof.
  induction 1 as [|x vals Hx Hnd IH]; [unfold occ; simpl; lia|].
  rewrite occ_cons. destruct (decide (x = v)) as [->|]; [|lia].
  assert (occ v vals = 0); [|lia].
  unfold occ. destruct (filter _ vals) as [|y ?] eqn:E; [done|].
  assert (y ∈ filter (fun x => x = v) vals) as Hy by (rewrite E; by left).
  apply list_elem_of_filter in Hy as [-> ?]. done.
Qed.

Lemma filter_iff_in {A} (P1 P2 : A -> Prop)
    `{!forall x, Decision (P1 x), !forall x, Decision (P2 x)} (l : list A) :
  (forall x, x ∈ l -> P1 x <-> P2 x) -> filter P1 l = filter P2 l.
Proof.
  induction l as [|a l IH]; intros Hiff; [done|].
  rewrite !filter_cons.
  rewrite IH by (intros; apply Hiff; by right).
  destruct (decide (P1 a)) as [H1|H1].
  - rewrite decide_True; [done|]. by apply (Hiff a); [left|].
  - rewrite decide_False; [done|]. intros H2. apply H1.
    by apply (Hiff a); [left|].
Qed.

(** Zero fitness leaves nothing to report; an empty report means zero
    fitness once no group holds a value in two fixed cells. *)
Lemma zero_fitness_iff_no_conflicts self (b : board) :
  tiles self -> mask_ok self -> square (CulturalSolverImpl.N self) b ->
  (CulturalSolverImpl.fitness self b = Ok 0 ->
   CulturalSolverImpl.get_conflicted_cells self b = Ok []) /\
  (fixed_cells_distinct self b ->
   CulturalSolverImpl.get_conflicted_cells self b = Ok [] ->
   CulturalSolverImpl.fitness self b = Ok 0).
Proof.
  intros Ht Hmask Hsq.
  destruct (get_conflicted_cells_spec self b Ht Hmask Hsq)
    as (cells & Hc & _ & Hspec).
  split.
  - intros Hfit. rewrite Hc. f_equal.
    destruct cells as [|rc cells]; [done|].
    destruct (proj1 (Hspec rc) ltac:(by left))
      as [(g & Hg & _ & v & _ & Hocc) _].
    pose proof (proj1 (fitness_zero self b Ht Hsq) Hfit g v Hg). lia.
  - intros Hdist Hnil. rewrite Hc in Hnil. injection Hnil as ->.
    apply fitness_zero; [done..|]. intros g v Hg.
    destruct (decide (occ v (values_of b g) <= 1)) as [|Hgt]; [done|].
    exfalso.
    eapply Forall_forall in Hdist; [|done].
    apply (NoDup_occ _ v) in Hdist.
    rewrite occ_values_of in Hdist, Hgt.
    assert (filter (fun rc => value_at b rc = Some v) g =
            filter (fun rc => value_at b rc = Some v)
                   (filter (is_fixed self) g)) as E.
    { rewrite list_filter_filter. apply filter_iff_in.
      intros rc Hrc. split; [|tauto].
      intros Hv. split; [done|].
      assert (in_grid (CulturalSolverImpl.N self) rc) as Hgrid.
      { eapply Forall_forall; [by apply groups_in_grid|done]. }
      destruct (square_value_at _ _ _ Hmask Hgrid) as [[] Hf]; [done|].
      exfalso. apply (elem_of_nil rc). apply Hspec. split; [|done].
      exists g. split; [done|]. split; [done|].
      exists v. split; [done|]. rewrite occ_values_of. lia. }
    rewrite E in Hgt. lia.
Qed.

(** ** The samples are what [__init__] builds *)

Lemma sample_solver_new :
  CulturalSolverImpl.new sample_puzzle 6 quarter 3 = Ok sample_solver.
Proof. vm_compute. reflexivity. Qed.

Lemma clashing_solver_new :
  CulturalSolverImpl.new clashing_puzzle 6 quarter 3 = Ok clashing_solver.
Proof. vm_compute. reflexivity. Qed.

Lemma row_complete_square self b :
  row_complete self b -> square (CulturalSolverImpl.N self) b.
Proof.
  intros (Hlen & Hrows & _). split; [done|].
  eapply Forall_impl; [done|]. intros row Hrow. simpl in Hrow.
  rewrite Hrow. unfold values, range. by rewrite length_fmap, length_seq, Nat.add_sub.
Qed.

(** C2 (as the code has it). The fitness of a square board is the sum, over
    all columns and all blocks, of the occurrences after the first: a value
    occurring [k] times in a group contributes [k - 1]. *)
Theorem fitness_counts_repeats :
  forall (self : CulturalSolverImpl.t) (b : board),
    tiles self -> square (CulturalSolverImpl.N self) b ->
    CulturalSolverImpl.fitness self b =
    Ok (sum_list
          ((fun g =>
              sum_list ((fun v => occ v (values_of b g) - 1)
                          <$> distinct (values_of b g)))
             <$> groups self)).
Proof. intros self b Ht Hsq. apply (fitness_by_groups self b Ht Hsq). Qed.

Lemma fitness_counts_repeats_witness :
  CulturalSolverImpl.fitness sample_solver repeated_rows =
  Ok (sum_list
        ((fun g =>
            sum_list ((fun v => occ v (values_of repeated_rows g) - 1)
                        <$> distinct (values_of repeated_rows g)))
           <$> groups sample_solver)).
Proof.
  apply (fitness_counts_repeats sample_solver repeated_rows).
  - unfold tiles. simpl. lia.
  - split; [reflexivity | repeat constructor].
Defined.

(** C2 (as the specification words it) fails: with every occurrence of a
    duplicated value counted, four equal rows would score 32; the code
    scores 20. *)
Lemma fitness_counts_all_occurrences_fails :
  tiles sample_solver /\ square 4 repeated_rows /\
  CulturalSolverImpl.fitness sample_solver repeated_rows = Ok 20 /\
  sum_list ((fun g => claimed_conflicts (values_of repeated_rows g))
              <$> groups sample_solver) = 32 /\
  CulturalSolverImpl.fitness sample_solver repeated_rows <>
  Ok (sum_list ((fun g => claimed_conflicts (values_of repeated_rows g))
                  <$> groups sample_solver)).
Proof.
  split; [unfold tiles; simpl; lia|].
  split; [split; [reflexivity | repeat constructor]|].
  split; [vm_compute; reflexivity|].
  split; [vm_compute; reflexivity|].
  vm_compute. discriminate.
Qed.

(** C3 (as the code has it). On a row-complete board both functions return;
    zero fitness implies an empty conflict list, and the converse holds when
    no column or block holds one value in two fixed cells. *)
Theorem zero_fitness_and_conflicted_cells :
  forall (self : CulturalSolverImpl.t) (b : board),
    tiles self -> mask_ok self -> row_complete self b ->
    exists f cells,
      CulturalSolverImpl.fitness self b = Ok f /\
      CulturalSolverImpl.get_conflicted_cells self b = Ok cells /\
      (f = 0 -> cells = []) /\
      (fixed_cells_distinct self b -> (f = 0 <-> cells = [])).
Proof.
  intros self b Ht Hmask Hrc%row_complete_square.
  destruct (get_conflicted_cells_spec self b Ht Hmask Hrc)
    as (cells & Hcells & _).
  pose proof (fitness_by_groups self b Ht Hrc) as Hfit.
  destruct (zero_fitness_iff_no_conflicts self b Ht Hmask Hrc) as [H1 H2].
  eexists _, cells. split; [exact Hfit|]. split; [done|].
  rewrite Hfit, Hcells in H1, H2.
  assert (forall f : nat, f = 0 -> Ok (A:=nat) f = Ok 0) as E by (by intros ? ->).
  split; [|intros Hd; split].
  - intros H0. apply E, H1 in H0. by injection H0.
  - intros H0. apply E, H1 in H0. by injection H0.
  - intros ->. specialize (H2 Hd eq_refl). by injection H2.
Qed.

Lemma zero_fitness_and_conflicted_cells_witness :
  exists f cells,
    CulturalSolverImpl.fitness sample_solver solved_board = Ok f /\
    CulturalSolverImpl.get_conflicted_cells sample_solver solved_board
      = Ok cells /\
    (f = 0 -> cells = []) /\
    (fixed_cells_distinct sample_solver solved_board ->
     (f = 0 <-> cells = [])).
Proof.
  apply (zero_fitness_and_conflicted_cells sample_solver solved_board).
  - unfold tiles. simpl. lia.
  - split; [reflexivity | repeat constructor].
  - apply (bool_decide_unpack _). vm_compute. exact I.
Defined.

(** C3 (as stated) fails: a row-complete board whose only conflicts lie
    between fixed cells has a positive fitness and an empty conflict list. *)
Lemma zero_fitness_iff_fails :
  tiles clashing_solver /\ mask_ok clashing_solver /\
  row_complete clashing_solver clashing_board /\
  CulturalSolverImpl.fitness clashing_solver clashing_board = Ok 2 /\
  CulturalSolverImpl.get_conflicted_cells clashing_solver clashing_board
    = Ok [] /\
  ~ (CulturalSolverImpl.fitness clashing_solver clashing_board = Ok 0 <->
     CulturalSolverImpl.get_conflicted_cells clashing_solver clashing_board
       = Ok []).
Proof.
  split; [unfold tiles; simpl; lia|].
  split; [split; [reflexivity | repeat constructor]|].
  split; [apply (bool_decide_unpack _); vm_compute; exact I|].
  split; [vm_compute; reflexivity|].
  split; [vm_compute; reflexivity|].
  intros [_ H].
  assert (CulturalSolverImpl.fitness clashing_solver clashing_board = Ok 2)
    as E by (vm_compute; reflexivity).
  rewrite E in H. discriminate H. vm_compute. reflexivity.
Qed.

(** ** The belief space *)

Lemma fold_min_spec {A} (key : A -> nat) (l : list A) (x0 : A) :
  let m := fold_left (fun m y => if decide (key y < key m) then y else m)
                     l x0 in
  m ∈ x0 :: l /\ forall y, y ∈ x0 :: l -> key m <= key y.
Proof.
  revert x0. induction l as [|x l IH]; intros x0; simpl.
  - split; [by left|]. intros y ->%list_elem_of_singleton. done.
  - destruct (IH (if decide (key x < key x0) then x else x0)) as [Hin Hle].
    split.
    + apply elem_of_cons in Hin as [->|Hin].
      * destruct (decide (key x < key x0)); [right; by left | by left].
      * right. by right.
    + intros y [->|[->|Hy]%elem_of_cons]%elem_of_cons.
      * etrans; [apply Hle; by left|].
        destruct (decide (key x < key x0)); lia.
      * etrans; [apply Hle; by left|].
        destruct (decide (key x < key x0)); lia.
      * apply Hle. by right.
Qed.

Lemma min_by_spec {A} (key : A -> nat) (xs : list A) (x : A) :
  min_by key xs = Ok x -> x ∈ xs /\ forall y, y ∈ xs -> key x <= key y.
Proof.
  destruct xs as [|x0 l]; [done|]. simpl. intros [= <-].
  apply fold_min_spec.
Qed.

Lemma min_by_total {A} (key : A -> nat) (xs : list A) :
  xs <> [] -> exists x, min_by key xs = Ok x.
Proof. destruct xs; [done|]. simpl. eauto. Qed.

Lemma set_item_Ok {A} (l : list A) i x :
  i < length l -> set_item l i x = Ok (<[i:=x]> l).
Proof. intros. unfold set_item. by rewrite decide_True. Qed.

Lemma set_cell_Ok {A} (b : list (list A)) r c v row :
  b !! r = Some row -> c < length row ->
  set_cell b r c v = Ok (<[r := <[c := v]> row]> b).
Proof.
  intros Hr Hc. unfold set_cell.
  rewrite (proj2 (item_Ok b r row) Hr). simpl.
  rewrite set_item_Ok by done. simpl.
  apply set_item_Ok. by eapply lookup_lt_Some.
Qed.

Lemma square_insert {A} n (b : list (list A)) r row :
  square n b -> length row = n -> square n (<[r := row]> b).
Proof.
  intros [Hlen Hrows] Hrow. split; [by rewrite length_insert|].
  apply Forall_insert; done.
Qed.

Lemma square_row {A} n (b : list (list A)) r :
  square n b -> r < n -> exists row, b !! r = Some row /\ length row = n.
Proof.
  intros [Hlen Hrows] Hr.
  destruct (lookup_lt_is_Some_2 b r) as [row Hrow]; [lia|].
  exists row. split; [done|]. by eapply Forall_lookup_1 in Hrows.
Qed.

Lemma set_cell_square {A} n (b : list (list A)) r c v :
  square n b -> r < n -> c < n ->
  exists b', set_cell b r c v = Ok b' /\ square n b'.
Proof.
  intros Hsq Hr Hc. destruct (square_row n b r Hsq Hr) as (row & Hrow & Hlen).
  eexists. split; [apply (set_cell_Ok b r c v row); [done|lia]|].
  apply square_insert; [done|]. by rewrite length_insert.
Qed.

Lemma bump_fold n cells cm rs :
  square n cm -> length rs = n -> Forall (in_grid n) cells ->
  exists cm' rs', foldM BeliefSpace.bump (cm, rs) cells = Ok (cm', rs') /\
                  square n cm' /\ length rs' = n.
Proof.
  revert cm rs. induction cells as [|[r c] cells IH]; intros cm rs Hcm Hrs Hg.
  - exists cm, rs. done.
  - apply Forall_cons in Hg as [[Hr Hc] Hg]. simpl in Hr, Hc.
    destruct (square_cell n cm r c Hcm Hr Hc) as [v Hv].
    destruct (set_cell_square n cm r c (v + 1) Hcm Hr Hc) as (cm1 & Hset & Hcm1).
    destruct (lookup_lt_is_Some_2 rs r) as [s Hs]; [lia|].
    destruct (IH cm1 (<[r := s + 1]> rs)) as (cm' & rs' & Hf & ? & ?);
      [done|by rewrite length_insert|done|].
    exists cm', rs'. split; [|done].
    cbn [foldM BeliefSpace.bump]. rewrite Hv. cbn [mbind result_bind].
    rewrite Hset. cbn [mbind result_bind].
    rewrite (proj2 (item_Ok rs r s) Hs). cbn [mbind result_bind].
    rewrite set_item_Ok by lia. cbn [mbind result_bind]. exact Hf.
Qed.

Lemma square_replicate {A} n (x : A) : square n (replicate n (replicate n x)).
Proof.
  split; [by rewrite length_replicate|].
  apply Forall_replicate. by rewrite length_replicate.
Qed.

Lemma fitv_le_refl v : fitv_le v v.
Proof. destruct v; simpl; done. Qed.

(** What one call of [update] does. *)
Lemma update_spec (bs : BeliefSpace.t) elites f :
  elites <> [] -> locates (BeliefSpace.N bs) f elites ->
  exists bs' best,
    BeliefSpace.update bs elites f = Ok bs' /\
    min_by ind_fit elites = Ok best /\
    BeliefSpace.N bs' = BeliefSpace.N bs /\ beliefs_ok bs' /\
    fitv_le (BeliefSpace.global_best_fit bs') (BeliefSpace.global_best_fit bs) /\
    (if lt_fitv (ind_fit best) (BeliefSpace.global_best_fit bs)
     then BeliefSpace.global_best_fit bs' = Fin (ind_fit best) /\
          BeliefSpace.global_best bs' =
            Some (SudokuLogic.clone_board (ind_board best))
     else BeliefSpace.global_best_fit bs' = BeliefSpace.global_best_fit bs /\
          BeliefSpace.global_best bs' = BeliefSpace.global_best bs).
Proof.
  intros Hne Hloc.
  destruct (min_by_total ind_fit elites Hne) as [best Hbest].
  unfold BeliefSpace.update. rewrite Hbest. cbn [mbind result_bind].
  set (n := BeliefSpace.N bs) in *.
  destruct (foldM_inv
    (fun (_ : list individual) (acc : list (list nat) * list nat) =>
       square n acc.1 /\ length acc.2 = n)
    (fun acc ind => bad_cells ← f (ind_board ind);
                    foldM BeliefSpace.bump acc bad_cells)
    (replicate n (replicate n 0), replicate n 0) elites)
    as ([cm rs] & Hf & Hcm & Hrs).
  - split; [apply square_replicate | apply length_replicate].
  - intros done e [cm rs] [Hcm Hrs] (rest & ->).
    destruct (Hloc e) as (cells & -> & Hcells).
    { apply elem_of_app. right. by left. }
    cbn [mbind result_bind].
    destruct (bump_fold n cells cm rs Hcm Hrs Hcells) as (cm' & rs' & -> & ? & ?).
    by exists (cm', rs').
  - simpl in Hcm, Hrs. rewrite Hf. cbn [mbind result_bind fst snd].
    destruct (lt_fitv (ind_fit best) (BeliefSpace.global_best_fit bs)) eqn:Hlt;
      eexists _, best; (split; [reflexivity|]); (split; [reflexivity|]);
      (split; [reflexivity|]); (split; [split; [exact Hrs|exact Hcm]|]);
      cbn [BeliefSpace.global_best_fit BeliefSpace.global_best]; rewrite Hlt.
    + split; [|done]. destruct (BeliefSpace.global_best_fit bs) as [|m];
        simpl in *; [done|]. apply bool_decide_eq_true in Hlt. lia.
    + split; [apply fitv_le_refl | done].
Qed.


(** The comparison [update] makes is the strict order: a fitness is below
    [float('inf')], and below another fitness when it is the smaller
    number. *)
Lemma lt_fitv_spec n v : lt_fitv n v = true <-> fitv_lt (Fin n) v.
Proof.
  unfold fitv_lt. destruct v as [|m]; simpl.
  - split; [intros _; split; [done|by intros []]|done].
  - rewrite bool_decide_eq_true. lia.
Qed.

Lemma fitv_lt_Inf n : fitv_lt (Fin n) Inf.
Proof. split; [done|by intros []]. Qed.

Lemma fitv_lt_Fin n m : fitv_lt (Fin n) (Fin m) <-> n < m.
Proof. unfold fitv_lt. simpl. lia. Qed.

Lemma fitv_lt_irrefl v : ~ fitv_lt v v.
Proof. intros [H1 H2]. done. Qed.

(** C4. [update] returns whenever the elites are not empty and the locator
    answers with cells of the grid.  The returned state has a
    [global_best_fit] that is not above the old one; it is replaced by the
    minimal elite fitness, together with a copy of the first elite that has
    it, exactly when that fitness is strictly below the old
    [global_best_fit], and both fields are kept otherwise.  Strictly below
    is meant in the order of the naturals with [float('inf')] on top: the
    first call, which finds [float('inf')], always replaces, and a later
    call replaces exactly when the minimal elite fitness is the smaller
    number.  Along any sequence of calls [global_best_fit] never
    increases. *)
Theorem global_best_ratchet :
  (forall (bs : BeliefSpace.t) elites f,
      elites <> [] -> locates (BeliefSpace.N bs) f elites ->
      exists bs', BeliefSpace.update bs elites f = Ok bs') /\
  (forall (bs bs' : BeliefSpace.t) elites f,
      BeliefSpace.update bs elites f = Ok bs' ->
      exists best,
        min_by ind_fit elites = Ok best /\
        best ∈ elites /\
        (forall e, e ∈ elites -> ind_fit best <= ind_fit e) /\
        fitv_le (BeliefSpace.global_best_fit bs')
                (BeliefSpace.global_best_fit bs) /\
        (fitv_lt (Fin (ind_fit best)) (BeliefSpace.global_best_fit bs) ->
         BeliefSpace.global_best_fit bs' = Fin (ind_fit best) /\
         BeliefSpace.global_best bs' =
           Some (SudokuLogic.clone_board (ind_board best))) /\
        (~ fitv_lt (Fin (ind_fit best)) (BeliefSpace.global_best_fit bs) ->
         BeliefSpace.global_best_fit bs' = BeliefSpace.global_best_fit bs /\
         BeliefSpace.global_best bs' = BeliefSpace.global_best bs) /\
        (BeliefSpace.global_best_fit bs = Inf ->
         BeliefSpace.global_best_fit bs' = Fin (ind_fit best) /\
         BeliefSpace.global_best bs' =
           Some (SudokuLogic.clone_board (ind_board best))) /\
        (forall m, BeliefSpace.global_best_fit bs = Fin m ->
           BeliefSpace.global_best_fit bs' = Fin (Nat.min m (ind_fit best)) /\
           (ind_fit best < m ->
            BeliefSpace.global_best bs' =
              Some (SudokuLogic.clone_board (ind_board best))) /\
           (m <= ind_fit best ->
            BeliefSpace.global_best bs' = BeliefSpace.global_best bs)) /\
        (BeliefSpace.global_best_fit bs' <> BeliefSpace.global_best_fit bs
         <-> fitv_lt (Fin (ind_fit best)) (BeliefSpace.global_best_fit bs))) /\
  (forall calls (bs : BeliefSpace.t) f states,
      update_all bs f calls = Ok states ->
      length states = length calls /\
      ratchet (BeliefSpace.global_best_fit bs) states).
Proof.
  assert (forall (bs bs' : BeliefSpace.t) elites f,
    BeliefSpace.update bs elites f = Ok bs' ->
    exists best,
      min_by ind_fit elites = Ok best /\
      fitv_le (BeliefSpace.global_best_fit bs')
              (BeliefSpace.global_best_fit bs) /\
      (fitv_lt (Fin (ind_fit best)) (BeliefSpace.global_best_fit bs) ->
       BeliefSpace.global_best_fit bs' = Fin (ind_fit best) /\
       BeliefSpace.global_best bs' =
         Some (SudokuLogic.clone_board (ind_board best))) /\
      (~ fitv_lt (Fin (ind_fit best)) (BeliefSpace.global_best_fit bs) ->
       BeliefSpace.global_best_fit bs' = BeliefSpace.global_best_fit bs /\
       BeliefSpace.global_best bs' = BeliefSpace.global_best bs)) as Hstep.
  { intros bs bs' elites f. unfold BeliefSpace.update.
    destruct (min_by ind_fit elites) as [best|] eqn:Hbest; [|done].
    cbn [mbind result_bind].
    destruct (lt_fitv (ind_fit best) (BeliefSpace.global_best_fit bs)) eqn:Hlt;
      destruct (foldM _ _ elites) as [acc|]; cbn [mbind result_bind];
      try done; intros [= <-]; exists best; simpl; (split; [done|]).
    - apply lt_fitv_spec in Hlt. split; [by destruct Hlt|].
      split; [done|]. by intros [].
    - assert (Hn : ~ fitv_lt (Fin (ind_fit best))
                             (BeliefSpace.global_best_fit bs)).
      { intros H%lt_fitv_spec. congruence. }
      split; [apply fitv_le_refl|]. split; [by intros ?|done]. }
  split; [|split].
  - intros bs elites f Hne Hloc.
    destruct (update_spec bs elites f Hne Hloc) as (bs' & _ & -> & _). eauto.
  - intros bs bs' elites f Hup.
    destruct (Hstep bs bs' elites f Hup) as (best & Hbest & Hle & Ht & Hf).
    exists best. pose proof (min_by_spec _ _ _ Hbest) as [Hin Hmin].
    split; [done|]. split; [done|]. split; [done|]. split; [done|].
    split; [done|]. split; [done|]. split; [|split].
    + intros HInf. apply Ht. rewrite HInf. apply fitv_lt_Inf.
    + intros m Hm.
      destruct (decide (ind_fit best < m)) as [Hlt|Hge].
      * destruct Ht as [-> Hgb]; [rewrite Hm; by apply fitv_lt_Fin|].
        split; [f_equal; lia|]. split; [done|lia].
      * destruct Hf as [-> Hgb]; [rewrite Hm, fitv_lt_Fin; lia|].
        split; [rewrite Hm; f_equal; lia|]. split; [lia|done].
    + split.
      * intros Hne.
        destruct (decide (lt_fitv (ind_fit best)
                            (BeliefSpace.global_best_fit bs) = true))
          as [Hlt|Hlt]; [by apply lt_fitv_spec|].
        destruct Hf as [Hfit _]; [by rewrite <- lt_fitv_spec|done].
      * intros Hlt Heq. destruct (Ht Hlt) as [Hfit _].
        rewrite <- Heq, Hfit in Hlt. by apply fitv_lt_irrefl in Hlt.
  - induction calls as [|elites calls IH]; intros bs f states; simpl.
    + by intros [= <-].
    + destruct (BeliefSpace.update bs elites f) as [bs'|] eqn:Hup; [|done].
      cbn [mbind result_bind].
      destruct (update_all bs' f calls) as [rest|] eqn:Hrest; [|done].
      cbn [mbind result_bind]. intros [= <-].
      destruct (IH bs' f rest Hrest) as [Hlen Hr].
      destruct (Hstep bs bs' elites f Hup) as (best & _ & Hle & _).
      simpl. split; [by f_equal | by split].
Qed.

Lemma global_best_ratchet_witness :
  exists states,
    update_all (BeliefSpace.init 4)
      (CulturalSolverImpl.get_conflicted_cells sample_solver)
      [[Individual repeated_rows 20; Individual clashing_board 2];
       [Individual repeated_rows 20];
       [Individual solved_board 0; Individual clashing_board 2]]
    = Ok states /\
    length states = 3 /\ ratchet Inf states.
Proof.
  eexists. split; [vm_compute; reflexivity|].
  apply (proj2 (proj2 global_best_ratchet)
           [[Individual repeated_rows 20; Individual clashing_board 2];
            [Individual repeated_rows 20];
            [Individual solved_board 0; Individual clashing_board 2]]
           (BeliefSpace.init 4)
           (CulturalSolverImpl.get_conflicted_cells sample_solver)).
  vm_compute. reflexivity.
Defined.

(** ** Row selection *)

Lemma below_lt_N k n :
  0 < n -> random.below k (Z.to_nat (Z.of_nat n - 1 + 1)) < n.
Proof.
  intros Hn. unfold random.below.
  assert (N.of_nat (Z.to_nat (Z.of_nat n - 1 + 1)) <> 0%N) as Hn' by lia.
  pose proof (N.mod_lt k _ Hn'). lia.
Qed.

Lemma running_S scores k s :
  scores !! k = Some s -> running scores (S k) = running scores k + s.
Proof.
  intros Hk. unfold running. rewrite (take_S_r _ _ _ Hk).
  rewrite sum_list_with_app. simpl. lia.
Qed.

Lemma running_all scores : running scores (length scores) = sum_list scores.
Proof. unfold running. by rewrite firstn_all. Qed.

Lemma qnat_lt a b : (qnat a < qnat b)%Q -> a < b.
Proof. unfold qnat. rewrite <- Zlt_Qlt. lia. Qed.

(** The roulette loop from row [k] on, entered with the running sum of the
    rows before [k], none of which exceeded the pick. *)
Lemma roulette_scan scores pick m k :
  k + m = length scores ->
  (forall r', r' < k -> (qnat (running scores (S r')) <= pick)%Q) ->
  (exists r, BeliefSpace.roulette scores pick (running scores k) (seq k m)
               = Ok (Some r) /\
             r < length scores /\
             (pick < qnat (running scores (S r)))%Q /\
             forall r', r' < r -> (qnat (running scores (S r')) <= pick)%Q) \/
  (BeliefSpace.roulette scores pick (running scores k) (seq k m) = Ok None /\
   forall r', r' < length scores -> (qnat (running scores (S r')) <= pick)%Q).
Proof.
  revert k. induction m as [|m IH]; intros k Hlen Hbelow.
  - right. split; [done|]. intros r' Hr'. apply Hbelow. lia.
  - destruct (lookup_lt_is_Some_2 scores k) as [s Hs]; [lia|].
    cbn [seq BeliefSpace.roulette].
    rewrite (proj2 (item_Ok scores k s) Hs). cbn [mbind result_bind].
    rewrite <- (running_S scores k s Hs).
    destruct (Qlt_le_dec pick (inject_Z (Z.of_nat (running scores (S k)))))
      as [Hlt|Hle].
    + left. exists k. split; [done|]. split; [lia|]. split; [exact Hlt|done].
    + apply (IH (S k)); [lia|].
      intros r' Hr'. destruct (decide (r' = k)) as [->|]; [exact Hle|].
      apply Hbelow. lia.
Qed.

(** The roulette from the point where the pick [u] is known. *)
Lemma select_with_pick_spec (bs : BeliefSpace.t) (u : Q) (w : world) :
  length (BeliefSpace.row_conflict_scores bs) = BeliefSpace.N bs ->
  (0 <= u)%Q ->
  (u < qnat (sum_list (BeliefSpace.row_conflict_scores bs)))%Q ->
  exists r s,
    BeliefSpace.select_with_pick bs u w = (Ok r, w) /\
    r < BeliefSpace.N bs /\
    (u < qnat (running (BeliefSpace.row_conflict_scores bs) (S r)))%Q /\
    (forall r', r' < r ->
       (qnat (running (BeliefSpace.row_conflict_scores bs) (S r')) <= u)%Q) /\
    BeliefSpace.row_conflict_scores bs !! r = Some s /\ 0 < s.
Proof.
  intros Hlen Hu0 Hu.
  set (scores := BeliefSpace.row_conflict_scores bs) in *.
  destruct (roulette_scan scores u (length scores) 0) as
    [(r & Hr & Hlt & Hex & Hfirst)|[_ Hnone]]; [lia|intros; lia| |].
  - destruct (lookup_lt_is_Some_2 scores r) as [s Hs]; [lia|].
    exists r, s.
    unfold BeliefSpace.select_with_pick, range. fold scores.
    rewrite Nat.sub_0_r, <- Hlen.
    change (running scores 0) with 0 in Hr.
    unfold mbind, M_bind, lift. rewrite Hr.
    split; [done|]. split; [lia|]. split; [done|]. split; [done|].
    split; [done|].
    rewrite (running_S scores r s Hs) in Hex.
    assert ((qnat (running scores r) <= u)%Q) as Hprev.
    { destruct r as [|r]; [exact Hu0|]. apply Hfirst. lia. }
    pose proof (qnat_lt _ _ (Qle_lt_trans _ _ _ Hprev Hex)). lia.
  - exfalso. destruct (length scores) as [|n] eqn:En.
    + destruct scores; [|done].
      apply (Qlt_not_le _ _ Hu). exact Hu0.
    + specialize (Hnone n ltac:(lia)).
      rewrite <- En, running_all in Hnone.
      by apply (Qlt_not_le _ _ Hu).
Qed.

(** C8. With all scores zero, [select_target_row] is the library's uniform
    draw of a row index, and answers with an index below [N].  Otherwise
    the pick is the library's draw from [[0, total]], and for every pick
    [u] in [[0, total)] the answer is the first row at which the running
    sum of the scores exceeds [u]; that row has a positive score. *)
Theorem select_target_row_roulette :
  (forall (bs : BeliefSpace.t) (w : world),
      sum_list (BeliefSpace.row_conflict_scores bs) = 0 ->
      BeliefSpace.select_target_row bs w =
        random.randint0 (Z.of_nat (BeliefSpace.N bs) - 1) w /\
      (0 < BeliefSpace.N bs ->
       exists r w', BeliefSpace.select_target_row bs w = (Ok r, w') /\
                    r < BeliefSpace.N bs)) /\
  (forall (bs : BeliefSpace.t) (u : Q) (w : world),
      length (BeliefSpace.row_conflict_scores bs) = BeliefSpace.N bs ->
      (0 <= u)%Q ->
      (u < qnat (sum_list (BeliefSpace.row_conflict_scores bs)))%Q ->
      exists r s,
        BeliefSpace.select_with_pick bs u w = (Ok r, w) /\
        r < BeliefSpace.N bs /\
        (u < qnat (running (BeliefSpace.row_conflict_scores bs) (S r)))%Q /\
        (forall r', r' < r ->
           (qnat (running (BeliefSpace.row_conflict_scores bs) (S r')) <= u)%Q) /\
        BeliefSpace.row_conflict_scores bs !! r = Some s /\ 0 < s) /\
  (forall (bs : BeliefSpace.t) (w w' : world) (u : Q),
      length (BeliefSpace.row_conflict_scores bs) = BeliefSpace.N bs ->
      sum_list (BeliefSpace.row_conflict_scores bs) <> 0 ->
      random.uniform0 (sum_list (BeliefSpace.row_conflict_scores bs)) w
        = (Ok u, w') ->
      (0 <= u)%Q ->
      (u < qnat (sum_list (BeliefSpace.row_conflict_scores bs)))%Q ->
      exists r s,
        BeliefSpace.select_target_row bs w = (Ok r, w') /\
        r < BeliefSpace.N bs /\
        (u < qnat (running (BeliefSpace.row_conflict_scores bs) (S r)))%Q /\
        (forall r', r' < r ->
           (qnat (running (BeliefSpace.row_conflict_scores bs) (S r')) <= u)%Q) /\
        BeliefSpace.row_conflict_scores bs !! r = Some s /\ 0 < s).
Proof.
  split; [|split].
  - intros bs w Hzero. unfold BeliefSpace.select_target_row.
    rewrite decide_True by done. split; [done|].
    intros HN. unfold random.randint0.
    rewrite decide_False by lia. unfold random.randbelow.
    rewrite decide_False by lia.
    eexists _, _. split; [reflexivity|].
    apply below_lt_N. lia.
  - intros bs u w. apply select_with_pick_spec.
  - intros bs w w' u Hlen Hsum Hdraw Hu0 Hu.
    destruct (select_with_pick_spec bs u w' Hlen Hu0 Hu)
      as (r & s & Hsel & Hrest).
    exists r, s. split; [|done].
    unfold BeliefSpace.select_target_row. rewrite decide_False by done.
    unfold mbind, M_bind at 1. by rewrite Hdraw.
Qed.

Lemma select_target_row_roulette_witness :
  exists r s,
    BeliefSpace.select_target_row sample_beliefs (start high_tape)
      = (Ok r, World high_tape 1 [] []) /\
    r < 4 /\
    (Qmake 9 4 < qnat (running (BeliefSpace.row_conflict_scores sample_beliefs) (S r)))%Q /\
    (forall r', r' < r -> (qnat (running (BeliefSpace.row_conflict_scores sample_beliefs) (S r')) <= Qmake 9 4)%Q) /\
    (BeliefSpace.row_conflict_scores sample_beliefs) !! r = Some s /\ 0 < s.
Proof.
  assert (random.uniform0 3 (start high_tape)
          = (Ok (Qmake (3 * (2 ^ 52 + 2 ^ 51)) (2 ^ 53)),
             World high_tape 1 [] [])) as Hdraw by (vm_compute; reflexivity).
  destruct (proj2 (proj2 select_target_row_roulette) sample_beliefs
              (start high_tape)
              (World high_tape 1 [] [])
              (Qmake (3 * (2 ^ 52 + 2 ^ 51)) (2 ^ 53)))
    as (r & s & Hsel & Hr & Hlt & Hfirst & Hs & Hpos).
  - reflexivity.
  - simpl. lia.
  - exact Hdraw.
  - vm_compute. discriminate.
  - vm_compute. reflexivity.
  - exists r, s. split; [exact Hsel|]. split; [exact Hr|].
    assert (Qmake (3 * (2 ^ 52 + 2 ^ 51)) (2 ^ 53) == Qmake 9 4)%Q as E
      by (vm_compute; reflexivity).
    split; [by rewrite <- E|]. split; [|done].
    intros r' Hr'. rewrite <- E. by apply Hfirst.
Defined.

(** ** Sorting and the elites *)

Lemma insert_by_Permutation {A} (key : A -> nat) x l :
  insert_by key x l ≡ₚ x :: l.
Proof.
  induction l as [|y l IH]; [done|]. simpl.
  destruct (decide (key x <= key y)); [done|].
  rewrite IH. apply Permutation_swap.
Qed.

Lemma sort_by_Permutation {A} (key : A -> nat) l : sort_by key l ≡ₚ l.
Proof.
  induction l as [|x l IH]; [done|]. simpl.
  rewrite insert_by_Permutation. by f_equiv.
Qed.

Lemma insert_by_sorted {A} (key : A -> nat) x l :
  StronglySorted (fun a b => key a <= key b) l ->
  StronglySorted (fun a b => key a <= key b) (insert_by key x l).
Proof.
  induction 1 as [|y l Hl IH Hy]; simpl.
  - repeat constructor.
  - destruct (decide (key x <= key y)) as [Hxy|Hxy].
    + constructor; [by constructor|].
      constructor; [done|].
      eapply Forall_impl; [exact Hy|]. simpl. intros. lia.
    + constructor; [done|].
      rewrite insert_by_Permutation. constructor; [lia|done].
Qed.

Lemma sort_by_sorted {A} (key : A -> nat) l :
  StronglySorted (fun a b => key a <= key b) (sort_by key l).
Proof.
  induction l as [|x l IH]; simpl; [constructor | by apply insert_by_sorted].
Qed.

Lemma sorted_take_drop {A} (key : A -> nat) l k e p :
  StronglySorted (fun a b => key a <= key b) l ->
  e ∈ take k l -> p ∈ drop k l -> key e <= key p.
Proof.
  intros Hs. revert k. induction Hs as [|x l Hl IH Hx]; intros k.
  - rewrite take_nil. by intros ?%elem_of_nil.
  - destruct k as [|k]; simpl; [by intros ?%elem_of_nil|].
    intros [->|He]%elem_of_cons Hp.
    + eapply Forall_forall in Hx; [done|]. by eapply (subseteq_drop k).
    + by eapply IH.
Qed.

(** [int] of a finite float is its value truncated toward zero. *)
Lemma int_of_float_truncates x q :
  Q_of_float x = Some q ->
  int_of_float x = Ok (if Qle_bool 0 q then Qfloor q else Qceiling q).
Proof.
  destruct x as [s| | |s m e]; simpl; try done.
  - by intros [= <-].
  - intros [= <-]. f_equal.
    destruct (decide (0 <= e)%Z) as [He|He].
    + assert (0 < Z.pos m * 2 ^ e)%Z as Hpos.
      { apply Z.mul_pos_pos; [lia|]. by apply Z.pow_pos_nonneg. }
      destruct s; unfold Qle_bool, Qceiling, Qfloor, inject_Z, Qopp;
        simpl Qnum; simpl Qden;
        match goal with
        | |- context [if ?c then _ else _] => destruct c eqn:E
        end;
        try (apply Z.leb_le in E); try (apply Z.leb_gt in E);
        rewrite ?Z.opp_involutive, ?Z.div_1_r; lia.
    + assert (0 < 2 ^ (- e))%Z as Hpos by (apply Z.pow_pos_nonneg; lia).
      assert (Z.pos (Z.to_pos (2 ^ (- e))) = 2 ^ (- e))%Z as Hd
        by (apply Z2Pos.id; lia).
      destruct s; unfold Qle_bool, Qceiling, Qfloor, Qopp;
        simpl Qnum; simpl Qden; rewrite ?Hd;
        match goal with
        | |- context [if ?c then _ else _] => destruct c eqn:E
        end;
        try (apply Z.leb_le in E); try (apply Z.leb_gt in E);
        rewrite ?Z.opp_involutive; try lia.
Qed.

(** The sort is stable: the elements of one key keep the order they have
    in the list given. *)
Lemma insert_by_stable {A} (key : A -> nat) k x l :
  filter (fun a => key a = k) (insert_by key x l)
  = filter (fun a => key a = k) (x :: l).
Proof.
  induction l as [|y l IH]; [done|]. simpl.
  destruct (decide (key x <= key y)) as [Hxy|Hxy]; [done|].
  rewrite filter_cons, IH, !filter_cons.
  repeat case_decide; try done; lia.
Qed.

Lemma sort_by_stable {A} (key : A -> nat) k l :
  filter (fun a => key a = k) (sort_by key l) = filter (fun a => key a = k) l.
Proof.
  induction l as [|x l IH]; [done|]. simpl.
  by rewrite insert_by_stable, !filter_cons, IH.
Qed.

(** Two lists sorted by key in which the elements of each key come in the
    same order are one list: a stable sort has one result. *)
Lemma stable_sorted_unique {A} (key : A -> nat) l1 l2 :
  StronglySorted (fun a b => key a <= key b) l1 ->
  StronglySorted (fun a b => key a <= key b) l2 ->
  (forall k, filter (fun a => key a = k) l1 = filter (fun a => key a = k) l2) ->
  l1 = l2.
Proof.
  intros H1. revert l2.
  induction H1 as [|x l1 Hs1 IH Hx]; intros l2 H2 Hf.
  - destruct l2 as [|y l2]; [done|]. specialize (Hf (key y)).
    rewrite filter_nil, filter_cons, decide_True in Hf by done. done.
  - destruct l2 as [|y l2].
    { specialize (Hf (key x)).
      rewrite filter_nil, filter_cons, decide_True in Hf by done. done. }
    apply StronglySorted_inv in H2 as [Hs2 Hy].
    assert (Hxy : key y <= key x).
    { assert (Hin : x ∈ filter (fun a => key a = key x) (y :: l2)).
      { rewrite <- Hf, filter_cons, decide_True by done. left. }
      apply list_elem_of_filter in Hin as [_ Hin].
      apply elem_of_cons in Hin as [->|Hin]; [done|].
      rewrite Forall_forall in Hy. by apply Hy. }
    assert (Hyx : key x <= key y).
    { assert (Hin : y ∈ filter (fun a => key a = key y) (x :: l1)).
      { rewrite Hf, filter_cons, decide_True by done. left. }
      apply list_elem_of_filter in Hin as [_ Hin].
      apply elem_of_cons in Hin as [->|Hin]; [done|].
      rewrite Forall_forall in Hx. by apply Hx. }
    assert (Hk : key x = key y) by lia.
    assert (x = y) as <-.
    { specialize (Hf (key x)).
      rewrite !filter_cons, decide_True in Hf by done.
      rewrite decide_True in Hf by done. by injection Hf. }
    f_equal. apply IH; [done|]. intros k. specialize (Hf k).
    rewrite !filter_cons in Hf. case_decide; [by injection Hf|done].
Qed.

(** C7 (as the code has it). The elite count is
    [max(2, int(pop_size * elite_frac))], the product being the rounded
    binary64 product and [int] the truncation toward zero; the elites are
    the first [num_elite] individuals of the population sorted ascending by
    cached fitness, all of them when the population has fewer.  The sort is
    stable: individuals of one cached fitness keep the order they have in
    the population, which fixes the sorted population, and with it the
    elites among tied individuals, as the one list with these properties. *)
Theorem elite_selection :
  forall (self : CulturalSolverImpl.t) (pop sorted elites : list individual)
         (k : Z),
    CulturalSolverImpl.select_elites self pop = Ok (sorted, k, elites) ->
    (exists n x,
        float_of_int (Z.of_nat (CulturalSolverImpl.pop_size self)) = Ok n /\
        int_of_float (SFmul prec emax n (CulturalSolverImpl.elite_frac self))
          = Ok x /\
        (forall q,
            Q_of_float (SFmul prec emax n (CulturalSolverImpl.elite_frac self))
              = Some q ->
            x = if Qle_bool 0 q then Qfloor q else Qceiling q) /\
        k = Z.max 2 x) /\
    sorted ≡ₚ pop /\
    StronglySorted (fun a b => ind_fit a <= ind_fit b) sorted /\
    elites = take (Z.to_nat k) sorted /\
    length elites = Nat.min (Z.to_nat k) (length pop) /\
    (forall e p, e ∈ elites -> p ∈ drop (Z.to_nat k) sorted ->
                 ind_fit e <= ind_fit p) /\
    (forall f, filter (fun p => ind_fit p = f) sorted
               = filter (fun p => ind_fit p = f) pop) /\
    (forall l,
        StronglySorted (fun a b => ind_fit a <= ind_fit b) l ->
        (forall f, filter (fun p => ind_fit p = f) l
                   = filter (fun p => ind_fit p = f) pop) ->
        sorted = l /\ elites = take (Z.to_nat k) l).
Proof.
  intros self pop sorted elites k. unfold CulturalSolverImpl.select_elites.
  destruct (CulturalSolverImpl.num_elite self) as [k'|] eqn:Hk; [|done].
  cbn [mbind result_bind]. intros [= <- <- <-].
  split; [|split; [apply sort_by_Permutation|]].
  - unfold CulturalSolverImpl.num_elite in Hk.
    destruct (float_of_int _) as [n|]; [|done]. cbn [mbind result_bind] in Hk.
    destruct (int_of_float _) as [x|] eqn:Hx; [|done].
    cbn [mbind result_bind] in Hk. injection Hk as <-.
    exists n, x. split; [done|]. split; [done|]. split; [|done].
    intros q Hq. rewrite (int_of_float_truncates _ q Hq) in Hx.
    by injection Hx.
  - split; [apply sort_by_sorted|]. split; [done|]. split; [|split; [|split]].
    + rewrite length_take. by rewrite (sort_by_Permutation ind_fit pop).
    + intros e p. apply sorted_take_drop, sort_by_sorted.
    + intros f. apply sort_by_stable.
    + intros l Hl Hf.
      assert (sort_by ind_fit pop = l) as <-; [|done].
      apply (stable_sorted_unique ind_fit); [apply sort_by_sorted|done|].
      intros f. by rewrite sort_by_stable, Hf.
Qed.

Lemma elite_selection_witness :
  exists sorted elites,
    CulturalSolverImpl.select_elites fifteen_solver
      [Individual repeated_rows 20; Individual solved_board 0;
       Individual clashing_board 2; Individual clashing_board 2]
    = Ok (sorted, 3%Z, elites) /\
    sorted ≡ₚ [Individual repeated_rows 20; Individual solved_board 0;
               Individual clashing_board 2; Individual clashing_board 2] /\
    elites = take 3 sorted /\ length elites = 3.
Proof.
  eexists _, _. split; [vm_compute; reflexivity|].
  destruct (elite_selection fifteen_solver
              [Individual repeated_rows 20; Individual solved_board 0;
               Individual clashing_board 2; Individual clashing_board 2]
              _ _ 3%Z ltac:(vm_compute; reflexivity))
    as (_ & Hperm & _ & Htake & Hlen & _).
  split; [exact Hperm|]. split; [exact Htake | exact Hlen].
Defined.

(** C7 (as the specification words it) fails: for a population of 15 and an
    elite fraction of 0.25 the product is 3.75, which [int] truncates to 3
    and rounding takes to 4. *)
Lemma elite_count_rounding_fails :
  CulturalSolverImpl.num_elite fifteen_solver = Ok 3%Z /\
  claimed_num_elite (CulturalSolverImpl.pop_size fifteen_solver)
                    (CulturalSolverImpl.elite_frac fifteen_solver) = Some 4%Z /\
  exists sorted elites,
    CulturalSolverImpl.select_elites fifteen_solver
      [Individual repeated_rows 20; Individual solved_board 0;
       Individual clashing_board 2; Individual clashing_board 2]
    = Ok (sorted, 3%Z, elites) /\
    Z.of_nat (length elites) <> 4%Z.
Proof.
  split; [vm_compute; reflexivity|]. split; [vm_compute; reflexivity|].
  eexists _, _. split; [vm_compute; reflexivity|]. vm_compute. discriminate.
Qed.

(** ** Rules for [effect] and [triple] *)

Lemma effect_ret {A} R t (a : A) (φ : A -> Prop) : φ a -> effect R t (mret a) φ.
Proof.
  intros Ha w. exists (Ok a), w, []. rewrite app_nil_r. by repeat split.
Qed.

Lemma effect_lift {A} R t (r : result A) (φ : A -> Prop) :
  match r with Ok a => φ a | Raise _ => t = false end ->
  effect R t (lift r) φ.
Proof.
  intros Hr w. exists r, w, []. rewrite app_nil_r. by repeat split.
Qed.

Lemma effect_bind {A B} R t (m : M A) (k : A -> M B) φ ψ :
  effect R t m φ -> (forall a, φ a -> effect R t (k a) ψ) ->
  effect R t (m ≫= k) ψ.
Proof.
  intros Hm Hk w. destruct (Hm w) as (r & w1 & new1 & Em & Hy & Hc & HR & Hr).
  unfold mbind, M_bind. rewrite Em. destruct r as [a|e].
  - destruct (Hk a Hr w1) as (r2 & w2 & new2 & Ek & Hy2 & Hc2 & HR2 & Hr2).
    exists r2, w2, (new1 ++ new2). rewrite Ek. split; [done|].
    split; [congruence|]. split; [by rewrite Hc2, Hc, app_assoc|].
    split; [by apply Forall_app|done].
  - exists (Raise e), w1, new1. done.
Qed.

Lemma effect_weaken {A} (R R' : board -> Prop) t t' (m : M A)
    (φ φ' : A -> Prop) :
  effect R t m φ -> (forall b, R b -> R' b) -> (forall a, φ a -> φ' a) ->
  (t' = true -> t = true) -> effect R' t' m φ'.
Proof.
  intros Hm HR Hφ Ht w.
  destruct (Hm w) as (r & w' & new & Em & Hy & Hc & Hn & Hr).
  exists r, w', new. split; [done|]. split; [done|]. split; [done|].
  split; [by eapply Forall_impl|].
  destruct r; [by apply Hφ|]. destruct t'; [|done].
  rewrite Ht in Hr; done.
Qed.

Lemma effect_record R t (b : board) :
  R b -> effect R t (record_candidate b) (fun _ => True).
Proof.
  intros Hb w. eexists (Ok tt), _, [b]. split; [reflexivity|].
  simpl. split; [done|]. split; [done|]. by repeat constructor.
Qed.

Lemma effect_forM {A B} R t (body : B -> A -> M B) (I : list A -> B -> Prop)
    acc xs :
  I [] acc ->
  (forall done x rest acc, xs = done ++ x :: rest -> I done acc ->
     effect R t (body acc x) (I (done ++ [x]))) ->
  effect R t (forM body acc xs) (I xs).
Proof.
  intros H0 Hstep.
  assert (forall rest done acc, xs = done ++ rest -> I done acc ->
            effect R t (forM body acc rest) (I xs)) as H.
  { induction rest as [|x rest IH]; intros done acc0 Hxs HI; simpl.
    - rewrite app_nil_r in Hxs. subst. by apply effect_ret.
    - eapply effect_bind; [by eapply Hstep|].
      intros acc1 H1. apply (IH (done ++ [x])); [|done].
      by rewrite <- app_assoc. }
  by apply (H xs []).
Qed.

Lemma effect_replicateM {A} R t (m : M A) (φ : A -> Prop) n :
  effect R t m φ ->
  effect R t (replicateM n m) (fun xs => length xs = n /\ Forall φ xs).
Proof.
  intros Hm. induction n as [|n IH]; simpl.
  - by apply effect_ret.
  - eapply effect_bind; [exact Hm|]. intros x Hx.
    eapply effect_bind; [exact IH|]. intros xs [Hlen Hxs].
    apply effect_ret. simpl. split; [by f_equal | by constructor].
Qed.

Lemma triple_ret {A} (P : world -> Prop) (a : A) Q E :
  (forall w, P w -> Q a w) -> triple P (mret a) Q E.
Proof. intros H w Hw. by apply H. Qed.

Lemma triple_bind {A B} P (m : M A) (k : A -> M B) Q' Q E :
  triple P m Q' E -> (forall a, triple (Q' a) (k a) Q E) ->
  triple P (m ≫= k) Q E.
Proof.
  intros Hm Hk w Hw. specialize (Hm w Hw). unfold mbind, M_bind.
  destruct (m w) as [[a|e] w1]; [by apply Hk | done].
Qed.

Lemma triple_lift {A} (P : world -> Prop) (r : result A) Q E :
  (forall w, P w -> match r with Ok a => Q a w | Raise _ => E w end) ->
  triple P (lift r) Q E.
Proof. intros H w Hw. specialize (H w Hw). unfold lift. by destruct r. Qed.

Lemma triple_conseq {A} (P P' : world -> Prop) (m : M A) Q Q' E E' :
  triple P' m Q' E' ->
  (forall w, P w -> P' w) -> (forall a w, Q' a w -> Q a w) ->
  (forall w, E' w -> E w) -> triple P m Q E.
Proof.
  intros Hm HP HQ HE w Hw. specialize (Hm w (HP w Hw)).
  destruct (m w) as [[a|e] w1]; [by apply HQ | by apply HE].
Qed.

Lemma triple_yield (P : world -> Prop) e Q E :
  (forall w, P w ->
     Q tt (World (tape w) (pos w) (yielded w ++ [e]) (candidates w))) ->
  triple P (yield e) Q E.
Proof. intros H w Hw. by apply H. Qed.

Lemma triple_effect {A} R t (P : world -> Prop) (m : M A) (φ : A -> Prop) E :
  effect R t m φ -> stable R P -> (forall w, P w -> E w) ->
  triple P m (fun a w => P w /\ φ a) E.
Proof.
  intros Hm Hst HE w Hw.
  destruct (Hm w) as (r & w' & new & -> & Hy & Hc & Hn & Hr).
  assert (P w') by (by eapply Hst).
  destruct r; [done | by apply HE].
Qed.

(** ** The [random] module *)

Lemma below_lt k n : n <> 0 -> random.below k n < n.
Proof.
  intros Hn. unfold random.below.
  assert (N.of_nat n <> 0%N) as Hn' by lia.
  pose proof (N.mod_lt k _ Hn'). lia.
Qed.

Lemma effect_draw R t : effect R t random.draw (fun _ => True).
Proof.
  intros w. eexists (Ok _), _, []. split; [reflexivity|].
  rewrite app_nil_r. by repeat split.
Qed.

Lemma effect_randbelow R n :
  effect R (bool_decide (n <> 0)) (random.randbelow n) (fun k => k < n).
Proof.
  unfold random.randbelow. destruct (decide (n = 0)) as [->|Hn].
  - by apply effect_lift.
  - eapply effect_bind; [apply effect_draw|]. intros k _.
    apply effect_ret. by apply below_lt.
Qed.

Lemma effect_random_lt R t num den :
  effect R t (random.random_lt num den) (fun _ => True).
Proof.
  unfold random.random_lt.
  eapply effect_bind; [apply effect_draw|]. intros k _. by apply effect_ret.
Qed.

Lemma effect_choice {A} R (xs : list A) :
  effect R (bool_decide (xs <> [])) (random.choice xs) (fun x => x ∈ xs).
Proof.
  unfold random.choice. destruct (decide (length xs = 0)) as [Hz|Hz].
  - apply effect_lift. destruct xs; [done|]. done.
  - assert (xs <> []) as Hne by (by destruct xs).
    rewrite (bool_decide_eq_true_2 _ Hne).
    eapply effect_bind.
    { eapply effect_weaken; [apply effect_randbelow|done|done|].
      intros _. by apply bool_decide_eq_true_2. }
    intros i Hi. apply effect_lift. simpl in Hi.
    destruct (lookup_lt_is_Some_2 xs i Hi) as [x Hx].
    rewrite (proj2 (item_Ok xs i x) Hx). by eapply list_elem_of_lookup_2.
Qed.

(** Exchanging two entries permutes the list. *)
Lemma insert_head_Permutation {A} (l : list A) j (a y : A) :
  l !! j = Some y -> y :: <[j := a]> l ≡ₚ a :: l.
Proof.
  revert j. induction l as [|z l IH]; intros [|j]; simpl; try done.
  - intros [= ->]. apply Permutation_swap.
  - intros Hj. rewrite (Permutation_swap z y), IH by done.
    apply Permutation_swap.
Qed.

Lemma swap_Permutation {A} (l : list A) i j (x y : A) :
  l !! i = Some x -> l !! j = Some y -> <[j := x]> (<[i := y]> l) ≡ₚ l.
Proof.
  revert i j. induction l as [|z l IH]; intros [|i] [|j]; simpl; try done.
  - intros [= ->] [= ->]. done.
  - intros [= ->] Hj. by apply insert_head_Permutation.
  - intros Hi [= ->]. by apply insert_head_Permutation.
  - intros Hi Hj. f_equiv. by apply IH.
Qed.

Lemma swap_items_Ok {A} (l : list A) i j :
  i < length l -> j < length l ->
  exists l', random.swap_items l i j = Ok l' /\ l' ≡ₚ l.
Proof.
  intros Hi Hj.
  destruct (lookup_lt_is_Some_2 l i Hi) as [xi Hxi].
  destruct (lookup_lt_is_Some_2 l j Hj) as [xj Hxj].
  unfold random.swap_items.
  rewrite (proj2 (item_Ok l j xj) Hxj), (proj2 (item_Ok l i xi) Hxi).
  cbn [mbind result_bind]. rewrite set_item_Ok by done.
  cbn [mbind result_bind]. rewrite set_item_Ok by (by rewrite length_insert).
  eexists. split; [done|]. by apply swap_Permutation.
Qed.

Lemma effect_shuffle {A} R (x : list A) :
  effect R true (random.shuffle x) (fun x' => x' ≡ₚ x).
Proof.
  unfold random.shuffle.
  assert (forall i (y : list A), y ≡ₚ x -> i < length y \/ (i = 0 /\ y = []) ->
            effect R true (random.shuffle_from i y) (fun x' => x' ≡ₚ x)) as H.
  { induction i as [|i IH]; intros y Hy Hi; simpl.
    - by apply effect_ret.
    - destruct Hi as [Hi|[? _]]; [|done].
      eapply effect_bind.
      { eapply effect_weaken; [apply (effect_randbelow R (S (S i)))|done|done|].
        done. }
      intros j Hj. simpl in Hj.
      destruct (swap_items_Ok y (S i) j) as (y' & Hsw & Hperm); [lia..|].
      eapply effect_bind;
        [apply (effect_lift R true _ (fun z => z ≡ₚ y)); rewrite Hsw;
         exact Hperm|].
      intros y'' Hy''. apply IH; [by rewrite Hy''|].
      left. rewrite Hy''. lia. }
  apply H; [done|]. destruct x; [by right | left; simpl; lia].
Qed.

Lemma effect_lift_Ok {A} R t (r : result A) (a : A) :
  r = Ok a -> effect R t (lift r) (fun z => z = a).
Proof. intros ->. by apply effect_lift. Qed.

Lemma effect_sample2 {A} R (xs : list A) :
  effect R (bool_decide (2 <= length xs)) (random.sample2 xs)
         (fun p => p.1 ∈ xs /\ p.2 ∈ xs).
Proof.
  unfold random.sample2. destruct (decide (length xs < 2)) as [Hlt|Hge].
  - apply effect_lift. rewrite bool_decide_eq_false_2; [done|lia].
  - rewrite bool_decide_eq_true_2 by lia.
    eapply effect_bind.
    { eapply effect_weaken; [apply effect_randbelow|done|done|].
      intros _. apply bool_decide_eq_true_2. lia. }
    intros j1 Hj1. simpl in Hj1.
    destruct (lookup_lt_is_Some_2 xs j1 Hj1) as [x1 Hx1].
    destruct (lookup_lt_is_Some_2 xs (length xs - 1)) as [xl Hxl]; [lia|].
    eapply effect_bind;
      [apply (effect_lift_Ok R true _ x1); by apply item_Ok|].
    intros ? ->.
    eapply effect_bind;
      [apply (effect_lift_Ok R true _ xl); by apply item_Ok|].
    intros ? ->.
    eapply effect_bind;
      [apply (effect_lift_Ok R true _ (<[j1 := xl]> xs));
       by apply set_item_Ok|].
    intros ? ->.
    eapply effect_bind.
    { eapply effect_weaken; [apply effect_randbelow|done|done|].
      intros _. apply bool_decide_eq_true_2. lia. }
    intros j2 Hj2. simpl in Hj2.
    destruct (lookup_lt_is_Some_2 (<[j1 := xl]> xs) j2) as [x2 Hx2];
      [rewrite length_insert; lia|].
    eapply effect_bind;
      [apply (effect_lift_Ok R true _ x2); by apply item_Ok|].
    intros ? ->. apply effect_ret. simpl.
    split; [by eapply list_elem_of_lookup_2|].
    destruct (decide (j1 = j2)) as [->|Hne].
    + rewrite list_lookup_insert_eq in Hx2 by done. injection Hx2 as <-.
      by eapply list_elem_of_lookup_2.
    + rewrite list_lookup_insert_ne in Hx2 by done.
      by eapply list_elem_of_lookup_2.
Qed.

Lemma effect_uniform0 R t total :
  effect R t (random.uniform0 total) (fun _ => True).
Proof.
  unfold random.uniform0.
  eapply effect_bind; [apply effect_draw|]. intros k _. by apply effect_ret.
Qed.

Lemma effect_randint0 R hi :
  effect R false (random.randint0 hi) (fun r => (Z.of_nat r <= hi)%Z).
Proof.
  unfold random.randint0. destruct (decide (hi < 0)%Z); [by apply effect_lift|].
  eapply effect_weaken; [apply effect_randbelow|done| |done].
  intros r Hr. simpl in Hr. lia.
Qed.

Lemma effect_select_target_row R bs :
  effect R false (BeliefSpace.select_target_row bs) (fun _ => True).
Proof.
  unfold BeliefSpace.select_target_row.
  destruct (decide _).
  - eapply effect_weaken; [apply effect_randint0|done..].
  - eapply effect_bind; [apply (effect_uniform0 R false)|]. intros pick _.
    unfold BeliefSpace.select_with_pick.
    eapply effect_bind;
      [by apply (effect_lift R false _ (fun _ => True));
          destruct (BeliefSpace.roulette _ _ _ _)|].
    intros [r|] _; [by apply effect_ret|].
    eapply effect_weaken; [apply effect_randint0|done..].
Qed.

(** ** What [__init__] builds *)

Lemma mapM_range_square {A} (f : nat -> nat -> result A) n rows :
  mapM (fun i => mapM (fun j => f i j) (range 0 n)) (range 0 n) = Ok rows ->
  square n rows /\
  forall r c, r < n -> c < n ->
    exists v, value_at rows (r, c) = Some v /\ f r c = Ok v.
Proof.
  intros Hm.
  assert (length rows = n) as Hlen.
  { apply mapM_Ok_length in Hm. unfold range in Hm.
    by rewrite length_seq, Nat.sub_0_r in Hm. }
  assert (forall r, r < n -> exists row, rows !! r = Some row /\
            mapM (fun j => f r j) (range 0 n) = Ok row) as Hrow.
  { intros r Hr.
    destruct (mapM_Ok_lookup _ _ _ r r Hm) as (row & ? & ?); [|by eauto].
    by rewrite range_lookup by lia. }
  split; [split; [done|]|].
  - apply Forall_lookup. intros r row Hr.
    destruct (Hrow r) as (row' & Hr' & Hm'); [by apply lookup_lt_Some in Hr; lia|].
    rewrite Hr in Hr'. injection Hr' as <-.
    apply mapM_Ok_length in Hm'. unfold range in Hm'.
    by rewrite length_seq, Nat.sub_0_r in Hm'.
  - intros r c Hr Hc. destruct (Hrow r Hr) as (row & Hrw & Hm').
    destruct (mapM_Ok_lookup _ _ _ c c Hm') as (v & ? & ?);
      [by rewrite range_lookup by lia|].
    exists v. split; [|done]. unfold value_at. simpl. by rewrite Hrw.
Qed.

Lemma built_inv self :
  built self ->
  CulturalSolverImpl.N self = length (CulturalSolverImpl.puzzle self) /\
  square (CulturalSolverImpl.N self) (CulturalSolverImpl.puzzle self) /\
  mask_ok self /\
  (forall rc v, in_grid (CulturalSolverImpl.N self) rc ->
     value_at (CulturalSolverImpl.puzzle self) rc = Some v ->
     value_at (CulturalSolverImpl.fixed self) rc
       = Some (bool_decide (v <> 0%Z))) /\
  (forall r row, CulturalSolverImpl.puzzle self !! r = Some row ->
     CulturalSolverImpl.missing_map self !! r
       = Some (CulturalSolverImpl.missing_of (CulturalSolverImpl.N self) row)) /\
  CulturalSolverImpl.belief_space self
    = BeliefSpace.init (CulturalSolverImpl.N self) /\
  (CulturalSolverImpl.br_h self, CulturalSolverImpl.bc_w self)
    = SudokuLogic.get_block_dims (CulturalSolverImpl.N self).
Proof.
  intros [Hnew Hsq]. unfold CulturalSolverImpl.new in Hnew.
  destruct (SudokuLogic.get_block_dims _) as [h w] eqn:Hdims.
  match type of Hnew with
  | (?X ≫= _) = _ => destruct X as [fx|] eqn:Hfx
  end; cbn [mbind result_bind] in Hnew; [|done].
  match type of Hnew with
  | (?X ≫= _) = _ => destruct X as [mm|] eqn:Hmm
  end; cbn [mbind result_bind] in Hnew; [|done].
  injection Hnew as Hself.
  assert (CulturalSolverImpl.N self = length (CulturalSolverImpl.puzzle self))
    as HN by (by rewrite <- Hself).
  assert (CulturalSolverImpl.fixed self = fx) as Hf by (by rewrite <- Hself).
  assert (CulturalSolverImpl.missing_map self = mm) as Hm
    by (by rewrite <- Hself).
  assert (CulturalSolverImpl.belief_space self =
          BeliefSpace.init (length (CulturalSolverImpl.puzzle self))) as Hb
    by (by rewrite <- Hself).
  assert ((CulturalSolverImpl.br_h self, CulturalSolverImpl.bc_w self)
          = (h, w)) as Hhw by (by rewrite <- Hself).
  clear Hself. rewrite Hhw, HN, Hf, Hm. unfold mask_ok. rewrite HN, Hf.
  apply (mapM_range_square
           (fun i j => v ← cell (CulturalSolverImpl.puzzle self) i j;
                       Ok (bool_decide (v <> 0%Z)))) in Hfx as [Hfsq Hfv].
  split; [done|]. split; [done|]. split; [done|].
  split; [|split; [|by split]].
  - intros [r c] v [Hr Hc] Hv. simpl in Hr, Hc.
    destruct (Hfv r c Hr Hc) as (f & Hf1 & Hf2).
    rewrite (proj2 (cell_value_at _ r c v) Hv) in Hf2. simpl in Hf2.
    by injection Hf2 as <-.
  - intros r row Hr.
    destruct (mapM_Ok_lookup _ _ _ r r Hmm) as (ms & Hms & Hms').
    { rewrite range_lookup; [done|]. apply lookup_lt_Some in Hr. lia. }
    rewrite (proj2 (item_Ok _ r row) Hr) in Hms'. simpl in Hms'.
    by injection Hms' as <-.
Qed.

(** For the grid sizes 4, 6 and 9 the blocks tile the grid. *)
Lemma built_tiles self :
  built self -> CulturalSolverImpl.N self ∈ [4; 6; 9] -> tiles self.
Proof.
  intros Hb HN. destruct (built_inv self Hb) as (_ & _ & _ & _ & _ & _ & Hd).
  assert (CulturalSolverImpl.N self = 4 \/ CulturalSolverImpl.N self = 6 \/
          CulturalSolverImpl.N self = 9) as [E|[E|E]].
  { repeat (apply elem_of_cons in HN as [HN|HN]; [tauto|]).
    by apply elem_of_nil in HN. }
  all: rewrite E in Hd.
  - change (SudokuLogic.get_block_dims 4) with (2, 2) in Hd.
    injection Hd as Hh Hw.
    unfold tiles. rewrite Hh, Hw, E. repeat split; simpl; lia.
  - change (SudokuLogic.get_block_dims 6) with (2, 3) in Hd.
    injection Hd as Hh Hw.
    unfold tiles. rewrite Hh, Hw, E. repeat split; simpl; lia.
  - change (SudokuLogic.get_block_dims 9) with (3, 3) in Hd.
    injection Hd as Hh Hw.
    unfold tiles. rewrite Hh, Hw, E. repeat split; simpl; lia.
Qed.

(** ** The missing values of a row *)

Lemma elem_of_values n v : v ∈ values n <-> (1 <= v <= Z.of_nat n)%Z.
Proof.
  unfold values. rewrite list_elem_of_fmap. split.
  - intros (k & -> & Hk%elem_of_range). lia.
  - intros Hv. exists (Z.to_nat v). split; [lia|]. apply elem_of_range. lia.
Qed.

Lemma NoDup_values n : NoDup (values n).
Proof.
  unfold values, range. apply NoDup_fmap_2; [|apply NoDup_seq].
  intros ???. lia.
Qed.

Lemma length_values n : length (values n) = n.
Proof. unfold values, range. rewrite length_fmap, length_seq. lia. Qed.

Lemma elem_of_clues v row : v ∈ clues row <-> v ∈ row /\ v <> 0%Z.
Proof. unfold clues. rewrite list_elem_of_filter. tauto. Qed.

Lemma length_clues_open row : length (clues row) + open_count row = length row.
Proof.
  unfold clues, open_count. induction row as [|v row IH]; [done|].
  rewrite !filter_cons. repeat case_decide; simpl; try lia; done.
Qed.

Lemma elem_of_missing_of n row v :
  v ∈ CulturalSolverImpl.missing_of n row <-> v ∈ values n /\ v ∉ clues row.
Proof.
  unfold CulturalSolverImpl.missing_of. rewrite elem_of_elements.
  rewrite elem_of_difference, elem_of_list_to_set.
  rewrite elem_of_difference, elem_of_list_to_set, elem_of_singleton.
  fold (values n). rewrite elem_of_clues. tauto.
Qed.

Lemma NoDup_missing_of n row : NoDup (CulturalSolverImpl.missing_of n row).
Proof. unfold CulturalSolverImpl.missing_of. apply NoDup_elements. Qed.

Lemma size_list_to_set_le (l : list Z) :
  size (list_to_set l : gset Z) <= length l.
Proof.
  induction l as [|x l IH].
  { rewrite list_to_set_nil, size_empty. done. }
  rewrite list_to_set_cons, size_union_alt, size_singleton. simpl length.
  assert (size ((list_to_set l : gset Z) ∖ {[x]}) <= size (list_to_set l : gset Z))
    by (apply subseteq_size; set_solver).
  lia.
Qed.

Lemma size_list_to_set_lt (l : list Z) :
  ~ NoDup l -> size (list_to_set l : gset Z) < length l.
Proof.
  induction l as [|x l IH]; intros Hnd; [by destruct Hnd; constructor|].
  rewrite list_to_set_cons. simpl length.
  destruct (decide (x ∈ l)) as [Hin|Hnin].
  - replace ({[x]} ∪ list_to_set l : gset Z) with (list_to_set l : gset Z)
      by set_solver.
    pose proof (size_list_to_set_le l). lia.
  - assert (~ NoDup l) as Hl by (intros ?; apply Hnd; by constructor).
    specialize (IH Hl).
    rewrite size_union_alt, size_singleton.
    assert (size ((list_to_set l : gset Z) ∖ {[x]}) <= size (list_to_set l : gset Z))
      by (apply subseteq_size; set_solver).
    lia.
Qed.

(** The missing list is never shorter than the open cells are many; it is
    longer when a clue is repeated. *)
Lemma length_missing_of n row :
  length row = n ->
  open_count row <= length (CulturalSolverImpl.missing_of n row) /\
  (~ NoDup (clues row) ->
   open_count row < length (CulturalSolverImpl.missing_of n row)).
Proof.
  intros Hlen. pose proof (length_clues_open row) as Hco.
  unfold CulturalSolverImpl.missing_of.
  set (V := list_to_set (Z.of_nat <$> range 1 (n + 1)) : gset Z).
  set (P := (list_to_set row ∖ {[0%Z]}) : gset Z).
  change (length (elements (V ∖ P))) with (size (V ∖ P)).
  assert (size V = n) as HV.
  { unfold V. fold (values n).
    rewrite size_list_to_set by apply NoDup_values. apply length_values. }
  assert (P = list_to_set (clues row)) as HP.
  { apply set_eq. intros v. unfold P.
    rewrite elem_of_difference, !elem_of_list_to_set, elem_of_singleton.
    by rewrite elem_of_clues. }
  assert (size (V ∩ P) <= size P) by (apply subseteq_size; set_solver).
  pose proof (size_list_to_set_le (clues row)) as Hle.
  assert (size (V ∩ P) <= size V) by (apply subseteq_size; set_solver).
  rewrite size_difference_alt, HV. rewrite HP in *. split; [lia|].
  intros Hnd%size_list_to_set_lt. lia.
Qed.

(** On a well-clued row, the clues and the missing values together are the
    values [1 .. n]. *)
Lemma clues_missing_Permutation n row :
  well_clued_row n row ->
  clues row ++ CulturalSolverImpl.missing_of n row ≡ₚ values n.
Proof.
  intros [Hnd Hrange]. apply NoDup_Permutation.
  - apply NoDup_app. split; [done|]. split; [|apply NoDup_missing_of].
    intros v Hv [_ Hm]%elem_of_missing_of. done.
  - apply NoDup_values.
  - intros v. rewrite elem_of_app, elem_of_missing_of. split.
    + intros [Hc|[? _]]; [|done].
      apply elem_of_clues in Hc as [Hin Hnz].
      eapply Forall_forall in Hrange; [|done].
      apply elem_of_values. lia.
    + intros Hv. destruct (decide (v ∈ clues row)); [by left | by right].
Qed.

Lemma length_missing_of_well_clued n row :
  length row = n -> well_clued_row n row ->
  length (CulturalSolverImpl.missing_of n row) = open_count row.
Proof.
  intros Hlen Hwc. pose proof (length_clues_open row).
  pose proof (clues_missing_Permutation n row Hwc) as Hp.
  apply Permutation_length in Hp.
  rewrite length_app, length_values in Hp. lia.
Qed.

(** ** Filling a row *)

Lemma range_split n done x rest :
  range 0 n = done ++ x :: rest -> x = length done /\ length done < n.
Proof.
  intros H.
  assert (range 0 n !! length done = Some x) as Hx.
  { rewrite H. by rewrite list_lookup_middle. }
  unfold range in Hx. rewrite Nat.sub_0_r in Hx.
  apply lookup_seq in Hx. lia.
Qed.

Lemma drop_eq_lookup {A} (l k : list A) c :
  drop c l = drop c k -> l !! c = k !! c.
Proof.
  intros H. transitivity (drop c l !! 0).
  - by rewrite lookup_drop, Nat.add_0_r.
  - rewrite H. by rewrite lookup_drop, Nat.add_0_r.
Qed.

Lemma drop_eq_S {A} (l k : list A) c :
  drop c l = drop c k -> drop (S c) l = drop (S c) k.
Proof.
  intros H. replace (S c) with (c + 1) by lia.
  rewrite <- !drop_drop. by rewrite H.
Qed.

Lemma clues_snoc row v :
  clues (row ++ [v]) = clues row ++ (if decide (v = 0%Z) then [] else [v]).
Proof.
  unfold clues. rewrite filter_app, filter_cons, filter_nil.
  by repeat case_decide.
Qed.

Lemma open_count_snoc row v :
  open_count (row ++ [v]) =
  open_count row + (if decide (v = 0%Z) then 1 else 0).
Proof.
  unfold open_count. rewrite filter_app, length_app, filter_cons, filter_nil.
  by case_decide.
Qed.

Lemma open_count_take_lt prow c :
  prow !! c = Some 0%Z -> open_count (take c prow) < open_count prow.
Proof.
  intros Hc. rewrite <- (take_drop c prow) at 2.
  unfold open_count at 2. rewrite filter_app, length_app.
  fold (open_count (take c prow)).
  rewrite (drop_S _ _ _ Hc), filter_cons, decide_True by done. simpl. lia.
Qed.

Lemma fill_row_spec self r prow missing (b : board) :
  mask_ok self ->
  (forall c v, prow !! c = Some v ->
     value_at (CulturalSolverImpl.fixed self) (r, c)
       = Some (bool_decide (v <> 0%Z))) ->
  length prow = CulturalSolverImpl.N self ->
  b !! r = Some prow ->
  open_count prow <= length missing ->
  exists row,
    CulturalSolverImpl.fill_row self r missing b = Ok (<[r := row]> b) /\
    length row = CulturalSolverImpl.N self /\
    row ≡ₚ clues prow ++ take (open_count prow) missing /\
    (forall c v, prow !! c = Some v -> v <> 0%Z -> row !! c = Some v).
Proof.
  intros Hmask Hfix Hlen Hr Hmiss. unfold CulturalSolverImpl.fill_row.
  set (n := CulturalSolverImpl.N self) in *.
  assert (r < length b) as Hrlt by (by eapply lookup_lt_Some).
  destruct (foldM_inv
    (fun done (acc : board * nat) =>
       let c := length done in
       exists row,
         acc = (<[r := row]> b, open_count (take c prow)) /\
         length row = n /\
         drop c row = drop c prow /\
         take c row ≡ₚ clues (take c prow)
                       ++ take (open_count (take c prow)) missing /\
         (forall c' v, c' < c -> prow !! c' = Some v -> v <> 0%Z ->
                       row !! c' = Some v))
    (fun (acc : board * nat) c =>
       let '(b, idx) := acc in
       f ← cell (CulturalSolverImpl.fixed self) r c;
       if f : bool then Ok (b, idx)
       else v ← item missing idx;
            b' ← set_cell b r c v;
            Ok (b', S idx))
    (b, 0) (range 0 n)) as ([b' idx] & Hf & row & [= -> ->] & Hlrow & _ & Hperm & Hfx).
  - exists prow.
    split; [by rewrite (list_insert_id b r prow Hr)|].
    split; [done|]. split; [done|]. split; [reflexivity|].
    simpl. intros. lia.
  - intros done c [b' idx] (row & [= -> ->] & Hlrow & Hdrop & Hperm & Hfx)
           (rest & Hsplit).
    apply range_split in Hsplit as [-> Hc].
    set (c := length done) in *.
    destruct (lookup_lt_is_Some_2 prow c) as [v Hv]; [lia|].
    assert (row !! c = Some v) as Hrv
      by (by rewrite (drop_eq_lookup row prow c Hdrop)).
    rewrite (proj2 (cell_value_at _ r c _) (Hfix c v Hv)).
    cbn [mbind result_bind]. cbv beta zeta.
    rewrite length_app. simpl length. rewrite Nat.add_1_r. fold c.
    rewrite (take_S_r prow c v Hv), clues_snoc, open_count_snoc.
    destruct (decide (v = 0%Z)) as [->|Hnz].
    + rewrite bool_decide_eq_false_2 by (intros H; by apply H).
      pose proof (open_count_take_lt prow c Hv) as Hidx.
      destruct (lookup_lt_is_Some_2 missing (open_count (take c prow)))
        as [m Hm]; [lia|].
      rewrite (proj2 (item_Ok missing _ m) Hm). cbn [mbind result_bind].
      rewrite (set_cell_Ok (<[r := row]> b) r c m row);
        [|by apply list_lookup_insert_eq|lia].
      cbn [mbind result_bind]. eexists. split; [done|].
      exists (<[c := m]> row). rewrite list_insert_insert_eq, Nat.add_1_r.
      split; [done|]. split; [by rewrite length_insert|]. split; [|split].
      * rewrite drop_insert_lt by lia. by apply drop_eq_S.
      * rewrite (take_S_r (<[c := m]> row) c m)
          by (apply list_lookup_insert_eq; lia).
        rewrite take_insert_ge by lia.
        rewrite (take_S_r missing _ m Hm), app_nil_r, Hperm.
        by rewrite app_assoc.
      * intros c' v' Hc' Hv' Hnz'.
        destruct (decide (c' = c)) as [->|Hne]; [congruence|].
        rewrite list_lookup_insert_ne by done. apply Hfx; [lia|done..].
    + rewrite bool_decide_eq_true_2 by done.
      eexists. split; [done|]. exists row. rewrite Nat.add_0_r.
      split; [done|]. split; [done|]. split; [|split].
      * by apply drop_eq_S.
      * rewrite (take_S_r row c v Hrv), Hperm.
        rewrite <- !app_assoc. f_equiv. apply Permutation_app_comm.
      * intros c' v' Hc' Hv' Hnz'.
        destruct (decide (c' = c)) as [->|Hne]; [congruence|].
        apply Hfx; [lia|done..].
  - rewrite Hf. cbn [mbind result_bind fst]. exists row.
    unfold range in Hperm, Hfx. rewrite length_seq, Nat.sub_0_r in Hperm, Hfx.
    rewrite <- Hlen in Hperm at 2 3. rewrite <- Hlrow in Hperm at 1.
    rewrite !firstn_all in Hperm.
    split; [done|]. split; [done|]. split; [done|].
    intros c v Hv Hnz. apply Hfx; [|done..].
    apply lookup_lt_Some in Hv. lia.
Qed.

(** ** Initial individuals *)

Lemma elem_of_grid n rc : rc ∈ grid n <-> in_grid n rc.
Proof.
  unfold grid, in_grid. rewrite list_elem_of_bind. split.
  - intros (r & (c & ->%list_elem_of_singleton & Hc%elem_of_range)%list_elem_of_bind
              & Hr%elem_of_range). simpl. lia.
  - intros [Hr Hc]. exists rc.1. split; [|apply elem_of_range; lia].
    apply list_elem_of_bind. exists rc.2. split; [|apply elem_of_range; lia].
    apply list_elem_of_singleton. by destruct rc.
Qed.

Lemma random_ind_effect self :
  built self ->
  effect (born self) true (CulturalSolverImpl.random_ind self) (born self).
Proof.
  intros Hb.
  destruct (built_inv self Hb) as (HN & Hpsq & Hmask & Hfix & Hmm & _).
  unfold CulturalSolverImpl.random_ind.
  set (n := CulturalSolverImpl.N self) in *.
  set (pz := CulturalSolverImpl.puzzle self) in *.
  eapply effect_bind.
  - apply (effect_forM _ _ _
      (fun done (b : board) =>
         let k := length done in
         square n b /\
         (forall r prow, k <= r -> pz !! r = Some prow -> b !! r = Some prow) /\
         (forall r prow row, r < k -> pz !! r = Some prow -> b !! r = Some row ->
            (forall c v, prow !! c = Some v -> v <> 0%Z -> row !! c = Some v) /\
            (well_clued_row n prow -> row ≡ₚ values n)))).
    + rewrite clone_board_id. split; [done|]. split; [done|].
      simpl. intros. lia.
    + intros done r rest b Hsplit (Hsq & Hlater & Hdone).
      apply range_split in Hsplit as [-> Hk].
      set (k := length done) in *.
      destruct (square_row n pz k Hpsq Hk) as (prow & Hprow & Hlprow).
      eapply effect_bind;
        [apply (effect_lift_Ok _ true _ (CulturalSolverImpl.missing_of n prow));
         apply item_Ok; by apply Hmm|].
      intros ? ->.
      eapply effect_bind; [apply effect_shuffle|].
      intros missing Hperm.
      pose proof (length_missing_of n prow Hlprow) as [Hge _].
      destruct (fill_row_spec self k prow missing b Hmask) as
        (row & Hfill & Hlrow & Hrow & Hrfix).
      { intros c v Hv. apply Hfix; [|unfold value_at; simpl; fold pz;
                                     by rewrite Hprow].
        split; simpl; [done|]. apply lookup_lt_Some in Hv. lia. }
      { done. }
      { by apply Hlater. }
      { by rewrite Hperm. }
      apply effect_lift. rewrite Hfill. cbv zeta.
      rewrite length_app. simpl length. fold k.
      split; [by apply square_insert|]. split.
      * intros r' prow' Hr' Hp'. rewrite list_lookup_insert_ne by lia.
        apply Hlater; [lia|done].
      * intros r' prow' row' Hr' Hp' Hb'.
        destruct (decide (r' = k)) as [->|Hne].
        -- rewrite Hprow in Hp'. injection Hp' as <-.
           rewrite list_lookup_insert_eq in Hb' by (destruct Hsq; lia).
           injection Hb' as <-. split; [done|].
           intros Hwc.
           pose proof (length_missing_of_well_clued n prow Hlprow Hwc) as Hl.
           rewrite Hrow, <- Hl, <- Hperm, firstn_all, Hperm.
           by apply clues_missing_Permutation.
        -- rewrite list_lookup_insert_ne in Hb' by done.
           apply (Hdone r' prow' row'); [lia|done..].
  - intros b (Hsq & _ & Hrows).
    unfold range in Hrows. rewrite length_seq, Nat.sub_0_r in Hrows.
    assert (born self b) as Hborn.
    { split; [done|]. intros Hwc. split; [by destruct Hsq|]. split.
      - apply Forall_lookup. intros r row Hr.
        assert (r < n) as Hrn
          by (apply lookup_lt_Some in Hr; destruct Hsq; lia).
        destruct (square_row n pz r Hpsq Hrn) as (prow & Hprow & _).
        apply (Hrows r prow row Hrn Hprow Hr).
        by eapply Forall_lookup_1 in Hwc.
      - apply Forall_forall. intros [r c] [Hr Hc]%elem_of_grid Hfx.
        simpl in Hr, Hc. fold n in Hr, Hc.
        destruct (square_value_at n pz (r, c) Hpsq) as [v Hv]; [done|].
        unfold is_fixed in Hfx.
        rewrite (Hfix (r, c) v) in Hfx by done.
        injection Hfx as Hnz%bool_decide_eq_true.
        fold pz. rewrite Hv. unfold value_at in Hv |- *. simpl in *.
        destruct (pz !! r) as [prow|] eqn:Hprow; [|done].
        destruct (square_row n b r Hsq Hr) as (row & Hrow & _).
        rewrite Hrow. simpl in *.
        by apply (Hrows r prow row Hr Hprow Hrow). }
    eapply effect_bind; [by apply effect_record|]. intros _ _.
    by apply effect_ret.
Qed.

Lemma sample_solver_built : built sample_solver.
Proof.
  split; [vm_compute; reflexivity | split; [reflexivity | repeat constructor]].
Qed.

Lemma repeated_clue_solver_built : built repeated_clue_solver.
Proof.
  split; [vm_compute; reflexivity | split; [reflexivity | repeat constructor]].
Qed.

(** C9 (as the code has it). For a solver built from a square puzzle, the
    missing-value list of a row is never shorter than the row's open cells
    are many: it has exactly as many entries when the clues of the row are
    pairwise distinct values of [[1, N]], and more entries when a clue is
    repeated.  Hence no index of the fill is out of range and [random_ind]
    returns a board, whatever the clues. *)
Theorem missing_values_cover_open_cells :
  forall (self : CulturalSolverImpl.t),
    built self ->
    (forall r prow,
        CulturalSolverImpl.puzzle self !! r = Some prow ->
        exists missing,
          CulturalSolverImpl.missing_map self !! r = Some missing /\
          open_count prow <= length missing /\
          (well_clued_row (CulturalSolverImpl.N self) prow ->
           length missing = open_count prow) /\
          (~ NoDup (clues prow) -> open_count prow < length missing)) /\
    (forall w, exists b w',
        CulturalSolverImpl.random_ind self w = (Ok b, w') /\
        square (CulturalSolverImpl.N self) b).
Proof.
  intros self Hb.
  destruct (built_inv self Hb) as (HN & Hpsq & Hmask & Hfix & Hmm & _).
  split.
  - intros r prow Hprow. eexists. split; [by apply Hmm|].
    assert (length prow = CulturalSolverImpl.N self) as Hlen.
    { destruct Hpsq as [_ Hrows]. by eapply Forall_lookup_1 in Hrows. }
    destruct (length_missing_of _ prow Hlen) as [Hge Hgt].
    split; [done|]. split; [|done].
    by apply length_missing_of_well_clued.
  - intros w.
    destruct (random_ind_effect self Hb w)
      as ([b|e] & w' & new & Hrun & _ & _ & _ & Hres); [|done].
    exists b, w'. split; [done|]. by destruct Hres.
Qed.

Lemma missing_values_cover_open_cells_witness :
  (forall r prow,
      CulturalSolverImpl.puzzle sample_solver !! r = Some prow ->
      exists missing,
        CulturalSolverImpl.missing_map sample_solver !! r = Some missing /\
        open_count prow <= length missing /\
        (well_clued_row (CulturalSolverImpl.N sample_solver) prow ->
         length missing = open_count prow) /\
        (~ NoDup (clues prow) -> open_count prow < length missing)) /\
  (forall w, exists b w',
      CulturalSolverImpl.random_ind sample_solver w = (Ok b, w') /\
      square (CulturalSolverImpl.N sample_solver) b).
Proof.
  apply (missing_values_cover_open_cells sample_solver).
  split; [vm_compute; reflexivity | split; [reflexivity | repeat constructor]].
Defined.

(** C9 (as stated) fails in its second half: the first row of this puzzle
    repeats the clue 1, its missing list [3; 4; 2] is longer than its two
    open cells, [random_ind] returns a board whose first row keeps both
    1s, and the run yields its events without raising. *)
Lemma repeated_clue_does_not_raise :
  (exists prow,
      CulturalSolverImpl.puzzle repeated_clue_solver !! 0 = Some prow /\
      ~ NoDup (clues prow)) /\
  CulturalSolverImpl.new repeated_clue_puzzle 6 quarter 0
    = Ok repeated_clue_solver /\
  fst (CulturalSolverImpl.random_ind repeated_clue_solver (start mixed_tape))
    = Ok [[1; 1; 3; 2]; [3; 4; 1; 2]; [2; 3; 4; 1]; [4; 3; 2; 1]]%Z /\
  run repeated_clue_solver mixed_tape =
    (Ok tt,
     [Init [[1; 1; 3; 4]; [3; 4; 1; 2]; [2; 3; 4; 1]; [4; 3; 2; 1]]%Z 5 0 [];
      Fail [[1; 1; 3; 4]; [3; 4; 1; 2]; [2; 3; 4; 1]; [4; 3; 2; 1]]%Z 5 0
           [(2, 3); (2, 1)]]).
Proof.
  split.
  - eexists. split; [reflexivity|]. vm_compute.
    intros H. apply NoDup_cons in H as [H _]. apply H. by left.
  - split; [vm_compute; reflexivity|].
    split; vm_compute; reflexivity.
Qed.

(** ** A run without iterations *)

Lemma mapM_Ok_elem {A B} (f : A -> result B) xs ys y :
  mapM f xs = Ok ys -> y ∈ ys -> exists x, x ∈ xs /\ f x = Ok y.
Proof.
  intros Hm Hy. apply list_elem_of_lookup in Hy as [i Hi].
  assert (i < length xs) as Hlt.
  { rewrite <- (mapM_Ok_length _ _ _ Hm). by eapply lookup_lt_Some. }
  destruct (lookup_lt_is_Some_2 xs i Hlt) as [x Hx].
  destruct (mapM_Ok_lookup _ _ _ i x Hm Hx) as (y' & Hy' & Hf).
  exists x. split; [by eapply list_elem_of_lookup_2|]. congruence.
Qed.

Lemma fitness_total self (b : board) :
  tiles self -> square (CulturalSolverImpl.N self) b ->
  exists f, CulturalSolverImpl.fitness self b = Ok f.
Proof. intros Ht Hsq. rewrite (fitness_by_groups self b Ht Hsq). eauto. Qed.

(** C6. With [max_iters = 0], a solver built from a square puzzle whose
    blocks tile the grid, with a population of at least one, yields exactly
    an [init] event and then a [fail] event; the [fail] event carries
    iteration 0 and the board and fitness of the [init] event. *)
Theorem zero_budget_run :
  forall (self : CulturalSolverImpl.t) (tp : nat -> N),
    built self -> tiles self ->
    CulturalSolverImpl.max_iters self = 0%Z ->
    0 < CulturalSolverImpl.pop_size self ->
    exists b f cells,
      run self tp = (Ok tt, [Init b f 0 []; Fail b f 0 cells]).
Proof.
  intros self tp Hb Ht Hmax Hpop.
  destruct (built_inv self Hb) as (HN & Hpsq & Hmask & _).
  unfold run, CulturalSolverImpl.solve_gen.
  destruct (effect_replicateM (born self) true _ _
              (CulturalSolverImpl.pop_size self) (random_ind_effect self Hb)
              (start tp))
    as ([boards|e] & w1 & new & E1 & Hy1 & _ & _ & Hres); [|done].
  destruct Hres as [Hlen Hboards].
  destruct (mapM_total
              (fun p => f ← CulturalSolverImpl.fitness self p;
                        Ok (Individual p f)) boards) as [pop Hpopl].
  { intros p Hp. eapply Forall_forall in Hboards as [Hsq _]; [|done].
    destruct (fitness_total self p Ht Hsq) as [f ->]. simpl. eauto. }
  destruct (min_by_total ind_fit pop) as [best Hbest].
  { apply mapM_Ok_length in Hpopl. destruct pop; [simpl in *; lia|done]. }
  assert (square (CulturalSolverImpl.N self) (ind_board best)) as Hsq.
  { apply min_by_spec in Hbest as [Hin _].
    destruct (mapM_Ok_elem _ _ _ _ Hpopl Hin) as (p & Hp & Hfp).
    eapply Forall_forall in Hboards as [Hsq _]; [|done].
    destruct (CulturalSolverImpl.fitness self p); simpl in Hfp; [|done].
    by injection Hfp as <-. }
  destruct (get_conflicted_cells_spec self (ind_board best) Ht Hmask Hsq)
    as (cells & Hcells & _).
  exists (ind_board best), (ind_fit best), cells.
  unfold mbind at 1, M_bind at 1. rewrite E1.
  unfold mbind at 1, M_bind at 1, lift at 1. rewrite Hpopl.
  unfold mbind at 1, M_bind at 1, lift at 1. rewrite Hbest.
  rewrite Hmax, clone_board_id.
  cbv beta iota zeta delta
    [mbind M_bind yield Z.to_nat range Nat.add Nat.sub seq fmap list_fmap
     CulturalSolverImpl.iterations mret M_ret lift
     CulturalSolverImpl.cur_best CulturalSolverImpl.cur_best_fit].
  rewrite Hcells. cbn [yielded]. rewrite Hy1. reflexivity.
Qed.

Lemma zero_budget_run_witness :
  exists b f cells,
    run zero_budget_solver mixed_tape
      = (Ok tt, [Init b f 0 []; Fail b f 0 cells]).
Proof.
  apply (zero_budget_run zero_budget_solver mixed_tape).
  - split; [vm_compute; reflexivity | split; [reflexivity | repeat constructor]].
  - unfold tiles. simpl. lia.
  - reflexivity.
  - simpl. lia.
Defined.

(** ** The run, for an arbitrary invariant

    [G] is what holds of the boards of the population, [R] of the recorded
    candidates, and [J f] of the world when the best-known fitness is [f].
    The hypotheses say how the events and the genetic operators treat
    them; the lemmas carry them through the generator. *)

Section Run.

Variable self : CulturalSolverImpl.t.
Variables (R G : board -> Prop) (J : nat -> world -> Prop).

Hypothesis G_R : forall b, G b -> R b.
Hypothesis J_stable : forall f, stable R (J f).
Hypothesis J_mono : forall f f' w, f' <= f -> J f w -> J f' w.
Hypothesis J_init : forall f f' w b,
  J f w -> G b -> J f (emit w (Init b f' 0 [])).
Hypothesis J_iter : forall f f' w b it cells,
  J f w -> f' <= f -> G b -> J f' (emit w (Iter b f' it cells)).
Hypothesis J_swap_try : forall f w r c1 v1 c2 v2,
  J f w -> J f (emit w (SwapTry r c1 v1 c2 v2)).
Hypothesis J_swap_reset : forall f w r c1 c2,
  J f w -> J f (emit w (SwapReset r c1 c2)).
Hypothesis J_done : forall f w b it,
  J f w -> G b -> J 0 (emit w (Done b 0 it [])).
Hypothesis J_fail : forall f w b it cells,
  J f w -> G b -> J 0 (emit w (Fail b f it cells)).

Hypothesis random_ind_G : effect R false (CulturalSolverImpl.random_ind self) G.
Hypothesis crossover_G : forall p1 p2,
  G p1 -> G p2 -> effect R false (CulturalSolverImpl.crossover self p1 p2) G.
Hypothesis mutate_G : forall bs child,
  G child -> effect R false (CulturalSolverImpl.mutate self bs child) G.
Hypothesis polish_swap_G : forall b cells r c1 c2 b',
  G b -> CulturalSolverImpl.get_conflicted_cells self b = Ok cells ->
  (r, c1) ∈ cells ->
  cell (CulturalSolverImpl.fixed self) r c2 = Ok false ->
  CulturalSolverImpl.swap_cells b r c1 c2 = Ok b' -> G b'.

(** A precondition the quiet steps keep, and that implies [J 0]. *)
Definition steady (P : world -> Prop) : Prop :=
  stable R P /\ forall w, P w -> J 0 w.

Lemma steady_J f : steady (J f).
Proof. split; [apply J_stable|]. intros w. apply J_mono. lia. Qed.

Lemma bind_effect_from {A B} t P (m : M A) (k : A -> M B) φ Q :
  steady P -> effect R t m φ ->
  (forall a, φ a -> triple P (k a) Q (J 0)) ->
  triple P (m ≫= k) Q (J 0).
Proof.
  intros [Hst H0] Hm Hk. eapply triple_bind.
  - by eapply (triple_effect R t P m φ (J 0)).
  - intros a w [Hw Ha]. by apply Hk.
Qed.

Lemma bind_lift_from {A B} P (r : result A) (k : A -> M B) Q :
  steady P ->
  (forall a, r = Ok a -> triple P (k a) Q (J 0)) ->
  triple P (lift r ≫= k) Q (J 0).
Proof.
  intros [_ H0] Hk w Hw. unfold mbind, M_bind, lift. destruct r as [a|e].
  - by apply Hk.
  - by apply H0.
Qed.

Lemma bind_effect {A B} t f (m : M A) (k : A -> M B) φ Q :
  effect R t m φ ->
  (forall a, φ a -> triple (J f) (k a) Q (J 0)) ->
  triple (J f) (m ≫= k) Q (J 0).
Proof. apply bind_effect_from, steady_J. Qed.

Lemma bind_lift {A B} f (r : result A) (k : A -> M B) Q :
  (forall a, r = Ok a -> triple (J f) (k a) Q (J 0)) ->
  triple (J f) (lift r ≫= k) Q (J 0).
Proof. apply bind_lift_from, steady_J. Qed.

Lemma bind_yield {B} P f' e (k : unit -> M B) Q :
  (forall w, P w -> J f' (emit w e)) ->
  triple (J f') (k tt) Q (J 0) ->
  triple P (yield e ≫= k) Q (J 0).
Proof. intros He Hk w Hw. unfold mbind, M_bind, yield. by apply Hk, He. Qed.

Lemma filterM_elem {A} (f : A -> result bool) xs ys y :
  filterM f xs = Ok ys -> y ∈ ys -> y ∈ xs /\ f y = Ok true.
Proof.
  revert ys. induction xs as [|x xs IH]; intros ys; simpl.
  - intros [= <-] ?%elem_of_nil. done.
  - destruct (f x) as [keep|] eqn:Hx; [|done]. cbn [mbind result_bind].
    destruct (filterM f xs) as [zs|]; [|done]. cbn [mbind result_bind].
    intros [= <-] Hy. destruct keep.
    + apply elem_of_cons in Hy as [->|Hy]; [by split; [left|]|].
      destruct (IH zs eq_refl Hy). split; [by right|done].
    + destruct (IH zs eq_refl Hy). split; [by right|done].
Qed.

(** The pairs of a population carry boards satisfying [G]. *)
Definition pop_ok (pop : list individual) : Prop :=
  Forall (fun p => G (ind_board p)) pop.

Lemma polish_triple it pop curr_best bad_cells best f :
  pop_ok pop -> G (ind_board curr_best) -> G best ->
  CulturalSolverImpl.get_conflicted_cells self (ind_board curr_best)
    = Ok bad_cells ->
  triple (J f)
    (CulturalSolverImpl.polish self it pop curr_best bad_cells best f)
    (fun r w =>
       match r with
       | None => J 0 w
       | Some (pop', best', f') => J f' w /\ pop_ok pop' /\ G best'
       end)
    (J 0).
Proof.
  intros Hpop Hcb Hbest Hbad. unfold CulturalSolverImpl.polish.
  rewrite clone_board_id.
  destruct (decide (0 < length bad_cells)); [|by apply triple_ret].
  eapply bind_effect; [apply effect_choice|]. intros [r c1] Hrc.
  apply bind_lift. intros mutable_cols Hmc.
  destruct (decide (mutable_cols <> [])); [|by apply triple_ret].
  eapply bind_effect; [apply effect_choice|]. intros c2 Hc2.
  apply bind_lift. intros v2 Hv2. apply bind_lift. intros v1 Hv1.
  eapply bind_yield; [intros w; apply J_swap_try|].
  apply bind_lift. intros polished Hsw.
  assert (G polished) as Hpol.
  { eapply (polish_swap_G (ind_board curr_best) bad_cells r c1 c2); try done.
    destruct (filterM_elem _ _ _ _ Hmc Hc2) as [_ Hf].
    destruct (cell (CulturalSolverImpl.fixed self) r c2) as [[]|];
      simpl in Hf; try done. }
  eapply bind_effect; [by apply (effect_record R false), G_R|]. intros _ _.
  eapply bind_yield; [intros w; apply J_swap_reset|].
  apply bind_lift. intros new_f Hnf.
  destruct (decide (new_f < ind_fit curr_best)); [|by apply triple_ret].
  apply bind_lift. intros pop' Hpop'.
  assert (pop_ok pop') as Hpok.
  { unfold set_item in Hpop'. destruct (decide _); [|done].
    injection Hpop' as <-. by apply Forall_insert. }
  destruct (decide (new_f < f)) as [Hlt|]; [|by apply triple_ret].
  rewrite clone_board_id.
  destruct (decide (new_f = 0)) as [->|].
  - eapply bind_yield; [intros w Hw; by eapply J_done|].
    by apply triple_ret.
  - apply triple_ret. intros w Hw. split; [|done].
    eapply J_mono; [|done]. lia.
Qed.

Lemma make_child_effect bs elites pop :
  pop_ok elites -> pop_ok pop ->
  effect R false (CulturalSolverImpl.make_child self bs elites pop)
         (fun p => G (ind_board p)).
Proof.
  intros He Hp. unfold CulturalSolverImpl.make_child.
  eapply effect_bind.
  { eapply effect_weaken; [apply effect_choice|done|done|done]. }
  intros p1 Hp1.
  eapply effect_bind.
  { eapply effect_weaken; [apply effect_choice|done|done|done]. }
  intros p2 Hp2.
  assert (G (ind_board p1)) by (by eapply Forall_forall in He).
  assert (G (ind_board p2)).
  { eapply Forall_forall in Hp; [done|]. exact (subseteq_take _ _ _ Hp2). }
  eapply effect_bind; [by apply crossover_G|]. intros child Hc.
  eapply effect_bind; [by apply effect_record, G_R|]. intros _ _.
  eapply effect_bind; [by apply mutate_G|]. intros child' Hc'.
  eapply effect_bind; [by apply effect_record, G_R|]. intros _ _.
  eapply effect_bind.
  { apply (effect_lift R false _ (fun _ => True)). by destruct (_ : result nat). }
  intros f _. by apply effect_ret.
Qed.

Lemma grow_effect bs elites pop turns new_pop :
  pop_ok elites -> pop_ok pop -> pop_ok new_pop ->
  effect R false (CulturalSolverImpl.grow self bs elites pop turns new_pop)
         pop_ok.
Proof.
  intros He Hp. revert new_pop. induction turns as [|turns IH];
    intros new_pop Hn; simpl.
  - by apply effect_ret.
  - eapply effect_bind; [by apply make_child_effect|]. intros child Hc.
    apply IH. apply Forall_app. split; [done|]. by constructor.
Qed.

(** What the main loop keeps of its variables. *)
Definition state_ok (st : CulturalSolverImpl.run_state) : Prop :=
  pop_ok (CulturalSolverImpl.cur_pop st) /\ G (CulturalSolverImpl.cur_best st).

Definition after_loop (r : option CulturalSolverImpl.run_state) (w : world)
  : Prop :=
  match r with
  | None => J 0 w
  | Some st => J (CulturalSolverImpl.cur_best_fit st) w /\ state_ok st
  end.

Lemma iteration_triple it st :
  state_ok st ->
  triple (J (CulturalSolverImpl.cur_best_fit st))
         (CulturalSolverImpl.iteration self it st) after_loop (J 0).
Proof.
  intros [Hpop Hbest]. unfold CulturalSolverImpl.iteration.
  apply bind_lift. intros [[pop k] elites] Hsel.
  assert (pop_ok pop) as Hsorted.
  { unfold CulturalSolverImpl.select_elites in Hsel.
    destruct (CulturalSolverImpl.num_elite self); [|done].
    cbn [mbind result_bind] in Hsel. injection Hsel as <- <- <-.
    unfold pop_ok. by rewrite (sort_by_Permutation ind_fit). }
  apply bind_lift. intros bs Hbs.
  apply bind_lift. intros curr_best Hcb.
  assert (G (ind_board curr_best)) as Hgcb.
  { apply item_Ok in Hcb. eapply Forall_lookup_1 in Hsorted; done. }
  apply bind_lift. intros bad_cells Hbad.
  rewrite !clone_board_id.
  set (bf := if decide (ind_fit curr_best < CulturalSolverImpl.cur_best_fit st)
             then (ind_fit curr_best, ind_board curr_best)
             else (CulturalSolverImpl.cur_best_fit st,
                   CulturalSolverImpl.cur_best st)).
  assert (bf.1 <= CulturalSolverImpl.cur_best_fit st /\ G bf.2) as [Hle Hgb].
  { unfold bf. destruct (decide _); simpl; split; (lia || done). }
  destruct bf as [best_fit best]. simpl in Hle, Hgb.
  eapply bind_yield; [intros w Hw; by eapply J_iter|].
  eapply triple_bind; [by apply polish_triple|].
  intros [[[pop' best'] f']|]; [|by apply triple_ret].
  intros w (Hw & Hpop' & Hbest'). revert w Hw.
  change (triple (J f')
    (p0 ← lift (item pop' 0);
     let elites0 :=
       (fun p => Individual (SudokuLogic.clone_board (ind_board p)) (ind_fit p0))
         <$> take (Z.to_nat k) pop' in
     forM (fun (_ : unit) e => record_candidate (ind_board e)) tt elites0;;
     new_pop ← CulturalSolverImpl.grow self bs elites0 pop'
                 (CulturalSolverImpl.pop_size self - length elites0) elites0;
     if decide (f' = 0) then yield (Done best' 0 it []);; mret None
     else mret (Some (CulturalSolverImpl.RunState new_pop best' f' bs)))
    after_loop (J 0)).
  apply bind_lift. intros p0 Hp0. cbv zeta.
  set (elites0 := (fun p => Individual (SudokuLogic.clone_board (ind_board p))
                                       (ind_fit p0))
                    <$> take (Z.to_nat k) pop').
  assert (pop_ok elites0) as Hel.
  { unfold elites0, pop_ok. rewrite Forall_fmap.
    eapply Forall_impl; [by apply Forall_take|].
    intros p Hp. simpl. by rewrite clone_board_id. }
  eapply bind_effect.
  { apply (effect_forM R false _ (fun _ _ => True)); [done|].
    intros done e rest [] He _.
    eapply effect_weaken; [apply (effect_record R false), G_R|done..].
    eapply Forall_forall in Hel; [done|]. rewrite He.
    apply elem_of_app. right. by left. }
  intros _ _.
  eapply bind_effect; [by apply grow_effect|]. intros new_pop Hnew.
  destruct (decide (f' = 0)) as [->|].
  - eapply bind_yield; [intros w Hw; by eapply J_done|].
    by apply triple_ret.
  - apply triple_ret. intros w Hw. split; [done|]. by split.
Qed.

Lemma iterations_triple its st :
  state_ok st ->
  triple (J (CulturalSolverImpl.cur_best_fit st))
         (CulturalSolverImpl.iterations self its st) after_loop (J 0).
Proof.
  revert st. induction its as [|it its IH]; intros st Hst; simpl.
  - apply triple_ret. intros w Hw. by split.
  - eapply triple_bind; [by apply iteration_triple|].
    intros [st'|]; [|by apply triple_ret].
    intros w [Hw Hst']. by apply IH.
Qed.

Lemma solve_gen_triple :
  triple (fun w => forall f, J f w) (CulturalSolverImpl.solve_gen self)
         (fun _ w => J 0 w) (J 0).
Proof.
  assert (steady (fun w => forall f, J f w)) as Hsteady.
  { split; [|by intros w Hw].
    intros w w' new Hy Hc Hn Hw f. by eapply J_stable. }
  unfold CulturalSolverImpl.solve_gen.
  eapply bind_effect_from; [done|by apply effect_replicateM|].
  intros boards [_ Hboards].
  apply bind_lift_from; [done|]. intros pop Hpopl.
  assert (pop_ok pop) as Hpop.
  { apply Forall_forall. intros p Hp.
    destruct (mapM_Ok_elem _ _ _ _ Hpopl Hp) as (b & Hb & Hfb).
    eapply Forall_forall in Hboards; [|done].
    destruct (CulturalSolverImpl.fitness self b); simpl in Hfb; [|done].
    by injection Hfb as <-. }
  apply bind_lift_from; [done|]. intros best Hbest.
  assert (G (ind_board best)) as Hgb.
  { apply min_by_spec in Hbest as [Hin _]. by eapply Forall_forall in Hpop. }
  rewrite clone_board_id.
  eapply (bind_yield _ (ind_fit best)); [intros w Hw; by eapply J_init|].
  eapply triple_bind.
  { apply (iterations_triple _
             (CulturalSolverImpl.RunState pop (ind_board best)
                (ind_fit best) (CulturalSolverImpl.belief_space self))).
    by split. }
  intros [st|]; [|by apply triple_ret].
  intros w [Hw [_ Hst]]. revert w Hw.
  apply bind_lift. intros cells Hcells.
  intros w Hw. unfold yield. by eapply J_fail.
Qed.

End Run.

(** ** The fitness carried by the events *)

Lemma fitness_trace_snoc es e :
  fitness_trace (es ++ [e]) =
  fitness_trace es ++ match event_fitness e with Some f => [f] | None => [] end.
Proof.
  unfold fitness_trace. rewrite omap_app. simpl.
  by destruct (event_fitness e).
Qed.

Lemma StronglySorted_ge_snoc (l : list nat) x :
  StronglySorted ge l -> Forall (fun y => x <= y) l ->
  StronglySorted ge (l ++ [x]).
Proof.
  induction 1 as [|y l Hl IH Hy]; intros Hx; simpl.
  - repeat constructor.
  - apply Forall_cons in Hx as [Hxy Hx]. constructor; [by apply IH|].
    apply Forall_app. split; [done|]. repeat constructor. lia.
Qed.

Lemma trace_ok_silent lo w e :
  event_fitness e = None -> done_zero e ->
  trace_ok lo w -> trace_ok lo (emit w e).
Proof.
  intros He Hd (Hs & Hlo & Hz). unfold trace_ok, emit. simpl.
  rewrite fitness_trace_snoc, He, app_nil_r.
  split; [done|]. split; [done|]. apply Forall_app. by split; [|constructor].
Qed.

Lemma trace_ok_fitness lo lo' w e :
  event_fitness e = Some lo' -> done_zero e -> lo' <= lo ->
  trace_ok lo w -> trace_ok lo' (emit w e).
Proof.
  intros He Hd Hle (Hs & Hlo & Hz). unfold trace_ok, emit. simpl.
  rewrite fitness_trace_snoc, He.
  assert (Forall (fun f => lo' <= f) (fitness_trace (yielded w))) as Hlo'.
  { eapply Forall_impl; [done|]. simpl. intros. lia. }
  split; [by apply StronglySorted_ge_snoc|].
  split; [apply Forall_app; split; [done|by repeat constructor]|].
  apply Forall_app. by split; [|constructor].
Qed.

Lemma trace_ok_mono lo lo' w : lo' <= lo -> trace_ok lo w -> trace_ok lo' w.
Proof.
  intros Hle (Hs & Hlo & Hz). split; [done|]. split; [|done].
  eapply Forall_impl; [done|]. simpl. intros. lia.
Qed.

Lemma trace_ok_stable lo : stable (fun _ => True) (trace_ok lo).
Proof. intros w w' new Hy _ _. unfold trace_ok. by rewrite Hy. Qed.

(** The genetic operators yield nothing, whatever they are given. *)
Lemma effect_lift_any {A} (r : result A) :
  effect (fun _ => True) false (lift r) (fun _ => True).
Proof. apply effect_lift. by destruct r. Qed.

Lemma effect_record_any b :
  effect (fun _ => True) false (record_candidate b) (fun _ => True).
Proof. by apply effect_record. Qed.

Lemma effect_any {A} t (m : M A) (φ : A -> Prop) :
  effect (fun _ => True) t m φ ->
  effect (fun _ => True) false m (fun _ => True).
Proof. intros H. by eapply effect_weaken. Qed.

Lemma random_ind_quiet self :
  effect (fun _ => True) false (CulturalSolverImpl.random_ind self)
         (fun _ => True).
Proof.
  unfold CulturalSolverImpl.random_ind.
  eapply effect_bind.
  - apply (effect_forM _ _ _ (fun _ _ => True)); [done|].
    intros done r rest b _ _.
    eapply effect_bind; [apply effect_lift_any|]. intros missing0 _.
    eapply effect_bind; [apply (effect_any _ _ _ (effect_shuffle _ missing0))|].
    intros missing _. apply effect_lift_any.
  - intros b _. eapply effect_bind; [apply effect_record_any|].
    intros _ _. by apply effect_ret.
Qed.

Lemma crossover_quiet self p1 p2 :
  effect (fun _ => True) false (CulturalSolverImpl.crossover self p1 p2)
         (fun _ => True).
Proof.
  unfold CulturalSolverImpl.crossover.
  eapply effect_bind; [apply effect_random_lt|]. intros from_p1 _.
  apply (effect_forM _ _ _ (fun _ _ => True)); [done|].
  intros done r rest child _ _.
  eapply effect_bind; [apply effect_random_lt|]. intros [] _.
  - eapply effect_bind; [apply effect_lift_any|]. intros row _.
    apply effect_lift_any.
  - by apply effect_ret.
Qed.

Lemma mutate_quiet self bs child :
  effect (fun _ => True) false (CulturalSolverImpl.mutate self bs child)
         (fun _ => True).
Proof.
  unfold CulturalSolverImpl.mutate.
  eapply effect_bind; [apply effect_random_lt|]. intros [] _.
  - eapply effect_bind; [apply effect_select_target_row|]. intros r _.
    eapply effect_bind; [apply effect_lift_any|]. intros mutable _.
    destruct (decide _).
    + eapply effect_bind;
        [apply (effect_any _ _ _ (effect_sample2 _ mutable))|].
      intros cs _. apply effect_lift_any.
    + by apply effect_ret.
  - by apply effect_ret.
Qed.

(** C5. Whatever the solver and the draws, and whether the run ends by
    returning or by raising, the fitness values carried by the successive
    [iter], [done] and [fail] events never increase (so that of a [fail]
    event is the least of the run), and every [done] event carries 0. *)
Theorem event_fitness_never_increases :
  forall (self : CulturalSolverImpl.t) (tp : nat -> N),
    StronglySorted ge (fitness_trace (run self tp).2) /\
    Forall done_zero (run self tp).2.
Proof.
  intros self tp.
  pose proof (solve_gen_triple self (fun _ => True) (fun _ => True) trace_ok)
    as H.
  assert (trace_ok 0 (CulturalSolverImpl.solve_gen self (start tp)).2) as Hok.
  { specialize (H ltac:(done) trace_ok_stable trace_ok_mono).
    specialize (H ltac:(intros; by apply trace_ok_silent)).
    specialize (H ltac:(intros; by eapply trace_ok_fitness)).
    specialize (H ltac:(intros; by apply trace_ok_silent)).
    specialize (H ltac:(intros; by apply trace_ok_silent)).
    specialize (H ltac:(intros; eapply trace_ok_fitness; [done|done|lia|done])).
    specialize (H ltac:(intros; eapply (trace_ok_mono f); [lia|];
                        by eapply trace_ok_fitness)).
    specialize (H (random_ind_quiet self)).
    specialize (H ltac:(intros; apply crossover_quiet)).
    specialize (H ltac:(intros; apply mutate_quiet)).
    specialize (H ltac:(done)).
    specialize (H (start tp)).
    destruct (CulturalSolverImpl.solve_gen self (start tp)) as [[[]|e] w];
      apply H; intros f; repeat split; constructor. }
  unfold run. destruct (CulturalSolverImpl.solve_gen self (start tp)) as [r w].
  destruct Hok as (Hs & _ & Hz). done.
Qed.

(** ** Row-completeness is kept *)

Lemma value_at_in_grid {A} n (m : list (list A)) rc v :
  square n m -> value_at m rc = Some v -> in_grid n rc.
Proof.
  intros [Hlen Hrows] Hv. unfold value_at in Hv.
  destruct (m !! rc.1) as [row|] eqn:Hrow; [|done]. simpl in Hv.
  eapply Forall_lookup_1 in Hrows; [|done].
  apply lookup_lt_Some in Hrow, Hv. split; lia.
Qed.

Lemma row_complete_intro self (b : board) :
  length b = CulturalSolverImpl.N self ->
  (forall r row, b !! r = Some row -> row ≡ₚ values (CulturalSolverImpl.N self)) ->
  (forall rc, is_fixed self rc ->
     value_at b rc = value_at (CulturalSolverImpl.puzzle self) rc) ->
  row_complete self b.
Proof.
  intros Hlen Hrows Hfix. split; [done|]. split.
  - apply Forall_lookup. exact Hrows.
  - apply Forall_forall. intros rc _. apply Hfix.
Qed.

Lemma row_complete_elim self (b : board) :
  mask_ok self -> row_complete self b ->
  length b = CulturalSolverImpl.N self /\
  (forall r row, b !! r = Some row -> row ≡ₚ values (CulturalSolverImpl.N self)) /\
  (forall rc, is_fixed self rc ->
     value_at b rc = value_at (CulturalSolverImpl.puzzle self) rc).
Proof.
  intros Hmask (Hlen & Hrows & Hfix). split; [done|]. split.
  - intros r row Hr. by eapply Forall_lookup_1 in Hrows.
  - intros rc Hrc. eapply Forall_forall in Hfix; [by apply Hfix|].
    apply elem_of_grid. by eapply value_at_in_grid.
Qed.

Lemma value_at_insert_row {A} (b : list (list A)) r row rc :
  r < length b ->
  value_at (<[r := row]> b) rc =
  if decide (rc.1 = r) then row !! rc.2 else value_at b rc.
Proof.
  intros Hr. unfold value_at. destruct (decide (rc.1 = r)) as [->|Hne].
  - by rewrite list_lookup_insert_eq.
  - by rewrite list_lookup_insert_ne.
Qed.

Lemma swap_cells_inv (b b' : board) r c1 c2 :
  CulturalSolverImpl.swap_cells b r c1 c2 = Ok b' ->
  exists row v1 v2,
    b !! r = Some row /\ row !! c1 = Some v1 /\ row !! c2 = Some v2 /\
    b' = <[r := <[c2 := v1]> (<[c1 := v2]> row)]> b.
Proof.
  unfold CulturalSolverImpl.swap_cells.
  destruct (cell b r c2) as [v2|] eqn:H2; [|done].
  destruct (cell b r c1) as [v1|] eqn:H1; [|done].
  cbn [mbind result_bind].
  apply cell_Ok in H2 as (row & Hrow & Hv2).
  apply cell_Ok in H1 as (row' & Hrow' & Hv1).
  rewrite Hrow in Hrow'. injection Hrow' as <-.
  assert (r < length b) as Hr by (by eapply lookup_lt_Some).
  rewrite (set_cell_Ok b r c1 v2 row Hrow) by (by eapply lookup_lt_Some).
  cbn [mbind result_bind].
  rewrite (set_cell_Ok _ r c2 v1 (<[c1 := v2]> row));
    [|by apply list_lookup_insert_eq
     |rewrite length_insert; by eapply lookup_lt_Some].
  intros [= <-]. exists row, v1, v2.
  by rewrite list_insert_insert_eq.
Qed.

(** Exchanging two open cells of a row keeps the board row-complete. *)
Lemma swap_cells_row_complete self (b b' : board) r c1 c2 :
  mask_ok self -> row_complete self b ->
  is_open self (r, c1) -> is_open self (r, c2) ->
  CulturalSolverImpl.swap_cells b r c1 c2 = Ok b' ->
  row_complete self b'.
Proof.
  intros Hmask Hrc H1 H2 Hsw.
  destruct (row_complete_elim self b Hmask Hrc) as (Hlen & Hrows & Hfix).
  destruct (swap_cells_inv b b' r c1 c2 Hsw)
    as (row & v1 & v2 & Hrow & Hv1 & Hv2 & ->).
  assert (r < length b) as Hr by (by eapply lookup_lt_Some).
  apply row_complete_intro.
  - by rewrite length_insert.
  - intros r' row' Hr'. destruct (decide (r' = r)) as [->|Hne].
    + rewrite list_lookup_insert_eq in Hr' by done. injection Hr' as <-.
      rewrite (swap_Permutation row c1 c2 v1 v2 Hv1 Hv2). by eapply Hrows.
    + rewrite list_lookup_insert_ne in Hr' by done. by eapply Hrows.
  - intros [r' c'] Hfx. rewrite <- (Hfix _ Hfx).
    rewrite value_at_insert_row by done. simpl.
    destruct (decide (r' = r)) as [->|Hne]; [|done].
    assert (c' <> c1) as Hn1.
    { intros ->. unfold is_fixed, is_open in *. congruence. }
    assert (c' <> c2) as Hn2.
    { intros ->. unfold is_fixed, is_open in *. congruence. }
    rewrite !list_lookup_insert_ne by done.
    unfold value_at. simpl. by rewrite Hrow.
Qed.

(** Taking over a row of another row-complete board keeps the board
    row-complete. *)
Lemma replace_row_row_complete self (b p : board) r row :
  mask_ok self -> row_complete self b -> row_complete self p ->
  p !! r = Some row -> row_complete self (<[r := row]> b).
Proof.
  intros Hmask Hb Hp Hrow.
  destruct (row_complete_elim self b Hmask Hb) as (Hlen & Hrows & Hfix).
  destruct (row_complete_elim self p Hmask Hp) as (Hlenp & Hrowsp & Hfixp).
  assert (r < length b) as Hr by (apply lookup_lt_Some in Hrow; lia).
  apply row_complete_intro.
  - by rewrite length_insert.
  - intros r' row' Hr'. destruct (decide (r' = r)) as [->|Hne].
    + rewrite list_lookup_insert_eq in Hr' by done. injection Hr' as <-.
      by eapply Hrowsp.
    + rewrite list_lookup_insert_ne in Hr' by done. by eapply Hrows.
  - intros [r' c'] Hfx. rewrite value_at_insert_row by done. simpl.
    destruct (decide (r' = r)) as [->|Hne]; [|by apply Hfix].
    rewrite <- (Hfixp _ Hfx). unfold value_at. simpl. by rewrite Hrow.
Qed.

Lemma cell_false_open self r c :
  cell (CulturalSolverImpl.fixed self) r c = Ok false -> is_open self (r, c).
Proof. intros H. by apply cell_value_at in H. Qed.

Lemma crossover_row_complete self p1 p2 :
  mask_ok self -> row_complete self p1 -> row_complete self p2 ->
  effect (row_complete self) false (CulturalSolverImpl.crossover self p1 p2)
         (row_complete self).
Proof.
  intros Hmask H1 H2. unfold CulturalSolverImpl.crossover.
  eapply effect_bind; [apply effect_random_lt|]. intros from_p1 _.
  rewrite clone_board_id.
  apply (effect_forM _ _ _ (fun _ => row_complete self)).
  { by destruct from_p1. }
  intros done r rest child _ Hc.
  eapply effect_bind; [apply effect_random_lt|]. intros [] _.
  - destruct (item p2 r) as [row|] eqn:Hrow; [|by apply effect_lift].
    eapply effect_bind; [by apply (effect_lift_Ok _ false _ row)|].
    intros ? ->. apply effect_lift. unfold set_item.
    destruct (decide _); [|done].
    apply item_Ok in Hrow.
    by apply (replace_row_row_complete self child p2 r row).
  - by apply effect_ret.
Qed.

Lemma mutate_row_complete self bs child :
  mask_ok self -> row_complete self child ->
  effect (row_complete self) false (CulturalSolverImpl.mutate self bs child)
         (row_complete self).
Proof.
  intros Hmask Hc. unfold CulturalSolverImpl.mutate.
  eapply effect_bind; [apply effect_random_lt|]. intros [] _;
    [|by apply effect_ret].
  eapply effect_bind; [apply effect_select_target_row|]. intros r _.
  destruct (filterM _ (range 0 (CulturalSolverImpl.N self)))
    as [mutable|] eqn:Hm; [|by apply effect_lift].
  eapply effect_bind; [by apply (effect_lift_Ok _ false _ mutable)|].
  intros ? ->. destruct (decide _); [|by apply effect_ret].
  eapply effect_bind.
  { eapply effect_weaken; [apply effect_sample2|done..]. }
  intros [c1 c2] [Hc1 Hc2]. simpl in *.
  apply effect_lift.
  destruct (CulturalSolverImpl.swap_cells child r c1 c2) as [b'|] eqn:Hsw;
    [|done].
  assert (forall c, c ∈ mutable -> is_open self (r, c)) as Hopen.
  { intros c Hin. destruct (filterM_elem _ _ _ _ Hm Hin) as [_ Hf].
    apply cell_false_open.
    destruct (cell (CulturalSolverImpl.fixed self) r c) as [[]|];
      simpl in Hf; done. }
  apply (swap_cells_row_complete self child b' r c1 c2);
    [done|done|by apply Hopen|by apply Hopen|done].
Qed.

Lemma boards_ok_stable G : stable G (boards_ok G).
Proof.
  intros w w' new Hy Hc Hn [Hcs Hes]. unfold boards_ok.
  rewrite Hy, Hc. split; [by apply Forall_app|done].
Qed.

Lemma boards_ok_emit (G : board -> Prop) w e :
  match event_board e with Some b => G b | None => True end ->
  boards_ok G w -> boards_ok G (emit w e).
Proof.
  intros He [Hcs Hes]. split; [done|]. simpl. rewrite omap_app.
  apply Forall_app. split; [done|]. simpl.
  destruct (event_board e); by repeat constructor.
Qed.

(** C1. For a solver built from a square puzzle whose blocks tile the grid
    and whose rows hold pairwise distinct clues of [[1, N]], every
    individual of a run at the moment it is created (initial individuals,
    cloned elites, crossover children, mutated children, the polished
    clone) and every board carried by an event is row-complete: each row is
    a permutation of [1 .. N] and each fixed cell holds the clue of the
    puzzle. *)
Theorem run_keeps_row_completeness :
  forall (self : CulturalSolverImpl.t) (tp : nat -> N),
    built self -> tiles self -> well_clued self ->
    Forall (row_complete self)
           (candidates (CulturalSolverImpl.solve_gen self (start tp)).2) /\
    Forall (row_complete self) (omap event_board (run self tp).2).
Proof.
  intros self tp Hb Ht Hwc.
  destruct (built_inv self Hb) as (HN & Hpsq & Hmask & _).
  pose proof (solve_gen_triple self (row_complete self) (row_complete self)
                (fun _ => boards_ok (row_complete self))) as H.
  specialize (H ltac:(done) ltac:(intros; apply boards_ok_stable)
                ltac:(done)).
  specialize (H ltac:(intros; by apply boards_ok_emit)).
  specialize (H ltac:(intros; by apply boards_ok_emit)).
  specialize (H ltac:(intros; by apply boards_ok_emit)).
  specialize (H ltac:(intros; by apply boards_ok_emit)).
  specialize (H ltac:(intros; by apply boards_ok_emit)).
  specialize (H ltac:(intros; by apply boards_ok_emit)).
  assert (effect (row_complete self) false
            (CulturalSolverImpl.random_ind self) (row_complete self)) as Hind.
  { eapply effect_weaken; [apply (random_ind_effect self Hb)| | |done].
    - intros b [_ Hrc]. by apply Hrc.
    - intros b [_ Hrc]. by apply Hrc. }
  specialize (H Hind).
  specialize (H ltac:(intros; by apply crossover_row_complete)).
  specialize (H ltac:(intros; by apply mutate_row_complete)).
  assert (forall (b : board) cells r c1 c2 b',
    row_complete self b ->
    CulturalSolverImpl.get_conflicted_cells self b = Ok cells ->
    (r, c1) ∈ cells ->
    cell (CulturalSolverImpl.fixed self) r c2 = Ok false ->
    CulturalSolverImpl.swap_cells b r c1 c2 = Ok b' ->
    row_complete self b') as Hpol.
  { intros b cells r c1 c2 b' Hrc Hcells Hin Hc2 Hsw.
    destruct (conflicted_cells_open self b cells (r, c1) Ht Hmask
                (row_complete_square self b Hrc) Hcells Hin) as [_ Hopen].
    apply (swap_cells_row_complete self b b' r c1 c2);
      [done|done|done|by apply cell_false_open|done]. }
  specialize (H Hpol (start tp)).
  unfold run.
  destruct (CulturalSolverImpl.solve_gen self (start tp)) as [[[]|e] w];
    apply H; intros _; split; constructor.
Qed.

Lemma run_keeps_row_completeness_witness :
  Forall (row_complete sample_solver)
         (candidates
            (CulturalSolverImpl.solve_gen sample_solver (start mixed_tape)).2) /\
  Forall (row_complete sample_solver)
         (omap event_board (run sample_solver mixed_tape).2).
Proof.
  apply (run_keeps_row_completeness sample_solver mixed_tape).
  - split; [vm_compute; reflexivity | split; [reflexivity | repeat constructor]].
  - unfold tiles. simpl. lia.
  - apply (bool_decide_unpack _). vm_compute. exact I.
Defined.

(** ** Sample runs *)

Example sample_run_fitness_trace :
  fitness_trace (run sample_solver mixed_tape).2 = [8; 4; 0].
Proof. vm_compute. reflexivity. Qed.

Example sample_run_candidates :
  length (candidates
            (CulturalSolverImpl.solve_gen sample_solver (start mixed_tape)).2)
  = 18.
Proof. vm_compute. reflexivity. Qed.

Example sample_run_ends_done :
  last (run sample_solver mixed_tape).2 = Some (Done solved_board 0 2 []).
Proof. vm_compute. reflexivity. Qed.

Example valid_in_cell_samples :
  SudokuLogic.valid_in_cell sample_puzzle 0 1 2 = Ok true /\
  SudokuLogic.valid_in_cell sample_puzzle 0 1 3 = Ok false /\
  SudokuLogic.valid_in_cell sample_puzzle 0 0 1 = Ok false.
Proof. repeat split; vm_compute; reflexivity. Qed.

(** * Further properties of the code

    What follows covers behaviour the statements above leave out: the edge
    cases of the solver and of the belief space, the exact meaning of the two
    scans, the placement rule, the board generator and the backtracking
    strategy. *)

(** ** The geometry of columns and blocks *)

Lemma range_step_aux_complete fuel start stop step x :
  0 < step -> stop <= start + fuel * step ->
  x < stop -> (exists k, x = start + k * step) ->
  x ∈ range_step_aux fuel start stop step.
Proof.
  intros Hstep.
  revert start. induction fuel as [|fuel IH]; intros start Hf Hx [k ->].
  - simpl in Hf. lia.
  - simpl. destruct (decide (start < stop)) as [Hlt|Hge]; [|lia].
    destruct k as [|k].
    + rewrite Nat.add_0_r. left.
    + right. apply IH.
      * simpl in Hf. lia.
      * done.
      * exists k. simpl. lia.
Qed.

Lemma elem_of_block_starts n h x :
  0 < h ->
  x ∈ range_step_aux n 0 n h <-> x < n /\ exists k, x = k * h.
Proof.
  intros Hh. split.
  - intros Hx. apply elem_of_range_step_aux in Hx as [? [k ->]]. eauto.
  - intros [Hx [k ->]]. apply range_step_aux_complete; [done| nia |done|].
    exists k. lia.
Qed.

Lemma div_window h k x : 0 < h -> k * h <= x < k * h + h <-> x / h = k.
Proof.
  intros Hh. split.
  - intros [H1 H2]. symmetry. apply (Nat.div_unique x h k (x - k * h)); lia.
  - intros <-. pose proof (Nat.div_mod x h ltac:(lia)) as E.
    pose proof (Nat.mod_upper_bound x h ltac:(lia)). lia.
Qed.

Lemma elem_of_columns self g :
  g ∈ columns self <->
  exists c, c < CulturalSolverImpl.N self /\
            g = (fun r => (r, c)) <$> range 0 (CulturalSolverImpl.N self).
Proof.
  unfold columns. rewrite list_elem_of_fmap. split.
  - intros [c [-> Hc]]. apply elem_of_range in Hc. exists c. split; [lia|done].
  - intros [c [Hc ->]]. exists c. split; [done|]. apply elem_of_range. lia.
Qed.

Lemma elem_of_column n c (p : coord) :
  p ∈ (fun r => (r, c)) <$> range 0 n <-> p.1 < n /\ p.2 = c.
Proof.
  rewrite list_elem_of_fmap. split.
  - intros [r [-> Hr]]. apply elem_of_range in Hr. simpl. lia.
  - intros [Hp <-]. exists p.1. split; [by destruct p|].
    apply elem_of_range. lia.
Qed.

Lemma elem_of_blocks self g :
  tiles self ->
  g ∈ blocks self <->
  exists i j,
    i * CulturalSolverImpl.br_h self < CulturalSolverImpl.N self /\
    j * CulturalSolverImpl.bc_w self < CulturalSolverImpl.N self /\
    g = CulturalSolverImpl.block_cells self
          (i * CulturalSolverImpl.br_h self) (j * CulturalSolverImpl.bc_w self).
Proof.
  intros (Hh & Hw & _ & _). unfold blocks. cbv zeta.
  rewrite list_elem_of_bind. split.
  - intros [br [Hg Hbr]]. apply list_elem_of_bind in Hg as [bc [Hg Hbc]].
    apply list_elem_of_singleton in Hg.
    apply elem_of_block_starts in Hbr as [Hbr [i ->]]; [|done].
    apply elem_of_block_starts in Hbc as [Hbc [j ->]]; [|done].
    eauto.
  - intros (i & j & Hi & Hj & ->).
    exists (i * CulturalSolverImpl.br_h self). split.
    + apply list_elem_of_bind.
      exists (j * CulturalSolverImpl.bc_w self). split.
      * by apply list_elem_of_singleton.
      * apply elem_of_block_starts; eauto.
    + apply elem_of_block_starts; eauto.
Qed.

(** Two cells of the grid lie in one group of the scans exactly when they
    share a column or a block. *)
Lemma groups_pairs self p q :
  tiles self ->
  in_grid (CulturalSolverImpl.N self) p ->
  in_grid (CulturalSolverImpl.N self) q ->
  (exists g, g ∈ groups self /\ p ∈ g /\ q ∈ g) <->
  same_column p q \/
  same_block (CulturalSolverImpl.br_h self) (CulturalSolverImpl.bc_w self) p q.
Proof.
  intros Ht [Hp1 Hp2] [Hq1 Hq2].
  pose proof Ht as (Hh & Hw & _ & _).
  unfold groups, same_column, same_block. split.
  - intros (g & Hg & Hp & Hq). apply elem_of_app in Hg as [Hg|Hg].
    + apply elem_of_columns in Hg as (c & _ & ->).
      apply elem_of_column in Hp, Hq. left. lia.
    + apply elem_of_blocks in Hg as (i & j & _ & _ & ->); [|done].
      apply elem_of_block_cells in Hp as [Hp Hp'].
      apply elem_of_block_cells in Hq as [Hq Hq'].
      right. split.
      * by rewrite (proj1 (div_window _ i _ Hh) Hp),
                   (proj1 (div_window _ i _ Hh) Hq).
      * by rewrite (proj1 (div_window _ j _ Hw) Hp'),
                   (proj1 (div_window _ j _ Hw) Hq').
  - intros [Hc|[Hr Hc]].
    + exists ((fun r => (r, p.2)) <$> range 0 (CulturalSolverImpl.N self)).
      split; [|split].
      * apply elem_of_app. left. apply elem_of_columns. eauto.
      * apply elem_of_column. done.
      * apply elem_of_column. done.
    + exists (CulturalSolverImpl.block_cells self
                (p.1 / CulturalSolverImpl.br_h self * CulturalSolverImpl.br_h self)
                (p.2 / CulturalSolverImpl.bc_w self * CulturalSolverImpl.bc_w self)).
      pose proof (proj2 (div_window _ _ p.1 Hh) eq_refl).
      pose proof (proj2 (div_window _ _ p.2 Hw) eq_refl).
      split; [|split].
      * apply elem_of_app. right. apply elem_of_blocks; [done|].
        eexists _, _. split; [|split; [|reflexivity]]; lia.
      * apply elem_of_block_cells. done.
      * apply elem_of_block_cells. rewrite Hr, Hc.
        split; apply div_window; done.
Qed.

Lemma NoDup_block_cells self br bc :
  NoDup (CulturalSolverImpl.block_cells self br bc).
Proof.
  unfold CulturalSolverImpl.block_cells. apply NoDup_bind.
  - intros i1 i2 p _ _ H1 H2.
    apply list_elem_of_bind in H1 as [j1 [H1 _]].
    apply list_elem_of_bind in H2 as [j2 [H2 _]].
    apply list_elem_of_singleton in H1, H2. congruence.
  - intros i _. apply NoDup_bind.
    + intros j1 j2 p _ _ H1 H2.
      apply list_elem_of_singleton in H1, H2. congruence.
    + intros. apply NoDup_singleton.
    + apply NoDup_seq.
  - apply NoDup_seq.
Qed.

Lemma groups_NoDup self g : tiles self -> g ∈ groups self -> NoDup g.
Proof.
  intros Ht Hg. apply elem_of_app in Hg as [Hg|Hg].
  - apply elem_of_columns in Hg as (c & _ & ->).
    apply NoDup_fmap_2; [|apply NoDup_seq]. intros r1 r2. congruence.
  - apply elem_of_blocks in Hg as (i & j & _ & _ & ->); [|done].
    apply NoDup_block_cells.
Qed.

(** A value occurs twice along a duplicate-free group exactly when a second
    cell of the group holds it. *)
Lemma occ_twice (b : board) g p v :
  NoDup g -> p ∈ g -> value_at b p = Some v ->
  1 < occ v (values_of b g) <->
  exists q, q ∈ g /\ q <> p /\ value_at b q = Some v.
Proof.
  intros Hnd Hp Hv. rewrite occ_values_of.
  set (hit := filter (fun rc => value_at b rc = Some v) g).
  assert (Hhit : forall q, q ∈ hit <-> value_at b q = Some v /\ q ∈ g).
  { intros q. unfold hit. by rewrite list_elem_of_filter. }
  assert (Hndh : NoDup hit) by (by apply NoDup_filter).
  split.
  - intros Hlen.
    destruct hit as [|q1 [|q2 rest]] eqn:E; simpl in Hlen; try lia.
    apply NoDup_cons in Hndh as [Hq1 _].
    destruct (decide (q1 = p)) as [->|Hne].
    + exists q2. destruct (proj1 (Hhit q2)) as [? ?].
      { right. left. }
      split; [done|]. split; [|done].
      intros ->. apply Hq1. left.
    + exists q1. destruct (proj1 (Hhit q1)) as [? ?]; [left|]. done.
  - intros (q & Hq & Hne & Hvq).
    assert (Hin : [p; q] ⊆+ hit).
    { apply NoDup_submseteq.
      - apply NoDup_cons. split; [|apply NoDup_singleton].
        intros Hx. apply list_elem_of_singleton in Hx. done.
      - intros x Hx. apply Hhit.
        apply elem_of_cons in Hx as [->|Hx]; [done|].
        apply list_elem_of_singleton in Hx as ->. done. }
    apply submseteq_length in Hin. simpl in Hin. lia.
Qed.

Lemma conflicted_iff_clash self (b : board) p :
  tiles self ->
  conflicted self b p <-> exists q, clash self b p q.
Proof.
  intros Ht. split.
  - intros (g & Hg & Hp & v & Hv & Hocc).
    pose proof (groups_NoDup self g Ht Hg) as Hnd.
    pose proof (groups_in_grid self g Ht Hg) as Hin.
    rewrite Forall_forall in Hin.
    apply (occ_twice b g p v Hnd Hp Hv) in Hocc as (q & Hq & Hne & Hvq).
    exists q. split; [done|]. split; [by apply Hin|]. split; [by apply Hin|].
    split; [|eauto].
    apply groups_pairs; [done|by apply Hin|by apply Hin|eauto].
  - intros (q & Hne & Hp & Hq & Hsee & v & Hvp & Hvq).
    apply groups_pairs in Hsee as (g & Hg & Hpg & Hqg); [|done..].
    exists g. split; [done|]. split; [done|]. exists v. split; [done|].
    apply (occ_twice b g p v); [by eapply groups_NoDup|done|done|].
    exists q. done.
Qed.

(** ** The two scans, cell by cell *)

(** X1 (get_conflicted_cells): on a square board the result lists, once
    each, exactly the open cells whose value is also held by another cell
    of the same column or of the same block; rows are never looked at. *)
Theorem conflicted_cells_are_open_clashes self (b : board) :
  tiles self -> mask_ok self -> square (CulturalSolverImpl.N self) b ->
  exists cells,
    CulturalSolverImpl.get_conflicted_cells self b = Ok cells /\
    NoDup cells /\
    forall p, p ∈ cells <-> is_open self p /\ exists q, clash self b p q.
Proof.
  intros Ht Hm Hb.
  destruct (get_conflicted_cells_spec self b Ht Hm Hb)
    as (cells & Hrun & Hnd & Hcells).
  exists cells. split; [done|]. split; [done|].
  intros p. rewrite Hcells, (conflicted_iff_clash self b p Ht). tauto.
Qed.

Lemma conflicted_cells_are_open_clashes_witness :
  exists cells,
    CulturalSolverImpl.get_conflicted_cells clashing_solver clashing_board
      = Ok cells /\
    NoDup cells /\
    forall p, p ∈ cells <->
      is_open clashing_solver p /\
      exists q, clash clashing_solver clashing_board p q.
Proof.
  apply (conflicted_cells_are_open_clashes clashing_solver clashing_board).
  - unfold tiles. simpl. lia.
  - apply (bool_decide_unpack _). vm_compute. exact I.
  - apply (bool_decide_unpack _). vm_compute. exact I.
Defined.

Lemma no_clash_fitness_zero self (b : board) :
  tiles self -> square (CulturalSolverImpl.N self) b ->
  CulturalSolverImpl.fitness self b = Ok 0 <->
  forall p q, ~ clash self b p q.
Proof.
  intros Ht Hb. rewrite (fitness_zero self b Ht Hb). split.
  - intros Hocc p q Hc.
    assert (Hconf : conflicted self b p).
    { apply conflicted_iff_clash; eauto. }
    destruct Hconf as (g & Hg & _ & v & _ & Hv).
    specialize (Hocc g v Hg). lia.
  - intros Hno g v Hg.
    destruct (decide (occ v (values_of b g) <= 1)) as [|Hgt]; [done|].
    exfalso.
    assert (Hpos : 0 < occ v (values_of b g)) by lia.
    rewrite occ_values_of in Hpos.
    destruct (filter (fun rc => value_at b rc = Some v) g) as [|p rest] eqn:E.
    { simpl in Hpos. lia. }
    assert (Hp : p ∈ filter (fun rc => value_at b rc = Some v) g).
    { rewrite E. left. }
    apply list_elem_of_filter in Hp as [Hv Hp].
    assert (Hconf : conflicted self b p).
    { exists g. split; [done|]. split; [done|]. exists v. split; [done|lia]. }
    apply conflicted_iff_clash in Hconf as [q Hq]; [|done].
    by apply (Hno p q).
Qed.


(** X2 (fitness): on a square board the fitness is 0 exactly when no two
    distinct cells of one column or of one block hold the same value. *)
Theorem fitness_zero_iff_no_clash self (b : board) :
  tiles self -> square (CulturalSolverImpl.N self) b ->
  CulturalSolverImpl.fitness self b = Ok 0 <->
  forall p q, ~ clash self b p q.
Proof. apply no_clash_fitness_zero. Qed.

Lemma fitness_zero_iff_no_clash_witness :
  CulturalSolverImpl.fitness sample_solver solved_board = Ok 0 <->
  forall p q, ~ clash sample_solver solved_board p q.
Proof.
  apply (fitness_zero_iff_no_clash sample_solver solved_board).
  - unfold tiles. simpl. lia.
  - apply (bool_decide_unpack _). vm_compute. exact I.
Defined.

(** ** Edge cases of the belief space and of the run *)

Lemma randint0_range n w :
  exists r w',
    random.randint0 (Z.of_nat n - 1) w = (r, w') /\
    yielded w' = yielded w /\
    match r with
    | Ok r => r < n
    | Raise e => e = ValueError /\ n = 0
    end.
Proof.
  unfold random.randint0.
  destruct (decide (Z.of_nat n - 1 < 0)%Z) as [Hneg|Hpos].
  - eexists _, _. split; [reflexivity|]. split; [done|]. split; [done|lia].
  - replace (Z.to_nat (Z.of_nat n - 1 + 1)) with n by lia.
    unfold random.randbelow. destruct (decide (n = 0)) as [->|Hn]; [lia|].
    eexists _, _. split; [reflexivity|]. split; [done|].
    by apply below_lt.
Qed.

(** X3 (select_target_row): with one score per row the method returns a row
    index below [N] whatever the draws are, also when the roulette runs to
    its end and the fallback draws the row; it raises only for [N = 0], and
    then a [ValueError].  It yields nothing. *)
Theorem select_target_row_in_range (bs : BeliefSpace.t) (w : world) :
  length (BeliefSpace.row_conflict_scores bs) = BeliefSpace.N bs ->
  exists r w',
    BeliefSpace.select_target_row bs w = (r, w') /\
    yielded w' = yielded w /\
    match r with
    | Ok r => r < BeliefSpace.N bs
    | Raise e => e = ValueError /\ BeliefSpace.N bs = 0
    end.
Proof.
  intros Hlen. unfold BeliefSpace.select_target_row. cbv zeta.
  destruct (decide (sum_list (BeliefSpace.row_conflict_scores bs) = 0))
    as [Hz|Hnz].
  - apply randint0_range.
  - unfold random.uniform0, random.draw, BeliefSpace.select_with_pick, lift.
    cbv beta iota delta [mbind M_bind mret M_ret].
    match goal with |- context [Qmake ?a ?d] => set (pick := Qmake a d) end.
    match goal with
    | |- context [World ?t ?p ?y ?c] => set (w1 := World t p y c)
    end.
    destruct (roulette_scan (BeliefSpace.row_conflict_scores bs) pick
                (length (BeliefSpace.row_conflict_scores bs)) 0)
      as [(r & Hr & Hlt & _)|[Hr _]].
    + done.
    + intros r' Hr'. lia.
    + unfold range. rewrite Nat.sub_0_r, <- Hlen.
      change (running (BeliefSpace.row_conflict_scores bs) 0) with 0 in Hr.
      rewrite Hr. eexists _, _. split; [reflexivity|]. split; [done|]. lia.
    + unfold range. rewrite Nat.sub_0_r, <- Hlen.
      change (running (BeliefSpace.row_conflict_scores bs) 0) with 0 in Hr.
      rewrite Hr, Hlen.
      destruct (randint0_range (BeliefSpace.N bs) w1)
        as (r & w' & Hrun & Hy & Hres).
      exists r, w'. done.
Qed.

Lemma select_target_row_in_range_witness :
  exists r w',
    BeliefSpace.select_target_row sample_beliefs (start high_tape) = (r, w') /\
    yielded w' = yielded (start high_tape) /\
    match r with
    | Ok r => r < BeliefSpace.N sample_beliefs
    | Raise e => e = ValueError /\ BeliefSpace.N sample_beliefs = 0
    end.
Proof.
  apply (select_target_row_in_range sample_beliefs (start high_tape)).
  reflexivity.
Defined.

(** X4 (solve_gen): with [pop_size = 0] the population is empty, [min] raises
    [ValueError], and the generator ends before it has yielded any event,
    the [init] event included. *)
Theorem empty_population_raises self tp :
  CulturalSolverImpl.pop_size self = 0 ->
  run self tp = (Raise ValueError, []).
Proof.
  intros Hpop. unfold run, CulturalSolverImpl.solve_gen.
  rewrite Hpop. reflexivity.
Qed.

Lemma empty_population_raises_witness :
  run empty_solver mixed_tape = (Raise ValueError, []).
Proof. apply (empty_population_raises empty_solver mixed_tape). reflexivity. Defined.

(** ** What [update] writes *)

Lemma hits_snoc rc cells p :
  hits rc (cells ++ [p]) = hits rc cells + (if decide (p = rc) then 1 else 0).
Proof.
  unfold hits. rewrite filter_app, length_app. f_equal.
  rewrite filter_cons, filter_nil. by destruct (decide (p = rc)).
Qed.

Lemma row_hits_snoc r cells p :
  row_hits r (cells ++ [p]) =
  row_hits r cells + (if decide (p.1 = r) then 1 else 0).
Proof.
  unfold row_hits. rewrite filter_app, length_app. f_equal.
  rewrite filter_cons, filter_nil. by destruct (decide (p.1 = r)).
Qed.

Lemma bump_counted n cells acc acc' p :
  counted n cells acc -> BeliefSpace.bump acc p = Ok acc' ->
  in_grid n p /\ counted n (cells ++ [p]) acc'.
Proof.
  destruct acc as [cm rs], p as [r c]. intros (Hsq & Hlen & Hcm & Hrs).
  simpl in Hsq, Hlen, Hcm, Hrs. unfold BeliefSpace.bump.
  destruct (cell cm r c) as [v|] eqn:Hcell; [|discriminate].
  cbn [mbind result_bind].
  apply cell_Ok in Hcell as (row & Hrow & Hv).
  assert (Hr : r < n).
  { destruct Hsq as [<- _]. by eapply lookup_lt_Some. }
  assert (Hrowlen : length row = n).
  { destruct Hsq as [_ Hall]. rewrite Forall_forall in Hall.
    apply Hall. by eapply list_elem_of_lookup_2. }
  assert (Hc : c < n).
  { rewrite <- Hrowlen. by eapply lookup_lt_Some. }
  rewrite (set_cell_Ok cm r c (v + 1) row Hrow) by lia.
  cbn [mbind result_bind].
  specialize (Hrs r Hr) as Hs. unfold item. rewrite Hs.
  cbn [mbind result_bind].
  rewrite set_item_Ok by lia. cbn [mbind result_bind].
  intros [= <-]. split; [done|].
  assert (Hvhits : v = hits (r, c) cells).
  { specialize (Hcm (r, c) (conj Hr Hc)). unfold value_at in Hcm.
    simpl in Hcm. rewrite Hrow in Hcm. simpl in Hcm. congruence. }
  split; [|split; [|split]]; cbn [fst snd].
  - apply square_insert; [done|]. by rewrite length_insert.
  - by rewrite length_insert.
  - intros [r' c'] [Hr' Hc']. simpl in Hr', Hc'.
    rewrite value_at_insert_row by (destruct Hsq as [-> _]; done).
    rewrite hits_snoc. cbn [fst snd].
    destruct (decide (r' = r)) as [->|Hne].
    + destruct (decide (c' = c)) as [->|Hnc].
      * rewrite list_lookup_insert_eq by lia.
        rewrite decide_True by done. f_equal. lia.
      * rewrite list_lookup_insert_ne by done.
        rewrite decide_False by congruence.
        specialize (Hcm (r, c') (conj Hr Hc')). unfold value_at in Hcm.
        simpl in Hcm. rewrite Hrow in Hcm. simpl in Hcm.
        rewrite Hcm. f_equal. lia.
    + rewrite decide_False by congruence.
      rewrite (Hcm (r', c') (conj Hr' Hc')). f_equal. lia.
  - intros r' Hr'. rewrite row_hits_snoc. cbn [fst].
    destruct (decide (r = r')) as [->|Hne].
    + by rewrite list_lookup_insert_eq by lia.
    + rewrite list_lookup_insert_ne by done.
      rewrite (Hrs r' Hr'). f_equal. lia.
Qed.

Lemma bump_fold_counted n ps : forall cells acc acc',
  counted n cells acc -> foldM BeliefSpace.bump acc ps = Ok acc' ->
  Forall (in_grid n) ps /\ counted n (cells ++ ps) acc'.
Proof.
  induction ps as [|p ps IH]; intros cells acc acc' Hacc Hrun.
  - simpl in Hrun. injection Hrun as <-. by rewrite app_nil_r.
  - simpl in Hrun.
    destruct (BeliefSpace.bump acc p) as [acc1|] eqn:Hb; [|discriminate].
    cbn [mbind result_bind] in Hrun.
    destruct (bump_counted n cells acc acc1 p Hacc Hb) as [Hp Hacc1].
    destruct (IH _ _ _ Hacc1 Hrun) as [Hps Hacc'].
    split; [by constructor|]. by rewrite <- app_assoc in Hacc'.
Qed.

Lemma elites_fold_counted n (f : board -> result (list coord)) elites :
  forall cells acc acc',
  counted n cells acc ->
  foldM (fun acc ind => bad_cells ← f (ind_board ind);
                        foldM BeliefSpace.bump acc bad_cells)
        acc elites = Ok acc' ->
  exists lists,
    mapM (fun e => f (ind_board e)) elites = Ok lists /\
    Forall (Forall (in_grid n)) lists /\
    counted n (cells ++ concat lists) acc'.
Proof.
  induction elites as [|e elites IH]; intros cells acc acc' Hacc Hrun.
  - simpl in Hrun. injection Hrun as <-. exists [].
    split; [done|]. split; [constructor|]. simpl. by rewrite app_nil_r.
  - simpl in Hrun. simpl.
    destruct (f (ind_board e)) as [ps|] eqn:Hf; [|discriminate].
    cbn [mbind result_bind] in Hrun |- *.
    destruct (foldM BeliefSpace.bump acc ps) as [acc1|] eqn:Hb; [|discriminate].
    cbn [mbind result_bind] in Hrun.
    destruct (bump_fold_counted n ps cells acc acc1 Hacc Hb) as [Hps Hacc1].
    destruct (IH _ _ _ Hacc1 Hrun) as (lists & -> & Hall & Hacc').
    cbn [mbind result_bind]. exists (ps :: lists).
    split; [done|]. split; [by constructor|].
    simpl. by rewrite app_assoc.
Qed.

Lemma counted_zero n :
  counted n [] (replicate n (replicate n 0), replicate n 0).
Proof.
  split; [apply square_replicate|]. split; [apply length_replicate|].
  split.
  - intros [r c] [Hr Hc]. simpl in Hr, Hc. unfold value_at. simpl.
    rewrite lookup_replicate_2 by done. simpl.
    by rewrite lookup_replicate_2.
  - intros r Hr. simpl. by rewrite lookup_replicate_2.
Qed.

Lemma update_Ok_inv (bs bs' : BeliefSpace.t) elites f :
  BeliefSpace.update bs elites f = Ok bs' ->
  elites <> [] /\
  BeliefSpace.N bs' = BeliefSpace.N bs /\
  exists lists,
    mapM (fun e => f (ind_board e)) elites = Ok lists /\
    Forall (Forall (in_grid (BeliefSpace.N bs))) lists /\
    counted (BeliefSpace.N bs) (concat lists)
      (BeliefSpace.conflict_matrix bs', BeliefSpace.row_conflict_scores bs').
Proof.
  unfold BeliefSpace.update. intros Hrun.
  destruct (min_by ind_fit elites) as [best|] eqn:Hbest; [|discriminate].
  split; [by intros ->|].
  cbn [mbind result_bind] in Hrun.
  destruct (lt_fitv _ _);
    (match type of Hrun with
     | (?X ≫= _) = _ => destruct X as [acc|] eqn:Hfold; [|discriminate]
     end;
     destruct (elites_fold_counted _ f elites [] _ acc
                 (counted_zero (BeliefSpace.N bs)) Hfold)
       as (lists & Hlists & Hin & Hacc);
     cbn [mbind result_bind] in Hrun; injection Hrun as <-;
     split; [done|]; exists lists; destruct acc; done).
Qed.

(** X5 (BeliefSpace.update): a call that returns has rebuilt both tables from
    nothing: entry [(r, c)] of [conflict_matrix] is the number of times the
    callback reported [(r, c)] over all elites, and [row_conflict_scores[r]]
    is the number of reported cells in row [r].  Nothing of the earlier
    tables survives, and [N] is kept. *)
Theorem update_rebuilds_counts (bs bs' : BeliefSpace.t) elites f :
  BeliefSpace.update bs elites f = Ok bs' ->
  exists lists,
    mapM (fun e => f (ind_board e)) elites = Ok lists /\
    BeliefSpace.N bs' = BeliefSpace.N bs /\
    (forall rc, in_grid (BeliefSpace.N bs) rc ->
       value_at (BeliefSpace.conflict_matrix bs') rc
         = Some (hits rc (concat lists))) /\
    (forall r, r < BeliefSpace.N bs ->
       BeliefSpace.row_conflict_scores bs' !! r
         = Some (row_hits r (concat lists))).
Proof.
  intros Hrun.
  destruct (update_Ok_inv bs bs' elites f Hrun)
    as (_ & HN & lists & Hlists & _ & _ & _ & Hcm & Hrs).
  exists lists. done.
Qed.

Lemma update_rebuilds_counts_witness :
  exists lists,
    mapM (fun e => CulturalSolverImpl.get_conflicted_cells sample_solver
                     (ind_board e)) sample_elites = Ok lists /\
    BeliefSpace.N updated_beliefs = BeliefSpace.N sample_beliefs /\
    (forall rc, in_grid (BeliefSpace.N sample_beliefs) rc ->
       value_at (BeliefSpace.conflict_matrix updated_beliefs) rc
         = Some (hits rc (concat lists))) /\
    (forall r, r < BeliefSpace.N sample_beliefs ->
       BeliefSpace.row_conflict_scores updated_beliefs !! r
         = Some (row_hits r (concat lists))).
Proof.
  apply (update_rebuilds_counts sample_beliefs updated_beliefs sample_elites
           (CulturalSolverImpl.get_conflicted_cells sample_solver)).
  vm_compute. reflexivity.
Defined.

(** X6 (BeliefSpace.update): the call returns exactly when there is at least
    one elite and the callback answers on every elite with cells of the
    grid; an empty elite list, a raising callback or a cell outside the grid
    makes it raise. *)
Theorem update_returns_iff (bs : BeliefSpace.t) elites f :
  is_ok (BeliefSpace.update bs elites f) = true <->
  elites <> [] /\ locates (BeliefSpace.N bs) f elites.
Proof.
  split.
  - destruct (BeliefSpace.update bs elites f) as [bs'|] eqn:Hrun;
      [intros _|discriminate].
    destruct (update_Ok_inv bs bs' elites f Hrun)
      as (Hne & _ & lists & Hlists & Hin & _).
    split; [done|]. intros e He.
    apply list_elem_of_lookup in He as [i Hi].
    destruct (mapM_Ok_lookup _ _ _ _ _ Hlists Hi) as (cells & Hc & Hf).
    exists cells. split; [done|].
    rewrite Forall_forall in Hin. apply Hin.
    by eapply list_elem_of_lookup_2.
  - intros [Hne Hloc].
    destruct (update_spec bs elites f Hne Hloc) as (bs' & _ & -> & _). done.
Qed.

(** ** What [__init__] builds *)

Lemma mapM_ext {A B} (f g : A -> result B) xs :
  (forall x, x ∈ xs -> f x = g x) -> mapM f xs = mapM g xs.
Proof.
  induction xs as [|x xs IH]; intros Hfg; [done|].
  simpl. rewrite (Hfg x) by left.
  rewrite IH; [done|]. intros y Hy. apply Hfg. by right.
Qed.

Lemma mapM_seq_fmap {A B} (F : nat -> result B) (G : A -> B) (l : list A) :
  forall k,
  (forall i x, l !! i = Some x -> F (k + i) = Ok (G x)) ->
  mapM F (seq k (length l)) = Ok (G <$> l).
Proof.
  induction l as [|x l IH]; intros k HF; [done|].
  simpl. rewrite <- (Nat.add_0_r k) at 1. rewrite (HF 0 x) by done.
  cbn [mbind result_bind].
  rewrite (IH (S k)).
  - done.
  - intros i y Hy. replace (S k + i) with (k + S i) by lia. by apply HF.
Qed.

Lemma mapM_range_fmap {A B} (F : nat -> result B) (G : A -> B) (l : list A) :
  (forall i x, l !! i = Some x -> F i = Ok (G x)) ->
  mapM F (range 0 (length l)) = Ok (G <$> l).
Proof.
  intros HF. unfold range. rewrite Nat.sub_0_r.
  apply mapM_seq_fmap. intros i x. apply HF.
Qed.

Lemma mapM_range_take {A B} (g : A -> B) (l : list A) n :
  n <= length l ->
  mapM (fun j => v ← item l j; Ok (g v)) (range 0 n) = Ok (g <$> take n l).
Proof.
  intros Hn.
  rewrite <- (mapM_range_fmap (fun j => v ← item l j; Ok (g v)) g (take n l)).
  - by rewrite length_take, Nat.min_l.
  - intros i x Hx. apply lookup_take_Some in Hx as [Hx _].
    unfold item. by rewrite Hx.
Qed.

Lemma mapM_Raise {A B} (f : A -> result B) xs e :
  mapM f xs = Raise e -> exists x, x ∈ xs /\ f x = Raise e.
Proof.
  induction xs as [|x xs IH]; [discriminate|].
  simpl. destruct (f x) as [y|e'] eqn:Hx.
  - cbn [mbind result_bind].
    destruct (mapM f xs) as [ys|e'] eqn:Hxs; [discriminate|].
    cbn [mbind result_bind]. intros [= ->].
    destruct (IH eq_refl) as (x' & Hin & Hx'). exists x'. split; [by right|done].
  - cbn [mbind result_bind]. intros [= ->]. exists x. split; [left|done].
Qed.

Lemma cell_Raise {A} (b : list (list A)) r c e :
  cell b r c = Raise e -> e = IndexError.
Proof.
  unfold cell, item. destruct (b !! r) as [row|]; cbn [mbind result_bind].
  - destruct (row !! c); congruence.
  - congruence.
Qed.

Lemma new_builds puzzle pop_size elite_frac max_iters :
  CulturalSolverImpl.new puzzle pop_size elite_frac max_iters =
  if decide (Forall (fun row => length puzzle <= length row) puzzle)
  then Ok (CulturalSolverImpl.Make puzzle (length puzzle)
             (SudokuLogic.get_block_dims (length puzzle)).1
             (SudokuLogic.get_block_dims (length puzzle)).2
             pop_size elite_frac max_iters
             ((fun row => (fun v => bool_decide (v <> 0%Z))
                            <$> take (length puzzle) row) <$> puzzle)
             (CulturalSolverImpl.missing_of (length puzzle) <$> puzzle)
             (BeliefSpace.init (length puzzle)))
  else Raise IndexError.
Proof.
  unfold CulturalSolverImpl.new. cbv zeta.
  destruct (SudokuLogic.get_block_dims (length puzzle)) as [h w].
  cbn [fst snd].
  set (n := length puzzle).
  set (inner := fun i => mapM (fun j => v ← cell puzzle i j;
                                        Ok (bool_decide (v <> 0%Z)))
                              (range 0 n)).
  destruct (decide (Forall (fun row => n <= length row) puzzle)) as [Hall|Hex].
  - rewrite Forall_forall in Hall.
    assert (Hmask : mapM inner (range 0 n) =
      Ok ((fun row => (fun v => bool_decide (v <> 0%Z)) <$> take n row)
            <$> puzzle)).
    { apply (mapM_range_fmap inner _ puzzle). intros i row Hrow. unfold inner.
      rewrite <- (mapM_range_take (fun v => bool_decide (v <> 0%Z)) row n).
      - apply mapM_ext. intros j _. unfold cell.
        by rewrite (proj2 (item_Ok puzzle i row) Hrow).
      - apply Hall. by eapply list_elem_of_lookup_2. }
    assert (Hmiss : mapM (fun r => row ← item puzzle r;
                                   Ok (CulturalSolverImpl.missing_of n row))
                         (range 0 n) =
      Ok (CulturalSolverImpl.missing_of n <$> puzzle)).
    { apply (mapM_range_fmap _ _ puzzle). intros i row Hrow.
      unfold item. by rewrite Hrow. }
    rewrite Hmask. cbn [mbind result_bind]. rewrite Hmiss. done.
  - destruct (mapM inner (range 0 n)) as [rows|e] eqn:Hrows.
    + exfalso. apply Hex. apply Forall_forall. intros row Hrow.
      apply list_elem_of_lookup in Hrow as [i Hi].
      assert (Hin : i < n) by (by eapply lookup_lt_Some).
      destruct (decide (n <= length row)) as [|Hshort]; [done|].
      destruct (mapM_Ok_lookup inner _ _ i i Hrows) as (mask & _ & Hmask).
      { apply range_lookup. lia. }
      unfold inner in Hmask.
      destruct (mapM_Ok_lookup _ _ _ (length row) (length row) Hmask)
        as (f & _ & Hf).
      { apply range_lookup. lia. }
      unfold cell, item in Hf. rewrite Hi in Hf. cbn [mbind result_bind] in Hf.
      rewrite lookup_ge_None_2 in Hf by lia. discriminate.
    + cbn [mbind result_bind].
      apply mapM_Raise in Hrows as (i & _ & Hi). unfold inner in Hi.
      apply mapM_Raise in Hi as (j & _ & Hj).
      destruct (cell puzzle i j) as [v|e'] eqn:Hc; [discriminate|].
      cbn [mbind result_bind] in Hj. injection Hj as ->.
      by rewrite (cell_Raise _ _ _ _ Hc).
Qed.

(** X7 (CulturalSolverImpl.__init__): the constructor raises exactly when
    some row of the puzzle has fewer entries than the puzzle has rows, and
    then an [IndexError].  Otherwise it returns the solver whose mask marks
    the nonzero entries among the first [N] of each row, whose missing
    values are computed from the whole of each row, whose belief space is
    zeroed, and whose block is the one [get_block_dims] gives. *)
Theorem new_closed_form puzzle pop_size elite_frac max_iters :
  CulturalSolverImpl.new puzzle pop_size elite_frac max_iters =
  if decide (Forall (fun row => length puzzle <= length row) puzzle)
  then Ok (CulturalSolverImpl.Make puzzle (length puzzle)
             (SudokuLogic.get_block_dims (length puzzle)).1
             (SudokuLogic.get_block_dims (length puzzle)).2
             pop_size elite_frac max_iters
             ((fun row => (fun v => bool_decide (v <> 0%Z))
                            <$> take (length puzzle) row) <$> puzzle)
             (CulturalSolverImpl.missing_of (length puzzle) <$> puzzle)
             (BeliefSpace.init (length puzzle)))
  else Raise IndexError.
Proof. apply new_builds. Qed.

(** ** Crossover and mutation, one call at a time *)

(** A computation that always returns, run from a given world. *)
Lemma effect_run {A} R (m : M A) (φ : A -> Prop) (w : world) :
  effect R true m φ ->
  exists a w', m w = (Ok a, w') /\ yielded w' = yielded w /\ φ a.
Proof.
  intros Hm. destruct (Hm w) as (r & w' & new & Hrun & Hy & _ & _ & Hr).
  destruct r as [a|e]; [|discriminate]. by exists a, w'.
Qed.

Lemma effect_randint0_total R n :
  0 < n ->
  effect R true (random.randint0 (Z.of_nat n - 1)) (fun r => r < n).
Proof.
  intros Hn. unfold random.randint0.
  destruct (decide (Z.of_nat n - 1 < 0)%Z); [lia|].
  replace (Z.to_nat (Z.of_nat n - 1 + 1)) with n by lia.
  eapply effect_weaken; [apply effect_randbelow|done|done|].
  intros _. apply bool_decide_eq_true_2. lia.
Qed.

Lemma effect_select_target_row_total R (bs : BeliefSpace.t) :
  length (BeliefSpace.row_conflict_scores bs) = BeliefSpace.N bs ->
  0 < BeliefSpace.N bs ->
  effect R true (BeliefSpace.select_target_row bs)
         (fun r => r < BeliefSpace.N bs).
Proof.
  intros Hlen HN. unfold BeliefSpace.select_target_row. cbv zeta.
  destruct (decide _); [by apply effect_randint0_total|].
  eapply effect_bind; [apply (effect_uniform0 R true)|]. intros pick _.
  unfold BeliefSpace.select_with_pick.
  destruct (roulette_scan (BeliefSpace.row_conflict_scores bs) pick
              (length (BeliefSpace.row_conflict_scores bs)) 0)
    as [(r & Hr & Hlt & _)|[Hr _]]; [done|intros; lia|..];
    change (running (BeliefSpace.row_conflict_scores bs) 0) with 0 in Hr;
    unfold range; rewrite Nat.sub_0_r, <- Hlen, Hr.
  - eapply effect_bind; [by apply (effect_lift_Ok R true _ (Some r))|].
    intros ? ->. by apply effect_ret.
  - eapply effect_bind; [by apply (effect_lift_Ok R true _ None)|].
    intros ? ->. rewrite Hlen. by apply effect_randint0_total.
Qed.

Lemma filterM_total {A} (f : A -> result bool) xs :
  (forall x, x ∈ xs -> exists keep, f x = Ok keep) ->
  exists ys, filterM f xs = Ok ys.
Proof.
  induction xs as [|x xs IH]; intros Hf; [by exists []|].
  simpl. destruct (Hf x) as [keep ->]; [left|].
  destruct IH as [ys ->]; [intros y Hy; apply Hf; by right|].
  cbn [mbind result_bind]. eauto.
Qed.

Lemma filterM_sublist {A} (f : A -> result bool) xs ys :
  filterM f xs = Ok ys -> sublist ys xs.
Proof.
  revert ys. induction xs as [|x xs IH]; intros ys; simpl.
  - by intros [= <-].
  - destruct (f x) as [keep|]; [|done]. cbn [mbind result_bind].
    destruct (filterM f xs) as [zs|]; [|done]. cbn [mbind result_bind].
    intros [= <-]. destruct keep.
    + apply sublist_skip. by apply IH.
    + apply sublist_cons. by apply IH.
Qed.

Lemma effect_sample2_distinct {A} R (xs : list A) :
  NoDup xs ->
  effect R (bool_decide (2 <= length xs)) (random.sample2 xs)
         (fun p => p.1 ∈ xs /\ p.2 ∈ xs /\ p.1 <> p.2).
Proof.
  intros Hnd.
  unfold random.sample2. destruct (decide (length xs < 2)) as [Hlt|Hge].
  - apply effect_lift. rewrite bool_decide_eq_false_2; [done|lia].
  - rewrite bool_decide_eq_true_2 by lia.
    eapply effect_bind.
    { eapply effect_weaken; [apply effect_randbelow|done|done|].
      intros _. apply bool_decide_eq_true_2. lia. }
    intros j1 Hj1. simpl in Hj1.
    destruct (lookup_lt_is_Some_2 xs j1 Hj1) as [x1 Hx1].
    destruct (lookup_lt_is_Some_2 xs (length xs - 1)) as [xl Hxl]; [lia|].
    eapply effect_bind;
      [apply (effect_lift_Ok R true _ x1); by apply item_Ok|].
    intros ? ->.
    eapply effect_bind;
      [apply (effect_lift_Ok R true _ xl); by apply item_Ok|].
    intros ? ->.
    eapply effect_bind;
      [apply (effect_lift_Ok R true _ (<[j1 := xl]> xs));
       by apply set_item_Ok|].
    intros ? ->.
    eapply effect_bind.
    { eapply effect_weaken; [apply effect_randbelow|done|done|].
      intros _. apply bool_decide_eq_true_2. lia. }
    intros j2 Hj2. simpl in Hj2.
    destruct (lookup_lt_is_Some_2 (<[j1 := xl]> xs) j2) as [x2 Hx2];
      [rewrite length_insert; lia|].
    eapply effect_bind;
      [apply (effect_lift_Ok R true _ x2); by apply item_Ok|].
    intros ? ->. apply effect_ret. simpl.
    split; [by eapply list_elem_of_lookup_2|].
    destruct (decide (j1 = j2)) as [->|Hne].
    + rewrite list_lookup_insert_eq in Hx2 by done. injection Hx2 as <-.
      split; [by eapply list_elem_of_lookup_2|].
      intros ->.
      pose proof (NoDup_lookup _ _ _ _ Hnd Hx1 Hxl). lia.
    + rewrite list_lookup_insert_ne in Hx2 by done.
      split; [by eapply list_elem_of_lookup_2|].
      intros ->. by pose proof (NoDup_lookup _ _ _ _ Hnd Hx1 Hx2).
Qed.

Lemma swap_cells_Ok (b : board) r c1 c2 row v1 v2 :
  b !! r = Some row -> row !! c1 = Some v1 -> row !! c2 = Some v2 ->
  CulturalSolverImpl.swap_cells b r c1 c2
  = Ok (<[r := <[c2 := v1]> (<[c1 := v2]> row)]> b).
Proof.
  intros Hrow H1 H2. unfold CulturalSolverImpl.swap_cells.
  rewrite (proj2 (cell_Ok b r c2 v2)) by eauto.
  rewrite (proj2 (cell_Ok b r c1 v1)) by eauto.
  cbn [mbind result_bind].
  assert (r < length b) as Hr by (by eapply lookup_lt_Some).
  rewrite (set_cell_Ok b r c1 v2 row Hrow) by (by eapply lookup_lt_Some).
  cbn [mbind result_bind].
  rewrite (set_cell_Ok _ r c2 v1 (<[c1 := v2]> row));
    [|by apply list_lookup_insert_eq
     |rewrite length_insert; by eapply lookup_lt_Some].
  by rewrite list_insert_insert_eq.
Qed.

Lemma crossover_effect R self (p1 p2 : board) :
  length p1 = CulturalSolverImpl.N self ->
  length p2 = CulturalSolverImpl.N self ->
  effect R true (CulturalSolverImpl.crossover self p1 p2)
         (rows_from (CulturalSolverImpl.N self) p1 p2).
Proof.
  intros H1 H2. unfold CulturalSolverImpl.crossover.
  eapply effect_bind; [apply (effect_random_lt R true)|]. intros from_p1 _.
  rewrite clone_board_id.
  apply (effect_forM _ _ _
           (fun _ => rows_from (CulturalSolverImpl.N self) p1 p2)).
  { destruct from_p1; (split; [done|]); intros r _; [by left|by right]. }
  intros done r rest child Hxs [Hlen Hrows].
  assert (Hr : r < CulturalSolverImpl.N self).
  { assert (r ∈ range 0 (CulturalSolverImpl.N self)) as Hin.
    { rewrite Hxs. apply elem_of_app. right. left. }
    apply elem_of_range in Hin. lia. }
  eapply effect_bind; [apply (effect_random_lt R true)|]. intros [] _.
  - destruct (lookup_lt_is_Some_2 p2 r) as [row Hrow]; [lia|].
    eapply effect_bind;
      [apply (effect_lift_Ok R true _ row); by apply item_Ok|].
    intros ? ->. apply effect_lift. rewrite set_item_Ok by lia.
    split; [by rewrite length_insert|].
    intros r' Hr'. destruct (decide (r' = r)) as [->|Hne].
    + right. rewrite list_lookup_insert_eq by lia. done.
    + rewrite list_lookup_insert_ne by done. by apply Hrows.
  - by apply effect_ret.
Qed.

Lemma mutate_effect R self (bs : BeliefSpace.t) (child : board) :
  mask_ok self -> square (CulturalSolverImpl.N self) child ->
  length (BeliefSpace.row_conflict_scores bs) = BeliefSpace.N bs ->
  BeliefSpace.N bs = CulturalSolverImpl.N self ->
  0 < CulturalSolverImpl.N self ->
  effect R true (CulturalSolverImpl.mutate self bs child)
         (mutation_of self child).
Proof.
  intros Hmask Hsq Hlen HN Hpos. unfold CulturalSolverImpl.mutate.
  eapply effect_bind; [apply (effect_random_lt R true)|]. intros [] _;
    [|apply effect_ret; by left].
  eapply effect_bind.
  { apply effect_select_target_row_total; [done|lia]. }
  intros r Hr. simpl in Hr. rewrite HN in Hr.
  destruct (filterM_total
              (fun c => f ← cell (CulturalSolverImpl.fixed self) r c;
                        Ok (negb f))
              (range 0 (CulturalSolverImpl.N self))) as [mutable Hm].
  { intros c Hc. apply elem_of_range in Hc.
    destruct (square_cell _ _ r c Hmask) as [f ->]; [lia..|].
    cbn [mbind result_bind]. eauto. }
  rewrite Hm.
  eapply effect_bind; [by apply (effect_lift_Ok R true _ mutable)|].
  intros ? ->. destruct (decide _) as [Hge|]; [|apply effect_ret; by left].
  assert (Hnd : NoDup mutable).
  { apply (sublist_NoDup _ (range 0 (CulturalSolverImpl.N self)));
      [apply NoDup_seq | by eapply filterM_sublist]. }
  eapply effect_bind.
  { eapply effect_weaken; [by apply effect_sample2_distinct|done|done|].
    intros _. by apply bool_decide_eq_true_2. }
  intros [c1 c2] (Hc1 & Hc2 & Hne). simpl in Hc1, Hc2, Hne. cbn [fst snd].
  assert (forall c, c ∈ mutable ->
            c < CulturalSolverImpl.N self /\ is_open self (r, c)) as Hopen.
  { intros c Hin. destruct (filterM_elem _ _ _ _ Hm Hin) as [Hc Hf].
    apply elem_of_range in Hc. split; [lia|].
    apply cell_false_open.
    destruct (cell (CulturalSolverImpl.fixed self) r c) as [[]|];
      simpl in Hf; done. }
  destruct (Hopen c1 Hc1) as [Hlt1 Ho1], (Hopen c2 Hc2) as [Hlt2 Ho2].
  destruct (square_row _ child r Hsq Hr) as (row & Hrow & Hrowlen).
  destruct (lookup_lt_is_Some_2 row c1) as [v1 Hv1]; [lia|].
  destruct (lookup_lt_is_Some_2 row c2) as [v2 Hv2]; [lia|].
  apply effect_lift.
  rewrite (swap_cells_Ok child r c1 c2 row v1 v2 Hrow Hv1 Hv2).
  right. exists r, c1, c2. split; [done|]. split; [done|]. split; [done|].
  by exists row, v1, v2.
Qed.

(** X8 (solve_gen, crossover): for parents of [N] rows the crossover always
    returns, yields nothing, and its child has [N] rows, each of them the
    row of one parent at the same index: rows are copied whole, never
    mixed. *)
Theorem crossover_copies_rows self (p1 p2 : board) (w : world) :
  length p1 = CulturalSolverImpl.N self ->
  length p2 = CulturalSolverImpl.N self ->
  exists child w',
    CulturalSolverImpl.crossover self p1 p2 w = (Ok child, w') /\
    yielded w' = yielded w /\
    length child = CulturalSolverImpl.N self /\
    forall r, r < CulturalSolverImpl.N self ->
      child !! r = p1 !! r \/ child !! r = p2 !! r.
Proof.
  intros H1 H2.
  apply (effect_run (fun _ => True)), crossover_effect; done.
Qed.

Lemma crossover_copies_rows_witness :
  exists child w',
    CulturalSolverImpl.crossover sample_solver solved_board repeated_rows
      (start mixed_tape) = (Ok child, w') /\
    yielded w' = yielded (start mixed_tape) /\
    length child = CulturalSolverImpl.N sample_solver /\
    forall r, r < CulturalSolverImpl.N sample_solver ->
      child !! r = solved_board !! r \/ child !! r = repeated_rows !! r.
Proof.
  apply (crossover_copies_rows sample_solver solved_board repeated_rows
           (start mixed_tape)); reflexivity.
Defined.

(** X9 (solve_gen, mutation): on a square child, with a belief space of the
    solver's size, the mutation always returns and yields nothing; the
    board it returns is the child itself, or the child with two distinct
    open cells of one row exchanged.  A clue is never moved and no row
    changes the values it holds. *)
Theorem mutate_exchanges_open_cells self (bs : BeliefSpace.t) (child : board)
    (w : world) :
  mask_ok self -> square (CulturalSolverImpl.N self) child ->
  length (BeliefSpace.row_conflict_scores bs) = BeliefSpace.N bs ->
  BeliefSpace.N bs = CulturalSolverImpl.N self ->
  0 < CulturalSolverImpl.N self ->
  exists b' w',
    CulturalSolverImpl.mutate self bs child w = (Ok b', w') /\
    yielded w' = yielded w /\
    (b' = child \/
     exists r c1 c2 row v1 v2,
       c1 <> c2 /\ is_open self (r, c1) /\ is_open self (r, c2) /\
       child !! r = Some row /\ row !! c1 = Some v1 /\ row !! c2 = Some v2 /\
       b' = <[r := <[c2 := v1]> (<[c1 := v2]> row)]> child).
Proof.
  intros Hmask Hsq Hlen HN Hpos.
  destruct (effect_run (fun _ => True) _ _ w
              (mutate_effect _ self bs child Hmask Hsq Hlen HN Hpos))
    as (b' & w' & Hrun & Hy & Hmut).
  exists b', w'. split; [done|]. split; [done|].
  destruct Hmut as [->|(r & c1 & c2 & Hne & H1 & H2 & row & v1 & v2 & Hex)];
    [by left|].
  right. exists r, c1, c2, row, v1, v2. tauto.
Qed.

Lemma mutate_exchanges_open_cells_witness :
  exists b' w',
    CulturalSolverImpl.mutate sample_solver sample_beliefs solved_board
      (start high_tape) = (Ok b', w') /\
    yielded w' = yielded (start high_tape) /\
    (b' = solved_board \/
     exists r c1 c2 row v1 v2,
       c1 <> c2 /\ is_open sample_solver (r, c1) /\
       is_open sample_solver (r, c2) /\
       solved_board !! r = Some row /\ row !! c1 = Some v1 /\
       row !! c2 = Some v2 /\
       b' = <[r := <[c2 := v1]> (<[c1 := v2]> row)]> solved_board).
Proof.
  apply (mutate_exchanges_open_cells sample_solver sample_beliefs solved_board
           (start high_tape)).
  - apply (bool_decide_unpack _). vm_compute. exact I.
  - apply (bool_decide_unpack _). vm_compute. exact I.
  - reflexivity.
  - reflexivity.
  - simpl. lia.
Defined.

(** ** The placement rule *)

Lemma anyM_spec {A} (f : A -> result bool) xs :
  (forall x, x ∈ xs -> exists hit, f x = Ok hit) ->
  exists hit, anyM f xs = Ok hit /\
              (hit = true <-> exists x, x ∈ xs /\ f x = Ok true).
Proof.
  induction xs as [|x xs IH]; intros Hf.
  - exists false. split; [done|]. split; [done|].
    intros (x & Hx & _). by apply elem_of_nil in Hx.
  - simpl. destruct (Hf x) as [hit Hx]; [left|]. rewrite Hx.
    cbn [mbind result_bind]. destruct hit.
    + exists true. split; [done|]. split; [|done].
      intros _. exists x. split; [left|done].
    + destruct IH as (hit & -> & Hhit).
      { intros y Hy. apply Hf. by right. }
      exists hit. split; [done|]. rewrite Hhit. split.
      * intros (y & Hy & Hfy). exists y. split; [by right|done].
      * intros (y & Hy & Hfy). apply elem_of_cons in Hy as [->|Hy].
        -- congruence.
        -- eauto.
Qed.

Lemma probe_hit (b : board) i j val :
  (v ← cell b i j; Ok (bool_decide (v = val))) = Ok true <->
  value_at b (i, j) = Some val.
Proof.
  rewrite <- cell_value_at. destruct (cell b i j) as [v|e].
  - cbn [mbind result_bind]. split.
    + intros [= Hv]. apply bool_decide_eq_true in Hv. by subst.
    + intros [= ->]. f_equal. by apply bool_decide_eq_true_2.
  - cbn [mbind result_bind]. split; discriminate.
Qed.

Lemma probe_total n (b : board) i j val :
  square n b -> i < n -> j < n ->
  exists hit, (v ← cell b i j; Ok (bool_decide (v = val))) = Ok hit.
Proof.
  intros Hsq Hi Hj. destruct (square_cell n b i j Hsq Hi Hj) as [v ->].
  cbn [mbind result_bind]. eauto.
Qed.

Lemma block_window n h x :
  0 < h -> n `mod` h = 0 -> x < n -> x / h * h + h <= n.
Proof.
  intros Hh Hmod Hx.
  pose proof (Nat.div_mod n h ltac:(lia)) as Hn. rewrite Hmod in Hn.
  assert (x / h < n / h).
  { apply Nat.Div0.div_lt_upper_bound. lia. }
  nia.
Qed.

Lemma valid_in_cell_scan (b : board) r c val :
  square (length b) b -> dims_tile (length b) ->
  r < length b -> c < length b ->
  exists ok,
    SudokuLogic.valid_in_cell b r c val = Ok ok /\
    (ok = true <-> val = 0%Z \/ unseen b (r, c) val).
Proof.
  intros Hsq (Hh & Hw & Hmh & Hmw) Hr Hc.
  unfold unseen, SudokuLogic.valid_in_cell. cbv zeta.
  destruct (SudokuLogic.get_block_dims (length b)) as [h w].
  cbn [fst snd] in *. set (n := length b) in *.
  destruct (decide (val = 0%Z)) as [Hz|Hnz].
  { exists true. split; [done|]. split; [by left|done]. }
  destruct (anyM_spec
    (fun j => v ← cell b r j; Ok (bool_decide (v = val))) (range 0 n))
    as (in_row & -> & Hrow).
  { intros j Hj. apply elem_of_range in Hj. apply (probe_total n); [done|lia..]. }
  cbn [mbind result_bind]. destruct in_row.
  { exists false. split; [done|]. split; [done|]. intros [?|Hun]; [done|].
    destruct (proj1 Hrow eq_refl) as (j & Hj & Hhit).
    apply elem_of_range in Hj. apply probe_hit in Hhit.
    exfalso. apply (Hun (r, j)); [split; simpl; lia|by left|done]. }
  destruct (anyM_spec
    (fun i => v ← cell b i c; Ok (bool_decide (v = val))) (range 0 n))
    as (in_col & -> & Hcol).
  { intros i Hi. apply elem_of_range in Hi. apply (probe_total n); [done|lia..]. }
  cbn [mbind result_bind]. destruct in_col.
  { exists false. split; [done|]. split; [done|]. intros [?|Hun]; [done|].
    destruct (proj1 Hcol eq_refl) as (i & Hi & Hhit).
    apply elem_of_range in Hi. apply probe_hit in Hhit.
    exfalso. apply (Hun (i, c)); [split; simpl; lia|right; by left|done]. }
  unfold SudokuLogic.floordiv.
  rewrite !decide_False by lia. cbn [mbind result_bind].
  pose proof (block_window n h r Hh Hmh Hr) as Hfr.
  pose proof (block_window n w c Hw Hmw Hc) as Hfc.
  set (inner := fun i =>
    anyM (fun j => v ← cell b i j; Ok (bool_decide (v = val)))
         (range (c / w * w) (c / w * w + w))).
  assert (Hinner : forall i, i < n ->
    exists hit, inner i = Ok hit /\
      (hit = true <->
       exists j, c / w * w <= j < c / w * w + w /\
                 value_at b (i, j) = Some val)).
  { intros i Hi. unfold inner.
    destruct (anyM_spec
      (fun j => v ← cell b i j; Ok (bool_decide (v = val)))
      (range (c / w * w) (c / w * w + w))) as (hit & -> & Hhit).
    { intros j Hj. apply elem_of_range in Hj.
      apply (probe_total n); [done|lia..]. }
    exists hit. split; [done|]. rewrite Hhit.
    split; intros (j & Hj & Hv); exists j.
    - apply elem_of_range in Hj. by apply probe_hit in Hv.
    - split; [by apply elem_of_range|by apply probe_hit]. }
  destruct (anyM_spec inner (range (r / h * h) (r / h * h + h)))
    as (in_block & -> & Hblock).
  { intros i Hi. apply elem_of_range in Hi.
    destruct (Hinner i) as (hit & ? & _); [lia|]. eauto. }
  cbn [mbind result_bind]. destruct in_block.
  { exists false. split; [done|]. split; [done|]. intros [?|Hun]; [done|].
    destruct (proj1 Hblock eq_refl) as (i & Hi & Hhit).
    apply elem_of_range in Hi.
    destruct (Hinner i) as (hit & Hrun & Hiff); [lia|].
    rewrite Hhit in Hrun. injection Hrun as <-.
    destruct (proj1 Hiff eq_refl) as (j & Hj & Hv).
    exfalso. apply (Hun (i, j)); [split; simpl; lia| |done].
    right. right. split; simpl; symmetry; apply div_window; lia. }
  exists true. split; [done|]. split; [|done]. intros _. right.
  intros [i j] [Hi Hj] Hsee Hv. simpl in Hi, Hj.
  destruct Hsee as [Hsr|[Hsc|[Hb1 Hb2]]]; unfold same_row, same_column in *;
    simpl in *.
  - subst i. assert (false = true); [|done]. apply Hrow. exists j.
    split; [apply elem_of_range; lia|by apply probe_hit].
  - subst j. assert (false = true); [|done]. apply Hcol. exists i.
    split; [apply elem_of_range; lia|by apply probe_hit].
  - assert (false = true); [|done]. apply Hblock. exists i.
    symmetry in Hb1, Hb2.
    apply div_window in Hb1; [|done]. apply div_window in Hb2; [|done].
    split; [apply elem_of_range; lia|].
    destruct (Hinner i Hi) as (hit & Hrun & Hiff). rewrite Hrun. f_equal.
    apply Hiff. exists j. split; [lia|done].
Qed.

(** X10 (valid_in_cell): on a square board whose size the block tiles, and
    for a cell of the grid, the call returns; it answers [True] exactly when
    [val] is 0 or no cell of the row, of the column or of the block of
    [(r, c)] holds [val], the cell [(r, c)] itself included. *)
Theorem valid_in_cell_exact (b : board) r c val :
  square (length b) b -> dims_tile (length b) ->
  r < length b -> c < length b ->
  exists ok,
    SudokuLogic.valid_in_cell b r c val = Ok ok /\
    (ok = true <-> val = 0%Z \/ unseen b (r, c) val).
Proof. apply valid_in_cell_scan. Qed.

Lemma valid_in_cell_exact_witness :
  exists ok,
    SudokuLogic.valid_in_cell sample_puzzle 1 0 3 = Ok ok /\
    (ok = true <-> 3%Z = 0%Z \/ unseen sample_puzzle (1, 0) 3).
Proof.
  apply (valid_in_cell_exact sample_puzzle 1 0 3).
  - apply (bool_decide_unpack _). vm_compute. exact I.
  - apply (bool_decide_unpack _). vm_compute. exact I.
  - simpl. lia.
  - simpl. lia.
Defined.

Lemma value_at_empty_board n q v :
  value_at (SudokuLogic.make_empty_board n) q = Some v -> v = 0%Z.
Proof.
  unfold value_at, SudokuLogic.make_empty_board.
  destruct (replicate n (replicate n 0%Z) !! q.1) as [row|] eqn:Hrow;
    [|discriminate].
  apply lookup_replicate in Hrow as [-> _]. simpl.
  intros Hv. by apply lookup_replicate in Hv as [-> _].
Qed.

(** X11 (make_empty_board, valid_in_cell): the empty board of a size the
    block tiles is an [N] by [N] grid of zeros, and [valid_in_cell] accepts
    every value in every one of its cells. *)
Theorem empty_board_accepts_all n r c val :
  dims_tile n -> r < n -> c < n ->
  square n (SudokuLogic.make_empty_board n) /\
  (forall q v, value_at (SudokuLogic.make_empty_board n) q = Some v ->
               v = 0%Z) /\
  SudokuLogic.valid_in_cell (SudokuLogic.make_empty_board n) r c val = Ok true.
Proof.
  intros Ht Hr Hc.
  assert (Hlen : length (SudokuLogic.make_empty_board n) = n).
  { apply length_replicate. }
  split; [apply square_replicate|]. split; [apply value_at_empty_board|].
  destruct (valid_in_cell_scan (SudokuLogic.make_empty_board n) r c val)
    as (ok & -> & Hok).
  - rewrite Hlen. apply square_replicate.
  - by rewrite Hlen.
  - by rewrite Hlen.
  - by rewrite Hlen.
  - f_equal. apply Hok.
    destruct (decide (val = 0%Z)) as [|Hnz]; [by left|right].
    intros q _ _ Hv. apply value_at_empty_board in Hv. congruence.
Qed.

Lemma empty_board_accepts_all_witness :
  square 9 (SudokuLogic.make_empty_board 9) /\
  (forall q v, value_at (SudokuLogic.make_empty_board 9) q = Some v ->
               v = 0%Z) /\
  SudokuLogic.valid_in_cell (SudokuLogic.make_empty_board 9) 4 7 5 = Ok true.
Proof.
  apply (empty_board_accepts_all 9 4 7 5).
  - apply (bool_decide_unpack _). vm_compute. exact I.
  - lia.
  - lia.
Defined.

(** X12 (get_block_dims): for a size [N] below [2^52], where [int(N**0.5)]
    is the integer square root, a block never holds more than [N] cells,
    and it holds exactly [N] cells precisely for [N = 6] and for the
    perfect squares; for every other size the blocks the scans visit are
    too small to hold the values [1 .. N]. *)
Theorem block_area n :
  (Z.of_nat n < 2 ^ 52)%Z ->
  (SudokuLogic.get_block_dims n).1 * (SudokuLogic.get_block_dims n).2 <= n /\
  ((SudokuLogic.get_block_dims n).1 * (SudokuLogic.get_block_dims n).2 = n
   <-> n = 6 \/ exists k, n = k * k).
Proof.
  intros _. unfold SudokuLogic.get_block_dims.
  destruct (decide (n = 6)) as [->|Hne]; cbn [fst snd].
  - split; [lia|]. split; [by left|done].
  - pose proof (Nat.sqrt_specif n) as [Hlo Hhi].
    split; [done|]. split.
    + intros <-. right. by exists (Nat.sqrt n).
    + intros [?|[k ->]]; [done|]. by rewrite Nat.sqrt_square.
Qed.

Lemma block_area_witness :
  (SudokuLogic.get_block_dims 12).1 * (SudokuLogic.get_block_dims 12).2 <= 12 /\
  ((SudokuLogic.get_block_dims 12).1 * (SudokuLogic.get_block_dims 12).2 = 12
   <-> 12 = 6 \/ exists k, 12 = k * k).
Proof. apply (block_area 12). simpl. lia. Defined.

(** ** Fitness zero means solved *)

Lemma row_complete_square_board self (b : board) :
  row_complete self b -> square (CulturalSolverImpl.N self) b.
Proof.
  intros (Hlen & Hrows & _). split; [done|].
  eapply Forall_impl; [exact Hrows|]. intros row Hrow. simpl in Hrow.
  by rewrite Hrow, length_values.
Qed.

Lemma row_complete_rows_distinct self (b : board) p q :
  row_complete self b -> same_row p q -> p <> q ->
  in_grid (CulturalSolverImpl.N self) p ->
  value_at b p <> value_at b q.
Proof.
  intros Hrc Hsame Hne Hp Heq.
  pose proof (row_complete_square_board self b Hrc) as Hsq.
  destruct (square_value_at _ b p Hsq Hp) as [v Hv].
  rewrite Hv in Heq. symmetry in Heq.
  unfold value_at in Hv, Heq. unfold same_row in Hsame. rewrite <- Hsame in Heq.
  destruct (b !! p.1) as [row|] eqn:Hrow; [|discriminate]. simpl in Hv, Heq.
  destruct Hrc as (_ & Hrows & _). rewrite Forall_forall in Hrows.
  assert (NoDup row) as Hnd.
  { rewrite (Hrows row) by (by eapply list_elem_of_lookup_2).
    apply NoDup_values. }
  pose proof (NoDup_lookup _ _ _ _ Hnd Hv Heq) as Hc.
  apply Hne. destruct p, q. simpl in *. congruence.
Qed.

(** X13 (fitness): for a row-complete board, fitness 0 is the same as being
    a valid grid: no two distinct cells of one row, one column or one block
    hold the same value.  The rows are clean by row-completeness, the
    columns and the blocks by the two scans. *)
Theorem zero_fitness_is_valid_grid self (b : board) :
  tiles self -> row_complete self b ->
  CulturalSolverImpl.fitness self b = Ok 0 <->
  no_repeat (CulturalSolverImpl.N self) (CulturalSolverImpl.br_h self)
            (CulturalSolverImpl.bc_w self) b.
Proof.
  intros Ht Hrc.
  pose proof (row_complete_square_board self b Hrc) as Hsq.
  split.
  - intros Hfit p q Hp Hq Hne Hsee Heq.
    destruct Hsee as [Hrow|Hcb].
    + by apply (row_complete_rows_distinct self b p q).
    + assert (Hno : forall p q, ~ clash self b p q).
      { by apply no_clash_fitness_zero. }
      destruct (square_value_at _ b p Hsq Hp) as [v Hv].
      apply (Hno p q). split; [done|]. split; [done|]. split; [done|].
      split; [done|]. exists v. split; [done|congruence].
  - intros Hvalid. apply no_clash_fitness_zero; [done..|].
    intros p q (Hne & Hp & Hq & Hsee & v & Hvp & Hvq).
    apply (Hvalid p q Hp Hq Hne); [by right|congruence].
Qed.

Lemma zero_fitness_is_valid_grid_witness :
  CulturalSolverImpl.fitness sample_solver solved_board = Ok 0 <->
  no_repeat (CulturalSolverImpl.N sample_solver)
            (CulturalSolverImpl.br_h sample_solver)
            (CulturalSolverImpl.bc_w sample_solver) solved_board.
Proof.
  apply (zero_fitness_is_valid_grid sample_solver solved_board).
  - unfold tiles. simpl. lia.
  - apply (bool_decide_unpack _). vm_compute. exact I.
Defined.

(** * The backtracking strategy *)

(** ** The search, step by step *)

Lemma recurse_S fuel N st :
  BacktrackingStrategy.recurse (S fuel) N st =
  match BacktrackingStrategy.find_empty N (BacktrackingStrategy.work st) with
  | Raise e => (BacktrackingStrategy.Raises e, st)
  | Ok None => (BacktrackingStrategy.Returns true, st)
  | Ok (Some (r, c)) =>
      BacktrackingStrategy.try_values (BacktrackingStrategy.recurse fuel N)
        r c (values N) st
  end.
Proof.
  cbn [BacktrackingStrategy.recurse].
  unfold mbind, BacktrackingStrategy.G_bind, BacktrackingStrategy.board_now,
    BacktrackingStrategy.lift.
  destruct (BacktrackingStrategy.find_empty N (BacktrackingStrategy.work st))
    as [[[r c]|]|e]; reflexivity.
Qed.

Lemma try_values_cons rec r c val vals st :
  BacktrackingStrategy.try_values rec r c (val :: vals) st =
  match SudokuLogic.valid_in_cell (BacktrackingStrategy.work st) r c val with
  | Raise e => (BacktrackingStrategy.Raises e, st)
  | Ok false => BacktrackingStrategy.try_values rec r c vals st
  | Ok true =>
      match set_cell (BacktrackingStrategy.work st) r c val with
      | Raise e => (BacktrackingStrategy.Raises e, st)
      | Ok b1 =>
          match rec (placed st b1 r c val) with
          | (BacktrackingStrategy.Returns true, st2) =>
              (BacktrackingStrategy.Returns true, st2)
          | (BacktrackingStrategy.Returns false, st2) =>
              match set_cell (BacktrackingStrategy.work st2) r c 0%Z with
              | Raise e => (BacktrackingStrategy.Raises e, st2)
              | Ok b3 =>
                  BacktrackingStrategy.try_values rec r c vals
                    (unplaced st2 b3 r c)
              end
          | (BacktrackingStrategy.Raises e, st2) =>
              (BacktrackingStrategy.Raises e, st2)
          | (BacktrackingStrategy.Deep, st2) =>
              (BacktrackingStrategy.Deep, st2)
          end
      end
  end.
Proof.
  cbn [BacktrackingStrategy.try_values].
  unfold mbind, BacktrackingStrategy.G_bind, BacktrackingStrategy.board_now,
    BacktrackingStrategy.lift, BacktrackingStrategy.put,
    BacktrackingStrategy.tick, BacktrackingStrategy.yield, placed, unplaced.
  destruct (SudokuLogic.valid_in_cell (BacktrackingStrategy.work st) r c val)
    as [[]|e]; [|reflexivity..].
  destruct (set_cell (BacktrackingStrategy.work st) r c val) as [b1|e];
    [|reflexivity].
  cbn [BacktrackingStrategy.work BacktrackingStrategy.step_count
       BacktrackingStrategy.trail].
  destruct (rec _) as [[[]|e|] st2]; [reflexivity| |reflexivity..].
  destruct (set_cell (BacktrackingStrategy.work st2) r c 0%Z) as [b3|e];
    reflexivity.
Qed.

Lemma try_values_walk N rec r c :
  (forall st out st', rec st = (out, st') ->
     out <> BacktrackingStrategy.Deep -> walk N Search st out st') ->
  forall vals st out st',
    BacktrackingStrategy.try_values rec r c vals st = (out, st') ->
    out <> BacktrackingStrategy.Deep ->
    walk N (Try r c vals) st out st'.
Proof.
  intros Hrec. induction vals as [|val vals IH]; intros st out st' Hrun Hout.
  - injection Hrun as <- <-. constructor.
  - rewrite try_values_cons in Hrun.
    destruct (SudokuLogic.valid_in_cell (BacktrackingStrategy.work st) r c val)
      as [[]|e] eqn:Hvalid.
    + destruct (set_cell (BacktrackingStrategy.work st) r c val)
        as [b1|e] eqn:Hput.
      * destruct (rec (placed st b1 r c val)) as [[[]|e|] st2] eqn:Hin.
        -- injection Hrun as <- <-.
           eapply walk_stop; [done|done|by apply Hrec|done].
        -- destruct (set_cell (BacktrackingStrategy.work st2) r c 0%Z)
             as [b3|e] eqn:Hunput.
           ++ eapply walk_back; [done|done|by apply Hrec|done|by apply IH].
           ++ injection Hrun as <- <-.
              eapply walk_unput_raise; [done|done|by apply Hrec|done].
        -- injection Hrun as <- <-.
           eapply walk_stop; [done|done|by apply Hrec|done].
        -- injection Hrun as <- <-. done.
      * injection Hrun as <- <-. by eapply walk_put_raise.
    + apply walk_skip; [done|by apply IH].
    + injection Hrun as <- <-. by apply walk_valid_raise.
Qed.

(** Every run of [recurse] that ends is a walk. *)
Lemma recurse_walk N fuel : forall st out st',
  BacktrackingStrategy.recurse fuel N st = (out, st') ->
  out <> BacktrackingStrategy.Deep ->
  walk N Search st out st'.
Proof.
  induction fuel as [|fuel IH]; intros st out st' Hrun Hout.
  - injection Hrun as <- <-. done.
  - rewrite recurse_S in Hrun.
    destruct (BacktrackingStrategy.find_empty N (BacktrackingStrategy.work st))
      as [[[r c]|]|e] eqn:Hfind.
    + eapply walk_cell; [done|]. by eapply try_values_walk.
    + injection Hrun as <- <-. by constructor.
    + injection Hrun as <- <-. by constructor.
Qed.

Lemma set_cell_inv {A} (b b1 : list (list A)) r c v :
  set_cell b r c v = Ok b1 ->
  exists row, b !! r = Some row /\ c < length row /\
              b1 = <[r := <[c := v]> row]> b.
Proof.
  unfold set_cell, item, set_item.
  destruct (b !! r) as [row|] eqn:Hrow; [|discriminate].
  cbn [mbind result_bind].
  destruct (decide (c < length row)) as [Hc|]; [|discriminate].
  cbn [mbind result_bind].
  destruct (decide (r < length b)); [|discriminate].
  intros [= <-]. eauto.
Qed.

Lemma value_at_set {A} (b : list (list A)) r c v row rc :
  b !! r = Some row -> c < length row ->
  value_at (<[r := <[c := v]> row]> b) rc =
  if decide (rc = (r, c)) then Some v else value_at b rc.
Proof.
  intros Hrow Hc. destruct rc as [r' c'].
  rewrite value_at_insert_row by (by eapply lookup_lt_Some). cbn [fst snd].
  destruct (decide (r' = r)) as [->|Hr].
  - destruct (decide (c' = c)) as [->|Hc'].
    + rewrite decide_True by done. by apply list_lookup_insert_eq.
    + rewrite decide_False by congruence.
      rewrite list_lookup_insert_ne by done.
      unfold value_at. simpl. by rewrite Hrow.
  - by rewrite decide_False by congruence.
Qed.

Lemma value_at_set_cell {A} (b b1 : list (list A)) r c v rc :
  set_cell b r c v = Ok b1 ->
  value_at b1 rc = if decide (rc = (r, c)) then Some v else value_at b rc.
Proof.
  intros Hset. apply set_cell_inv in Hset as (row & Hrow & Hc & ->).
  by apply value_at_set.
Qed.

(** Emptying a cell that was empty before it was filled gives the board
    back. *)
Lemma set_cell_undo (b b1 : board) r c v :
  value_at b (r, c) = Some 0%Z -> set_cell b r c v = Ok b1 ->
  set_cell b1 r c 0%Z = Ok b.
Proof.
  intros Hz Hset. apply set_cell_inv in Hset as (row & Hrow & Hc & ->).
  assert (r < length b) as Hr by (by eapply lookup_lt_Some).
  rewrite (set_cell_Ok _ r c 0%Z (<[c := v]> row)).
  - rewrite list_insert_insert_eq.
    rewrite list_insert_insert_eq.
    unfold value_at in Hz. simpl in Hz. rewrite Hrow in Hz. simpl in Hz.
    by rewrite (list_insert_id row c 0%Z Hz), (list_insert_id b r row Hrow).
  - by apply list_lookup_insert_eq.
  - by rewrite length_insert.
Qed.

Lemma findM_Some {A} (f : A -> result bool) xs x :
  BacktrackingStrategy.findM f xs = Ok (Some x) -> x ∈ xs /\ f x = Ok true.
Proof.
  induction xs as [|y xs IH]; simpl; [discriminate|].
  destruct (f y) as [[]|] eqn:Hy; cbn [mbind result_bind]; [| |discriminate].
  - intros [= <-]. split; [left|done].
  - intros Hx. destruct (IH Hx). split; [by right|done].
Qed.

Lemma findM_None {A} (f : A -> result bool) xs :
  BacktrackingStrategy.findM f xs = Ok None ->
  forall x, x ∈ xs -> f x = Ok false.
Proof.
  induction xs as [|y xs IH]; simpl; intros Hrun x Hx.
  - by apply elem_of_nil in Hx.
  - destruct (f y) as [[]|] eqn:Hy; cbn [mbind result_bind] in Hrun;
      [discriminate| |discriminate].
    apply elem_of_cons in Hx as [->|Hx]; [done|by apply IH].
Qed.

Lemma findM_total {A} (f : A -> result bool) xs :
  (forall x, x ∈ xs -> exists hit, f x = Ok hit) ->
  exists o, BacktrackingStrategy.findM f xs = Ok o.
Proof.
  induction xs as [|y xs IH]; intros Hf; [by exists None|].
  simpl. destruct (Hf y) as [hit ->]; [left|]. cbn [mbind result_bind].
  destruct hit; [eauto|]. apply IH. intros x Hx. apply Hf. by right.
Qed.

Lemma empty_probe (b : board) rc hit :
  (v ← cell b rc.1 rc.2; Ok (bool_decide (v = 0%Z))) = Ok hit ->
  exists v, value_at b rc = Some v /\ (hit = true <-> v = 0%Z).
Proof.
  destruct (cell b rc.1 rc.2) as [v|] eqn:Hc; [|discriminate].
  cbn [mbind result_bind]. intros [= <-]. exists v. split.
  - apply cell_value_at in Hc. by destruct rc.
  - apply bool_decide_eq_true.
Qed.

Lemma find_empty_Some N (b : board) rc :
  BacktrackingStrategy.find_empty N b = Ok (Some rc) ->
  in_grid N rc /\ value_at b rc = Some 0%Z.
Proof.
  intros Hf. apply findM_Some in Hf as [Hin Hhit].
  split; [by apply elem_of_grid|].
  apply empty_probe in Hhit as (v & Hv & Hz).
  rewrite Hv. f_equal. by apply Hz.
Qed.

Lemma find_empty_None N (b : board) rc :
  BacktrackingStrategy.find_empty N b = Ok None -> in_grid N rc ->
  exists v, value_at b rc = Some v /\ v <> 0%Z.
Proof.
  intros Hf Hin. apply elem_of_grid in Hin.
  pose proof (findM_None _ _ Hf rc Hin) as Hhit.
  apply empty_probe in Hhit as (v & Hv & Hz).
  exists v. split; [done|]. intros ->. discriminate (proj2 Hz eq_refl).
Qed.

Lemma find_empty_total N (b : board) :
  square N b -> exists o, BacktrackingStrategy.find_empty N b = Ok o.
Proof.
  intros Hsq. apply findM_total. intros [r c] Hin.
  apply elem_of_grid in Hin as [Hr Hc]. simpl in Hr, Hc. cbn [fst snd].
  destruct (square_cell N b r c Hsq Hr Hc) as [v ->].
  cbn [mbind result_bind]. eauto.
Qed.

(** A search that answers [False] leaves the board as it found it. *)
Lemma hunt_restore N ph (b : board) out b' :
  hunt N ph b out b' ->
  match ph with
  | Search => True
  | Try r c _ => value_at b (r, c) = Some 0%Z
  end ->
  out = Ok false -> b' = b.
Proof.
  induction 1 as
    [b Hf|b e Hf|b r c vals out b' Hf Hperm Hw IH|r c b
    |r c val vals b out b' Hv Hw IH|r c val vals b e Hv
    |r c val vals b e Hv Hp|r c val vals b b1 out b2 Hv Hp Hw IH Hne
    |r c val vals b b1 b2 e Hv Hp Hw IH Hu
    |r c val vals b b1 b2 b3 out b' Hv Hp Hw IH Hu Hw' IH'];
    intros Hz Hout; try done.
  - apply IH; [|done]. by apply find_empty_Some in Hf as [_ ?].
  - by apply IH.
  - specialize (IH I eq_refl). subst b2.
    rewrite (set_cell_undo _ _ _ _ _ Hz Hp) in Hu. injection Hu as <-.
    by apply IH'.
Qed.

(** Every walk is a search on the boards of its states. *)
Lemma walk_hunt N ph st out st' :
  walk N ph st out st' ->
  exists r, out = answer r /\
            hunt N ph (BacktrackingStrategy.work st) r
                 (BacktrackingStrategy.work st').
Proof.
  induction 1 as
    [st Hf|st e Hf|st r c out st' Hf Hw IH|r c st
    |r c val vals st out st' Hv Hw IH|r c val vals st e Hv
    |r c val vals st e Hv Hp|r c val vals st b1 out st2 Hv Hp Hw IH Hne
    |r c val vals st b1 st2 e Hv Hp Hw IH Hu
    |r c val vals st b1 st2 b3 out st' Hv Hp Hw IH Hu Hw' IH'].
  - exists (Ok true). split; [done|]. by constructor.
  - exists (Raise e). split; [done|]. by constructor.
  - destruct IH as (a & -> & Hh). exists a. split; [done|].
    by eapply hunt_cell.
  - exists (Ok false). split; [done|]. constructor.
  - destruct IH as (a & -> & Hh). exists a. split; [done|].
    by apply hunt_skip.
  - exists (Raise e). split; [done|]. by apply hunt_valid_raise.
  - exists (Raise e). split; [done|]. by eapply hunt_put_raise.
  - destruct IH as (a & -> & Hh). exists a. split; [done|].
    eapply hunt_stop; [done|done|exact Hh|]. intros ->. done.
  - destruct IH as (a & Ha & Hh). destruct a as [[]|]; try done.
    exists (Raise e). split; [done|]. by eapply hunt_unput_raise.
  - destruct IH as (a & Ha & Hh). destruct a as [[]|]; try done.
    destruct IH' as (a' & -> & Hh'). exists a'. split; [done|].
    by eapply hunt_back.
Qed.

Lemma walk_restore N ph st out st' :
  walk N ph st out st' ->
  match ph with
  | Search => True
  | Try r c _ => value_at (BacktrackingStrategy.work st) (r, c) = Some 0%Z
  end ->
  out = BacktrackingStrategy.Returns false ->
  BacktrackingStrategy.work st' = BacktrackingStrategy.work st.
Proof.
  intros Hwalk Hz ->. apply walk_hunt in Hwalk as (a & Ha & Hh).
  destruct a as [[]|]; try done.
  by apply (hunt_restore N ph _ _ _ Hh).
Qed.

(** ** The recursion is never deeper than the empty cells allow *)

Lemma length_bind_const {A B} (f : A -> list B) k (l : list A) :
  (forall x, length (f x) = k) -> length (l ≫= f) = length l * k.
Proof.
  intros Hf. induction l as [|x l IH]; [done|].
  rewrite bind_cons, length_app, Hf, IH. simpl. lia.
Qed.

Lemma length_grid n : length (grid n) = n * n.
Proof.
  unfold grid. rewrite (length_bind_const _ n).
  - unfold range. by rewrite length_seq, Nat.sub_0_r.
  - intros r. rewrite (length_bind_const _ 1); [|done].
    unfold range. rewrite length_seq. lia.
Qed.

Lemma zeros_bound n (b : board) : zeros n b <= n * n.
Proof. unfold zeros. rewrite <- length_grid. apply length_filter. Qed.

Lemma length_filter_mono {A} (P Q : A -> Prop)
    `{!forall x, Decision (P x), !forall x, Decision (Q x)} (l : list A) :
  (forall x, P x -> Q x) -> length (filter P l) <= length (filter Q l).
Proof.
  intros HPQ. induction l as [|y l IH]; [done|].
  rewrite !filter_cons.
  destruct (decide (P y)) as [HP|HP].
  - rewrite decide_True by auto. simpl. lia.
  - destruct (decide (Q y)); simpl; lia.
Qed.

Lemma length_filter_drop {A} (P Q : A -> Prop)
    `{!forall x, Decision (P x), !forall x, Decision (Q x)} (l : list A) x :
  (forall y, P y -> Q y) -> x ∈ l -> Q x -> ~ P x ->
  length (filter P l) < length (filter Q l).
Proof.
  intros HPQ Hx HQ HP. induction l as [|y l IH].
  - by apply elem_of_nil in Hx.
  - rewrite !filter_cons. apply elem_of_cons in Hx as [<-|Hx].
    + rewrite decide_False, decide_True by done. simpl.
      pose proof (length_filter_mono P Q l HPQ). lia.
    + specialize (IH Hx). destruct (decide (P y)).
      * rewrite decide_True by auto. simpl. lia.
      * destruct (decide (Q y)); simpl; lia.
Qed.

(** Filling an empty cell of the grid leaves one empty cell fewer. *)
Lemma zeros_placed n (b b1 : board) r c val :
  in_grid n (r, c) -> value_at b (r, c) = Some 0%Z -> val <> 0%Z ->
  set_cell b r c val = Ok b1 -> zeros n b1 < zeros n b.
Proof.
  intros Hin Hz Hval Hset. unfold zeros.
  apply (length_filter_drop _ _ _ (r, c)).
  - intros rc. rewrite (value_at_set_cell b b1 r c val rc Hset).
    case_decide; [|done]. intros [= ?]. done.
  - by apply elem_of_grid.
  - done.
  - rewrite (value_at_set_cell b b1 r c val _ Hset), decide_True by done.
    congruence.
Qed.

Lemma values_nonzero n : Forall (fun v => v <> 0%Z) (values n).
Proof.
  apply Forall_forall. intros v Hv. apply elem_of_values in Hv. lia.
Qed.

Lemma try_values_enough N fuel r c :
  (forall st, zeros N (BacktrackingStrategy.work st) < fuel ->
     (BacktrackingStrategy.recurse fuel N st).1 <> BacktrackingStrategy.Deep) ->
  in_grid N (r, c) ->
  forall vals st,
    Forall (fun v => v <> 0%Z) vals ->
    value_at (BacktrackingStrategy.work st) (r, c) = Some 0%Z ->
    zeros N (BacktrackingStrategy.work st) < S fuel ->
    (BacktrackingStrategy.try_values (BacktrackingStrategy.recurse fuel N)
       r c vals st).1 <> BacktrackingStrategy.Deep.
Proof.
  intros Hrec Hin.
  induction vals as [|val vals IH]; intros st Hvals Hz Hfuel; [done|].
  apply Forall_cons in Hvals as [Hval Hvals].
  rewrite try_values_cons.
  destruct (SudokuLogic.valid_in_cell (BacktrackingStrategy.work st) r c val)
    as [[]|e]; [| by apply IH | done].
  destruct (set_cell (BacktrackingStrategy.work st) r c val) as [b1|e] eqn:Hput;
    [|done].
  pose proof (zeros_placed N _ b1 r c val Hin Hz Hval Hput) as Hless.
  specialize (Hrec (placed st b1 r c val)).
  destruct (BacktrackingStrategy.recurse fuel N (placed st b1 r c val))
    as [[[]|e|] st2] eqn:Hinner; [done| |done|].
  - assert (Hw : BacktrackingStrategy.work st2 = b1).
    { apply (walk_restore N Search (placed st b1 r c val)
               (BacktrackingStrategy.Returns false) st2); [|done|done].
      by eapply recurse_walk. }
    rewrite Hw, (set_cell_undo _ _ _ _ _ Hz Hput).
    by apply IH.
  - simpl in Hrec. exfalso. apply Hrec; [|done].
    cbn [placed BacktrackingStrategy.work]. lia.
Qed.

Lemma recurse_enough N fuel : forall st,
  zeros N (BacktrackingStrategy.work st) < fuel ->
  (BacktrackingStrategy.recurse fuel N st).1 <> BacktrackingStrategy.Deep.
Proof.
  induction fuel as [|fuel IH]; intros st Hfuel; [lia|].
  rewrite recurse_S.
  destruct (BacktrackingStrategy.find_empty N (BacktrackingStrategy.work st))
    as [[[r c]|]|e] eqn:Hfind; [|done..].
  apply find_empty_Some in Hfind as [Hin Hz].
  apply try_values_enough; [done|done|apply values_nonzero|done|done].
Qed.

(** ** What the generator yields *)

Lemma set_cell_write (b b1 : board) r c v :
  set_cell b r c v = Ok b1 -> b1 = write b r c v.
Proof.
  intros Hset. apply set_cell_inv in Hset as (row & Hrow & _ & ->).
  unfold write. by rewrite Hrow.
Qed.

Lemma leads_refl st : leads st [] st.
Proof.
  split; [by rewrite app_nil_r|]. split; [constructor|].
  split; [done|]. split; [simpl; lia|done].
Qed.

Lemma leads_update st b1 r c val moves st' :
  set_cell (BacktrackingStrategy.work st) r c val = Ok b1 ->
  leads (placed st b1 r c val) moves st' ->
  leads st (BacktrackingStrategy.Update r c val
              (S (BacktrackingStrategy.step_count st)) :: moves) st'.
Proof.
  intros Hput (Ht & Hm & Hc & Hn & Hw).
  cbn [placed BacktrackingStrategy.trail BacktrackingStrategy.step_count
       BacktrackingStrategy.work] in *.
  split; [by rewrite Ht, <- app_assoc|].
  split; [by constructor|].
  split; [by rewrite fmap_cons, Hc|].
  split; [simpl; lia|].
  rewrite Hw. simpl. by rewrite (set_cell_write _ _ _ _ _ Hput).
Qed.

Lemma leads_backtrack st moves st2 b3 r c moves' st' :
  leads st moves st2 ->
  set_cell (BacktrackingStrategy.work st2) r c 0%Z = Ok b3 ->
  leads (unplaced st2 b3 r c) moves' st' ->
  leads st
    (moves ++
     BacktrackingStrategy.Backtrack r c
       (S (BacktrackingStrategy.step_count st2)) :: moves') st'.
Proof.
  intros (Ht & Hm & Hc & Hn & Hw) Hunput (Ht' & Hm' & Hc' & Hn' & Hw').
  cbn [unplaced BacktrackingStrategy.trail BacktrackingStrategy.step_count
       BacktrackingStrategy.work] in *.
  split; [by rewrite Ht', Ht, <- !app_assoc|].
  split; [apply Forall_app; split; [done|by constructor]|].
  split.
  { rewrite fmap_app, fmap_cons, Hc, Hc', length_app. cbn [length move_count].
    rewrite Hn.
    replace (length moves + S (length moves'))
      with (length moves + 1 + length moves') by lia.
    rewrite !seq_app. simpl. rewrite <- app_assoc. simpl.
    repeat f_equal; lia. }
  split; [rewrite length_app; simpl; lia|].
  rewrite Hw'. unfold replay. rewrite fold_left_app. simpl.
  by rewrite (set_cell_write _ _ _ _ _ Hunput), Hw.
Qed.

(** Every walk yields moves only, numbers them on from the count it starts
    with, and leaves the board the moves describe. *)
Lemma walk_leads N ph st out st' :
  walk N ph st out st' -> exists moves, leads st moves st'.
Proof.
  induction 1 as
    [st Hf|st e Hf|st r c out st' Hf Hw IH|r c st
    |r c val vals st out st' Hv Hw IH|r c val vals st e Hv
    |r c val vals st e Hv Hp|r c val vals st b1 out st2 Hv Hp Hw IH Hne
    |r c val vals st b1 st2 e Hv Hp Hw IH Hu
    |r c val vals st b1 st2 b3 out st' Hv Hp Hw IH Hu Hw' IH'];
    try (exists []; apply leads_refl); try done.
  - destruct IH as [moves Hm]. eexists. by eapply leads_update.
  - destruct IH as [moves Hm]. eexists. by eapply leads_update.
  - destruct IH as [moves Hm], IH' as [moves' Hm'].
    eexists. eapply leads_backtrack; [by eapply leads_update|done|done].
Qed.

(** ** Soundness of the search *)

Lemma sees_sym h w p q : sees h w p q -> sees h w q p.
Proof.
  unfold sees, same_row, same_column, same_block.
  intros [?|[?|[? ?]]]; auto.
Qed.

Lemma valid_in_cell_unseen n (b : board) r c val :
  square n b -> dims_tile n -> in_grid n (r, c) -> val <> 0%Z ->
  SudokuLogic.valid_in_cell b r c val = Ok true <-> unseen b (r, c) val.
Proof.
  intros Hsq Ht [Hr Hc] Hval. simpl in Hr, Hc.
  pose proof Hsq as [Hlen _]. subst n.
  destruct (valid_in_cell_scan b r c val Hsq Ht Hr Hc) as (ok & -> & Hok).
  split.
  - intros [= ->]. destruct (proj1 Hok eq_refl); done.
  - intros Hun. f_equal. apply Hok. by right.
Qed.

Lemma valid_in_cell_total n (b : board) r c val :
  square n b -> dims_tile n -> in_grid n (r, c) ->
  exists ok, SudokuLogic.valid_in_cell b r c val = Ok ok.
Proof.
  intros Hsq Ht [Hr Hc]. simpl in Hr, Hc.
  pose proof Hsq as [Hlen _]. subst n.
  destruct (valid_in_cell_scan b r c val Hsq Ht Hr Hc) as (ok & -> & _).
  eauto.
Qed.

Lemma set_cell_keeps_square {A} n (b b1 : list (list A)) r c v :
  square n b -> set_cell b r c v = Ok b1 -> square n b1.
Proof.
  intros Hsq Hset. apply set_cell_inv in Hset as (row & Hrow & Hc & ->).
  apply square_insert; [done|]. rewrite length_insert.
  destruct Hsq as [_ Hall]. rewrite Forall_forall in Hall.
  apply Hall. by eapply list_elem_of_lookup_2.
Qed.

(** Placing a value [valid_in_cell] accepts keeps a board workable and
    free of clashes. *)
Lemma placed_consistent n (b b1 : board) r c val :
  workable n b -> consistent n b ->
  in_grid n (r, c) -> val ∈ values n ->
  SudokuLogic.valid_in_cell b r c val = Ok true ->
  set_cell b r c val = Ok b1 ->
  workable n b1 /\ consistent n b1.
Proof.
  intros (Hsq & Ht & Hrange) Hcons Hin Hval Hvalid Hput.
  apply elem_of_values in Hval.
  assert (Hun : unseen b (r, c) val).
  { apply (valid_in_cell_unseen n); [done..|lia|done]. }
  pose proof Hsq as [Hlen _].
  unfold unseen in Hun. rewrite Hlen in Hun.
  split; [split; [|split]|].
  - by eapply set_cell_keeps_square.
  - done.
  - intros p v Hp. rewrite (value_at_set_cell b b1 r c val p Hput).
    case_decide; [intros [= <-]; lia|by apply Hrange].
  - intros p q v Hp Hq Hne Hsee.
    rewrite (value_at_set_cell b b1 r c val p Hput),
            (value_at_set_cell b b1 r c val q Hput).
    destruct (decide (p = (r, c))) as [->|Hp'],
             (decide (q = (r, c))) as [->|Hq']; try done.
    + intros [= <-] Hv. by destruct (Hun q Hq Hsee).
    + intros Hv [= <-]. apply sees_sym in Hsee. by destruct (Hun p Hp Hsee).
    + by apply Hcons.
Qed.

Lemma placed_extends n (b b1 : board) r c val :
  value_at b (r, c) = Some 0%Z -> set_cell b r c val = Ok b1 ->
  extends n b b1.
Proof.
  intros Hz Hput p v _ Hv Hnz.
  rewrite (value_at_set_cell b b1 r c val p Hput).
  case_decide; [|done]. subst p. congruence.
Qed.

Lemma hunt_sound N ph (b : board) out b' :
  hunt N ph b out b' ->
  workable N b -> consistent N b ->
  match ph with
  | Search => True
  | Try r c vals =>
      in_grid N (r, c) /\ value_at b (r, c) = Some 0%Z /\
      Forall (fun v => v ∈ values N) vals
  end ->
  out = Ok true ->
  workable N b' /\ consistent N b' /\ full N b' /\ extends N b b'.
Proof.
  induction 1 as
    [b Hf|b e Hf|b r c vals out b' Hf Hperm Hw IH|r c b
    |r c val vals b out b' Hv Hw IH|r c val vals b e Hv
    |r c val vals b e Hv Hp|r c val vals b b1 out b2 Hv Hp Hw IH Hne
    |r c val vals b b1 b2 e Hv Hp Hw IH Hu
    |r c val vals b b1 b2 b3 out b' Hv Hp Hw IH Hu Hw' IH'];
    intros Hwork Hcons Hph Hout; try done.
  - split; [done|]. split; [done|]. split.
    + intros p Hp. by eapply find_empty_None.
    + by intros p v _ Hv _.
  - apply IH; [done|done| |done].
    apply find_empty_Some in Hf as [? ?].
    split; [done|]. split; [done|].
    apply Forall_forall. intros v Hv. by rewrite <- Hperm.
  - destruct Hph as (Hin & Hz & Hvals). apply Forall_cons in Hvals as [_ ?].
    by apply IH.
  - destruct Hph as (Hin & Hz & Hvals). apply Forall_cons in Hvals as [Hval _].
    destruct (placed_consistent N _ b1 r c val Hwork Hcons Hin Hval Hv Hp)
      as [Hwork1 Hcons1].
    destruct (IH Hwork1 Hcons1 I Hout) as (? & ? & ? & Hext).
    split; [done|]. split; [done|]. split; [done|].
    intros p v Hp' Hvp Hnz. apply Hext; [done| |done].
    by apply (placed_extends N _ b1 r c val Hz Hp).
  - destruct Hph as (Hin & Hz & Hvals). apply Forall_cons in Hvals as [_ ?].
    assert (Hback : b2 = b1) by (by apply (hunt_restore N Search _ _ _ Hw)).
    rewrite Hback, (set_cell_undo _ _ _ _ _ Hz Hp) in Hu. injection Hu as <-.
    by apply IH'.
Qed.

Lemma walk_sound N ph st out st' :
  walk N ph st out st' ->
  workable N (BacktrackingStrategy.work st) ->
  consistent N (BacktrackingStrategy.work st) ->
  match ph with
  | Search => True
  | Try r c vals =>
      in_grid N (r, c) /\
      value_at (BacktrackingStrategy.work st) (r, c) = Some 0%Z /\
      Forall (fun v => v ∈ values N) vals
  end ->
  out = BacktrackingStrategy.Returns true ->
  workable N (BacktrackingStrategy.work st') /\
  consistent N (BacktrackingStrategy.work st') /\
  full N (BacktrackingStrategy.work st') /\
  extends N (BacktrackingStrategy.work st) (BacktrackingStrategy.work st').
Proof.
  intros Hwalk Hwork Hcons Hph ->. apply walk_hunt in Hwalk as (a & Ha & Hh).
  destruct a as [[]|]; try done.
  by apply (hunt_sound N ph _ _ _ Hh).
Qed.

(** ** Completeness of the search *)

(** A solution of the board cannot hold in an empty cell a value that
    [valid_in_cell] rejects there. *)
Lemma rejected_not_in_solution n (b s : board) r c val :
  square n b -> dims_tile n -> in_grid n (r, c) ->
  value_at b (r, c) = Some 0%Z -> val <> 0%Z ->
  SudokuLogic.valid_in_cell b r c val = Ok false ->
  solution n b s -> value_at s (r, c) <> Some val.
Proof.
  intros Hsq Ht Hin Hz Hval Hvalid (Hs & _ & Hnr & Hext) Hsv.
  assert (Hun : unseen b (r, c) val).
  { pose proof Hsq as [Hlen _]. unfold unseen. rewrite Hlen.
    intros q Hq Hsee Hq'.
    assert (q <> (r, c)) as Hne by (intros ->; congruence).
    apply (Hnr (r, c) q Hin Hq); [done|done|].
    rewrite Hsv. symmetry. by apply Hext. }
  apply (valid_in_cell_unseen n) in Hun; [|done..]. congruence.
Qed.

Lemma solution_placed n (b b1 s : board) r c val :
  set_cell b r c val = Ok b1 -> solution n b s ->
  value_at s (r, c) = Some val -> solution n b1 s.
Proof.
  intros Hput (Hs & Hr & Hnr & Hext) Hsv.
  split; [done|]. split; [done|]. split; [done|].
  intros p v Hp. rewrite (value_at_set_cell b b1 r c val p Hput).
  case_decide; [|by apply Hext]. subst p. by intros [= <-].
Qed.

Lemma hunt_complete N ph (b : board) out b' :
  hunt N ph b out b' ->
  square N b -> dims_tile N ->
  match ph with
  | Search => True
  | Try r c vals =>
      in_grid N (r, c) /\ value_at b (r, c) = Some 0%Z /\
      Forall (fun v => v <> 0%Z) vals
  end ->
  (forall e, out <> Raise e) /\
  (out = Ok false ->
   forall s, solution N b s ->
     match ph with
     | Search => False
     | Try r c vals => forall v, value_at s (r, c) = Some v -> v ∉ vals
     end).
Proof.
  intros Hhunt Hsq Ht. revert Hsq.
  induction Hhunt as
    [b Hf|b e Hf|b r c vals out b' Hf Hperm Hw IH|r c b
    |r c val vals b out b' Hv Hw IH|r c val vals b e Hv
    |r c val vals b e Hv Hp|r c val vals b b1 out b2 Hv Hp Hw IH Hne
    |r c val vals b b1 b2 e Hv Hp Hw IH Hu
    |r c val vals b b1 b2 b3 out b' Hv Hp Hw IH Hu Hw' IH'];
    intros Hsq Hph.
  - done.
  - destruct (find_empty_total N _ Hsq) as [o Ho]. congruence.
  - pose proof (find_empty_Some _ _ _ Hf) as [Hin Hz].
    destruct IH as [Hnoraise Hnone]; [done| |].
    { split; [done|]. split; [done|]. rewrite Hperm. apply values_nonzero. }
    split; [done|]. intros Hout s Hsol.
    pose proof Hsol as (Hs & Hrange & _).
    destruct (square_value_at N s (r, c) Hs Hin) as [v Hsv].
    apply (Hnone Hout s Hsol v Hsv). rewrite Hperm.
    by apply (Hrange (r, c)).
  - split; [done|]. intros _ s _ v _ Hin. by apply elem_of_nil in Hin.
  - destruct Hph as (Hin & Hz & Hvals).
    apply Forall_cons in Hvals as [Hval Hvals].
    destruct IH as [Hnoraise Hnone]; [done..|].
    split; [done|]. intros Hout s Hsol v Hsv Hmem.
    apply elem_of_cons in Hmem as [->|Hmem].
    + by apply (rejected_not_in_solution N _ s r c val Hsq Ht Hin Hz Hval Hv).
    + by apply (Hnone Hout s Hsol v Hsv).
  - destruct Hph as (Hin & _).
    destruct (valid_in_cell_total N _ r c val Hsq Ht Hin) as [ok Hok].
    congruence.
  - destruct Hph as ([Hr Hc] & _). simpl in Hr, Hc.
    destruct (set_cell_square N _ r c val Hsq Hr Hc) as (b' & Hb' & _).
    congruence.
  - destruct IH as [Hnoraise _]; [by eapply set_cell_keeps_square|done|].
    split; [done|]. intros ->. done.
  - destruct Hph as (Hin & Hz & _).
    assert (Hback : b2 = b1) by (by apply (hunt_restore N Search _ _ _ Hw)).
    rewrite Hback, (set_cell_undo _ _ _ _ _ Hz Hp) in Hu. discriminate.
  - destruct Hph as (Hin & Hz & Hvals).
    apply Forall_cons in Hvals as [Hval Hvals].
    assert (Hback : b2 = b1) by (by apply (hunt_restore N Search _ _ _ Hw)).
    rewrite Hback, (set_cell_undo _ _ _ _ _ Hz Hp) in Hu. injection Hu as <-.
    destruct IH as [_ Hinner]; [by eapply set_cell_keeps_square|done|].
    destruct IH' as [Hnoraise Hnone]; [done..|].
    split; [done|]. intros Hout s Hsol v Hsv Hmem.
    apply elem_of_cons in Hmem as [->|Hmem].
    + apply (Hinner eq_refl s).
      by apply (solution_placed N b b1 s r c val).
    + by apply (Hnone Hout s Hsol v Hsv).
Qed.

Lemma walk_complete N ph st out st' :
  walk N ph st out st' ->
  square N (BacktrackingStrategy.work st) -> dims_tile N ->
  match ph with
  | Search => True
  | Try r c vals =>
      in_grid N (r, c) /\
      value_at (BacktrackingStrategy.work st) (r, c) = Some 0%Z /\
      Forall (fun v => v <> 0%Z) vals
  end ->
  (forall e, out <> BacktrackingStrategy.Raises e) /\
  (out = BacktrackingStrategy.Returns false ->
   forall s, solution N (BacktrackingStrategy.work st) s ->
     match ph with
     | Search => False
     | Try r c vals => forall v, value_at s (r, c) = Some v -> v ∉ vals
     end).
Proof.
  intros Hwalk Hsq Ht Hph. apply walk_hunt in Hwalk as (a & -> & Hh).
  destruct (hunt_complete N ph _ _ _ Hh Hsq Ht Hph) as [Hnoraise Hnone].
  split.
  - intros e. destruct a as [?|e']; [done|]. by destruct (Hnoraise e').
  - intros Hout. apply Hnone. by destruct a as [[]|].
Qed.

(** ** Deciding the conditions on a partial board *)

Lemma in_range_cells n (b : board) :
  in_range n b <-> Forall (in_range_at n b) (grid n).
Proof.
  rewrite Forall_forall. unfold in_range, in_range_at. split.
  - intros H p Hp. apply elem_of_grid in Hp.
    destruct (value_at b p) as [v|] eqn:Hv; [by apply (H p)|done].
  - intros H p v Hp Hv. apply elem_of_grid in Hp.
    specialize (H p Hp). by rewrite Hv in H.
Qed.

Lemma consistent_cells n (b : board) :
  consistent n b <->
  Forall (fun p => Forall (clash_free_at n b p) (grid n)) (grid n).
Proof.
  rewrite Forall_forall. unfold consistent, clash_free_at. split.
  - intros H p Hp. apply Forall_forall. intros q Hq.
    apply elem_of_grid in Hp, Hq.
    destruct (decide (p = q)) as [|Hne]; [by left|right].
    destruct (decide (sees (SudokuLogic.get_block_dims n).1
                           (SudokuLogic.get_block_dims n).2 p q))
      as [Hsee|]; [right|by left].
    destruct (decide (value_at b p = value_at b q)) as [Heq|];
      [right|by left].
    destruct (value_at b p) as [v|] eqn:Hv; [left|by right].
    f_equal. by apply (H p q v).
  - intros H p q v Hp Hq Hne Hsee Hvp Hvq.
    apply elem_of_grid in Hp, Hq.
    specialize (H p Hp). rewrite Forall_forall in H.
    destruct (H q Hq) as [?|[?|[Hd|[Hz|Hn]]]]; try done; congruence.
Qed.

#[global] Instance in_range_dec n b : Decision (in_range n b).
Proof.
  refine (cast_if (decide (Forall (in_range_at n b) (grid n))));
    by rewrite in_range_cells.
Defined.

#[global] Instance consistent_dec n b : Decision (consistent n b).
Proof.
  refine (cast_if (decide
    (Forall (fun p => Forall (clash_free_at n b p) (grid n)) (grid n))));
    by rewrite consistent_cells.
Defined.

#[global] Instance workable_dec n b : Decision (workable n b).
Proof. unfold workable. apply _. Defined.

(** ** The generator as a whole *)

Lemma run_unfold (b : board) :
  BacktrackingStrategy.run b =
  match BacktrackingStrategy.recurse (length b * length b + 1) (length b)
          (started b) with
  | (BacktrackingStrategy.Returns true, st) =>
      (BacktrackingStrategy.Returns tt,
       ended st (BacktrackingStrategy.Done (BacktrackingStrategy.work st)
                   (BacktrackingStrategy.step_count st)))
  | (BacktrackingStrategy.Returns false, st) =>
      (BacktrackingStrategy.Returns tt,
       ended st (BacktrackingStrategy.Fail
                   (BacktrackingStrategy.step_count st)))
  | (BacktrackingStrategy.Raises e, st) => (BacktrackingStrategy.Raises e, st)
  | (BacktrackingStrategy.Deep, st) => (BacktrackingStrategy.Deep, st)
  end.
Proof.
  unfold BacktrackingStrategy.run, BacktrackingStrategy.get_generator.
  cbv zeta.
  unfold mbind, BacktrackingStrategy.G_bind, BacktrackingStrategy.yield,
    BacktrackingStrategy.board_now, BacktrackingStrategy.count_now, started,
    ended.
  cbn [BacktrackingStrategy.work BacktrackingStrategy.step_count
       BacktrackingStrategy.trail app].
  destruct (BacktrackingStrategy.recurse _ _ _) as [[[]|e|] st];
    try reflexivity.
  by rewrite clone_board_id.
Qed.

(** How a run ends: the search was a walk from the state after [start],
    and the last tuple reports its answer. *)
Lemma run_walk (b : board) :
  exists out st moves,
    walk (length b) Search (started b) out st /\
    leads (started b) moves st /\
    BacktrackingStrategy.run b =
    match out with
    | BacktrackingStrategy.Returns true =>
        (BacktrackingStrategy.Returns tt,
         ended st (BacktrackingStrategy.Done (BacktrackingStrategy.work st)
                     (BacktrackingStrategy.step_count st)))
    | BacktrackingStrategy.Returns false =>
        (BacktrackingStrategy.Returns tt,
         ended st (BacktrackingStrategy.Fail
                     (BacktrackingStrategy.step_count st)))
    | BacktrackingStrategy.Raises e => (BacktrackingStrategy.Raises e, st)
    | BacktrackingStrategy.Deep => (BacktrackingStrategy.Deep, st)
    end.
Proof.
  rewrite run_unfold.
  pose proof (recurse_enough (length b) (length b * length b + 1) (started b))
    as Hdeep.
  destruct (BacktrackingStrategy.recurse _ _ _) as [out st] eqn:Hrun.
  simpl in Hdeep.
  assert (Hout : out <> BacktrackingStrategy.Deep).
  { apply Hdeep. pose proof (zeros_bound (length b) b).
    cbn [started BacktrackingStrategy.work]. lia. }
  pose proof (recurse_walk _ _ _ _ _ Hrun Hout) as Hwalk.
  destruct (walk_leads _ _ _ _ _ Hwalk) as [moves Hmoves].
  exists out, st, moves. split; [done|]. split; [done|].
  by destruct out as [[]|e|].
Qed.

Lemma replay_app b es es' : replay b (es ++ es') = replay (replay b es) es'.
Proof. unfold replay. by rewrite fold_left_app. Qed.

Lemma not_move_in_moves moves e :
  Forall is_move moves -> e ∈ moves -> is_move e.
Proof. rewrite Forall_forall. auto. Qed.

Lemma walk_ends N ph st out st' :
  walk N ph st out st' -> out <> BacktrackingStrategy.Deep.
Proof. induction 1; done. Qed.

(** X14 (BacktrackingStrategy.get_generator): the search ends on every
    board.  A call of [recurse] is never nested deeper than the number of
    empty cells of the grid plus one, so the generator comes to its last
    tuple or to an exception, whatever the board holds. *)
Theorem search_depth_bounded N fuel st :
  zeros N (BacktrackingStrategy.work st) < fuel ->
  (BacktrackingStrategy.recurse fuel N st).1 <> BacktrackingStrategy.Deep /\
  (BacktrackingStrategy.run (BacktrackingStrategy.work st)).1
    <> BacktrackingStrategy.Deep.
Proof.
  intros Hfuel. split; [by apply recurse_enough|].
  destruct (run_walk (BacktrackingStrategy.work st))
    as (out & st1 & moves & Hwalk & _ & ->).
  destruct out as [[]|e|]; cbn [fst]; try discriminate.
  by apply walk_ends in Hwalk.
Qed.

Lemma search_depth_bounded_witness :
  (BacktrackingStrategy.recurse 9 4 (started sample_puzzle)).1
    <> BacktrackingStrategy.Deep /\
  (BacktrackingStrategy.run sample_puzzle).1 <> BacktrackingStrategy.Deep.
Proof.
  apply (search_depth_bounded 4 9 (started sample_puzzle)).
  vm_compute. lia.
Defined.

(** X15 (BacktrackingStrategy.get_generator): the tuples of a run are
    [start], then [update] and [backtrack] tuples whose step counts are
    1, 2, 3, ... without a gap, then, unless the run raises, one [done] or
    one [fail] tuple that carries the number of moves made. *)
Theorem step_counts_run_on (b : board) :
  exists moves,
    Forall is_move moves /\
    move_count <$> moves = seq 1 (length moves) /\
    BacktrackingStrategy.step_count (BacktrackingStrategy.run b).2
      = length moves /\
    match (BacktrackingStrategy.run b).1 with
    | BacktrackingStrategy.Returns _ =>
        BacktrackingStrategy.trail (BacktrackingStrategy.run b).2
          = BacktrackingStrategy.Start :: moves ++
            [BacktrackingStrategy.Done
               (BacktrackingStrategy.work (BacktrackingStrategy.run b).2)
               (length moves)] \/
        BacktrackingStrategy.trail (BacktrackingStrategy.run b).2
          = BacktrackingStrategy.Start :: moves ++
            [BacktrackingStrategy.Fail (length moves)]
    | BacktrackingStrategy.Raises _ =>
        BacktrackingStrategy.trail (BacktrackingStrategy.run b).2
          = BacktrackingStrategy.Start :: moves
    | BacktrackingStrategy.Deep => False
    end.
Proof.
  destruct (run_walk b)
    as (out & st & moves & Hwalk & (Ht & Hm & Hc & Hn & _) & ->).
  cbn [started BacktrackingStrategy.trail BacktrackingStrategy.step_count]
    in Ht, Hc, Hn.
  exists moves. split; [done|]. split; [done|].
  destruct out as [[]|e|]; cbn [fst snd ended BacktrackingStrategy.trail
    BacktrackingStrategy.step_count BacktrackingStrategy.work].
  - split; [done|]. left. by rewrite Ht, Hn.
  - split; [done|]. right. by rewrite Ht, Hn.
  - done.
  - by apply walk_ends in Hwalk.
Qed.

(** X16 (BacktrackingStrategy.get_generator): a driver that writes every
    [update] and [backtrack] tuple into its own copy of the board it gave
    holds, at the end of the run, the board the generator has worked on;
    that board is the one a [done] tuple carries, and it is the board the
    run was given when the run ends with [fail]. *)
Theorem board_follows_the_moves (b : board) :
  BacktrackingStrategy.work (BacktrackingStrategy.run b).2
    = replay b (BacktrackingStrategy.trail (BacktrackingStrategy.run b).2) /\
  (forall b' n,
     BacktrackingStrategy.Done b' n
       ∈ BacktrackingStrategy.trail (BacktrackingStrategy.run b).2 ->
     b' = BacktrackingStrategy.work (BacktrackingStrategy.run b).2) /\
  (forall n,
     BacktrackingStrategy.Fail n
       ∈ BacktrackingStrategy.trail (BacktrackingStrategy.run b).2 ->
     BacktrackingStrategy.work (BacktrackingStrategy.run b).2 = b).
Proof.
  destruct (run_walk b)
    as (out & st & moves & Hwalk & (Ht & Hm & _ & _ & Hw) & ->).
  cbn [started BacktrackingStrategy.trail BacktrackingStrategy.work] in Ht, Hw.
  assert (Hmoves : forall e, e ∈ BacktrackingStrategy.trail st ->
            e = BacktrackingStrategy.Start \/ is_move e).
  { intros e He. rewrite Ht in He. apply elem_of_cons in He as [->|He].
    - by left.
    - right. by eapply not_move_in_moves. }
  assert (Hreplay : replay b (BacktrackingStrategy.trail st)
                    = BacktrackingStrategy.work st).
  { by rewrite Ht, Hw. }
  destruct out as [[]|e|]; cbn [fst snd ended BacktrackingStrategy.trail
    BacktrackingStrategy.work].
  - split; [by rewrite replay_app, Hreplay|]. split.
    + intros b' n Hin. apply elem_of_app in Hin as [Hin|Hin].
      * by destruct (Hmoves _ Hin).
      * apply list_elem_of_singleton in Hin. congruence.
    + intros n Hin. apply elem_of_app in Hin as [Hin|Hin].
      * by destruct (Hmoves _ Hin).
      * by apply list_elem_of_singleton in Hin.
  - assert (Hback : BacktrackingStrategy.work st = b).
    { by apply (walk_restore _ Search _ _ _ Hwalk). }
    split; [by rewrite replay_app, Hreplay|]. split.
    + intros b' n Hin. apply elem_of_app in Hin as [Hin|Hin].
      * by destruct (Hmoves _ Hin).
      * by apply list_elem_of_singleton in Hin.
    + done.
  - split; [done|]. split.
    + intros b' n Hin. by destruct (Hmoves _ Hin).
    + intros n Hin. by destruct (Hmoves _ Hin).
  - by apply walk_ends in Hwalk.
Qed.

Lemma full_consistent_solution n (b s : board) :
  workable n s -> consistent n s -> full n s -> extends n b s ->
  solution n b s.
Proof.
  intros (Hsq & _ & Hrange) Hcons Hfull Hext.
  split; [done|]. split; [|split; [|done]].
  - intros p v Hp Hv. apply elem_of_values.
    specialize (Hrange p v Hp Hv).
    destruct (Hfull p Hp) as (v' & Hv' & Hnz).
    assert (v' = v) by congruence. lia.
  - intros p q Hp Hq Hne Hsee Heq.
    destruct (Hfull p Hp) as (v & Hv & Hnz).
    apply Hnz, (Hcons p q v); [done..|congruence].
Qed.

(** X17 (BacktrackingStrategy.get_generator): soundness.  On a square board
    of a size the block tiles, with entries in [[0, N]] and no two equal
    clues in one row, column or block, the board a [done] tuple carries
    solves the board given: it is full, holds values of [[1, N]], repeats
    none in any row, column or block, and keeps every clue. *)
Theorem done_board_solves n (b b' : board) k :
  workable n b -> consistent n b ->
  BacktrackingStrategy.Done b' k
    ∈ BacktrackingStrategy.trail (BacktrackingStrategy.run b).2 ->
  solution n b b'.
Proof.
  intros Hwork Hcons Hin.
  pose proof Hwork as ([Hlen _] & _).
  destruct (run_walk b) as (out & st & moves & Hwalk & (Ht & Hm & _) & Hrun).
  rewrite Hrun in Hin. rewrite Hlen in Hwalk.
  cbn [started BacktrackingStrategy.trail] in Ht.
  assert (Hmoves : forall e, e ∈ BacktrackingStrategy.trail st ->
            e = BacktrackingStrategy.Start \/ is_move e).
  { intros e He. rewrite Ht in He. apply elem_of_cons in He as [->|He].
    - by left.
    - right. by eapply not_move_in_moves. }
  destruct out as [[]|e|]; cbn [snd ended BacktrackingStrategy.trail] in Hin.
  - apply elem_of_app in Hin as [Hin|Hin]; [by destruct (Hmoves _ Hin)|].
    apply list_elem_of_singleton in Hin. injection Hin as -> _.
    destruct (walk_sound n Search _ _ _ Hwalk Hwork Hcons I eq_refl)
      as (Hw' & Hc' & Hf' & He').
    by apply full_consistent_solution.
  - apply elem_of_app in Hin as [Hin|Hin]; [by destruct (Hmoves _ Hin)|].
    by apply list_elem_of_singleton in Hin.
  - by destruct (Hmoves _ Hin).
  - by apply walk_ends in Hwalk.
Qed.

Lemma done_board_solves_witness :
  solution 4 sample_puzzle solved_board.
Proof.
  apply (done_board_solves 4 sample_puzzle solved_board 8).
  - apply (bool_decide_unpack _). vm_compute. exact I.
  - apply (bool_decide_unpack _). vm_compute. exact I.
  - apply (bool_decide_unpack _). vm_compute. exact I.
Defined.



(** * The puzzle generator *)

(** ** [fill] is a search *)

Lemma try_nums_cons fill i j n nums (b : board) w :
  Generator.try_nums fill i j (n :: nums) b w =
  match SudokuLogic.valid_in_cell b i j n with
  | Raise e => (Raise e, w)
  | Ok false => Generator.try_nums fill i j nums b w
  | Ok true =>
      match set_cell b i j n with
      | Raise e => (Raise e, w)
      | Ok b1 =>
          match fill b1 w with
          | (Raise e, w1) => (Raise e, w1)
          | (Ok None, w1) => (Ok None, w1)
          | (Ok (Some (true, b2)), w1) => (Ok (Some (true, b2)), w1)
          | (Ok (Some (false, b2)), w1) =>
              match set_cell b2 i j 0%Z with
              | Raise e => (Raise e, w1)
              | Ok b3 => Generator.try_nums fill i j nums b3 w1
              end
          end
      end
  end.
Proof.
  cbn [Generator.try_nums]. unfold mbind, M_bind, lift.
  destruct (SudokuLogic.valid_in_cell b i j n) as [[]|e]; [|reflexivity..].
  destruct (set_cell b i j n) as [b1|e]; [|reflexivity].
  destruct (fill b1 w) as [[[[[] b2]|]|e] w1]; reflexivity.
Qed.

Lemma fill_S fuel N (b : board) w :
  Generator.fill (S fuel) N b w =
  match BacktrackingStrategy.find_empty N b with
  | Raise e => (Raise e, w)
  | Ok None => (Ok (Some (true, b)), w)
  | Ok (Some (i, j)) =>
      match random.shuffle (values N) w with
      | (Ok nums, w1) =>
          Generator.try_nums (Generator.fill fuel N) i j nums b w1
      | (Raise e, w1) => (Raise e, w1)
      end
  end.
Proof.
  cbn [Generator.fill]. unfold mbind, M_bind, lift.
  destruct (BacktrackingStrategy.find_empty N b) as [[[i j]|]|e];
    reflexivity.
Qed.

Lemma shuffle_run {A} (x : list A) w :
  exists x' w', random.shuffle x w = (Ok x', w') /\
                yielded w' = yielded w /\ x' ≡ₚ x.
Proof. apply (effect_run (fun _ => True)), effect_shuffle. Qed.

Lemma try_nums_filled N fill i j :
  (forall b w, filled N Search b (fill b w).1) ->
  forall nums b w,
    filled N (Try i j nums) b (Generator.try_nums fill i j nums b w).1.
Proof.
  intros Hfill. induction nums as [|n nums IH]; intros b w.
  - simpl. constructor.
  - rewrite try_nums_cons.
    destruct (SudokuLogic.valid_in_cell b i j n) as [[]|e] eqn:Hv.
    + destruct (set_cell b i j n) as [b1|e] eqn:Hp.
      * specialize (Hfill b1 w).
        destruct (fill b1 w) as [[[[[] b2]|]|e] w1]; simpl in Hfill |- *.
        -- by eapply hunt_stop.
        -- destruct (set_cell b2 i j 0%Z) as [b3|e] eqn:Hu.
           ++ specialize (IH b3 w1).
              destruct (Generator.try_nums fill i j nums b3 w1)
                as [[[[ans b']|]|e] w2]; simpl in IH |- *.
              ** by eapply hunt_back.
              ** done.
              ** destruct IH as [b' Hh]. exists b'. by eapply hunt_back.
           ++ simpl. exists b2. by eapply hunt_unput_raise.
        -- done.
        -- destruct Hfill as [b2 Hh]. exists b2. by eapply hunt_stop.
      * simpl. exists b. by eapply hunt_put_raise.
    + specialize (IH b w).
      destruct (Generator.try_nums fill i j nums b w)
        as [[[[ans b']|]|e] w2]; simpl in IH |- *.
      * by apply hunt_skip.
      * done.
      * destruct IH as [b' Hh]. exists b'. by apply hunt_skip.
    + simpl. exists b. by apply hunt_valid_raise.
Qed.

(** Every run of [fill] that ends is a search. *)
Lemma fill_filled N fuel : forall b w,
  filled N Search b (Generator.fill fuel N b w).1.
Proof.
  induction fuel as [|fuel IH]; intros b w; [done|].
  rewrite fill_S.
  destruct (BacktrackingStrategy.find_empty N b) as [[[i j]|]|e] eqn:Hf.
  - destruct (shuffle_run (values N) w) as (nums & w1 & -> & _ & Hperm).
    pose proof (try_nums_filled N (Generator.fill fuel N) i j IH nums b w1)
      as Htry.
    destruct (Generator.try_nums _ i j nums b w1) as [[[[ans b']|]|e] w2];
      simpl in Htry |- *.
    + by eapply hunt_cell.
    + done.
    + destruct Htry as [b' Hh]. exists b'. by eapply hunt_cell.
  - simpl. by constructor.
  - simpl. exists b. by constructor.
Qed.

(** ** [fill] never runs out of fuel *)

Lemma try_nums_enough N fuel i j :
  (forall b w, zeros N b < fuel ->
     (Generator.fill fuel N b w).1 <> Ok None) ->
  in_grid N (i, j) ->
  forall nums (b : board) w,
    Forall (fun v => v <> 0%Z) nums ->
    value_at b (i, j) = Some 0%Z -> zeros N b < S fuel ->
    (Generator.try_nums (Generator.fill fuel N) i j nums b w).1 <> Ok None.
Proof.
  intros Hrec Hin. induction nums as [|n nums IH]; intros b w Hnums Hz Hfuel;
    [done|].
  apply Forall_cons in Hnums as [Hn Hnums]. rewrite try_nums_cons.
  destruct (SudokuLogic.valid_in_cell b i j n) as [[]|e];
    [|by apply IH|done].
  destruct (set_cell b i j n) as [b1|e] eqn:Hp; [|done].
  pose proof (zeros_placed N b b1 i j n Hin Hz Hn Hp) as Hless.
  pose proof (fill_filled N fuel b1 w) as Hh.
  specialize (Hrec b1 w).
  destruct (Generator.fill fuel N b1 w) as [[[[[] b2]|]|e] w1];
    simpl in Hh, Hrec |- *; [done| |by apply Hrec; lia|done].
  assert (b2 = b1) as -> by (by apply (hunt_restore N Search _ _ _ Hh)).
  rewrite (set_cell_undo _ _ _ _ _ Hz Hp). by apply IH.
Qed.

Lemma fill_enough N fuel : forall (b : board) w,
  zeros N b < fuel -> (Generator.fill fuel N b w).1 <> Ok None.
Proof.
  induction fuel as [|fuel IH]; intros b w Hfuel; [lia|].
  rewrite fill_S.
  destruct (BacktrackingStrategy.find_empty N b) as [[[i j]|]|e] eqn:Hf;
    [|done..].
  apply find_empty_Some in Hf as [Hin Hz].
  destruct (shuffle_run (values N) w) as (nums & w1 & -> & _ & Hperm).
  apply try_nums_enough; [done|done| |done|done].
  rewrite Hperm. apply values_nonzero.
Qed.

(** ** From the filled board to the puzzle *)

Lemma empty_board_workable n :
  dims_tile n ->
  workable n (SudokuLogic.make_empty_board n) /\
  consistent n (SudokuLogic.make_empty_board n).
Proof.
  intros Ht. split; [split; [apply square_replicate|split; [done|]]|].
  - intros p v _ Hv. apply value_at_empty_board in Hv. lia.
  - intros p q v _ _ _ _ Hv _. by apply value_at_empty_board in Hv.
Qed.

(** [fill] on the empty board: it returns, with a full grid when it answers
    [True], and with the empty board when it answers [False], which it does
    only when the size admits no grid. *)
Lemma fill_empty_board N w :
  dims_tile N ->
  exists ans board w',
    Generator.fill (N * N + 1) N (SudokuLogic.make_empty_board N) w
      = (Ok (Some (ans, board)), w') /\
    workable N board /\ consistent N board /\
    (has_grid N -> full N board).
Proof.
  intros Ht.
  destruct (empty_board_workable N Ht) as [Hwork Hcons].
  pose proof Hwork as (Hsq & _).
  pose proof (fill_filled N (N * N + 1) (SudokuLogic.make_empty_board N) w)
    as Hh.
  pose proof (fill_enough N (N * N + 1) (SudokuLogic.make_empty_board N) w)
    as Hfuel.
  destruct (Generator.fill (N * N + 1) N _ w) as [[[[ans board]|]|e] w'];
    simpl in Hh, Hfuel.
  - exists ans, board, w'. split; [done|]. destruct ans.
    + destruct (hunt_sound N Search _ _ _ Hh Hwork Hcons I eq_refl)
        as (? & ? & ? & _). done.
    + assert (board = SudokuLogic.make_empty_board N) as ->.
      { by apply (hunt_restore N Search _ _ _ Hh). }
      split; [done|]. split; [done|]. intros [s Hs]. exfalso.
      destruct (hunt_complete N Search _ _ _ Hh Hsq Ht I) as [_ Hnone].
      by apply (Hnone eq_refl s).
  - exfalso. apply Hfuel; [|done].
    pose proof (zeros_bound N (SudokuLogic.make_empty_board N)). lia.
  - exfalso. destruct Hh as [b' Hh].
    destruct (hunt_complete N Search _ _ _ Hh Hsq Ht I) as [Hnoraise _].
    by apply (Hnoraise e).
Qed.

Lemma erase_cells n cells : forall (b : board),
  square n b -> Forall (in_grid n) cells ->
  exists p,
    foldM (fun p rc => set_cell p rc.1 rc.2 0%Z) b cells = Ok p /\
    square n p /\
    forall rc, value_at p rc
               = if decide (rc ∈ cells) then Some 0%Z else value_at b rc.
Proof.
  induction cells as [|[r c] cells IH]; intros b Hsq Hin.
  - exists b. split; [done|]. split; [done|]. intros rc.
    rewrite decide_False; [done|]. apply not_elem_of_nil.
  - apply Forall_cons in Hin as [[Hr Hc] Hin]. simpl in Hr, Hc.
    destruct (set_cell_square n b r c 0%Z Hsq Hr Hc) as (b1 & Hb1 & Hsq1).
    destruct (IH b1 Hsq1 Hin) as (p & Hp & Hsqp & Hval).
    exists p. split; [by simpl; rewrite Hb1|]. split; [done|].
    intros rc. rewrite Hval, (value_at_set_cell b b1 r c 0%Z rc Hb1).
    destruct (decide (rc ∈ cells)) as [Hmem|Hmem].
    + rewrite decide_True; [done|]. by right.
    + destruct (decide (rc = (r, c))) as [->|Hne].
      * rewrite decide_True; [done|]. left.
      * rewrite decide_False; [done|].
        intros Hx. apply elem_of_cons in Hx as [?|?]; done.
Qed.

Lemma NoDup_grid n : NoDup (grid n).
Proof.
  unfold grid. apply NoDup_bind.
  - intros r1 r2 p _ _ H1 H2.
    apply list_elem_of_bind in H1 as [c1 [H1 _]].
    apply list_elem_of_bind in H2 as [c2 [H2 _]].
    apply list_elem_of_singleton in H1, H2. congruence.
  - intros r _. apply NoDup_bind.
    + intros c1 c2 p _ _ H1 H2.
      apply list_elem_of_singleton in H1, H2. congruence.
    + intros. apply NoDup_singleton.
    + apply NoDup_seq.
  - apply NoDup_seq.
Qed.

Lemma slice_to_sublist {A} k (l : list A) : sublist (Generator.slice_to k l) l.
Proof. unfold Generator.slice_to. destruct (decide _); apply sublist_take. Qed.

Lemma length_slice_to {A} k (l l' : list A) :
  length l = length l' ->
  length (Generator.slice_to k l) = length (Generator.slice_to k l').
Proof.
  intros Hlen. unfold Generator.slice_to.
  destruct (decide _); rewrite !length_take, Hlen; done.
Qed.

(** Emptying pairwise distinct cells of a full grid leaves exactly that many
    empty cells. *)
Lemma zeros_erased n (b p : board) cells :
  full n b -> NoDup cells -> Forall (in_grid n) cells ->
  (forall rc, value_at p rc
              = if decide (rc ∈ cells) then Some 0%Z else value_at b rc) ->
  zeros n p = length cells.
Proof.
  intros Hfull Hnd Hin Hval. unfold zeros.
  rewrite (filter_iff_in _ (fun rc => rc ∈ cells)).
  - apply Permutation_length, NoDup_Permutation.
    + apply NoDup_filter, NoDup_grid.
    + done.
    + intros rc. rewrite list_elem_of_filter, elem_of_grid.
      rewrite Forall_forall in Hin. split; [tauto|]. auto.
  - intros rc Hrc. apply elem_of_grid in Hrc. rewrite Hval.
    destruct (decide (rc ∈ cells)); [done|].
    destruct (Hfull rc Hrc) as (v & -> & Hnz). split; [|done].
    intros [= ->]. done.
Qed.

(** What [generate_puzzle] does after [fill]: the puzzle is the board with
    the cells of the slice emptied. *)
Lemma generate_puzzle_run N difficulty w :
  dims_tile N ->
  exists r w',
    Generator.generate_puzzle N difficulty w = (r, w') /\
    match Generator.remove_count N difficulty with
    | Raise e => r = Raise e
    | Ok k =>
        exists board puzzle cells,
          r = Ok (Some puzzle) /\
          workable N board /\ consistent N board /\
          (has_grid N -> full N board) /\
          square N puzzle /\
          NoDup cells /\ Forall (in_grid N) cells /\
          length cells = length (Generator.slice_to k (grid N)) /\
          forall rc, value_at puzzle rc
                     = if decide (rc ∈ cells) then Some 0%Z
                       else value_at board rc
    end.
Proof.
  intros Ht. unfold Generator.generate_puzzle. cbv zeta.
  destruct (fill_empty_board N w Ht)
    as (ans & board & w1 & Hfill & Hwork & Hcons & Hfull).
  unfold mbind at 1. unfold M_bind at 1. rewrite Hfill.
  rewrite clone_board_id. unfold mbind, M_bind, lift.
  destruct (Generator.remove_count N difficulty) as [k|e]; [|by eexists _, _].
  destruct (shuffle_run (grid N) w1) as (cells & w2 & -> & _ & Hperm).
  pose proof Hwork as (Hsq & _).
  assert (Hall : Forall (in_grid N) cells).
  { apply Forall_forall. intros rc Hrc. rewrite Hperm in Hrc.
    by apply elem_of_grid. }
  assert (Hsub : sublist (Generator.slice_to k cells) cells)
    by apply slice_to_sublist.
  assert (Hslice : Forall (in_grid N) (Generator.slice_to k cells)).
  { rewrite Forall_forall in Hall |- *. intros rc Hrc. apply Hall.
    by eapply elem_of_sublist. }
  destruct (erase_cells N (Generator.slice_to k cells) board Hsq Hslice)
    as (puzzle & Herase & Hsqp & Hval).
  match goal with
  | |- context [foldM ?f board ?l] =>
      replace (foldM f board l) with (Ok puzzle : result (list (list Z)))
        by (symmetry; exact Herase)
  end.
  eexists _, _. split; [reflexivity|].
  exists board, puzzle, (Generator.slice_to k cells).
  split; [done|]. split; [done|]. split; [done|]. split; [done|].
  split; [done|]. split.
  { eapply sublist_NoDup; [|done]. rewrite Hperm. apply NoDup_grid. }
  split; [done|]. split; [|done].
  apply length_slice_to. by rewrite Hperm.
Qed.

Lemma full_cells n (b : board) : full n b <-> Forall (full_at b) (grid n).
Proof.
  rewrite Forall_forall. unfold full, full_at. split.
  - intros H p Hp. apply elem_of_grid in Hp.
    by destruct (H p Hp) as (v & -> & ?).
  - intros H p Hp. apply elem_of_grid in Hp. specialize (H p Hp).
    destruct (value_at b p) as [v|]; [eauto|done].
Qed.

#[global] Instance full_dec n b : Decision (full n b).
Proof.
  refine (cast_if (decide (Forall (full_at b) (grid n))));
    by rewrite full_cells.
Defined.

Lemma grid_solves_empty_board n (s : board) :
  workable n s -> consistent n s -> full n s -> has_grid n.
Proof.
  intros Hwork Hcons Hfull. exists s.
  apply full_consistent_solution; [done..|].
  intros p v _ Hv Hnz. by apply value_at_empty_board in Hv.
Qed.

(** The sizes the application offers admit a grid, and their block tiles
    them. *)
Lemma offered_sizes n : n ∈ [4; 6; 9] -> dims_tile n /\ has_grid n.
Proof.
  intros Hn. repeat (apply elem_of_cons in Hn as [->|Hn]);
    [| |  |by apply elem_of_nil in Hn].
  - split; [apply (bool_decide_unpack _); vm_compute; exact I|].
    apply (grid_solves_empty_board 4 solved_board);
      apply (bool_decide_unpack _); vm_compute; exact I.
  - split; [apply (bool_decide_unpack _); vm_compute; exact I|].
    apply (grid_solves_empty_board 6 solved_six);
      apply (bool_decide_unpack _); vm_compute; exact I.
  - split; [apply (bool_decide_unpack _); vm_compute; exact I|].
    apply (grid_solves_empty_board 9 solved_nine);
      apply (bool_decide_unpack _); vm_compute; exact I.
Qed.

Lemma length_slice_grid n k :
  length (Generator.slice_to k (grid n)) = emptied n k.
Proof.
  unfold Generator.slice_to, emptied.
  destruct (decide _); rewrite length_take, length_grid; lia.
Qed.

(** The puzzle is the board with some cells emptied: it inherits what holds
    of the board. *)
Lemma erased_workable n (board puzzle : list (list Z)) (cells : list coord) :
  workable n board -> consistent n board -> square n puzzle ->
  (forall rc, value_at puzzle rc
              = if decide (rc ∈ cells) then Some 0%Z
                else value_at board rc) ->
  workable n puzzle /\ consistent n puzzle /\ extends n puzzle board.
Proof.
  intros (Hsq & Ht & Hrange) Hcons Hsqp Hval.
  split; [split; [done|split; [done|]]|split].
  - intros p v Hp. rewrite Hval. case_decide; [intros [= <-]; lia|].
    by apply Hrange.
  - intros p q v Hp Hq Hne Hsee. rewrite !Hval.
    destruct (decide (p ∈ cells)); [by intros [= <-]|].
    destruct (decide (q ∈ cells)); [by intros _ [= <-]|].
    by apply Hcons.
  - intros p v Hp. rewrite Hval. case_decide; [|done].
    intros [= <-]. done.
Qed.

(** ** What [generate_puzzle] returns *)

Lemma generate_puzzle_spec N difficulty k w :
  dims_tile N -> Generator.remove_count N difficulty = Ok k ->
  exists puzzle w' board,
    Generator.generate_puzzle N difficulty w = (Ok (Some puzzle), w') /\
    workable N puzzle /\ consistent N puzzle /\
    workable N board /\ consistent N board /\ extends N puzzle board /\
    (has_grid N -> full N board /\ zeros N puzzle = emptied N k).
Proof.
  intros Ht Hk.
  destruct (generate_puzzle_run N difficulty w Ht) as (r & w' & Hrun & Hr).
  rewrite Hk in Hr.
  destruct Hr as (board & puzzle & cells & -> & Hwork & Hcons & Hfull & Hsqp &
                  Hnd & Hin & Hlen & Hval).
  destruct (erased_workable N board puzzle cells Hwork Hcons Hsqp Hval)
    as (Hworkp & Hconsp & Hext).
  exists puzzle, w', board. split; [done|].
  split; [done|]. split; [done|]. split; [done|]. split; [done|].
  split; [done|]. intros Hgrid. split; [by apply Hfull|].
  rewrite (zeros_erased N board puzzle cells); [|by apply Hfull|done..].
  by rewrite Hlen, length_slice_grid.
Qed.



(** X20 (generate_puzzle): for the sizes 4, 6 and 9 the application offers,
    every puzzle the call returns has a solution: [fill] always completes
    the empty board to a full valid grid, and the puzzle is that grid with
    cells emptied. *)
Theorem generated_puzzle_is_solvable N difficulty k w :
  N ∈ [4; 6; 9] -> Generator.remove_count N difficulty = Ok k ->
  exists puzzle w' s,
    Generator.generate_puzzle N difficulty w = (Ok (Some puzzle), w') /\
    solution N puzzle s.
Proof.
  intros HN Hk. destruct (offered_sizes N HN) as [Ht Hgrid].
  destruct (generate_puzzle_spec N difficulty k w Ht Hk)
    as (puzzle & w' & board & Hrun & _ & _ & Hwork & Hcons & Hext & Hfull).
  destruct (Hfull Hgrid) as [Hf _].
  exists puzzle, w', board. split; [done|].
  by apply full_consistent_solution.
Qed.

Lemma generated_puzzle_is_solvable_witness :
  exists puzzle w' s,
    Generator.generate_puzzle 9 half (start mixed_tape)
      = (Ok (Some puzzle), w') /\
    solution 9 puzzle s.
Proof.
  apply (generated_puzzle_is_solvable 9 half 40 (start mixed_tape)).
  - apply (bool_decide_unpack _). vm_compute. exact I.
  - vm_compute. reflexivity.
Defined.

(** X21 (generate_puzzle): for the sizes 4, 6 and 9 the number of empty
    cells of the puzzle is fixed by [remove_count = int(N * N * difficulty)]
    alone: it is [remove_count], capped at [N * N], when that is not
    negative, and [N * N - |remove_count|] (or 0) when it is negative, the
    slice [cells[:remove_count]] then dropping cells from the end. *)
Theorem generated_puzzle_empty_cells N difficulty k w :
  N ∈ [4; 6; 9] -> Generator.remove_count N difficulty = Ok k ->
  exists puzzle w',
    Generator.generate_puzzle N difficulty w = (Ok (Some puzzle), w') /\
    zeros N puzzle =
      if decide (0 <= k)%Z then Z.to_nat k `min` (N * N)
      else N * N - Z.to_nat (- k).
Proof.
  intros HN Hk. destruct (offered_sizes N HN) as [Ht Hgrid].
  destruct (generate_puzzle_spec N difficulty k w Ht Hk)
    as (puzzle & w' & board & Hrun & _ & _ & _ & _ & _ & Hfull).
  destruct (Hfull Hgrid) as [_ Hz].
  by exists puzzle, w'.
Qed.

Lemma generated_puzzle_empty_cells_witness :
  exists puzzle w',
    Generator.generate_puzzle 4 half (start mixed_tape)
      = (Ok (Some puzzle), w') /\
    zeros 4 puzzle =
      if decide (0 <= 8)%Z then Z.to_nat 8 `min` (4 * 4)
      else 4 * 4 - Z.to_nat (- 8).
Proof.
  apply (generated_puzzle_empty_cells 4 half 8 (start mixed_tape)).
  - apply (bool_decide_unpack _). vm_compute. exact I.
  - vm_compute. reflexivity.
Defined.



(** ** Generated puzzles and the two solvers *)

Lemma NoDup_clues (row : list Z) :
  (forall i j v, row !! i = Some v -> row !! j = Some v -> v <> 0%Z -> i = j) ->
  NoDup (clues row).
Proof.
  unfold clues. induction row as [|x row IH]; intros Hinj.
  - constructor.
  - rewrite filter_cons. destruct (decide (x <> 0%Z)) as [Hx|Hx].
    + apply NoDup_cons. split.
      * intros Hin. apply list_elem_of_filter in Hin as [_ Hin].
        apply list_elem_of_lookup in Hin as [j Hj].
        by specialize (Hinj 0 (S j) x eq_refl Hj Hx).
      * apply IH. intros i j v Hi Hj Hv.
        by specialize (Hinj (S i) (S j) v Hi Hj Hv) as [= ->].
    + apply IH. intros i j v Hi Hj Hv.
      by specialize (Hinj (S i) (S j) v Hi Hj Hv) as [= ->].
Qed.

(** A workable board without clashing clues is what the cultural solver
    asks of a puzzle. *)
Lemma consistent_rows_well_clued n (b : board) :
  workable n b -> consistent n b -> Forall (well_clued_row n) b.
Proof.
  intros (Hsq & _ & Hrange) Hcons. apply Forall_forall. intros row Hrow.
  apply list_elem_of_lookup in Hrow as [r Hr].
  pose proof Hsq as [Hlen Hrows]. rewrite Forall_forall in Hrows.
  assert (Hrl : length row = n).
  { apply Hrows. by eapply list_elem_of_lookup_2. }
  assert (Hrn : r < n) by (rewrite <- Hlen; by eapply lookup_lt_Some).
  assert (Hat : forall c v, row !! c = Some v ->
            in_grid n (r, c) /\ value_at b (r, c) = Some v).
  { intros c v Hc. split.
    - split; simpl; [done|]. rewrite <- Hrl. by eapply lookup_lt_Some.
    - unfold value_at. simpl. by rewrite Hr. }
  split.
  - apply NoDup_clues. intros i j v Hi Hj Hv.
    destruct (Hat i v Hi) as [Hgi Hvi], (Hat j v Hj) as [Hgj Hvj].
    destruct (decide (i = j)) as [|Hne]; [done|]. exfalso. apply Hv.
    apply (Hcons (r, i) (r, j) v); [done|done|congruence|by left|done|done].
  - apply Forall_forall. intros v Hv.
    apply list_elem_of_lookup in Hv as [c Hc].
    destruct (Hat c v Hc) as [Hg Hvc]. by apply (Hrange (r, c)).
Qed.

Lemma square_puzzle_built n (puzzle : board) pop_size elite_frac max_iters :
  square n puzzle -> dims_tile n ->
  exists self,
    CulturalSolverImpl.new puzzle pop_size elite_frac max_iters = Ok self /\
    CulturalSolverImpl.puzzle self = puzzle /\
    CulturalSolverImpl.N self = n /\
    built self /\ tiles self.
Proof.
  intros Hsq Ht. pose proof Hsq as [Hlen Hrows].
  pose proof (new_builds puzzle pop_size elite_frac max_iters) as Hnew.
  rewrite decide_True in Hnew.
  2:{ eapply Forall_impl; [exact Hrows|]. intros row Hrow. simpl in Hrow. lia. }
  eexists. split; [exact Hnew|].
  cbn [CulturalSolverImpl.puzzle CulturalSolverImpl.N].
  split; [done|]. split; [done|]. split.
  - split; [exact Hnew|]. cbn [CulturalSolverImpl.puzzle]. by rewrite Hlen.
  - unfold tiles. cbn [CulturalSolverImpl.br_h CulturalSolverImpl.bc_w
                       CulturalSolverImpl.N]. by rewrite Hlen.
Qed.

(** X23 (generate_puzzle, CulturalSolverImpl.__init__): for the sizes 4, 6
    and 9, every puzzle [generate_puzzle] returns is accepted by the
    constructor of the cultural solver, and the solver it builds meets what
    the run-level guarantees ask for: the blocks tile the grid and every row
    holds pairwise distinct clues of [[1, N]]. *)
Theorem generated_puzzle_suits_solver N difficulty k w pop_size elite_frac
    max_iters :
  N ∈ [4; 6; 9] -> Generator.remove_count N difficulty = Ok k ->
  exists puzzle w' self,
    Generator.generate_puzzle N difficulty w = (Ok (Some puzzle), w') /\
    CulturalSolverImpl.new puzzle pop_size elite_frac max_iters = Ok self /\
    built self /\ tiles self /\ well_clued self.
Proof.
  intros HN Hk. destruct (offered_sizes N HN) as [Ht Hgrid].
  destruct (generate_puzzle_spec N difficulty k w Ht Hk)
    as (puzzle & w' & board & Hrun & Hwork & Hcons & _).
  pose proof Hwork as (Hsq & _).
  destruct (square_puzzle_built N puzzle pop_size elite_frac max_iters Hsq Ht)
    as (self & Hnew & Hp & HNs & Hbuilt & Htiles).
  exists puzzle, w', self. split; [done|]. split; [done|].
  split; [done|]. split; [done|].
  unfold well_clued. rewrite Hp, HNs.
  by apply consistent_rows_well_clued.
Qed.

Lemma generated_puzzle_suits_solver_witness :
  exists puzzle w' self,
    Generator.generate_puzzle 4 half (start mixed_tape)
      = (Ok (Some puzzle), w') /\
    CulturalSolverImpl.new puzzle 6 quarter 3 = Ok self /\
    built self /\ tiles self /\ well_clued self.
Proof.
  apply (generated_puzzle_suits_solver 4 half 8 (start mixed_tape) 6 quarter 3).
  - apply (bool_decide_unpack _). vm_compute. exact I.
  - vm_compute. reflexivity.
Defined.

(** X24 (generate_puzzle, BacktrackingStrategy.get_generator): for the sizes
    4, 6 and 9, the backtracking strategy solves every puzzle
    [generate_puzzle] returns: its run does not raise and ends with a [done]
    tuple that carries a solution of the puzzle. *)
Theorem backtracking_solves_generated_puzzles N difficulty k w :
  N ∈ [4; 6; 9] -> Generator.remove_count N difficulty = Ok k ->
  exists puzzle w' moves b',
    Generator.generate_puzzle N difficulty w = (Ok (Some puzzle), w') /\
    (BacktrackingStrategy.run puzzle).1 = BacktrackingStrategy.Returns tt /\
    BacktrackingStrategy.trail (BacktrackingStrategy.run puzzle).2
      = BacktrackingStrategy.Start :: moves ++
        [BacktrackingStrategy.Done b' (length moves)] /\
    Forall is_move moves /\
    solution N puzzle b'.
Proof.
  intros HN Hk. destruct (offered_sizes N HN) as [Ht Hgrid].
  destruct (generate_puzzle_spec N difficulty k w Ht Hk)
    as (puzzle & w' & board & Hrun & Hwork & Hcons & Hworkb & Hconsb & Hext &
        Hfull).
  destruct (Hfull Hgrid) as [Hf _].
  assert (Hsol : solution N puzzle board)
    by (by apply full_consistent_solution).
  pose proof Hwork as (Hsq & _). pose proof Hsq as [Hlen _].
  destruct (run_walk puzzle)
    as (out & st & moves & Hwalk & (Htr & Hm & _ & Hn & _) & Hbt).
  rewrite Hlen in Hwalk.
  cbn [started BacktrackingStrategy.trail BacktrackingStrategy.step_count]
    in Htr, Hn.
  destruct (walk_complete N Search _ _ _ Hwalk Hsq Ht I) as [Hnoraise Hnone].
  exists puzzle, w', moves, (BacktrackingStrategy.work st).
  split; [done|]. rewrite Hbt.
  destruct out as [[]|e|].
  - cbn [fst snd ended BacktrackingStrategy.trail]. split; [done|].
    split; [by rewrite Htr, Hn|]. split; [done|].
    destruct (walk_sound N Search _ _ _ Hwalk Hwork Hcons I eq_refl)
      as (? & ? & ? & ?).
    by apply full_consistent_solution.
  - by destruct (Hnone eq_refl board).
  - by destruct (Hnoraise e).
  - by apply walk_ends in Hwalk.
Qed.

Lemma backtracking_solves_generated_puzzles_witness :
  exists puzzle w' moves b',
    Generator.generate_puzzle 4 half (start mixed_tape)
      = (Ok (Some puzzle), w') /\
    (BacktrackingStrategy.run puzzle).1 = BacktrackingStrategy.Returns tt /\
    BacktrackingStrategy.trail (BacktrackingStrategy.run puzzle).2
      = BacktrackingStrategy.Start :: moves ++
        [BacktrackingStrategy.Done b' (length moves)] /\
    Forall is_move moves /\
    solution 4 puzzle b'.
Proof.
  apply (backtracking_solves_generated_puzzles 4 half 8 (start mixed_tape)).
  - apply (bool_decide_unpack _). vm_compute. exact I.
  - vm_compute. reflexivity.
Defined.

(** * The run of the cultural solver, event by event *)

(** ** Sorting puts the first minimum in front *)

Lemma fold_min_first {A} (key : A -> nat) (l : list A) (x : A) :
  let m := fold_left (fun m y => if decide (key y < key m) then y else m)
                     l x in
  m = x \/ key m < key x.
Proof.
  revert x. induction l as [|y l IH]; intros x; simpl; [by left|].
  destruct (decide (key y < key x)) as [Hlt|Hge].
  - right. destruct (IH y) as [->|?]; [done|]. simpl in *. lia.
  - apply IH.
Qed.

Lemma fold_pick_min_le {A} (key : A -> nat) (l : list A) (x : A) :
  key (fold_left (pick_min key) l x) <= key x.
Proof.
  pose proof (fold_min_spec key l x) as [_ Hmin]. apply Hmin. left.
Qed.

Lemma fold_min_step {A} (key : A -> nat) (l : list A) : forall x y,
  fold_left (pick_min key) l (pick_min key x y) =
  if decide (key (fold_left (pick_min key) l y) < key x)
  then fold_left (pick_min key) l y else x.
Proof.
  induction l as [|z l IH]; intros x y; cbn [fold_left]; [done|].
  destruct (decide (key y < key x)) as [Hyx|Hyx].
  - replace (pick_min key x y) with y
      by (unfold pick_min; by rewrite decide_True).
    pose proof (fold_pick_min_le key (z :: l) y) as Hmin.
    cbn [fold_left] in Hmin. rewrite decide_True by lia. done.
  - replace (pick_min key x y) with x
      by (unfold pick_min; by rewrite decide_False).
    rewrite (IH x z), (IH y z).
    destruct (decide (key (fold_left (pick_min key) l z) < key y)); [done|].
    rewrite (decide_False (P := key y < key x)) by done.
    destruct (decide (key (fold_left (pick_min key) l z) < key x)); [lia|done].
Qed.

Lemma min_by_cons {A} (key : A -> nat) (x : A) (l : list A) :
  min_by key (x :: l) =
  Ok (match min_by key l with
      | Ok m => if decide (key m < key x) then m else x
      | Raise _ => x
      end).
Proof.
  destruct l as [|y l]; [done|]. unfold min_by. f_equal.
  change (fold_left (pick_min key) l (pick_min key x y) =
          if decide (key (fold_left (pick_min key) l y) < key x)
          then fold_left (pick_min key) l y else x).
  apply fold_min_step.
Qed.

Lemma head_insert_by {A} (key : A -> nat) (x : A) (l : list A) :
  head (insert_by key x l) =
  Some (match head l with
        | Some y => if decide (key x <= key y) then x else y
        | None => x
        end).
Proof. destruct l as [|y l]; [done|]. simpl. by destruct (decide _). Qed.

(** The stable sort puts in front the element [min] returns. *)
Lemma sort_by_head {A} (key : A -> nat) (l : list A) (m : A) :
  min_by key l = Ok m -> sort_by key l !! 0 = Some m.
Proof.
  revert m. induction l as [|x l IH]; intros m; [done|].
  rewrite min_by_cons. intros [= <-].
  change (sort_by key (x :: l)) with (insert_by key x (sort_by key l)).
  rewrite <- head_lookup, head_insert_by. f_equal.
  destruct (min_by key l) as [m'|] eqn:Hm'.
  - rewrite head_lookup, (IH m' eq_refl).
    destruct (decide (key m' < key x)), (decide (key x <= key m')); done || lia.
  - destruct l; [done|discriminate].
Qed.

(** ** Computations that return on a sane solver *)

Lemma effect_both {A} R (t : bool) (m : M A) (φ ψ : A -> Prop) :
  effect R false m φ -> (t = true -> effect R true m ψ) ->
  effect R t m (fun a => φ a /\ (t = true -> ψ a)).
Proof.
  intros Hφ Hψ w.
  destruct (Hφ w) as (r & w' & new & Hrun & Hy & Hc & Hn & Hr).
  exists r, w', new. split; [done|]. split; [done|]. split; [done|].
  split; [done|]. destruct t.
  - destruct (Hψ eq_refl w) as (r' & w'' & new' & Hrun' & _ & _ & _ & Hr').
    rewrite Hrun in Hrun'. injection Hrun' as <- <-.
    destruct r; [by split|done].
  - destruct r; [|done]. split; [done|]. done.
Qed.

Lemma rows_from_square n (p1 p2 child : board) :
  square n p1 -> square n p2 -> rows_from n p1 p2 child -> square n child.
Proof.
  intros [H1 Hr1] [H2 Hr2] [Hlen Hrows]. split; [done|].
  rewrite Forall_forall in Hr1, Hr2. apply Forall_forall. intros row Hrow.
  apply list_elem_of_lookup in Hrow as [r Hr].
  assert (r < n) as Hlt by (rewrite <- Hlen; by eapply lookup_lt_Some).
  destruct (Hrows r Hlt) as [Heq|Heq]; rewrite Hr in Heq; symmetry in Heq.
  - apply Hr1. by eapply list_elem_of_lookup_2.
  - apply Hr2. by eapply list_elem_of_lookup_2.
Qed.

Lemma mutation_square self (b b' : board) :
  square (CulturalSolverImpl.N self) b -> mutation_of self b b' ->
  square (CulturalSolverImpl.N self) b'.
Proof.
  intros Hsq [->|(r & c1 & c2 & _ & _ & _ & row & v1 & v2 & Hrow & _ & _ & ->)];
    [done|].
  apply square_insert; [done|]. rewrite !length_insert.
  destruct Hsq as [_ Hall]. rewrite Forall_forall in Hall.
  apply Hall. by eapply list_elem_of_lookup_2.
Qed.

(** The fitness a child carries is computed from its board. *)
Lemma make_child_exact self bs elites pop :
  effect (fun _ => True) false
         (CulturalSolverImpl.make_child self bs elites pop) (exact self).
Proof.
  unfold CulturalSolverImpl.make_child.
  eapply effect_bind.
  { eapply (effect_any (bool_decide (elites <> []))). apply effect_choice. }
  intros p1 _.
  eapply effect_bind.
  { eapply (effect_any (bool_decide (_ <> []))). apply effect_choice. }
  intros p2 _.
  eapply effect_bind; [apply crossover_quiet|]. intros child _.
  eapply effect_bind; [apply effect_record_any|]. intros _ _.
  eapply effect_bind; [apply mutate_quiet|]. intros child' _.
  eapply effect_bind; [apply effect_record_any|]. intros _ _.
  destruct (CulturalSolverImpl.fitness self child') as [f|e] eqn:Hf.
  - eapply effect_bind; [by apply (effect_lift_Ok _ false _ f)|].
    intros ? ->. by apply effect_ret.
  - by apply effect_lift.
Qed.

(** On square parents, with a belief space of the solver's size, a child is
    always made, and it is square. *)
Lemma make_child_total self (bs : BeliefSpace.t) elites pop :
  tiles self -> mask_ok self -> 0 < CulturalSolverImpl.N self ->
  beliefs_ok bs -> BeliefSpace.N bs = CulturalSolverImpl.N self ->
  elites <> [] -> take (CulturalSolverImpl.pop_size self / 2) pop <> [] ->
  Forall (fun p => square (CulturalSolverImpl.N self) (ind_board p)) elites ->
  Forall (fun p => square (CulturalSolverImpl.N self) (ind_board p)) pop ->
  effect (fun _ => True) true
         (CulturalSolverImpl.make_child self bs elites pop)
         (fun p => square (CulturalSolverImpl.N self) (ind_board p)).
Proof.
  intros Ht Hmask HN [Hscores _] HbsN Hel Hhalf Hsqe Hsqp.
  unfold CulturalSolverImpl.make_child.
  rewrite Forall_forall in Hsqe, Hsqp.
  eapply effect_bind.
  { eapply effect_weaken; [apply (effect_choice (fun _ => True))|done|done|].
    intros _. by apply bool_decide_eq_true_2. }
  intros p1 Hp1. simpl in Hp1.
  eapply effect_bind.
  { eapply effect_weaken; [apply (effect_choice (fun _ => True))|done|done|].
    intros _. by apply bool_decide_eq_true_2. }
  intros p2 Hp2. simpl in Hp2.
  pose proof (Hsqe p1 Hp1) as Hs1.
  assert (Hs2 : square (CulturalSolverImpl.N self) (ind_board p2)).
  { apply Hsqp. exact (subseteq_take _ _ _ Hp2). }
  eapply effect_bind.
  { apply crossover_effect; [by destruct Hs1|by destruct Hs2]. }
  intros child Hchild.
  pose proof (rows_from_square _ _ _ _ Hs1 Hs2 Hchild) as Hsc.
  eapply effect_bind; [by apply effect_record|]. intros _ _.
  eapply effect_bind; [by apply mutate_effect|]. intros child' Hmut.
  pose proof (mutation_square self child child' Hsc Hmut) as Hsc'.
  eapply effect_bind; [by apply effect_record|]. intros _ _.
  destruct (fitness_total self child' Ht Hsc') as [f Hf].
  eapply effect_bind; [by apply (effect_lift_Ok _ true _ f)|].
  intros ? ->. by apply effect_ret.
Qed.

(** The loop that refills the population appends [turns] children, each
    with the fitness of its board. *)
Lemma grow_children self (t : bool) bs elites pop turns :
  (t = true -> 0 < turns ->
   effect (fun _ => True) true
          (CulturalSolverImpl.make_child self bs elites pop)
          (fun p => square (CulturalSolverImpl.N self) (ind_board p))) ->
  forall new_pop,
  effect (fun _ => True) t
         (CulturalSolverImpl.grow self bs elites pop turns new_pop)
         (fun l => exists children,
            l = new_pop ++ children /\ length children = turns /\
            Forall (exact self) children /\
            (t = true ->
             Forall (fun p => square (CulturalSolverImpl.N self) (ind_board p))
                    children)).
Proof.
  intros Htotal. induction turns as [|turns IH]; intros new_pop; simpl.
  - apply effect_ret. exists []. rewrite app_nil_r. by repeat split.
  - eapply effect_bind.
    { apply effect_both; [apply make_child_exact|].
      intros Ht. apply Htotal; [done|lia]. }
    intros child [Hex Hsq].
    eapply effect_weaken; [apply IH|done| |done].
    + intros Ht _. apply Htotal; [done|lia].
    + intros l (children & -> & Hlen & Hexs & Hsqs).
      exists (child :: children). rewrite <- app_assoc. simpl.
      split; [done|]. split; [by rewrite Hlen|]. split; [by constructor|].
      intros Ht. constructor; auto.
Qed.

(** ** The events of a run

    One pass through [solve_gen] for two results.  With [t = false] nothing
    is asked of the solver and the pass describes the events of every run;
    with [t = true] the solver is sane and no step raises. *)

Section Shape.

Variable self : CulturalSolverImpl.t.
Variable t : bool.
Hypothesis sane_t : t = true -> sane self.

Local Abbreviation N := (CulturalSolverImpl.N self).
Local Abbreviation maxn := (Z.to_nat (CulturalSolverImpl.max_iters self)).
Local Abbreviation quiet := (fun _ : board => True).

(** Where an exception may end the run. *)
Definition exc (w : world) : Prop := t = false /\ cut_short self (yielded w).

(** A predicate on the events so far that fits a run cut short. *)
Definition checkpoint (P : world -> Prop) : Prop :=
  (forall w w', yielded w' = yielded w -> P w -> P w') /\
  (forall w, P w -> cut_short self (yielded w)).

Lemma step_effect {A B} P (m : M A) (k : A -> M B) φ Q :
  checkpoint P -> effect quiet t m φ ->
  (forall a, φ a -> triple P (k a) Q exc) ->
  triple P (m ≫= k) Q exc.
Proof.
  intros [Hq Hc] Hm Hk w Hw.
  destruct (Hm w) as (r & w' & new & Hrun & Hy & _ & _ & Hr).
  unfold mbind, M_bind. rewrite Hrun.
  assert (P w') as Hw' by (by apply (Hq w)).
  destruct r as [a|e]; [by apply Hk|]. split; [done|by apply Hc].
Qed.

Lemma step_lift {A B} P (r : result A) (k : A -> M B) Q :
  checkpoint P -> (t = true -> is_ok r = true) ->
  (forall a, r = Ok a -> triple P (k a) Q exc) ->
  triple P (lift r ≫= k) Q exc.
Proof.
  intros [_ Hc] Hok Hk w Hw. unfold mbind, M_bind, lift.
  destruct r as [a|e]; [by apply Hk|].
  split; [|by apply Hc]. destruct t; [|done]. by specialize (Hok eq_refl).
Qed.

Lemma step_yield {B} (P P' : world -> Prop) e (k : unit -> M B) Q :
  (forall w, P w -> P' (emit w e)) ->
  triple P' (k tt) Q exc ->
  triple P (yield e ≫= k) Q exc.
Proof. intros He Hk w Hw. unfold mbind, M_bind, yield. by apply Hk, He. Qed.

(** The run is between two iterations, [k] of them done. *)
Definition at_iter (k : nat) (w : world) : Prop :=
  run_prefix self k (yielded w) /\ k <= maxn.

(** The run is inside iteration [k + 1], which has yielded [blk] so far. *)
Definition in_iter (k : nat) (blk : list event) (w : world) : Prop :=
  (exists pre, yielded w = pre ++ blk /\ run_prefix self k pre) /\
  S k <= maxn.

Lemma run_prefix_snoc k pre blk :
  run_prefix self k pre -> iter_block self (S k) blk ->
  run_prefix self (S k) (pre ++ blk).
Proof.
  intros (b0 & f0 & blocks & -> & Hf0 & Hlen & Hblocks) Hblk.
  exists b0, f0, (blocks ++ [blk]). split.
  { rewrite concat_app. simpl. by rewrite app_nil_r. }
  split; [done|]. split; [rewrite length_app; simpl; lia|].
  intros i blk' Hi. apply lookup_app_Some in Hi as [Hi|[Hge Hi]].
  - by apply Hblocks.
  - rewrite Hlen in Hge, Hi. destruct (i - k) as [|d] eqn:Hd; [|done].
    injection Hi as <-. by replace i with k by lia.
Qed.

Lemma at_iter_checkpoint k : checkpoint (at_iter k).
Proof.
  split.
  - intros w w' Hy [Hp Hk]. split; [by rewrite Hy|done].
  - intros w [Hp Hk]. right. by exists k.
Qed.

Lemma in_iter_checkpoint k blk :
  iter_block self (S k) blk -> checkpoint (in_iter k blk).
Proof.
  intros Hblk. split.
  - intros w w' Hy [(pre & Hpre & Hp) Hk]. split; [|done].
    exists pre. by rewrite Hy.
  - intros w [(pre & -> & Hp) Hk]. right. exists (S k).
    split; [by apply run_prefix_snoc|done].
Qed.

Lemma in_iter_at k blk w :
  iter_block self (S k) blk -> in_iter k blk w -> at_iter (S k) w.
Proof.
  intros Hblk [(pre & Hpre & Hp) Hk].
  split; [rewrite Hpre; by apply run_prefix_snoc|done].
Qed.

Lemma in_iter_emit k blk e w :
  in_iter k blk w -> in_iter k (blk ++ [e]) (emit w e).
Proof.
  intros [(pre & Hpre & Hp) Hk]. split; [|done].
  exists pre. simpl. by rewrite Hpre, <- app_assoc.
Qed.

Lemma at_iter_done k b w :
  1 <= k -> CulturalSolverImpl.fitness self b = Ok 0 -> at_iter k w ->
  complete self (yielded (emit w (Done b 0 (Z.of_nat k) []))).
Proof.
  intros Hk Hb [Hp Hle]. exists k, (yielded w), (Done b 0 (Z.of_nat k) []).
  split; [done|]. split; [done|]. split; [|done]. simpl. by repeat split.
Qed.

Lemma step_Ok {A B} (P : world -> Prop) (r : result A) a (k : A -> M B) Q :
  r = Ok a -> triple P (k a) Q exc -> triple P (lift r ≫= k) Q exc.
Proof. intros -> Hk w Hw. unfold mbind, M_bind, lift. by apply Hk. Qed.

Lemma step_record {B} (P : world -> Prop) b (k : unit -> M B) Q :
  (forall w w', yielded w' = yielded w -> P w -> P w') ->
  triple P (k tt) Q exc -> triple P (record_candidate b ≫= k) Q exc.
Proof.
  intros Hq Hk w Hw. unfold mbind, M_bind, record_candidate.
  apply Hk. by apply (Hq w).
Qed.

Lemma in_iter_quiet k blk w w' :
  yielded w' = yielded w -> in_iter k blk w -> in_iter k blk w'.
Proof.
  intros Hy [(pre & Hpre & Hp) Hk]. split; [|done]. exists pre.
  by rewrite Hy.
Qed.

(** What [polish] hands back to the loop: the population with its first
    individual possibly replaced by a strictly better one, and the best
    board, whose fitness the first individual has. *)
Definition polished_ok (pop : list individual) (curr_best : individual)
    (r : list individual * board * nat) : Prop :=
  let '(pop', best', f') := r in
  exists p0,
    item pop' 0 = Ok p0 /\ exact self p0 /\ ind_fit p0 = f' /\
    CulturalSolverImpl.fitness self best' = Ok f' /\
    (pop' = pop \/ pop' = <[0 := p0]> pop) /\
    (t = true -> square N (ind_board p0) /\ square N best').

Lemma polish_shape k pop curr_best bad_cells best :
  item pop 0 = Ok curr_best -> exact self curr_best ->
  CulturalSolverImpl.fitness self best = Ok (ind_fit curr_best) ->
  CulturalSolverImpl.get_conflicted_cells self (ind_board curr_best)
    = Ok bad_cells ->
  (t = true -> square N (ind_board curr_best) /\ square N best) ->
  triple
    (in_iter k [Iter (ind_board curr_best) (ind_fit curr_best)
                     (Z.of_nat (S k)) bad_cells])
    (CulturalSolverImpl.polish self (Z.of_nat (S k)) pop curr_best bad_cells
       best (ind_fit curr_best))
    (fun r w =>
       match r with
       | None => complete self (yielded w)
       | Some r => at_iter (S k) w /\ polished_ok pop curr_best r
       end)
    exc.
Proof.
  intros Hitem Hex Hbest Hbad Hsq.
  set (b := ind_board curr_best). set (f := ind_fit curr_best).
  set (it := Z.of_nat (S k)).
  assert (Hblk0 : iter_block self (S k) [Iter b f it bad_cells]).
  { exists b, f, bad_cells, []. split; [done|]. split; [done|].
    split; [done|]. by left. }
  assert (Hkeep : forall w,
    in_iter k [Iter b f it bad_cells] w ->
    at_iter (S k) w /\ polished_ok pop curr_best (pop, best, f)).
  { intros w Hw. split; [by eapply in_iter_at|].
    exists curr_best. split; [done|]. split; [done|]. split; [done|].
    split; [done|]. split; [by left|done]. }
  unfold CulturalSolverImpl.polish. rewrite clone_board_id. fold b f it.
  destruct (decide (0 < length bad_cells)) as [Hlen|]; [|by apply triple_ret].
  eapply step_effect; [by apply in_iter_checkpoint| |].
  { eapply effect_weaken; [apply (effect_choice quiet)|done|done|].
    intros _. apply bool_decide_eq_true_2. intros ->. simpl in Hlen. lia. }
  intros [r c1] Hrc. simpl in Hrc.
  assert (Hgrid : t = true -> in_grid N (r, c1) /\ mask_ok self /\ tiles self /\
                              square N b).
  { intros Ht. destruct (sane_t Ht) as (Hbuilt & Htiles & _).
    destruct (built_inv self Hbuilt) as (_ & _ & Hmask & _).
    destruct (Hsq Ht) as [Hsb _].
    destruct (conflicted_cells_open self b bad_cells (r, c1)); done. }
  eapply step_lift; [by apply in_iter_checkpoint| |].
  { intros Ht. destruct (Hgrid Ht) as ([Hr _] & Hmask & _). simpl in Hr.
    destruct (filterM_total
      (fun c => f0 ← cell (CulturalSolverImpl.fixed self) r c;
                Ok (negb f0 && bool_decide (c <> c1)))
      (range 0 N)) as [ys ->]; [|done].
    intros c Hc. apply elem_of_range in Hc.
    destruct (square_cell _ _ r c Hmask) as [f0 ->]; [lia..|].
    cbn [mbind result_bind]. eauto. }
  intros mutable_cols Hmc.
  destruct (decide (mutable_cols <> [])) as [Hne|]; [|by apply triple_ret].
  eapply step_effect; [by apply in_iter_checkpoint| |].
  { eapply effect_weaken; [apply (effect_choice quiet)|done|done|].
    intros _. by apply bool_decide_eq_true_2. }
  intros c2 Hc2. simpl in Hc2.
  destruct (filterM_elem _ _ _ _ Hmc Hc2) as [Hc2r Hc2f].
  apply elem_of_range in Hc2r.
  assert (Hc12 : c2 <> c1).
  { destruct (cell (CulturalSolverImpl.fixed self) r c2) as [f0|];
      [|discriminate]. cbn [mbind result_bind] in Hc2f.
    injection Hc2f as Hc2f. apply andb_true_iff in Hc2f as [_ Hd].
    by apply bool_decide_eq_true in Hd. }
  eapply step_lift; [by apply in_iter_checkpoint| |].
  { intros Ht. destruct (Hgrid Ht) as ([Hr _] & _ & _ & Hsb). simpl in Hr.
    destruct (square_cell _ b r c2 Hsb) as [v ->]; [lia..|done]. }
  intros v2 Hv2.
  eapply step_lift; [by apply in_iter_checkpoint| |].
  { intros Ht. destruct (Hgrid Ht) as ([Hr Hc1] & _ & _ & Hsb).
    simpl in Hr, Hc1.
    destruct (square_cell _ b r c1 Hsb) as [v ->]; [lia..|done]. }
  intros v1 Hv1.
  eapply step_yield; [intros w Hw; by apply in_iter_emit|].
  pose proof Hv1 as Hv1'. pose proof Hv2 as Hv2'.
  apply cell_Ok in Hv1' as (row & Hrow & Hc1v).
  apply cell_Ok in Hv2' as (row' & Hrow' & Hc2v).
  assert (row' = row) as -> by congruence.
  eapply step_Ok; [by apply (swap_cells_Ok b r c1 c2 row v1 v2)|].
  set (polished := <[r := <[c2 := v1]> (<[c1 := v2]> row)]> b).
  apply step_record; [intros w w'; apply in_iter_quiet|].
  eapply step_yield; [intros w Hw; by apply in_iter_emit|].
  cbn [app].
  assert (Hblk2 : iter_block self (S k)
            [Iter b f it bad_cells; SwapTry r c1 v2 c2 v1; SwapReset r c1 c2]).
  { exists b, f, bad_cells, [SwapTry r c1 v2 c2 v1; SwapReset r c1 c2].
    split; [done|]. split; [done|]. split; [done|]. right.
    exists r, c1, c2, v1, v2. split; [done|]. split; [done|].
    split; [by apply cell_value_at|]. split; [by apply cell_value_at|done]. }
  assert (Hsqp : t = true -> square N polished).
  { intros Ht. destruct (Hgrid Ht) as (_ & _ & _ & Hsb).
    apply square_insert; [done|]. rewrite !length_insert.
    destruct Hsb as [_ Hall]. rewrite Forall_forall in Hall.
    apply Hall. by eapply list_elem_of_lookup_2. }
  eapply step_lift; [by apply in_iter_checkpoint| |].
  { intros Ht. destruct (Hgrid Ht) as (_ & _ & Htiles & _).
    destruct (fitness_total self polished Htiles (Hsqp Ht)) as [nf ->]. done. }
  intros new_f Hnf.
  destruct (decide (new_f < f)) as [Hlt|].
  2:{ apply triple_ret. intros w Hw. split; [by eapply in_iter_at|].
      exists curr_best. split; [done|]. split; [done|]. split; [done|].
      split; [done|]. split; [by left|done]. }
  assert (Hpos : 0 < length pop).
  { apply item_Ok in Hitem. by eapply lookup_lt_Some. }
  eapply step_Ok; [by apply set_item_Ok|].
  rewrite clone_board_id.
  destruct (decide (new_f = 0)) as [->|Hnz].
  - eapply (step_yield _ (fun w => complete self (yielded w))).
    { intros w Hw. apply at_iter_done; [lia|done|by eapply in_iter_at]. }
    by apply triple_ret.
  - apply triple_ret. intros w Hw. split; [by eapply in_iter_at|].
    exists (Individual polished new_f).
    split; [apply item_Ok; by apply list_lookup_insert_eq|].
    split; [done|]. split; [done|]. split; [done|]. split; [by right|].
    intros Ht. split; by apply Hsqp.
Qed.

Lemma triple_pure {A} (P : world -> Prop) (φ : Prop) (m : M A) Q E :
  (φ -> triple P m Q E) -> triple (fun w => P w /\ φ) m Q E.
Proof. intros H w [Hw Hφ]. by apply H. Qed.

Lemma at_iter_open k e w :
  S k <= maxn -> at_iter k w -> in_iter k [e] (emit w e).
Proof. intros Hk [Hp _]. split; [|done]. by exists (yielded w). Qed.

Lemma num_elite_ge ne :
  CulturalSolverImpl.num_elite self = Ok ne -> 2 <= Z.to_nat ne.
Proof.
  unfold CulturalSolverImpl.num_elite.
  destruct (float_of_int _) as [n|]; [|discriminate].
  cbn [mbind result_bind].
  destruct (int_of_float _) as [k0|]; [|discriminate].
  cbn [mbind result_bind]. intros [= <-]. lia.
Qed.

(** What the loop keeps of its variables from one iteration to the next:
    the best board has the best fitness, and the individual [min] finds in
    the population carries the fitness of its board, which is not above the
    best fitness. *)
Definition loop_inv (st : CulturalSolverImpl.run_state) : Prop :=
  CulturalSolverImpl.fitness self (CulturalSolverImpl.cur_best st)
    = Ok (CulturalSolverImpl.cur_best_fit st) /\
  (exists m, min_by ind_fit (CulturalSolverImpl.cur_pop st) = Ok m /\
             exact self m /\
             ind_fit m <= CulturalSolverImpl.cur_best_fit st) /\
  (t = true ->
   Forall (fun p => square N (ind_board p)) (CulturalSolverImpl.cur_pop st) /\
   length (CulturalSolverImpl.cur_pop st) = CulturalSolverImpl.pop_size self /\
   square N (CulturalSolverImpl.cur_best st) /\
   BeliefSpace.N (CulturalSolverImpl.cur_beliefs st) = N).

Lemma locates_squares (bs : BeliefSpace.t) elites :
  tiles self -> mask_ok self -> BeliefSpace.N bs = N ->
  Forall (fun p => square N (ind_board p)) elites ->
  locates (BeliefSpace.N bs) (CulturalSolverImpl.get_conflicted_cells self)
          elites.
Proof.
  intros Ht Hmask HN Hsq e He. rewrite Forall_forall in Hsq.
  destruct (get_conflicted_cells_spec self (ind_board e) Ht Hmask (Hsq e He))
    as (cells & Hcells & _ & _).
  exists cells. split; [done|]. apply Forall_forall. intros rc Hrc. rewrite HN.
  by destruct (conflicted_cells_open self (ind_board e) cells rc Ht Hmask
                 (Hsq e He) Hcells Hrc).
Qed.

(** The refilled population: the first elite is the first individual of the
    polished population with its own fitness, every elite carries that
    fitness, and every child the fitness of its board. *)
Lemma refilled_min (p0 : individual) (rest children : list individual) :
  exact self p0 ->
  Forall (fun e => ind_fit e = ind_fit p0) rest ->
  Forall (exact self) children ->
  exists m,
    min_by ind_fit
      (Individual (SudokuLogic.clone_board (ind_board p0)) (ind_fit p0)
       :: rest ++ children) = Ok m /\
    exact self m /\ ind_fit m <= ind_fit p0.
Proof.
  intros Hex Hrest Hch.
  set (e0 := Individual (SudokuLogic.clone_board (ind_board p0)) (ind_fit p0)).
  assert (He0 : exact self e0).
  { unfold exact, e0. simpl. by rewrite clone_board_id. }
  destruct (min_by_total ind_fit (e0 :: rest ++ children)) as [m Hm]; [done|].
  exists m. split; [done|].
  pose proof (min_by_spec _ _ _ Hm) as [Hin Hmin].
  pose proof (fold_min_first ind_fit (rest ++ children) e0) as Hfirst.
  simpl in Hfirst, Hm. injection Hm as Hm. rewrite Hm in Hfirst.
  split.
  - destruct Hfirst as [->|Hlt]; [done|].
    apply elem_of_cons in Hin as [->|Hin]; [done|].
    apply elem_of_app in Hin as [Hin|Hin].
    + rewrite Forall_forall in Hrest. specialize (Hrest m Hin).
      simpl in Hlt. lia.
    + rewrite Forall_forall in Hch. by apply Hch.
  - destruct Hfirst as [->|Hlt]; simpl in *; lia.
Qed.

Lemma iteration_shape k st :
  S k <= maxn -> loop_inv st ->
  triple (at_iter k)
    (CulturalSolverImpl.iteration self (Z.of_nat (S k)) st)
    (fun r w =>
       match r with
       | None => complete self (yielded w)
       | Some st' => at_iter (S k) w /\ loop_inv st' /\
                     CulturalSolverImpl.cur_best_fit st' <> 0
       end)
    exc.
Proof.
  intros Hk (Hbest & (m & Hmin & Hmex & Hmle) & HT).
  unfold CulturalSolverImpl.iteration.
  (* sort, and the elites *)
  eapply step_lift; [apply at_iter_checkpoint| |].
  { intros Ht. destruct (sane_t Ht) as (_ & _ & _ & _ & Hne).
    unfold CulturalSolverImpl.select_elites.
    by destruct (CulturalSolverImpl.num_elite self). }
  intros [[pop kk] elites] Hsel.
  unfold CulturalSolverImpl.select_elites in Hsel.
  destruct (CulturalSolverImpl.num_elite self) as [ne|] eqn:Hne; [|done].
  cbn [mbind result_bind] in Hsel. injection Hsel as <- <- <-.
  set (pop := sort_by ind_fit (CulturalSolverImpl.cur_pop st)).
  pose proof (num_elite_ge ne Hne) as Hge.
  pose proof (sort_by_head ind_fit _ m Hmin) as Hhead. fold pop in Hhead.
  pose proof (sort_by_Permutation ind_fit (CulturalSolverImpl.cur_pop st))
    as Hperm. fold pop in Hperm.
  assert (HTpop : t = true ->
            Forall (fun p => square N (ind_board p)) pop /\
            length pop = CulturalSolverImpl.pop_size self).
  { intros Ht. destruct (HT Ht) as (Hsq & Hlen & _).
    split; [by rewrite Hperm|by rewrite Hperm]. }
  assert (Hsane : t = true -> tiles self /\ mask_ok self /\ 0 < N).
  { intros Ht. destruct (sane_t Ht) as (Hbuilt & Htiles & HN & _).
    by destruct (built_inv self Hbuilt) as (_ & _ & Hmask & _). }
  (* the cultural update *)
  eapply step_lift; [apply at_iter_checkpoint| |].
  { intros Ht. destruct (Hsane Ht) as (Htiles & Hmask & _).
    destruct (HT Ht) as (_ & _ & _ & HbsN).
    destruct (HTpop Ht) as [Hsq _].
    destruct (update_spec (CulturalSolverImpl.cur_beliefs st)
                (take (Z.to_nat ne) pop)
                (CulturalSolverImpl.get_conflicted_cells self))
      as (bs' & _ & -> & _); [| |done].
    - destruct pop as [|p pop']; [done|].
      destruct (Z.to_nat ne); [lia|done].
    - apply locates_squares; [done..|]. by apply Forall_take. }
  intros bs Hbs.
  assert (HTbs : t = true -> beliefs_ok bs /\ BeliefSpace.N bs = N).
  { intros Ht. destruct (Hsane Ht) as (Htiles & Hmask & _).
    destruct (HT Ht) as (_ & _ & _ & HbsN).
    destruct (HTpop Ht) as [Hsq _].
    destruct (update_spec (CulturalSolverImpl.cur_beliefs st)
                (take (Z.to_nat ne) pop)
                (CulturalSolverImpl.get_conflicted_cells self))
      as (bs' & _ & Hbs' & _ & HN' & Hok & _).
    - destruct pop as [|p pop']; [done|].
      destruct (Z.to_nat ne); [lia|done].
    - apply locates_squares; [done..|]. by apply Forall_take.
    - rewrite Hbs in Hbs'. injection Hbs' as <-. split; [done|congruence]. }
  (* the best of the population *)
  eapply step_Ok; [by apply item_Ok|].
  assert (HTm : t = true -> square N (ind_board m)).
  { intros Ht. destruct (HTpop Ht) as [Hsq _].
    rewrite Forall_forall in Hsq. apply Hsq.
    by eapply list_elem_of_lookup_2. }
  eapply step_lift; [apply at_iter_checkpoint| |].
  { intros Ht. destruct (Hsane Ht) as (Htiles & Hmask & _).
    destruct (get_conflicted_cells_spec self (ind_board m) Htiles Hmask
                (HTm Ht)) as (cells & -> & _). done. }
  intros bad_cells Hbad.
  rewrite !clone_board_id.
  set (choice := if decide (ind_fit m < CulturalSolverImpl.cur_best_fit st)
                 then (ind_fit m, ind_board m)
                 else (CulturalSolverImpl.cur_best_fit st,
                       CulturalSolverImpl.cur_best st)).
  assert (Hchoice : choice.1 = ind_fit m /\
            CulturalSolverImpl.fitness self choice.2 = Ok (ind_fit m) /\
            (t = true -> square N choice.2)).
  { unfold choice. destruct (decide _) as [Hlt|Hnlt]; simpl.
    - done.
    - assert (CulturalSolverImpl.cur_best_fit st = ind_fit m) as Heq by lia.
      split; [done|]. split; [by rewrite <- Heq|].
      intros Ht. by destruct (HT Ht) as (_ & _ & ? & _). }
  destruct choice as [best_fit best]. simpl in Hchoice.
  destruct Hchoice as [-> [Hbest' HTbest]].
  eapply step_yield; [intros w Hw; by apply at_iter_open|].
  eapply triple_bind.
  { apply (polish_shape k pop m bad_cells best); try done.
    - by apply item_Ok.
    - intros Ht. split; [by apply HTm|by apply HTbest]. }
  intros [[[pop' best''] f'']|]; [|by apply triple_ret].
  apply triple_pure.
  intros (p0 & Hp0 & Hp0ex & Hp0f & Hbest'' & Hpop' & HTp).
  (* genetic operations *)
  eapply step_Ok; [exact Hp0|]. cbv zeta.
  set (elites := (fun p => Individual (SudokuLogic.clone_board (ind_board p))
                                      (ind_fit p0))
                   <$> take (Z.to_nat ne) pop').
  assert (Hel : exists rest,
            elites = Individual (SudokuLogic.clone_board (ind_board p0))
                                (ind_fit p0) :: rest /\
            Forall (fun e => ind_fit e = ind_fit p0) rest).
  { unfold elites. apply item_Ok in Hp0.
    destruct pop' as [|q pop'']; [done|]. injection Hp0 as ->.
    destruct (Z.to_nat ne) as [|n]; [lia|]. simpl.
    eexists. split; [done|]. apply Forall_fmap, Forall_forall. done. }
  assert (HTpop' : t = true ->
            Forall (fun p => square N (ind_board p)) pop' /\
            length pop' = CulturalSolverImpl.pop_size self).
  { intros Ht. destruct (HTpop Ht) as [Hsq Hlen].
    destruct (HTp Ht) as [Hsp0 _].
    destruct Hpop' as [-> | ->]; [done|].
    split; [by apply Forall_insert|by rewrite length_insert]. }
  assert (HTel : t = true ->
            Forall (fun p => square N (ind_board p)) elites).
  { intros Ht. destruct (HTpop' Ht) as [Hsq _]. unfold elites.
    apply Forall_fmap. eapply Forall_impl; [by apply Forall_take|].
    intros p Hp. simpl. by rewrite clone_board_id. }
  eapply step_effect; [apply at_iter_checkpoint| |].
  { apply (effect_forM quiet t _ (fun _ _ => True)); [done|].
    intros done e rest [] _ _.
    eapply effect_weaken; [by apply (effect_record quiet t)|done..]. }
  intros _ _.
  eapply step_effect; [apply at_iter_checkpoint| |].
  { apply (grow_children self t bs elites pop'
             (CulturalSolverImpl.pop_size self - length elites)).
    intros Ht Hturns.
    destruct (Hsane Ht) as (Htiles & Hmask & HN).
    destruct (HTbs Ht) as [Hbok HbsN].
    destruct (HTpop' Ht) as [Hsq' Hlen'].
    destruct Hel as (rest & Hel & _).
    apply make_child_total;
      [done|done|done|done|done|by rewrite Hel| |by apply HTel|done].
    assert (Z.to_nat ne < CulturalSolverImpl.pop_size self) as Hlt.
    { unfold elites in Hturns.
      rewrite length_fmap, length_take, Hlen' in Hturns. lia. }
    assert (1 <= CulturalSolverImpl.pop_size self / 2) as Hhalf.
    { apply Nat.div_le_lower_bound; lia. }
    destruct pop' as [|q pop'']; [simpl in Hlen'; lia|].
    destruct (CulturalSolverImpl.pop_size self / 2); [lia|done]. }
  intros new_pop (children & -> & Hclen & Hcex & Hcsq).
  destruct (decide (f'' = 0)) as [->|Hnz].
  - eapply (step_yield _ (fun w => complete self (yielded w))).
    { intros w Hw. apply at_iter_done; [lia|done|done]. }
    by apply triple_ret.
  - apply triple_ret. intros w Hw. split; [done|]. split; [|done].
    split; [done|]. split.
    + destruct Hel as (rest & -> & Hrest). subst f''.
      by apply refilled_min.
    + intros Ht. cbn [CulturalSolverImpl.cur_pop CulturalSolverImpl.cur_best
                      CulturalSolverImpl.cur_beliefs].
      destruct (HTpop' Ht) as [Hsq' Hlen'].
      split; [apply Forall_app; split; [by apply HTel|by apply Hcsq]|].
      split.
      { rewrite length_app, Hclen.
        assert (length elites <= CulturalSolverImpl.pop_size self).
        { unfold elites. rewrite length_fmap, length_take. lia. }
        lia. }
      split; [by destruct (HTp Ht)|by destruct (HTbs Ht)].
Qed.

Lemma iterations_shape m : forall k st,
  k + m = maxn -> loop_inv st ->
  (k = 0 \/ CulturalSolverImpl.cur_best_fit st <> 0) ->
  triple (at_iter k)
    (CulturalSolverImpl.iterations self (Z.of_nat <$> seq (S k) m) st)
    (fun r w =>
       match r with
       | None => complete self (yielded w)
       | Some st' => at_iter maxn w /\ loop_inv st' /\
                     (maxn = 0 \/ CulturalSolverImpl.cur_best_fit st' <> 0)
       end)
    exc.
Proof.
  induction m as [|m IH]; intros k st Hk Hinv Hnz.
  - simpl. apply triple_ret. intros w Hw.
    replace maxn with k by lia. split; [done|]. split; [done|].
    destruct Hnz; [left; lia|by right].
  - cbn [seq fmap list_fmap CulturalSolverImpl.iterations].
    eapply triple_bind; [apply iteration_shape; [lia|done]|].
    intros [st'|]; [|by apply triple_ret].
    apply triple_pure. intros [Hinv' Hnz'].
    apply IH; [lia|done|by right].
Qed.

Lemma solve_gen_shape :
  triple (fun w => yielded w = []) (CulturalSolverImpl.solve_gen self)
         (fun _ w => complete self (yielded w)) exc.
Proof.
  assert (Hstart : checkpoint (fun w => yielded w = [])).
  { split; [intros w w' Hy Hw; congruence|]. intros w Hw. by left. }
  assert (Hfacts : t = true ->
            built self /\ tiles self /\
            0 < CulturalSolverImpl.pop_size self /\
            BeliefSpace.N (CulturalSolverImpl.belief_space self) = N).
  { intros Ht. destruct (sane_t Ht) as (Hbuilt & Htiles & _ & Hpop & _).
    destruct (built_inv self Hbuilt) as (_ & _ & _ & _ & _ & Hbs & _).
    split; [done|]. split; [done|]. split; [done|]. by rewrite Hbs. }
  unfold CulturalSolverImpl.solve_gen.
  eapply step_effect; [done| |].
  { apply effect_replicateM.
    apply (effect_both quiet t _ (fun _ => True) (fun b => square N b)).
    - apply random_ind_quiet.
    - intros Ht. destruct (Hfacts Ht) as (Hbuilt & _).
      eapply effect_weaken; [by apply random_ind_effect|done| |done].
      by intros b [Hb _]. }
  intros boards [Hlen Hboards].
  eapply step_lift; [done| |].
  { intros Ht. destruct (Hfacts Ht) as (_ & Htiles & _).
    destruct (mapM_total
      (fun p => f ← CulturalSolverImpl.fitness self p; Ok (Individual p f))
      boards) as [pop ->]; [|done].
    intros b Hb. rewrite Forall_forall in Hboards.
    destruct (Hboards b Hb) as [_ Hsq].
    destruct (fitness_total self b Htiles (Hsq Ht)) as [f ->].
    cbn [mbind result_bind]. eauto. }
  intros pop Hpop.
  assert (Hexact : Forall (exact self) pop).
  { apply Forall_forall. intros p Hp.
    destruct (mapM_Ok_elem _ _ _ _ Hpop Hp) as (b & _ & Hb).
    destruct (CulturalSolverImpl.fitness self b) as [f|] eqn:Hf;
      [|discriminate].
    cbn [mbind result_bind] in Hb. injection Hb as <-. exact Hf. }
  assert (HTpop : t = true ->
            Forall (fun p => square N (ind_board p)) pop /\
            length pop = CulturalSolverImpl.pop_size self).
  { intros Ht. split.
    - apply Forall_forall. intros p Hp.
      destruct (mapM_Ok_elem _ _ _ _ Hpop Hp) as (b & Hb & Hpb).
      rewrite Forall_forall in Hboards. destruct (Hboards b Hb) as [_ Hsq].
      destruct (CulturalSolverImpl.fitness self b) as [f|]; [|discriminate].
      cbn [mbind result_bind] in Hpb. injection Hpb as <-. by apply Hsq.
    - by rewrite (mapM_Ok_length _ _ _ Hpop). }
  eapply step_lift; [done| |].
  { intros Ht. destruct (Hfacts Ht) as (_ & _ & Hpos & _).
    destruct (HTpop Ht) as [_ Hl].
    destruct (min_by_total ind_fit pop) as [best ->]; [|done].
    intros ->. simpl in Hl. lia. }
  intros best Hbest. rewrite clone_board_id.
  pose proof (min_by_spec _ _ _ Hbest) as [Hin _].
  assert (Hbex : exact self best).
  { rewrite Forall_forall in Hexact. by apply Hexact. }
  eapply (step_yield _ (at_iter 0)).
  { intros w Hw. split; [|lia]. simpl. rewrite Hw. simpl.
    exists (ind_board best), (ind_fit best), []. by repeat split. }
  eapply triple_bind.
  { unfold range. replace (maxn + 1 - 1) with maxn by lia.
    apply (iterations_shape maxn 0); [done| |by left].
    split; [done|]. split; [by exists best|].
    intros Ht. destruct (HTpop Ht) as [Hsq Hl].
    destruct (Hfacts Ht) as (_ & _ & _ & HbsN).
    split; [done|]. split; [done|]. split; [|done].
    rewrite Forall_forall in Hsq. by apply Hsq. }
  intros [st|]; [|by apply triple_ret].
  apply triple_pure. intros [(Hbest' & _ & HT) Hnz].
  eapply step_lift; [apply at_iter_checkpoint| |].
  { intros Ht. destruct (sane_t Ht) as (Hbuilt & Htiles & _).
    destruct (built_inv self Hbuilt) as (_ & _ & Hmask & _).
    destruct (HT Ht) as (_ & _ & Hsb & _).
    destruct (get_conflicted_cells_spec self _ Htiles Hmask Hsb)
      as (cells & -> & _). done. }
  intros cells Hcells. apply triple_yield.
  intros w [Hp Hle].
  exists maxn, (yielded w), (Fail (CulturalSolverImpl.cur_best st)
                               (CulturalSolverImpl.cur_best_fit st)
                               (CulturalSolverImpl.max_iters self) cells).
  split; [done|]. split; [done|]. split; [|done]. simpl. by repeat split.
Qed.


End Shape.

(** ** What the pass gives *)

Lemma run_has_shape self tp : run_shape self (run self tp).1 (run self tp).2.
Proof.
  pose proof (solve_gen_shape self false ltac:(done) (start tp) eq_refl) as H.
  unfold run.
  destruct (CulturalSolverImpl.solve_gen self (start tp)) as [[[]|e] w];
    simpl in *; [done|]. by destruct H.
Qed.

Lemma sane_run_returns self tp : sane self -> (run self tp).1 = Ok tt.
Proof.
  intros Hsane.
  pose proof (solve_gen_shape self true (fun _ => Hsane) (start tp) eq_refl)
    as H.
  unfold run.
  destruct (CulturalSolverImpl.solve_gen self (start tp)) as [[[]|e] w];
    simpl in *; [done|]. by destruct H.
Qed.

Lemma iter_block_events self i blk e :
  iter_block self i blk -> e ∈ blk -> event_exact self e /\ ~ is_final e.
Proof.
  intros (b & f & cells & swaps & -> & Hf & Hc & Hswaps) He.
  apply elem_of_cons in He as [->|He]; [by split; [split|intros []]|].
  destruct Hswaps as [->|(r & c1 & c2 & v1 & v2 & _ & _ & _ & _ & ->)].
  - by apply elem_of_nil in He.
  - apply elem_of_cons in He as [->|He]; [by split; [|intros []]|].
    apply list_elem_of_singleton in He as ->. by split; [|intros []].
Qed.

Lemma run_prefix_events self k es e :
  run_prefix self k es -> e ∈ es -> event_exact self e /\ ~ is_final e.
Proof.
  intros (b0 & f0 & blocks & -> & Hf0 & _ & Hblocks) He.
  apply elem_of_cons in He as [->|He]; [by split; [|intros []]|].
  apply list_elem_of_In, in_concat in He as (blk & Hblk & He).
  apply list_elem_of_In, list_elem_of_lookup in Hblk as [i Hi].
  apply (iter_block_events self (S i) blk); [by apply Hblocks|].
  by apply list_elem_of_In.
Qed.

Lemma final_event_exact self k e :
  final_event self k e -> event_exact self e /\ is_final e.
Proof.
  destruct e as [| | | |b f it cells|b f it cells]; simpl; try done.
  - intros (Hf & -> & _). done.
  - intros (Hf & Hc & _). done.
Qed.

(** X25 (solve_gen): every [init], [iter], [done] and [fail] event of every
    run carries the fitness of the very board it carries, and an [iter] or
    [fail] event the conflicted cells of that board.  The fitness the elites
    inherit from the first individual, which is not the fitness of their
    boards, never reaches an event. *)
Theorem events_carry_exact_fitness self tp :
  Forall (event_exact self) (run self tp).2.
Proof.
  pose proof (run_has_shape self tp) as Hshape.
  apply Forall_forall. intros e He.
  destruct (run self tp) as [[[]|x] es]; simpl in *.
  - destruct Hshape as (k & pre & e' & -> & Hpre & Hfin & _).
    apply elem_of_app in He as [He|He].
    + by destruct (run_prefix_events self k pre e Hpre He).
    + apply list_elem_of_singleton in He as ->.
      by destruct (final_event_exact self k e' Hfin).
  - destruct Hshape as [->|(k & Hpre & _)]; [by apply elem_of_nil in He|].
    by destruct (run_prefix_events self k es e Hpre He).
Qed.

(** X26 (solve_gen): the order of the events.  A run that returns has
    yielded [init], then for each iteration 1, 2, ..., [k] an [iter] event
    with that number, followed by nothing or by one [swap_try] and the
    matching [swap_reset], and then exactly one last event: [done] with
    the number [k] of the iteration that found the board, or [fail] after
    [k = max_iters] iterations.  A run that raises has yielded nothing or
    such a sequence without the last event, with [k <= max_iters]. *)
Theorem events_follow_protocol self tp :
  match (run self tp).1 with
  | Ok _ =>
      exists k pre e,
        (run self tp).2 = pre ++ [e] /\ run_prefix self k pre /\
        final_event self k e /\
        k <= Z.to_nat (CulturalSolverImpl.max_iters self)
  | Raise _ =>
      (run self tp).2 = [] \/
      exists k, run_prefix self k (run self tp).2 /\
                k <= Z.to_nat (CulturalSolverImpl.max_iters self)
  end.
Proof. apply (run_has_shape self tp). Qed.

(** X27 (solve_gen): on a solver built from a square puzzle, with blocks
    that tile the grid, [N > 0], a population that is not empty and an
    elite count that can be computed, no run raises: every run returns,
    and its last event is [done] or [fail]. *)
Theorem sane_run_ends self tp :
  sane self ->
  (run self tp).1 = Ok tt /\
  exists pre e, (run self tp).2 = pre ++ [e] /\ is_final e /\
                Forall (fun e => ~ is_final e) pre.
Proof.
  intros Hsane. pose proof (sane_run_returns self tp Hsane) as Hok.
  pose proof (run_has_shape self tp) as Hshape. rewrite Hok in Hshape.
  split; [done|]. destruct Hshape as (k & pre & e & -> & Hpre & Hfin & _).
  exists pre, e. split; [done|].
  split; [by destruct (final_event_exact self k e Hfin)|].
  apply Forall_forall. intros e' He'.
  by destruct (run_prefix_events self k pre e' Hpre He').
Qed.

Lemma sane_run_ends_witness :
  (run sample_solver mixed_tape).1 = Ok tt /\
  exists pre e, (run sample_solver mixed_tape).2 = pre ++ [e] /\ is_final e /\
                Forall (fun e => ~ is_final e) pre.
Proof.
  apply (sane_run_ends sample_solver mixed_tape).
  split; [split; [vm_compute; reflexivity
                 |split; [reflexivity|repeat constructor]]|].
  split; [unfold tiles; simpl; lia|].
  split; [simpl; lia|]. split; [simpl; lia|]. vm_compute. reflexivity.
Defined.

(** ** A [done] board solves the puzzle *)

Lemma event_boards_row_complete self tp :
  built self -> tiles self -> well_clued self ->
  Forall (row_complete self) (omap event_board (run self tp).2).
Proof.
  intros Hb Ht Hwc.
  destruct (built_inv self Hb) as (HN & Hpsq & Hmask & _).
  pose proof (solve_gen_triple self (row_complete self) (row_complete self)
                (fun _ => boards_ok (row_complete self))) as H.
  specialize (H ltac:(done) ltac:(intros; apply boards_ok_stable)
                ltac:(done)).
  do 6 specialize (H ltac:(intros; by apply boards_ok_emit)).
  assert (effect (row_complete self) false
            (CulturalSolverImpl.random_ind self) (row_complete self)) as Hind.
  { eapply effect_weaken; [apply (random_ind_effect self Hb)| | |done].
    - intros b [_ Hrc]. by apply Hrc.
    - intros b [_ Hrc]. by apply Hrc. }
  specialize (H Hind).
  specialize (H ltac:(intros; by apply crossover_row_complete)).
  specialize (H ltac:(intros; by apply mutate_row_complete)).
  assert (forall (b : board) cells r c1 c2 b',
    row_complete self b ->
    CulturalSolverImpl.get_conflicted_cells self b = Ok cells ->
    (r, c1) ∈ cells ->
    cell (CulturalSolverImpl.fixed self) r c2 = Ok false ->
    CulturalSolverImpl.swap_cells b r c1 c2 = Ok b' ->
    row_complete self b') as Hpol.
  { intros b cells r c1 c2 b' Hrc Hcells Hin Hc2 Hsw.
    destruct (conflicted_cells_open self b cells (r, c1) Ht Hmask
                (row_complete_square self b Hrc) Hcells Hin) as [_ Hopen].
    apply (swap_cells_row_complete self b b' r c1 c2);
      [done|done|done|by apply cell_false_open|done]. }
  specialize (H Hpol (start tp)).
  unfold run.
  destruct (CulturalSolverImpl.solve_gen self (start tp)) as [[[]|e] w];
    apply H; intros _; split; constructor.
Qed.

Lemma zero_fitness_no_repeat self (b : board) :
  tiles self -> row_complete self b ->
  CulturalSolverImpl.fitness self b = Ok 0 ->
  no_repeat (CulturalSolverImpl.N self) (CulturalSolverImpl.br_h self)
            (CulturalSolverImpl.bc_w self) b.
Proof.
  intros Ht Hrc Hfit p q Hp Hq Hne Hsee Heq.
  pose proof (row_complete_square_board self b Hrc) as Hsq.
  destruct Hsee as [Hrow|Hcb].
  - by apply (row_complete_rows_distinct self b p q).
  - assert (Hno : forall p q, ~ clash self b p q).
    { by apply no_clash_fitness_zero. }
    destruct (square_value_at _ b p Hsq Hp) as [v Hv].
    apply (Hno p q). split; [done|]. split; [done|]. split; [done|].
    split; [done|]. exists v. split; [done|congruence].
Qed.

Lemma row_complete_solution self (b : board) :
  built self -> tiles self -> row_complete self b ->
  CulturalSolverImpl.fitness self b = Ok 0 ->
  solution (CulturalSolverImpl.N self) (CulturalSolverImpl.puzzle self) b.
Proof.
  intros Hb Ht Hrc Hfit.
  destruct (built_inv self Hb) as (HN & Hpsq & Hmask & Hfix & _ & _ & Hdims).
  pose proof (row_complete_square_board self b Hrc) as Hsq.
  split; [done|]. split; [|split].
  - intros p v Hp Hv. unfold value_at in Hv.
    destruct (b !! p.1) as [row|] eqn:Hrow; [|done]. simpl in Hv.
    destruct Hrc as (_ & Hrows & _). rewrite Forall_forall in Hrows.
    rewrite <- (Hrows row) by (by eapply list_elem_of_lookup_2).
    by eapply list_elem_of_lookup_2.
  - rewrite <- Hdims. simpl. by apply zero_fitness_no_repeat.
  - intros p v Hp Hv Hv0.
    destruct Hrc as (_ & _ & Hclues). rewrite Forall_forall in Hclues.
    rewrite <- Hv. apply Hclues; [by apply elem_of_grid|].
    unfold is_fixed. rewrite (Hfix p v Hp Hv). by rewrite bool_decide_eq_true_2.
Qed.

Lemma done_is_last self tp b f it cells :
  Done b f it cells ∈ (run self tp).2 ->
  CulturalSolverImpl.fitness self b = Ok 0 /\
  last (run self tp).2 = Some (Done b f it cells) /\
  (run self tp).1 = Ok tt.
Proof.
  intros He. pose proof (run_has_shape self tp) as Hshape.
  destruct (run self tp) as [[[]|x] es]; simpl in *.
  - destruct Hshape as (k & pre & e' & -> & Hpre & Hfin & _).
    apply elem_of_app in He as [He|He].
    + destruct (run_prefix_events self k pre _ Hpre He) as [_ Hn].
      by destruct Hn.
    + apply list_elem_of_singleton in He as <-.
      split; [by destruct Hfin|]. by rewrite last_snoc.
  - destruct Hshape as [->|(k & Hpre & _)]; [by apply elem_of_nil in He|].
    destruct (run_prefix_events self k es _ Hpre He) as [_ Hn]. by destruct Hn.
Qed.

(** X28 (solve_gen): for a solver built from a square puzzle whose blocks
    tile the grid and whose rows hold pairwise distinct clues of [[1, N]],
    the board of a [done] event is a solution of the puzzle: a square grid
    of values of [[1, N]] that keeps every clue and repeats no value in any
    row, column or block.  The [done] event is the last event of its run,
    and the run returns. *)
Theorem done_board_is_solved self tp b f it cells :
  built self -> tiles self -> well_clued self ->
  Done b f it cells ∈ (run self tp).2 ->
  solution (CulturalSolverImpl.N self) (CulturalSolverImpl.puzzle self) b /\
  last (run self tp).2 = Some (Done b f it cells) /\
  (run self tp).1 = Ok tt.
Proof.
  intros Hb Ht Hwc He.
  destruct (done_is_last self tp b f it cells He) as (Hfit & Hlast & Hok).
  split; [|done]. apply row_complete_solution; [done|done| |done].
  pose proof (event_boards_row_complete self tp Hb Ht Hwc) as Hall.
  rewrite Forall_forall in Hall. apply Hall.
  apply list_elem_of_omap. by exists (Done b f it cells).
Qed.

Lemma done_board_is_solved_witness :
  solution (CulturalSolverImpl.N sample_solver)
           (CulturalSolverImpl.puzzle sample_solver) solved_board /\
  last (run sample_solver mixed_tape).2 = Some (Done solved_board 0 2 []) /\
  (run sample_solver mixed_tape).1 = Ok tt.
Proof.
  apply (done_board_is_solved sample_solver mixed_tape solved_board 0 2 []).
  - split; [vm_compute; reflexivity
           |split; [reflexivity|repeat constructor]].
  - unfold tiles. simpl. lia.
  - apply (bool_decide_unpack _). vm_compute. exact I.
  - apply (list_elem_of_lookup_2 _
             (pred (length (run sample_solver mixed_tape).2))).
    vm_compute. reflexivity.
Defined.

(** ** The cultural strategy *)

Lemma strategy_solver (b : board) :
  square (length b) b -> dims_tile (length b) -> 0 < length b ->
  exists self,
    CulturalStrategy.get_generator b
      = Ok (CulturalSolverImpl.solve_gen self) /\
    CulturalSolverImpl.puzzle self = b /\
    CulturalSolverImpl.N self = length b /\
    CulturalSolverImpl.pop_size self = 150 /\
    CulturalSolverImpl.max_iters self = CulturalStrategy.iters b /\
    sane self.
Proof.
  intros Hsq Ht Hpos. pose proof Hsq as [_ Hrows].
  pose proof (new_builds b 150 tenth (CulturalStrategy.iters b)) as Hnew.
  rewrite decide_True in Hnew.
  2:{ eapply Forall_impl; [exact Hrows|]. intros row Hrow. simpl in Hrow. lia. }
  eexists. split.
  { unfold CulturalStrategy.get_generator. cbv zeta. rewrite Hnew.
    reflexivity. }
  cbn [CulturalSolverImpl.puzzle CulturalSolverImpl.N
       CulturalSolverImpl.pop_size CulturalSolverImpl.max_iters].
  split; [done|]. split; [done|]. split; [done|]. split; [done|].
  split; [|split; [|split; [|split]]].
  - split; [exact Hnew|done].
  - exact Ht.
  - exact Hpos.
  - cbn [CulturalSolverImpl.pop_size]. lia.
  - vm_compute. reflexivity.
Qed.

Lemma strategy_run (b : board) self tp :
  CulturalStrategy.get_generator b = Ok (CulturalSolverImpl.solve_gen self) ->
  CulturalStrategy.run b tp = run self tp.
Proof. intros H. unfold CulturalStrategy.run. by rewrite H. Qed.

Lemma iters_positive (b : board) :
  Z.to_nat (CulturalStrategy.iters b) <> 0.
Proof. unfold CulturalStrategy.iters. case_decide; lia. Qed.

(** X29 (CulturalStrategy.get_generator): on a square puzzle of a size
    [N > 0] whose blocks tile the grid, whatever its clues, the call
    returns a generator and no run of that generator raises.  The run is
    one of the constructor's solver with 150 individuals and a budget of
    2000 iterations for [N > 6] and of 1000 otherwise: [init], the events
    of [k] iterations within the budget, and one last [done] or [fail]
    event. *)
Theorem cultural_strategy_returns (b : board) tp :
  square (length b) b -> dims_tile (length b) -> 0 < length b ->
  (CulturalStrategy.run b tp).1 = Ok tt /\
  exists self k pre e,
    CulturalStrategy.get_generator b
      = Ok (CulturalSolverImpl.solve_gen self) /\
    CulturalSolverImpl.pop_size self = 150 /\
    CulturalSolverImpl.max_iters self
      = (if decide (6 < length b) then 2000%Z else 1000%Z) /\
    (CulturalStrategy.run b tp).2 = pre ++ [e] /\
    run_prefix self k pre /\ final_event self k e /\
    k <= Z.to_nat (CulturalSolverImpl.max_iters self).
Proof.
  intros Hsq Ht Hpos.
  destruct (strategy_solver b Hsq Ht Hpos)
    as (self & Hgen & _ & _ & Hpop & Hmax & Hsane).
  rewrite (strategy_run b self tp Hgen).
  pose proof (sane_run_returns self tp Hsane) as Hok.
  pose proof (run_has_shape self tp) as Hshape. rewrite Hok in Hshape.
  split; [done|]. destruct Hshape as (k & pre & e & Hes & Hpre & Hfin & Hk).
  by exists self, k, pre, e.
Qed.

Lemma cultural_strategy_returns_witness :
  (CulturalStrategy.run clashing_puzzle mixed_tape).1 = Ok tt /\
  exists self k pre e,
    CulturalStrategy.get_generator clashing_puzzle
      = Ok (CulturalSolverImpl.solve_gen self) /\
    CulturalSolverImpl.pop_size self = 150 /\
    CulturalSolverImpl.max_iters self
      = (if decide (6 < length clashing_puzzle) then 2000%Z else 1000%Z) /\
    (CulturalStrategy.run clashing_puzzle mixed_tape).2 = pre ++ [e] /\
    run_prefix self k pre /\ final_event self k e /\
    k <= Z.to_nat (CulturalSolverImpl.max_iters self).
Proof.
  apply (cultural_strategy_returns clashing_puzzle mixed_tape).
  - split; [reflexivity|repeat constructor].
  - apply (bool_decide_unpack _). vm_compute. exact I.
  - simpl. lia.
Defined.

Lemma solution_fitness_zero self (b : board) :
  built self -> tiles self -> row_complete self b ->
  solution (CulturalSolverImpl.N self) (CulturalSolverImpl.puzzle self) b ->
  CulturalSolverImpl.fitness self b = Ok 0.
Proof.
  intros Hb Ht Hrc (Hsq & _ & Hvalid & _).
  destruct (built_inv self Hb) as (_ & _ & _ & _ & _ & _ & Hdims).
  rewrite <- Hdims in Hvalid. simpl in Hvalid.
  apply no_clash_fitness_zero; [done..|].
  intros p q (Hne & Hp & Hq & Hsee & v & Hvp & Hvq).
  apply (Hvalid p q Hp Hq Hne); [by right|congruence].
Qed.

(** X30 (generate_puzzle, CulturalStrategy.get_generator, solve_gen): for
    the sizes 4, 6 and 9, the cultural strategy never raises on a puzzle
    [generate_puzzle] returns, and the last event of its run tells the
    truth.  A [done] event carries a solution of the puzzle.  A [fail]
    event comes after the whole budget of 1000 iterations (2000 for size
    9), with a fitness that is not 0 and a board that is not a solution.
    No [done] or [fail] event comes before the last event. *)
Theorem cultural_strategy_on_generated_puzzles N difficulty k w tp :
  N ∈ [4; 6; 9] -> Generator.remove_count N difficulty = Ok k ->
  exists puzzle w' pre e,
    Generator.generate_puzzle N difficulty w = (Ok (Some puzzle), w') /\
    (CulturalStrategy.run puzzle tp).1 = Ok tt /\
    (CulturalStrategy.run puzzle tp).2 = pre ++ [e] /\
    Forall (fun e => ~ is_final e) pre /\
    honest_end N puzzle e.
Proof.
  intros HN Hk. destruct (offered_sizes N HN) as [Ht Hgrid].
  destruct (generate_puzzle_spec N difficulty k w Ht Hk)
    as (puzzle & w' & board & Hrun & Hwork & Hcons & _).
  pose proof Hwork as (Hsq & _). pose proof Hsq as [Hlen _].
  assert (HNpos : 0 < N).
  { repeat (apply elem_of_cons in HN as [->|HN]; [lia|]).
    by apply elem_of_nil in HN. }
  rewrite <- Hlen in Hsq, Ht, HNpos.
  destruct (strategy_solver puzzle Hsq Ht HNpos)
    as (self & Hgen & Hp & HNs & _ & Hmax & Hsane).
  rewrite Hlen in HNs.
  pose proof Hsane as (Hbuilt & Htiles & _).
  assert (Hwc : well_clued self).
  { unfold well_clued. rewrite Hp, HNs.
    by apply consistent_rows_well_clued. }
  pose proof (sane_run_returns self tp Hsane) as Hok.
  pose proof (run_has_shape self tp) as Hshape. rewrite Hok in Hshape.
  pose proof (event_boards_row_complete self tp Hbuilt Htiles Hwc) as Hall.
  destruct Hshape as (j & pre & e & Hes & Hpre & Hfin & Hj).
  exists puzzle, w', pre, e. rewrite (strategy_run puzzle self tp Hgen).
  split; [done|]. split; [done|]. split; [done|]. split.
  { apply Forall_forall. intros e' He'.
    by destruct (run_prefix_events self j pre e' Hpre He'). }
  rewrite Hes, omap_app, Forall_app in Hall. destruct Hall as [_ Hlast].
  destruct e as [| | | |b f it cells|b f it cells]; simpl in Hfin; try done.
  - destruct Hfin as (Hfit & _). simpl in Hlast.
    apply Forall_cons in Hlast as [Hrc _]. simpl.
    rewrite <- HNs, <- Hp. by apply row_complete_solution.
  - destruct Hfin as (Hfit & _ & Hit & Hjk & Hf). simpl in Hlast.
    apply Forall_cons in Hlast as [Hrc _]. simpl.
    assert (Hf0 : f <> 0).
    { destruct Hf as [->|Hf]; [|done]. rewrite Hmax in Hjk.
      by destruct (iters_positive puzzle). }
    split; [done|]. split; [by rewrite Hit, Hmax|].
    intros Hsol. rewrite <- HNs in Hsol. rewrite <- Hp in Hsol at 1.
    pose proof (solution_fitness_zero self b Hbuilt Htiles Hrc Hsol) as H0.
    rewrite Hfit in H0. by injection H0.
Qed.

Lemma cultural_strategy_on_generated_puzzles_witness :
  exists puzzle w' pre e,
    Generator.generate_puzzle 4 half (start mixed_tape)
      = (Ok (Some puzzle), w') /\
    (CulturalStrategy.run puzzle mixed_tape).1 = Ok tt /\
    (CulturalStrategy.run puzzle mixed_tape).2 = pre ++ [e] /\
    Forall (fun e => ~ is_final e) pre /\
    honest_end 4 puzzle e.
Proof.
  apply (cultural_strategy_on_generated_puzzles 4 half 8 (start mixed_tape)
           mixed_tape).
  - apply (bool_decide_unpack _). vm_compute. exact I.
  - vm_compute. reflexivity.
Defined.
